(** * Sitemap visualizer: URL tree, collapsing, expansion and capture

    A shallow embedding of the core of the extension:
    - [collapseTree], [performExpand], [findNodeByPath],
      [attachScreenshotsToNodes], [handleExpandClick] (report/report.js);
    - [buildUrlTree], [selectRepresentativeUrls], [attachScreenshotsToTree],
      [captureScreenshotsDebugger], [captureMoreScreenshots], and further
      down [crawlFromHomepage], [captureScreenshots], [startAnalysis],
      [fetchSitemap] and [parseSitemap] (service worker).

    JavaScript objects are modelled twice.  The value level ([node]) reads a
    tree-shaped object graph as an inductive tree; a function that mutates
    its argument in place and returns it is then the function from the state
    of the object before the call to its state after the call.  The store
    level ([Store]) keeps object identity: objects live at addresses in a
    heap, fields hold addresses, and mutation is a heap update.  The two are
    related by [Store.reify] / [Store.alloc]. *)

From stdpp Require Import gmap strings list pretty sorting.
From Stdlib Require Import ZArith Lia Ascii.

Open Scope Z_scope.

(** ** JavaScript helpers *)

(** [Array.prototype.slice(start, end)]: negative indices count from the
    end, everything is clamped to [0, length]. *)
Definition js_index (len i : Z) : Z :=
  if i <? 0 then Z.max (len + i) 0 else Z.min i len.

Definition js_slice {A} (l : list A) (s e : Z) : list A :=
  let len := Z.of_nat (length l) in
  let s' := js_index len s in
  let e' := js_index len e in
  take (Z.to_nat (e' - s')) (drop (Z.to_nat s') l).

(** [slice(start)] *)
Definition js_slice_from {A} (l : list A) (s : Z) : list A :=
  js_slice l s (Z.of_nat (length l)).

(** Truthiness of a value that is [null] or a string. *)
Definition truthy (v : option string) : bool :=
  match v with
  | Some s => negb (String.eqb s "")
  | None => false
  end.

(** ** Tree nodes (value level)

    One record for TreeNode and for the display-only ellipsis node: the
    ellipsis fields are absent ([false], [[]], [None]) on a TreeNode. *)

#[local] Unset Elimination Schemes.
Inductive node : Type :=
  Node {
    name : string;
    url : option string;
    path : string;
    children : list node;
    screenshot : option string;
    isEllipsis : bool;
    hiddenChildren : list node;
    parentPath : option string;
    expandBatchSize : option Z }.
#[local] Set Elimination Schemes.

Section node_induction.
Variable P : node → Prop.
Hypothesis Hnode : ∀ nm u p cs sc e hc pp bs,
  Forall P cs → Forall P hc → P (Node nm u p cs sc e hc pp bs).

Fixpoint node_ind (n : node) : P n :=
  match n with
  | Node nm u p cs sc e hc pp bs =>
      Hnode nm u p cs sc e hc pp bs
        ((fix go (l : list node) : Forall P l :=
            match l with
            | [] => Forall_nil_2 P
            | x :: l' => Forall_cons_2 P x l' (node_ind x) (go l')
            end) cs)
        ((fix go (l : list node) : Forall P l :=
            match l with
            | [] => Forall_nil_2 P
            | x :: l' => Forall_cons_2 P x l' (node_ind x) (go l')
            end) hc)
  end.
End node_induction.

Definition set_children (n : node) (cs : list node) : node :=
  Node (name n) (url n) (path n) cs (screenshot n)
       (isEllipsis n) (hiddenChildren n) (parentPath n) (expandBatchSize n).

Definition set_screenshot (n : node) (sc : option string) : node :=
  Node (name n) (url n) (path n) (children n) sc
       (isEllipsis n) (hiddenChildren n) (parentPath n) (expandBatchSize n).

(** A TreeNode as the Tree Builder makes it. *)
Definition treeNode (nm : string) (u : option string) (p : string)
    (cs : list node) : node :=
  Node nm u p cs None false [] None None.

(** The nodes of a tree, in pre-order, following [children] only (what
    [d3.hierarchy] and [findNodeByPath] visit). *)
Fixpoint subnodes (n : node) : list node :=
  n :: (children n ≫= subnodes).

(** No node reachable through [children] is an ellipsis node. *)
Fixpoint plainb (n : node) : bool :=
  negb (isEllipsis n) && forallb plainb (children n).

(** ** Tree Collapser (report.js, collapseTree) *)

(** The object literal pushed by [collapseTree] and [performExpand]. *)
Definition mkEllipsis (ownerPath : string) (hidden : list node) : node :=
  {| name := "... +" +:+ pretty (length hidden) +:+ " more";
     path := ownerPath +:+ "_more/";
     url := None;
     children := [];
     screenshot := None;
     isEllipsis := true;
     hiddenChildren := hidden;
     parentPath := Some ownerPath;
     expandBatchSize := Some 5 |}.

Fixpoint collapseTree (maxChildren : Z) (n : node) : node :=
  match children n with
  | [] => n
  | _ =>
      let cs := collapseTree maxChildren <$> children n in
      if Z.of_nat (length cs) >? maxChildren then
        let visibleCount := maxChildren - 1 in
        let visibleChildren := js_slice cs 0 visibleCount in
        let hidden := js_slice_from cs visibleCount in
        set_children n (visibleChildren ++ [mkEllipsis (path n) hidden])
      else set_children n cs
  end.

(** ** Attaching screenshots *)

(** A [Map] (service worker) or a plain object used as a map (report page)
    from url to image; a value may be [null].  Keys are absolute URLs, so no
    key names a property of [Object.prototype]. *)
Abbreviation smap := (gmap string (option string)).

(** Service worker: [node.url && screenshotMap.has(node.url)]. *)
Fixpoint attachScreenshotsToTree (m : smap) (n : node) : node :=
  let sc :=
    match url n with
    | Some u =>
        if truthy (Some u) then
          match m !! u with
          | Some v => v
          | None => screenshot n
          end
        else screenshot n
    | None => screenshot n
    end in
  Node (name n) (url n) (path n) (attachScreenshotsToTree m <$> children n)
       sc (isEllipsis n) (hiddenChildren n) (parentPath n) (expandBatchSize n).

(** Report page: [node.url && screenshotMap[node.url]]. *)
Fixpoint attachScreenshotsToNode (m : smap) (n : node) : node :=
  let sc :=
    match url n with
    | Some u =>
        if truthy (Some u) then
          match m !! u with
          | Some v => if truthy v then v else screenshot n
          | None => screenshot n
          end
        else screenshot n
    | None => screenshot n
    end in
  Node (name n) (url n) (path n) (attachScreenshotsToNode m <$> children n)
       sc (isEllipsis n) (hiddenChildren n) (parentPath n) (expandBatchSize n).

Definition attachScreenshotsToNodes (nodes : list node) (m : smap) : list node :=
  attachScreenshotsToNode m <$> nodes.

(** Erase the screenshot of every node reachable through [children]. *)
Fixpoint strip (n : node) : node :=
  Node (name n) (url n) (path n) (strip <$> children n)
       None (isEllipsis n) (hiddenChildren n) (parentPath n) (expandBatchSize n).

(** ** Facts about the helpers *)

Lemma js_index_nonneg (len i : Z) : 0 ≤ i → js_index len i = Z.min i len.
Proof. unfold js_index. intros. by destruct (Z.ltb_spec i 0); [lia|]. Qed.

Lemma js_slice_prefix {A} (l : list A) (n : nat) :
  js_slice l 0 (Z.of_nat n) = take n l.
Proof.
  unfold js_slice. rewrite !js_index_nonneg by lia.
  rewrite (Z.min_l 0) by lia. rewrite Z.sub_0_r. cbn [Z.to_nat]. rewrite drop_0.
  destruct (Z.min_spec (Z.of_nat n) (Z.of_nat (length l))) as [[? ->]|[? ->]].
  - by rewrite Nat2Z.id.
  - rewrite Nat2Z.id, firstn_all. symmetry. apply firstn_all2. lia.
Qed.

Lemma js_slice_suffix {A} (l : list A) (n : nat) :
  js_slice_from l (Z.of_nat n) = drop n l.
Proof.
  unfold js_slice_from, js_slice. rewrite !js_index_nonneg by lia.
  rewrite Z.min_id.
  destruct (Z.min_spec (Z.of_nat n) (Z.of_nat (length l))) as [[? ->]|[? ->]].
  - rewrite Nat2Z.id. apply firstn_all2. rewrite length_drop. lia.
  - rewrite Nat2Z.id, Z.sub_diag. cbn [Z.to_nat take].
    symmetry. apply skipn_all2. lia.
Qed.

(** [collapseTree] with the threshold the report page uses, unfolded once. *)
Lemma collapseTree_5_eq (n : node) :
  collapseTree 5 n =
    let cs := collapseTree 5 <$> children n in
    if decide (5 < length cs)%nat
    then set_children n (take 4 cs ++ [mkEllipsis (path n) (drop 4 cs)])
    else set_children n cs.
Proof.
  destruct n as [nm u p cs sc e hc pp bs]. cbn [collapseTree children].
  destruct cs as [|c cs]; [done|].
  set (cs' := collapseTree 5 <$> c :: cs). cbn zeta.
  destruct (decide (5 < length cs')%nat) as [H|H].
  - replace (Z.of_nat (length cs') >? 5) with true
      by (symmetry; rewrite Z.gtb_ltb; apply Z.ltb_lt; lia).
    change (5 - 1) with (Z.of_nat 4).
    by rewrite js_slice_prefix, js_slice_suffix.
  - by replace (Z.of_nat (length cs') >? 5) with false
      by (symmetry; rewrite Z.gtb_ltb; apply Z.ltb_ge; lia).
Qed.

Lemma collapseTree_children_5 (n : node) :
  children (collapseTree 5 n) =
    let cs := collapseTree 5 <$> children n in
    if decide (5 < length cs)%nat
    then take 4 cs ++ [mkEllipsis (path n) (drop 4 cs)]
    else cs.
Proof. rewrite collapseTree_5_eq. cbn zeta. by case_decide. Qed.

Lemma collapseTree_fields (mc : Z) (n : node) :
  name (collapseTree mc n) = name n ∧ url (collapseTree mc n) = url n ∧
  path (collapseTree mc n) = path n ∧
  screenshot (collapseTree mc n) = screenshot n ∧
  isEllipsis (collapseTree mc n) = isEllipsis n ∧
  hiddenChildren (collapseTree mc n) = hiddenChildren n ∧
  parentPath (collapseTree mc n) = parentPath n ∧
  expandBatchSize (collapseTree mc n) = expandBatchSize n.
Proof.
  destruct n as [nm u p cs sc e hc pp bs]. cbn [collapseTree children].
  destruct cs; [done|]. by case_match.
Qed.

Lemma plainb_children (n c : node) :
  plainb n = true → c ∈ children n → plainb c = true.
Proof.
  destruct n; cbn. intros [_ H]%andb_prop Hc.
  rewrite forallb_forall in H. apply H. by apply list_elem_of_In.
Qed.

Lemma plainb_not_ellipsis (n : node) : plainb n = true → isEllipsis n = false.
Proof. destruct n; cbn. intros [H _]%andb_prop. by apply negb_true_iff. Qed.

Lemma plainb_subnodes (t n : node) :
  plainb t = true → n ∈ subnodes t → plainb n = true.
Proof.
  revert n. induction t as [nm u p cs sc e hc pp bs IH _] using node_ind.
  intros n Ht. cbn [subnodes children].
  rewrite elem_of_cons. intros [->|Hin]; [done|].
  apply list_elem_of_bind in Hin as (c & Hn & Hc).
  rewrite Forall_forall in IH. apply (IH c Hc); [|done].
  by eapply plainb_children.
Qed.

(** ** Tree Collapser: fan-out *)

(** C2. In a tree of TreeNodes, collapsing with [maxChildren = 5] turns a
    node with [k > 5] children into one with the first 4 children, each
    collapsed and none an ellipsis node, followed by exactly one ellipsis
    node that hides the other [k - 4] collapsed children; a node with
    [k <= 5] children keeps its [k] children, collapsed, and gets no
    ellipsis node.  The node's own fields are kept. *)
Theorem collapseTree_fanout (t n : node) :
  plainb t = true → n ∈ subnodes t →
  let k := length (children n) in
  let r := collapseTree 5 n in
  name r = name n ∧ url r = url n ∧ path r = path n ∧
  ((5 < k)%nat →
     ∃ e, children r = (collapseTree 5 <$> take 4 (children n)) ++ [e] ∧
          length (collapseTree 5 <$> take 4 (children n)) = 4%nat ∧
          Forall (λ c, isEllipsis c = false)
                 (collapseTree 5 <$> take 4 (children n)) ∧
          isEllipsis e = true ∧
          hiddenChildren e = (collapseTree 5 <$> drop 4 (children n)) ∧
          length (hiddenChildren e) = (k - 4)%nat) ∧
  ((k ≤ 5)%nat →
     children r = (collapseTree 5 <$> children n) ∧
     length (children r) = k ∧
     Forall (λ c, isEllipsis c = false) (children r)).
Proof.
  intros Ht Hn k r. pose proof (plainb_subnodes _ _ Ht Hn) as Hp.
  assert (Hreal : ∀ l, l ⊆ children n →
            Forall (λ c, isEllipsis c = false) (collapseTree 5 <$> l)).
  { intros l Hl. apply Forall_fmap, Forall_forall. intros c Hc. cbn.
    destruct (collapseTree_fields 5 c) as (_ & _ & _ & _ & -> & _).
    apply plainb_not_ellipsis, (plainb_children _ _ Hp), Hl, Hc. }
  destruct (collapseTree_fields 5 n) as (Hnm & Hu & Hpa & _).
  subst r. rewrite collapseTree_children_5. cbn zeta. rewrite length_fmap.
  fold k. split_and!; try done.
  - intros Hk. case_decide; [|lia].
    eexists. rewrite !fmap_take, !fmap_drop. split; [done|].
    rewrite <- fmap_take, length_fmap, length_take.
    cbn [isEllipsis hiddenChildren mkEllipsis].
    rewrite length_drop, length_fmap. fold k. split_and!; try done; try lia.
    apply Hreal. apply subseteq_take.
  - intros Hk. case_decide; [lia|]. rewrite length_fmap.
    split_and!; try done. by apply Hreal.
Qed.

Definition sample_leaf (s : string) : node :=
  treeNode s (Some ("https://example.com/" +:+ s)) ("/" +:+ s +:+ "/") [].

(** A root with six pages below it. *)
Definition sample_six : node :=
  treeNode "example.com" (Some "https://example.com") "/"
    (sample_leaf <$> ["a"; "b"; "c"; "d"; "e"; "f"]).

Lemma collapseTree_fanout_witness :
  plainb sample_six = true ∧ sample_six ∈ subnodes sample_six ∧
  ∃ e, children (collapseTree 5 sample_six) =
         (collapseTree 5 <$> take 4 (children sample_six)) ++ [e] ∧
       isEllipsis e = true ∧ length (hiddenChildren e) = 2%nat.
Proof.
  split; [reflexivity|]. split; [apply list_elem_of_here|].
  destruct (collapseTree_fanout sample_six sample_six eq_refl
              (list_elem_of_here _ _)) as (_ & _ & _ & H & _).
  destruct H as (e & He & _ & _ & Hell & _ & Hlen); [cbn; lia|].
  exists e. split; [exact He|]. split; [exact Hell|]. exact Hlen.
Defined.

(** ** Tree Collapser: idempotence *)

Lemma set_children_id (n : node) : set_children n (children n) = n.
Proof. by destruct n. Qed.

Lemma fmap_fixed {A} (f : A → A) (l : list A) :
  Forall (λ x, f x = x) l → f <$> l = l.
Proof. induction 1; cbn; congruence. Qed.

Lemma collapseTree_leaf (mc : Z) (n : node) :
  children n = [] → collapseTree mc n = n.
Proof. destruct n; cbn. by intros ->. Qed.

(** A node whose children are fixed by [collapseTree 5] and number at most
    five is fixed too. *)
Lemma collapseTree_5_fixed (n : node) :
  Forall (λ c, collapseTree 5 c = c) (children n) →
  (length (children n) ≤ 5)%nat → collapseTree 5 n = n.
Proof.
  intros Hcs Hlen. rewrite collapseTree_5_eq. cbn zeta.
  rewrite (fmap_fixed _ _ Hcs). case_decide; [lia|]. apply set_children_id.
Qed.

(** C9. Collapsing with [maxChildren = 5] is idempotent: a collapsed tree
    is returned unchanged by a second collapse. *)
Theorem collapseTree_idempotent (t : node) :
  collapseTree 5 (collapseTree 5 t) = collapseTree 5 t.
Proof.
  induction t as [nm u p cs sc e hc pp bs IH _] using node_ind.
  apply collapseTree_5_fixed; rewrite collapseTree_children_5;
    cbn [children]; cbn zeta.
  - case_decide.
    + apply Forall_app. split.
      * apply Forall_take, Forall_fmap. exact IH.
      * apply Forall_singleton. by apply collapseTree_leaf.
    + apply Forall_fmap. exact IH.
  - case_decide; [|lia].
    rewrite length_app, length_take. cbn [length]. lia.
Qed.

(** ** Attaching screenshots: frame *)

(** What attaching the map [m] may do to one node: [a] before, [b] after. *)
Definition screenshot_frame (m : smap) (a b : node) : Prop :=
  ((∀ u, url a = Some u → m !! u = None) → screenshot b = screenshot a) ∧
  (screenshot b ≠ screenshot a →
     ∃ u, url a = Some u ∧ m !! u = Some (screenshot b)).

Lemma Forall2_bind_fmap {A B} (R : B → B → Prop) (g : A → list B) (f : A → A)
    (l : list A) :
  Forall (λ x, Forall2 R (g x) (g (f x))) l →
  Forall2 R (l ≫= g) ((f <$> l) ≫= g).
Proof.
  induction 1 as [|x l Hx _ IH]; cbn; [constructor|].
  by apply Forall2_app.
Qed.

Lemma attachScreenshotsToTree_strip (m : smap) (t : node) :
  strip (attachScreenshotsToTree m t) = strip t.
Proof.
  induction t as [nm u p cs sc e hc pp bs IH _] using node_ind.
  cbn. f_equal. rewrite <- list_fmap_compose.
  apply Forall_fmap_ext_1. exact IH.
Qed.

Lemma attachScreenshotsToNode_strip (m : smap) (t : node) :
  strip (attachScreenshotsToNode m t) = strip t.
Proof.
  induction t as [nm u p cs sc e hc pp bs IH _] using node_ind.
  cbn. f_equal. rewrite <- list_fmap_compose.
  apply Forall_fmap_ext_1. exact IH.
Qed.

Lemma attachScreenshotsToTree_frame (m : smap) (t : node) :
  Forall2 (screenshot_frame m) (subnodes t)
          (subnodes (attachScreenshotsToTree m t)).
Proof.
  induction t as [nm u p cs sc e hc pp bs IH _] using node_ind.
  cbn [subnodes attachScreenshotsToTree children url screenshot].
  constructor; [|by apply Forall2_bind_fmap].
  unfold screenshot_frame. cbn [url screenshot].
  destruct u as [u|]; [|by split].
  destruct (truthy (Some u)); [|by split].
  destruct (m !! u) as [v|] eqn:Hv; [|by split].
  split; [intros H; specialize (H u eq_refl); congruence|eauto].
Qed.

Lemma attachScreenshotsToNode_frame (m : smap) (t : node) :
  Forall2 (screenshot_frame m) (subnodes t)
          (subnodes (attachScreenshotsToNode m t)).
Proof.
  induction t as [nm u p cs sc e hc pp bs IH _] using node_ind.
  cbn [subnodes attachScreenshotsToNode children url screenshot].
  constructor; [|by apply Forall2_bind_fmap].
  unfold screenshot_frame. cbn [url screenshot].
  destruct u as [u|]; [|by split].
  destruct (truthy (Some u)); [|by split].
  destruct (m !! u) as [v|] eqn:Hv; [|by split].
  destruct (truthy v); [|by split].
  split; [intros H; specialize (H u eq_refl); congruence|eauto].
Qed.

(** C10. Attaching a screenshot map, in the service worker
    ([attachScreenshotsToTree]) and on the report page
    ([attachScreenshotsToNodes]), changes nothing but screenshot fields:
    with the screenshots erased the trees before and after are equal (names,
    urls, paths, children, in order).  Node by node, a node whose url is not
    a key of the map keeps its screenshot, and a node whose screenshot
    changed has its url in the map and now holds the map's value. *)
Theorem attachScreenshots_frame (m : smap) (t : node) (ns : list node) :
  strip (attachScreenshotsToTree m t) = strip t ∧
  Forall2 (screenshot_frame m) (subnodes t)
          (subnodes (attachScreenshotsToTree m t)) ∧
  (strip <$> attachScreenshotsToNodes ns m) = (strip <$> ns) ∧
  Forall2 (screenshot_frame m) (ns ≫= subnodes)
          (attachScreenshotsToNodes ns m ≫= subnodes).
Proof.
  split_and!.
  - apply attachScreenshotsToTree_strip.
  - apply attachScreenshotsToTree_frame.
  - unfold attachScreenshotsToNodes. rewrite <- list_fmap_compose.
    apply Forall_fmap_ext_1, Forall_forall. intros x _. apply attachScreenshotsToNode_strip.
  - apply Forall2_bind_fmap, Forall_forall. intros x _.
    apply attachScreenshotsToNode_frame.
Qed.

(** ** Expansion Controller (report.js), value level *)

(** [Array.prototype.findIndex]; [None] is [-1]. *)
Fixpoint findIndex {A} (p : A → bool) (l : list A) : option nat :=
  match l with
  | [] => None
  | x :: l' => if p x then Some 0%nat else S <$> findIndex p l'
  end.

(** [JSON.parse(JSON.stringify(node))]: on values, the same tree. *)
Definition json_copy (n : node) : node := n.

(** [findNodeByPath]: the first node in pre-order with the target path. *)
Fixpoint findNodeByPath (n : node) (targetPath : string) : option node :=
  if decide (path n = targetPath) then Some n
  else
    (fix go (l : list node) : option node :=
       match l with
       | [] => None
       | child :: l' =>
           match findNodeByPath child targetPath with
           | Some found => Some found
           | None => go l'
           end
       end) (children n).

(** The tree after the object that [findNodeByPath] returns has been
    mutated by [f]: the first node in pre-order with the target path is
    replaced by its new state, everything else is kept. *)
Fixpoint updateNodeByPath (f : node → node) (targetPath : string) (n : node)
    : node :=
  if decide (path n = targetPath) then f n
  else
    set_children n
      ((fix go (l : list node) : list node :=
          match l with
          | [] => []
          | child :: l' =>
              match findNodeByPath child targetPath with
              | Some _ => updateNodeByPath f targetPath child :: l'
              | None => child :: go l'
              end
          end) (children n)).

(** What [performExpand] does to the owner once it is found. *)
Definition expandParent (parentPath : string) (newNodes remainingNodes : list node)
    (screenshotMap : smap) (parentNode : node) : node :=
  let cs :=
    match findIndex isEllipsis (children parentNode) with
    | Some ellipsisIndex => delete ellipsisIndex (children parentNode)
    | None => children parentNode
    end in
  let newNodes := attachScreenshotsToNodes newNodes screenshotMap in
  let cs := cs ++ ((λ node, collapseTree 5 (json_copy node)) <$> newNodes) in
  let cs :=
    match remainingNodes with
    | [] => cs
    | _ => cs ++ [mkEllipsis parentPath remainingNodes]
    end in
  set_children parentNode cs.

(** [performExpand], as a function of [currentTreeData].  [ellipsis] is the
    datum of the clicked d3 node. *)
Definition performExpand (currentTreeData ellipsis : node)
    (newNodes remainingNodes : list node) (screenshotMap : smap) : node :=
  match parentPath ellipsis with
  | None => currentTreeData
  | Some pp =>
      match findNodeByPath currentTreeData pp with
      | None => currentTreeData
      | Some _ =>
          updateNodeByPath (expandParent pp newNodes remainingNodes screenshotMap)
            pp currentTreeData
      end
  end.

(** [ellipsisData.expandBatchSize || 5] *)
Definition batchSizeOf (ellipsis : node) : Z :=
  match expandBatchSize ellipsis with
  | Some b => if b =? 0 then 5 else b
  | None => 5
  end.

(** [collectUrlsForCapture]: the inner [collect] threads the shared [urls]
    array; [collectNode] is the body of its loop for one node. *)
Fixpoint collectNode (maxCount maxDepth : Z) (currentDepth : Z) (n : node)
    (urls : list string) : list string :=
  let urls :=
    match url n with
    | Some u => if truthy (Some u) && negb (isEllipsis n) then urls ++ [u] else urls
    | None => urls
    end in
  match children n with
  | [] => urls
  | _ =>
      if (currentDepth + 1 >? maxDepth) || (Z.of_nat (length urls) >=? maxCount)
      then urls
      else
        (fix loop (l : list node) (urls : list string) : list string :=
           match l with
           | [] => urls
           | c :: l' =>
               if Z.of_nat (length urls) >=? maxCount then urls
               else loop l' (collectNode maxCount maxDepth (currentDepth + 1) c urls)
           end) (children n) urls
  end.

Definition collect (maxCount maxDepth : Z) (nodeList : list node)
    (currentDepth : Z) (urls : list string) : list string :=
  if (currentDepth >? maxDepth) || (Z.of_nat (length urls) >=? maxCount)
  then urls
  else
    (fix loop (l : list node) (urls : list string) : list string :=
       match l with
       | [] => urls
       | c :: l' =>
           if Z.of_nat (length urls) >=? maxCount then urls
           else loop l' (collectNode maxCount maxDepth currentDepth c urls)
       end) nodeList urls.

Definition collectUrlsForCapture (nodes : list node) (maxCount : Z) : list string :=
  collect maxCount 2 nodes 0 [].

(** ** Capture Orchestrator (service worker, captureScreenshotsDebugger) *)

Record captureOptions := CaptureOptions { loadTimeout : Z; captureDelay : Z }.

(** [{url, screenshot}] or [{url, screenshot: null, error}]. *)
Record captureResult := CaptureResult {
  cr_url : string;
  cr_screenshot : option string;
  cr_error : option string }.

(** Who receives a progress event: the caller's [onProgress] or the default
    [sendProgress] broadcast. *)
Inductive progressSink := ToCallback | ToBroadcast.

(** What the orchestrator does to the browser, in order. *)
Inductive browserEvent :=
  | EvCreateTab
  | EvAttach
  | EvProgress (sink : progressSink) (current total : Z) (url : string)
  | EvRender (url : string) (opts : captureOptions)
  | EvDetach
  | EvRemoveTab.

(** The call of the set-up that throws: [chrome.tabs.create],
    [chrome.debugger.attach], or the viewport command. *)
Inductive captureSetupStage := AtTabCreate | AtDebuggerAttach | AtViewport.

(** The browser as the orchestrator sees it.  [setupError] is the exception
    of [chrome.tabs.create], [chrome.debugger.attach] or the viewport
    command, if any, and which of them threw; [cancelAt i] is the value of
    [shouldCancel] read at the top of iteration [i]; [renderPage i url opts]
    is the outcome of navigate, wait, delay and [Page.captureScreenshot] in
    iteration [i]: the base64 data, or the message of the error thrown;
    [storageGetError] and [storageSetError] are the errors with which
    [chrome.storage.local.get] and [chrome.storage.local.set] reject, if
    they do; [lateCancel] tells whether a [cancel] message arrives during
    the run after the last read of [shouldCancel] by the loop. *)
Record browser := Browser {
  setupError : option (captureSetupStage * string);
  cancelAt : nat → bool;
  renderPage : nat → string → captureOptions → string + string;
  storageGetError : option string;
  storageSetError : option string;
  lateCancel : bool }.

(** The [for] loop, from index [i] on, over the urls still to do. *)
Fixpoint captureLoop (b : browser) (opts : captureOptions) (sink : progressSink)
    (total : nat) (i : nat) (urls : list string)
    (results : list captureResult) (log : list browserEvent)
    : list captureResult * list browserEvent :=
  match urls with
  | [] => (results, log)
  | url :: rest =>
      if cancelAt b i then (results, log)
      else
        let log := log ++ [EvProgress sink (Z.of_nat i + 1) (Z.of_nat total) url] in
        let log := log ++ [EvRender url opts] in
        let r :=
          match renderPage b i url opts with
          | inl data =>
              CaptureResult url (Some ("data:image/png;base64," +:+ data)) None
          | inr message => CaptureResult url None (Some message)
          end in
        captureLoop b opts sink total (S i) rest (results ++ [r]) log
  end.

(** [inl message]: the promise rejects; [inr results]: it resolves. *)
Definition captureScreenshotsDebugger (b : browser) (urls : list string)
    (opts : captureOptions) (onProgress : bool) (log : list browserEvent)
    : (string + list captureResult) * list browserEvent :=
  match setupError b with
  | Some (AtTabCreate, message) => (inl message, log)
  | Some (AtDebuggerAttach, message) => (inl message, log ++ [EvCreateTab])
  | Some (AtViewport, message) =>
      (inl message, log ++ [EvCreateTab; EvAttach; EvDetach; EvRemoveTab])
  | None =>
      let log := log ++ [EvCreateTab; EvAttach] in
      let sink := if onProgress then ToCallback else ToBroadcast in
      let '(results, log) :=
        captureLoop b opts sink (length urls) 0 urls [] log in
      (inr results, log ++ [EvDetach; EvRemoveTab])
  end.

(** The progress events of a log, in order. *)
Definition progressEvents (log : list browserEvent) : list (Z * Z * string) :=
  omap (λ e, match e with
             | EvProgress _ current total url => Some (current, total, url)
             | _ => None
             end) log.

(** The result entry for [url] in iteration [i]. *)
Definition resultFor (b : browser) (opts : captureOptions) (i : nat)
    (url : string) : captureResult :=
  match renderPage b i url opts with
  | inl data => CaptureResult url (Some ("data:image/png;base64," +:+ data)) None
  | inr message => CaptureResult url None (Some message)
  end.

Lemma captureLoop_no_cancel (b : browser) opts sink total urls :
  (∀ i, cancelAt b i = false) →
  ∀ i results log,
    captureLoop b opts sink total i urls results log =
      (results ++ imap (λ j url, resultFor b opts (i + j) url) urls,
       log ++ mjoin (imap (λ j url,
                 [EvProgress sink (Z.of_nat (i + j) + 1) (Z.of_nat total) url;
                  EvRender url opts]) urls)).
Proof.
  intros Hc. induction urls as [|url rest IH]; intros i results log.
  - cbn. by rewrite !app_nil_r.
  - cbn [captureLoop]. rewrite Hc, IH. cbn [imap mjoin list_join].
    rewrite <- !app_assoc. cbn [app]. rewrite Nat.add_0_r.
    unfold resultFor at 2. f_equal.
    + do 2 f_equal. apply imap_ext. intros j u _. cbn. f_equal. lia.
    + do 4 f_equal. apply imap_ext. intros j u _. cbn.
      by replace (i + S j)%nat with (S i + j)%nat by lia.
Qed.

Lemma progressEvents_app (l1 l2 : list browserEvent) :
  progressEvents (l1 ++ l2) = progressEvents l1 ++ progressEvents l2.
Proof. apply omap_app. Qed.

Lemma progressEvents_loop sink total opts (urls : list string) (i : nat) :
  progressEvents (mjoin (imap (λ j url,
      [EvProgress sink (Z.of_nat (i + j) + 1) (Z.of_nat total) url;
       EvRender url opts]) urls)) =
  imap (λ j url, (Z.of_nat (i + j) + 1, Z.of_nat total, url)) urls.
Proof.
  revert i. induction urls as [|u rest IH]; intros i; [done|].
  cbn [imap mjoin list_join]. rewrite progressEvents_app. cbn. f_equal.
  specialize (IH (S i)). unfold progressEvents in IH.
  etrans; [|etrans; [exact IH|]].
  - do 2 f_equal. apply imap_ext. intros j x _. cbn.
    by replace (i + S j)%nat with (S (i + j))%nat by lia.
  - apply imap_ext. intros j x _. cbn.
    by replace (i + S j)%nat with (S (i + j))%nat by lia.
Qed.

(** C5. When the hidden tab and debugger are set up and [shouldCancel] is
    never seen set, the orchestrator resolves with exactly one entry per
    url, in order: entry [i] carries [urls[i]], with the image when the
    render succeeded and with [screenshot: null] and the error message when
    it failed, and later urls are still processed.  The progress sink is
    called exactly once per url, before that url is rendered, with
    [current] = 1, 2, ..., N and [total] = N. *)
Theorem captureScreenshotsDebugger_complete (b : browser) (urls : list string)
    (opts : captureOptions) (onProgress : bool) (log : list browserEvent) :
  setupError b = None →
  (∀ i, cancelAt b i = false) →
  ∃ results log',
    captureScreenshotsDebugger b urls opts onProgress log = (inr results, log') ∧
    length results = length urls ∧
    (∀ i url, urls !! i = Some url →
       ∃ r, results !! i = Some r ∧ cr_url r = url ∧
            match renderPage b i url opts with
            | inl data =>
                cr_screenshot r = Some ("data:image/png;base64," +:+ data) ∧
                cr_error r = None
            | inr message =>
                cr_screenshot r = None ∧ cr_error r = Some message
            end) ∧
    log' = log ++ [EvCreateTab; EvAttach] ++
           mjoin (imap (λ i url,
              [EvProgress (if onProgress then ToCallback else ToBroadcast)
                 (Z.of_nat i + 1) (Z.of_nat (length urls)) url;
               EvRender url opts]) urls) ++
           [EvDetach; EvRemoveTab] ∧
    progressEvents log' =
      progressEvents log ++
      imap (λ i url, (Z.of_nat i + 1, Z.of_nat (length urls), url)) urls.
Proof.
  intros Hs Hc. unfold captureScreenshotsDebugger. rewrite Hs.
  rewrite captureLoop_no_cancel by done. cbn [app].
  eexists _, _. split; [done|]. split; [by rewrite length_imap|].
  split; [|split].
  - intros i url Hi. exists (resultFor b opts i url).
    rewrite list_lookup_imap, Hi. cbn. split; [done|].
    unfold resultFor. by destruct (renderPage b i url opts).
  - rewrite <- !app_assoc. reflexivity.
  - rewrite !progressEvents_app.
    rewrite (progressEvents_loop _ _ _ urls 0). cbn. by rewrite !app_nil_r.
Qed.

(** Three pages, the second of which always fails to render. *)
Definition sample_browser : browser :=
  Browser None (λ _, false)
    (λ _ url _, if String.eqb url "https://example.com/b"
                then inr "net::ERR_FAILED" else inl "iVBORw0KGgo=")
    None None false.

Definition sample_urls : list string :=
  ["https://example.com/a"; "https://example.com/b"; "https://example.com/c"].

Lemma captureScreenshotsDebugger_complete_witness :
  ∃ results log',
    captureScreenshotsDebugger sample_browser sample_urls
      (CaptureOptions 5000 1000) true [] = (inr results, log') ∧
    length results = 3%nat ∧
    progressEvents log' =
      [(1, 3, "https://example.com/a"); (2, 3, "https://example.com/b");
       (3, 3, "https://example.com/c")].
Proof.
  destruct (captureScreenshotsDebugger_complete sample_browser sample_urls
              (CaptureOptions 5000 1000) true [] eq_refl (λ _, eq_refl))
    as (results & log' & Hrun & Hlen & _ & _ & Hprog).
  exists results, log'. split; [exact Hrun|]. split; [exact Hlen|exact Hprog].
Defined.

(** ** Report dataset and messages *)

Record dataset := Dataset {
  tree : node;
  baseUrl : string;
  totalUrls : Z;
  capturedUrls : Z;
  timestamp : string;
  capturedUrlSet : list string;
  screenshotMap : smap;
  options : option captureOptions }.

(** Messages between the report page and the service worker.  The
    [parentPath] of a request is [ellipsisData.parentPath] or, for a single
    node, the node's own path. *)
Inductive message :=
  | MsgCaptureMore (urls : list string) (parentPath : option string)
      (opts : captureOptions)
  | MsgCaptureMoreProgress (current total : Z) (url : string)
      (parentPath : option string)
  | MsgCaptureMoreComplete (screenshots : list captureResult)
      (parentPath : option string)
  | MsgCaptureMoreError (error : string) (parentPath : option string).

(** ** Report page state (report.js globals) *)

Inductive pending :=
  | PendingSingle (nodePath : string)
  | PendingExpand (ellipsis : node) (nodesToExpand remainingNodes : list node)
      (parentPath : option string).

Record page := Page {
  currentReportData : dataset;
  currentTreeData : node;
  isExpanding : bool;
  pendingExpand : option pending;
  pageSent : list message;
  expandLoading : bool;
  modal : option (option string * option string);
  alerts : list string }.

(** A d3 node of the rendered hierarchy is a position in [currentTreeData]:
    the indices to follow through [children], from the root. *)
Fixpoint nodeAt (n : node) (pos : list nat) : option node :=
  match pos with
  | [] => Some n
  | i :: pos' =>
      match children n !! i with
      | Some c => nodeAt c pos'
      | None => None
      end
  end.

(** The tree after the datum at [pos] has been mutated by [f]. *)
Fixpoint updateAt (f : node → node) (n : node) (pos : list nat) : node :=
  match pos with
  | [] => f n
  | i :: pos' =>
      match children n !! i with
      | Some c => set_children n (<[i := updateAt f c pos']> (children n))
      | None => n
      end
  end.

Definition defaultOptions : captureOptions := CaptureOptions 5000 1000.

Definition optionsOf (d : dataset) : captureOptions :=
  default defaultOptions (options d).

Definition handleExpandClick (p : page) (ellipsisD3Node : list nat) : page :=
  if isExpanding p then p
  else
    match nodeAt (currentTreeData p) ellipsisD3Node with
    | None => p
    | Some ellipsisData =>
        let hidden := hiddenChildren ellipsisData in
        match hidden with
        | [] => p
        | _ =>
            let batchSize := batchSizeOf ellipsisData in
            let nodesToExpand := js_slice hidden 0 batchSize in
            let remainingNodes := js_slice_from hidden batchSize in
            let urlsToCapture := collectUrlsForCapture nodesToExpand 10 in
            let capturedSet := capturedUrlSet (currentReportData p) in
            let newUrls := filter (λ u, u ∉ capturedSet) urlsToCapture in
            match newUrls with
            | [] =>
                Page (currentReportData p)
                  (performExpand (currentTreeData p) ellipsisData
                     nodesToExpand remainingNodes ∅)
                  false (pendingExpand p) (pageSent p) (expandLoading p)
                  (modal p) (alerts p)
            | _ =>
                Page (currentReportData p) (currentTreeData p) true
                  (Some (PendingExpand ellipsisData nodesToExpand
                           remainingNodes (parentPath ellipsisData)))
                  (pageSent p ++
                     [MsgCaptureMore newUrls (parentPath ellipsisData)
                        (optionsOf (currentReportData p))])
                  true (modal p) (alerts p)
            end
        end
    end.

Definition handleSingleNodeCapture (p : page) (d3Node : list nat) : page :=
  if isExpanding p then p
  else
    match nodeAt (currentTreeData p) d3Node with
    | None => p
    | Some nodeData =>
        match url nodeData with
        | Some u =>
            if negb (truthy (Some u)) || truthy (screenshot nodeData) then p
            else
              let stored :=
                if bool_decide (u ∈ capturedUrlSet (currentReportData p))
                then default None (screenshotMap (currentReportData p) !! u)
                else None in
              if truthy stored then
                Page (currentReportData p)
                  (updateAt (λ n, set_screenshot n stored)
                     (currentTreeData p) d3Node)
                  false (pendingExpand p) (pageSent p) (expandLoading p)
                  (modal p) (alerts p)
              else
                Page (currentReportData p) (currentTreeData p) true
                  (Some (PendingSingle (path nodeData)))
                  (pageSent p ++
                     [MsgCaptureMore [u] (Some (path nodeData))
                        (optionsOf (currentReportData p))])
                  true (modal p) (alerts p)
        | None => p
        end
    end.

Definition showModal (p : page) (imageSrc url : option string) : page :=
  Page (currentReportData p) (currentTreeData p) (isExpanding p)
    (pendingExpand p) (pageSent p) (expandLoading p) (Some (imageSrc, url))
    (alerts p).

Definition handleNodeClick (p : page) (d : list nat) : page :=
  match nodeAt (currentTreeData p) d with
  | None => p
  | Some data =>
      if isEllipsis data then handleExpandClick p d
      else if truthy (screenshot data) then showModal p (screenshot data) (url data)
      else if truthy (url data) && negb (truthy (screenshot data))
           then handleSingleNodeCapture p d
      else p
  end.

Definition handleExpandError (p : page) (error : string) : page :=
  Page (currentReportData p) (currentTreeData p) false None (pageSent p) false
    (modal p) (alerts p ++ ["Failed to capture screenshots: " +:+ error]).

(** ** Service worker state *)

(** [sendToTab]: to the tab when [tabId] is truthy, else broadcast. *)
Inductive recipient := ToTab (tabId : nat) | Broadcast.

Definition recipientOf (tabId : option nat) : recipient :=
  match tabId with
  | Some (S i) => ToTab (S i)
  | _ => Broadcast
  end.

Record worker := Worker {
  isRunning : bool;
  shouldCancel : bool;
  reportData : option dataset;
  workerSent : list (recipient * message);
  workerLog : list browserEvent }.

Definition sendToTab (w : worker) (tabId : option nat) (m : message) : worker :=
  Worker (isRunning w) (shouldCancel w) (reportData w)
    (workerSent w ++ [(recipientOf tabId, m)]) (workerLog w).

(** The storage update of [captureMoreScreenshots] for one result. *)
Definition storeScreenshot (d : dataset) (s : captureResult) : dataset :=
  if truthy (cr_screenshot s) then
    Dataset (tree d) (baseUrl d) (totalUrls d) (capturedUrls d) (timestamp d)
      (if bool_decide (cr_url s ∈ capturedUrlSet d) then capturedUrlSet d
       else capturedUrlSet d ++ [cr_url s])
      (<[cr_url s := cr_screenshot s]> (screenshotMap d)) (options d)
  else d.

Definition updateStorage (d : dataset) (screenshots : list captureResult) : dataset :=
  let d := foldl storeScreenshot d screenshots in
  Dataset (attachScreenshotsToTree (screenshotMap d) (tree d)) (baseUrl d)
    (totalUrls d) (Z.of_nat (length (capturedUrlSet d))) (timestamp d)
    (capturedUrlSet d) (screenshotMap d) (options d).

(** The messages that the [onProgress] callback of [captureMoreScreenshots]
    sends for the progress events of a log. *)
Definition progressMessages (sourceTabId : option nat)
    (parentPath : option string) (log : list browserEvent)
    : list (recipient * message) :=
  omap (λ e, match e with
             | EvProgress ToCallback current total url =>
                 Some (recipientOf sourceTabId,
                       MsgCaptureMoreProgress current total url parentPath)
             | _ => None
             end) log.

(** The error with which the storage update of [captureMoreScreenshots]
    rejects, if it does: that of [get], or that of [set], which is called
    only when a report is stored. *)
Definition storageFailure (b : browser) (stored : option dataset)
    : option string :=
  match storageGetError b with
  | Some message => Some message
  | None =>
      match stored with
      | Some _ => storageSetError b
      | None => None
      end
  end.

(** The error that a run of [captureMoreScreenshots] ends with, if any:
    that of the set-up, or that of the storage update. *)
Definition captureFailure (b : browser) (stored : option dataset)
    : option string :=
  match setupError b with
  | Some (_, message) => Some message
  | None => storageFailure b stored
  end.

(** [captureMoreScreenshots], with the capture run to completion.  At the
    end [shouldCancel] is set exactly when a [cancel] message arrived
    during the run: the loop stopped early, or the message came later. *)
Definition captureMoreScreenshots (b : browser) (w : worker) (urls : list string)
    (parentPath : option string) (opts : captureOptions)
    (sourceTabId : option nat) : worker :=
  if isRunning w then
    sendToTab w sourceTabId
      (MsgCaptureMoreError "Another capture is in progress" parentPath)
  else
    let '(outcome, log) :=
      captureScreenshotsDebugger b urls opts true (workerLog w) in
    let sent :=
      workerSent w ++
      progressMessages sourceTabId parentPath (drop (length (workerLog w)) log) in
    let cancelled :=
      match outcome with
      | inr screenshots =>
          (length screenshots <? length urls)%nat || lateCancel b
      | inl _ => lateCancel b
      end in
    let w := Worker true false (reportData w) sent log in
    let w :=
      match outcome with
      | inr screenshots =>
          match storageFailure b (reportData w) with
          | Some message =>
              sendToTab w sourceTabId (MsgCaptureMoreError message parentPath)
          | None =>
              let w := Worker (isRunning w) (shouldCancel w)
                         ((λ d, updateStorage d screenshots) <$> reportData w)
                         (workerSent w) (workerLog w) in
              sendToTab w sourceTabId
                (MsgCaptureMoreComplete
                   (filter (λ s, truthy (cr_screenshot s) = true) screenshots)
                   parentPath)
          end
      | inl message =>
          sendToTab w sourceTabId (MsgCaptureMoreError message parentPath)
      end in
    Worker false cancelled (reportData w) (workerSent w) (workerLog w).

(** ** Expansion Controller: rejection while in flight *)

(** C7. While [isExpanding] is set on the report page, a click on an
    ellipsis node or on a placeholder node leaves the whole page state as it
    is: display tree, dataset, pending request and the list of messages
    sent.  While [isRunning] is set in the service worker, a [captureMore]
    request changes nothing but the outgoing messages, to which it adds one
    [captureMoreError] for the requester: storage, [isRunning],
    [shouldCancel] and the browser log (no tab, no render) are as before. *)
Theorem in_flight_trigger_rejected (p : page) (d : list nat) (b : browser)
    (w : worker) (urls : list string) (pp : option string)
    (opts : captureOptions) (tab : option nat) :
  isExpanding p = true → isRunning w = true →
  handleExpandClick p d = p ∧
  handleSingleNodeCapture p d = p ∧
  (∀ data, nodeAt (currentTreeData p) d = Some data →
     isEllipsis data = true ∨ truthy (screenshot data) = false →
     handleNodeClick p d = p) ∧
  captureMoreScreenshots b w urls pp opts tab =
    Worker (isRunning w) (shouldCancel w) (reportData w)
      (workerSent w ++
         [(recipientOf tab, MsgCaptureMoreError "Another capture is in progress" pp)])
      (workerLog w).
Proof.
  intros Hp Hw.
  assert (He : handleExpandClick p d = p) by (unfold handleExpandClick; by rewrite Hp).
  assert (Hs : handleSingleNodeCapture p d = p)
    by (unfold handleSingleNodeCapture; by rewrite Hp).
  split_and!; try done.
  - intros data Hd Hkind. unfold handleNodeClick. rewrite Hd.
    destruct (isEllipsis data); [exact He|].
    destruct Hkind as [?| ->]; [done|]. cbn [negb andb].
    rewrite andb_true_r. destruct (truthy (url data)); [exact Hs|done].
  - unfold captureMoreScreenshots, sendToTab. destruct (isRunning w); done.
Qed.

Definition sample_dataset : dataset :=
  Dataset sample_six "https://example.com" 6 0 "2026-01-22T00:00:00.000Z" [] ∅
    (Some defaultOptions).

(** A report page waiting for the screenshots of an expansion. *)
Definition sample_page_in_flight : page :=
  Page sample_dataset (collapseTree 5 sample_six) true
    (Some (PendingExpand (mkEllipsis "/" []) [] [] (Some "/")))
    [] true None [].

Definition sample_worker_running : worker :=
  Worker true false (Some sample_dataset) [] [EvCreateTab; EvAttach].

Lemma in_flight_trigger_rejected_witness :
  isExpanding sample_page_in_flight = true ∧
  isRunning sample_worker_running = true ∧
  handleExpandClick sample_page_in_flight [4%nat] = sample_page_in_flight ∧
  reportData (captureMoreScreenshots sample_browser sample_worker_running
                sample_urls (Some "/") defaultOptions (Some 7%nat)) =
    Some sample_dataset.
Proof.
  split; [reflexivity|]. split; [reflexivity|].
  destruct (in_flight_trigger_rejected sample_page_in_flight [4%nat]
              sample_browser sample_worker_running sample_urls (Some "/")
              defaultOptions (Some 7%nat) eq_refl eq_refl)
    as (He & _ & _ & Hw).
  split; [exact He|]. rewrite Hw. reflexivity.
Defined.

(** ** URL Classifier *)

(** [String.prototype.split] for a one-character separator. *)
Fixpoint split_on (sep : Ascii.ascii) (s : string) : list string :=
  match s with
  | EmptyString => [EmptyString]
  | String c s' =>
      if Ascii.eqb c sep then EmptyString :: split_on sep s'
      else
        match split_on sep s' with
        | [] => [String c EmptyString]
        | x :: xs => String c x :: xs
        end
  end.

(** [path.split('/').filter(Boolean)] *)
Definition segmentsOf (path : string) : list string :=
  filter (λ s, s ≠ EmptyString) (split_on "/"%char path).

Record parsedUrl := ParsedUrl {
  pu_url : string;
  pu_path : string;
  pu_depth : nat;
  pu_branch : string;
  pu_segments : list string }.

(** A [Map] filled by "if absent, set to the empty array; push": an
    association list in insertion order of the keys. *)
Fixpoint group_push {K V} `{EqDecision K} (k : K) (v : V)
    (m : list (K * list V)) : list (K * list V) :=
  match m with
  | [] => [(k, [v])]
  | (k', vs) :: m' =>
      if decide (k = k') then (k', vs ++ [v]) :: m'
      else (k', vs) :: group_push k v m'
  end.

Definition groupBy {K V} `{EqDecision K} (key : V → K) (l : list V)
    : list (K * list V) :=
  foldl (λ m v, group_push (key v) v m) [] l.

(** [Map.prototype.get] *)
Fixpoint alist_get {K V} `{EqDecision K} (k : K) (m : list (K * V)) : option V :=
  match m with
  | [] => None
  | (k', v) :: m' => if decide (k = k') then Some v else alist_get k m'
  end.

Section UrlParsing.

(** [new URL(url).pathname], or [None] when the constructor throws. *)
Variable pathname : string → option string.

(** [new URL(url).hostname] *)
Variable hostname : string → option string.

(** [Math.ceil((weight / totalWeight) * remaining)], evaluated in double
    precision. *)
Variable ceilQuota : Z → Z → Z → Z.

Definition parseUrl (url : string) : option parsedUrl :=
  match pathname url with
  | Some path =>
      let segments := segmentsOf path in
      Some (ParsedUrl url path (length segments)
              (default "_root_" (head segments)) segments)
  | None => None
  end.

Definition isHomepage (p : parsedUrl) : bool :=
  bool_decide (pu_depth p = 0%nat) || bool_decide (pu_path p = "/").

(** ** Representative Selector (selectRepresentativeUrls) *)

(** All branches exhausted: [branches.every(b => branchPointers.get(b) >=
    byBranch.get(b).length)]. *)
Definition allExhausted (byBranch : list (string * list parsedUrl))
    (branches : list string) (branchPointers : gmap string nat) : option bool :=
  foldr (λ b acc,
           pointer ← branchPointers !! b;
           branchUrls ← alist_get b byBranch;
           rest ← acc;
           Some (bool_decide (length branchUrls ≤ pointer)%nat && rest))
        (Some true) branches.

(** The [while] loop of one depth level.  [None]: a [TypeError], or the
    fuel ran out. *)
Fixpoint roundRobin (fuel : nat) (byBranch : list (string * list parsedUrl))
    (branches : list string) (quota maxPages : Z) (selected : list string)
    (added : Z) (branchIndex : nat) (branchPointers : gmap string nat)
    : option (list string) :=
  if (added <? quota) && (Z.of_nat (length selected) <? maxPages) then
    match fuel with
    | O => None
    | S fuel =>
        branch ← branches !! (branchIndex mod length branches)%nat;
        branchUrls ← alist_get branch byBranch;
        pointer ← branchPointers !! branch;
        let step : list string * Z * gmap string nat :=
          match branchUrls !! pointer with
          | Some p =>
              let candidate := pu_url p in
              if bool_decide (candidate ∈ selected)
              then (selected, added, <[branch := S pointer]> branchPointers)
              else (selected ++ [candidate], added + 1,
                    <[branch := S pointer]> branchPointers)
          | None => (selected, added, branchPointers)
          end in
        let '(selected, added, branchPointers) := step in
        let branchIndex := S branchIndex in
        match allExhausted byBranch branches branchPointers with
        | Some true => Some selected
        | Some false =>
            roundRobin fuel byBranch branches quota maxPages selected added
              branchIndex branchPointers
        | None => None
        end
    end
  else Some selected.

(** Enough iterations for the loop to end: every iteration that does not
    end the loop advances a pointer or moves on from an exhausted branch. *)
Definition roundRobinFuel (byBranch : list (string * list parsedUrl))
    (branches : list string) : nat :=
  S (length branches *
     S (sum_list ((λ b, length (default [] (alist_get b byBranch))) <$> branches))).

(** The [for (const depth of depths)] loop. *)
Fixpoint selectByDepth (byDepth : list (nat * list parsedUrl))
    (quotas : nat → Z) (maxPages : Z) (depths : list nat)
    (selected : list string) : option (list string) :=
  match depths with
  | [] => Some selected
  | depth :: depths =>
      if Z.of_nat (length selected) >=? maxPages then Some selected
      else
        urlsAtDepth ← alist_get depth byDepth;
        let quota := quotas depth in
        let byBranch := groupBy pu_branch urlsAtDepth in
        let branches := byBranch.*1 in
        let branchPointers : gmap string nat :=
          list_to_map ((λ b, (b, 0%nat)) <$> branches) in
        selected ← roundRobin (roundRobinFuel byBranch branches) byBranch branches
                     quota maxPages selected 0 0 branchPointers;
        selectByDepth byDepth quotas maxPages depths selected
  end.

Definition selectRepresentativeUrls (urls : list string) (maxPages : Z)
    (baseUrl : string) : option (list string) :=
  let parsed := omap parseUrl urls in
  let selected :=
    match List.find isHomepage parsed with
    | Some homepage => [pu_url homepage]
    | None => []
    end in
  let selected :=
    if bool_decide (baseUrl ∈ selected) then selected
    else selected ++ [baseUrl] in
  let byDepth := groupBy pu_depth parsed in
  let depths := merge_sort Nat.le (byDepth.*1) in
  let remaining := maxPages - Z.of_nat (length selected) in
  let weights := (λ d, Z.max 1 (5 - Z.of_nat d)) <$> depths in
  let totalWeight := foldl Z.add 0 weights in
  let quotas := λ depth,
    ceilQuota (Z.max 1 (5 - Z.of_nat depth)) totalWeight remaining in
  selected ← selectByDepth byDepth quotas maxPages depths selected;
  Some (js_slice selected 0 maxPages).

End UrlParsing.

(** ** Facts about grouping *)

Lemma alist_get_is_Some {K V} `{EqDecision K} (k : K) (m : list (K * V)) :
  k ∈ m.*1 → is_Some (alist_get k m).
Proof.
  induction m as [|[k' v] m IH]; cbn; [by intros ?%elem_of_nil|].
  intros [->|Hin]%elem_of_cons; case_decide; eauto; congruence.
Qed.

Lemma alist_get_elem_of {K V} `{EqDecision K} (k : K) (m : list (K * V)) v :
  alist_get k m = Some v → (k, v) ∈ m.
Proof.
  induction m as [|[k' v'] m IH]; cbn; [done|].
  case_decide; [intros [= ->]; subst; left|right; auto].
Qed.

Lemma group_push_nonempty {K V} `{EqDecision K} (k : K) (v : V) m :
  Forall (λ kv, kv.2 ≠ []) m → Forall (λ kv, kv.2 ≠ []) (group_push k v m).
Proof.
  induction 1 as [|[k' vs] m Hx Hm IH]; cbn.
  - by repeat constructor.
  - case_decide; constructor; try done. cbn. intros Hnil.
    by apply app_eq_nil in Hnil as [_ ?].
Qed.

Lemma group_push_not_nil {K V} `{EqDecision K} (k : K) (v : V) m :
  group_push k v m ≠ [].
Proof. destruct m as [|[k' vs] m]; cbn; [done|]. by case_decide. Qed.

Lemma groupBy_snoc {K V} `{EqDecision K} (key : V → K) (l : list V) (v : V) :
  groupBy key (l ++ [v]) = group_push (key v) v (groupBy key l).
Proof. unfold groupBy. by rewrite foldl_app. Qed.

Lemma groupBy_nonempty {K V} `{EqDecision K} (key : V → K) (l : list V) :
  Forall (λ kv, kv.2 ≠ []) (groupBy key l).
Proof.
  induction l as [|v l IH] using rev_ind; [constructor|].
  rewrite groupBy_snoc. by apply group_push_nonempty.
Qed.

Lemma groupBy_not_nil {K V} `{EqDecision K} (key : V → K) (l : list V) :
  l ≠ [] → groupBy key l ≠ [].
Proof.
  destruct l as [|v l] using rev_ind; [done|]. intros _.
  rewrite groupBy_snoc. apply group_push_not_nil.
Qed.

Lemma groupBy_lookup {K V} `{EqDecision K} (key : V → K) (l : list V) (k : K) :
  k ∈ (groupBy key l).*1 →
  ∃ vs, alist_get k (groupBy key l) = Some vs ∧ vs ≠ [].
Proof.
  intros [vs Hvs]%alist_get_is_Some. exists vs. split; [done|].
  apply alist_get_elem_of in Hvs.
  pose proof (groupBy_nonempty key l) as Hne.
  rewrite Forall_forall in Hne. by apply (Hne _ Hvs).
Qed.

(** ** Round-robin loop: termination and invariants *)

Section RoundRobin.

Variable byBranch : list (string * list parsedUrl).
Variable branches : list string.
Hypothesis branches_not_nil : branches ≠ [].
Hypothesis branches_get : ∀ b, b ∈ branches → is_Some (alist_get b byBranch).

(** Every branch has a pointer. *)
Definition pointers_ok (ptrs : gmap string nat) : Prop :=
  ∀ b, b ∈ branches → is_Some (ptrs !! b).

Definition branchLen (b : string) : nat :=
  length (default [] (alist_get b byBranch)).

Definition pointerOf (ptrs : gmap string nat) (b : string) : nat :=
  default 0%nat (ptrs !! b).

Definition exhausted (ptrs : gmap string nat) (b : string) : bool :=
  bool_decide (branchLen b ≤ pointerOf ptrs b)%nat.

(** Urls not yet looked at, over all branches. *)
Definition unread (ptrs : gmap string nat) : nat :=
  sum_list ((λ b, branchLen b - pointerOf ptrs b)%nat <$> branches).

(** Iterations from index [i] until a branch that is not exhausted comes
    up, looking at most [fuel] iterations ahead. *)
Fixpoint gapFrom (ptrs : gmap string nat) (fuel i : nat) : nat :=
  match fuel with
  | O => O
  | S fuel =>
      match branches !! (i mod length branches)%nat with
      | Some b => if exhausted ptrs b then S (gapFrom ptrs fuel (S i)) else O
      | None => O
      end
  end.

Lemma branch_at (i : nat) :
  ∃ b, branches !! (i mod length branches)%nat = Some b ∧ b ∈ branches.
Proof.
  assert (length branches ≠ 0)%nat by (by destruct branches).
  destruct (lookup_lt_is_Some_2 branches (i mod length branches)%nat) as [b Hb].
  { by apply Nat.mod_upper_bound. }
  exists b. split; [done|]. by eapply list_elem_of_lookup_2.
Qed.

Lemma allExhausted_eq (ptrs : gmap string nat) (l : list string) :
  pointers_ok ptrs → l ⊆ branches →
  allExhausted byBranch l ptrs = Some (forallb (exhausted ptrs) l).
Proof.
  intros Hp. induction l as [|b l IH]; intros Hl; [done|].
  cbn [allExhausted foldr forallb].
  assert (Hb : b ∈ branches) by (apply Hl; left).
  destruct (Hp b Hb) as [p Hptr]. destruct (branches_get b Hb) as [us Hus].
  fold (allExhausted byBranch l ptrs). rewrite IH by set_solver.
  rewrite Hptr, Hus. cbn. unfold exhausted, branchLen, pointerOf.
  by rewrite Hptr, Hus.
Qed.

Lemma gapFrom_le ptrs fuel i : (gapFrom ptrs fuel i ≤ fuel)%nat.
Proof.
  revert i. induction fuel as [|fuel IH]; intros i; cbn; [lia|].
  destruct (branches !! _); [|lia]. destruct (exhausted ptrs s); [|lia].
  specialize (IH (S i)). lia.
Qed.

Lemma gapFrom_full ptrs fuel i :
  gapFrom ptrs fuel i = fuel →
  ∀ d, (d < fuel)%nat →
    ∃ b, branches !! ((i + d) mod length branches)%nat = Some b ∧
         exhausted ptrs b = true.
Proof.
  revert i. induction fuel as [|fuel IH]; intros i Hg d Hd; [lia|].
  cbn in Hg. destruct (branches !! (i mod length branches)%nat) as [b|] eqn:Hb;
    [|lia].
  destruct (exhausted ptrs b) eqn:He; [|lia].
  destruct d as [|d].
  - exists b. by rewrite Nat.add_0_r.
  - destruct (IH (S i)) with (d := d) as (b' & Hb' & He'); [lia|lia|].
    exists b'. split; [|done]. by replace (i + S d)%nat with (S i + d)%nat by lia.
Qed.

Lemma gapFrom_stable ptrs fuel i :
  (gapFrom ptrs fuel i < fuel)%nat →
  gapFrom ptrs (S fuel) i = gapFrom ptrs fuel i.
Proof.
  revert i. induction fuel as [|fuel IH]; intros i Hlt; [lia|].
  cbn [gapFrom] in *. destruct (branches !! _) as [b|]; [|done].
  destruct (exhausted ptrs b); [|done].
  f_equal. apply IH. lia.
Qed.

(** The indices [i, i + n) visit every position of [branches]. *)
Lemma cyclic_cover (n i j : nat) :
  (j < n)%nat → ∃ d, (d < n)%nat ∧ ((i + d) mod n = j)%nat.
Proof.
  intros Hj. pose proof (Nat.mod_upper_bound i n ltac:(lia)) as Hr.
  destruct (decide (i mod n ≤ j)%nat).
  - exists (j - i mod n)%nat. split; [lia|].
    rewrite <- Nat.Div0.add_mod_idemp_l.
    replace (i mod n + (j - i mod n))%nat with j by lia.
    by apply Nat.mod_small.
  - exists (j + n - i mod n)%nat. split; [lia|].
    rewrite <- Nat.Div0.add_mod_idemp_l.
    replace (i mod n + (j + n - i mod n))%nat with (j + 1 * n)%nat by lia.
    rewrite Nat.Div0.mod_add. by apply Nat.mod_small.
Qed.

Lemma gapFrom_lt ptrs i :
  forallb (exhausted ptrs) branches = false →
  (gapFrom ptrs (length branches) i < length branches)%nat.
Proof.
  intros Hne. pose proof (gapFrom_le ptrs (length branches) i) as Hle.
  destruct (decide (gapFrom ptrs (length branches) i = length branches))
    as [Heq|]; [|lia].
  exfalso. apply not_true_iff_false in Hne. apply Hne.
  apply forallb_forall. intros b [j Hj]%list_elem_of_In%list_elem_of_lookup_1.
  destruct (cyclic_cover (length branches) i j) as (d & Hd & Hmod).
  { by eapply lookup_lt_Some. }
  destruct (gapFrom_full ptrs _ i Heq d Hd) as (b' & Hb' & He').
  rewrite Hmod in Hb'. congruence.
Qed.

Lemma gapFrom_step ptrs i b :
  branches !! (i mod length branches)%nat = Some b →
  exhausted ptrs b = true →
  forallb (exhausted ptrs) branches = false →
  (gapFrom ptrs (length branches) (S i) < gapFrom ptrs (length branches) i)%nat.
Proof.
  intros Hb He Hne. pose proof (gapFrom_lt ptrs i Hne) as Hlt.
  assert (E : ∀ f, gapFrom ptrs (S f) i = S (gapFrom ptrs f (S i))).
  { intros f. cbn [gapFrom]. by rewrite Hb, He. }
  destruct (length branches) as [|n]; [lia|].
  rewrite E in Hlt |- *. rewrite gapFrom_stable by lia. lia.
Qed.

Lemma unread_progress ptrs b p :
  b ∈ branches → ptrs !! b = Some p → (p < branchLen b)%nat →
  (unread (<[b := S p]> ptrs) < unread ptrs)%nat.
Proof.
  intros Hb Hp Hlt. unfold unread.
  assert (Hgen : ∀ l,
    (sum_list ((λ b0, branchLen b0 - pointerOf (<[b:=S p]> ptrs) b0)%nat <$> l)
       ≤ sum_list ((λ b0, branchLen b0 - pointerOf ptrs b0)%nat <$> l))%nat ∧
    (b ∈ l →
     (sum_list ((λ b0, branchLen b0 - pointerOf (<[b:=S p]> ptrs) b0)%nat <$> l)
        < sum_list ((λ b0, branchLen b0 - pointerOf ptrs b0)%nat <$> l))%nat)).
  { assert (E1 : pointerOf (<[b:=S p]> ptrs) b = S p)
      by (unfold pointerOf; by rewrite lookup_insert_eq).
    assert (E2 : pointerOf ptrs b = p) by (unfold pointerOf; by rewrite Hp).
    assert (E3 : ∀ x, x ≠ b → pointerOf (<[b:=S p]> ptrs) x = pointerOf ptrs x)
      by (intros; unfold pointerOf; by rewrite lookup_insert_ne).
    induction l as [|x l [IH1 IH2]].
    - split; [done|]. by intros ?%elem_of_nil.
    - rewrite !fmap_cons. cbn [sum_list sum_list_with]. unfold id in *.
      destruct (decide (x = b)) as [->|Hne].
      + rewrite E1, E2. split; [lia|]. intros _. lia.
      + rewrite E3 by done. split; [lia|].
        intros [?|Hin]%elem_of_cons; [done|]. specialize (IH2 Hin). lia. }
  by apply Hgen.
Qed.

Lemma pointers_ok_insert ptrs b p :
  pointers_ok ptrs → pointers_ok (<[b := p]> ptrs).
Proof.
  intros Hp x Hx. destruct (decide (b = x)) as [->|].
  - rewrite lookup_insert_eq. eauto.
  - rewrite lookup_insert_ne by done. by apply Hp.
Qed.

(** The loop ends, and what it returns extends [selected] without
    repeating a url. *)
Lemma roundRobin_spec (quota maxPages : Z) (fuel : nat) :
  ∀ selected added i ptrs,
    pointers_ok ptrs → NoDup selected →
    (1 ≤ fuel)%nat →
    (forallb (exhausted ptrs) branches = false →
     (length branches * unread ptrs + gapFrom ptrs (length branches) i < fuel)%nat) →
    ∃ out,
      roundRobin fuel byBranch branches quota maxPages selected added i ptrs
        = Some out ∧
      NoDup out ∧ selected `prefix_of` out.
Proof.
  induction fuel as [|fuel IH]; intros selected added i ptrs Hp Hnd Hf HΦ; [lia|].
  cbn [roundRobin].
  destruct ((added <? quota) && (Z.of_nat (length selected) <? maxPages));
    [|by exists selected].
  destruct (branch_at i) as (b & Hb & Hbin). rewrite Hb. cbn.
  destruct (branches_get b Hbin) as [us Hus]. rewrite Hus. cbn.
  destruct (Hp b Hbin) as [p Hptr]. rewrite Hptr. cbn.
  destruct (us !! p) as [c|] eqn:Hc.
  - (* a url is read from branch [b] *)
    assert (Hlt : (p < branchLen b)%nat).
    { unfold branchLen. rewrite Hus. cbn. by eapply lookup_lt_Some. }
    assert (Hex : exhausted ptrs b = false).
    { unfold exhausted, pointerOf. rewrite Hptr. cbn.
      apply bool_decide_eq_false. lia. }
    assert (Hall : forallb (exhausted ptrs) branches = false).
    { apply not_true_iff_false. intros Ht. rewrite forallb_forall in Ht.
      rewrite (Ht b) in Hex; [done|]. by apply list_elem_of_In. }
    specialize (HΦ Hall).
    pose proof (unread_progress ptrs b p Hbin Hptr Hlt) as Hun.
    pose proof (pointers_ok_insert ptrs b (S p) Hp) as Hp'.
    set (ptrs' := <[b := S p]> ptrs) in *.
    assert (Hrec : ∀ sel' added',
      NoDup sel' → selected `prefix_of` sel' →
      ∃ out,
        match allExhausted byBranch branches ptrs' with
        | Some true => Some sel'
        | Some false =>
            roundRobin fuel byBranch branches quota maxPages sel' added' (S i) ptrs'
        | None => None
        end = Some out ∧ NoDup out ∧ selected `prefix_of` out).
    { intros sel' added' Hnd' Hpre. rewrite allExhausted_eq by done.
      destruct (forallb (exhausted ptrs') branches) eqn:Hall'; [by exists sel'|].
      pose proof (gapFrom_lt ptrs' (S i) Hall') as Hg.
      destruct (IH sel' added' (S i) ptrs') as (out & Ho & Hnd'' & Hpre'');
        try done; [nia|intros _; nia|].
      exists out. split_and!; try done. by etrans. }
    case_bool_decide as Hin.
    + by apply Hrec.
    + apply Hrec; [|by apply prefix_app_r].
      apply NoDup_app. split_and!; [done| |apply NoDup_singleton].
      intros x Hx ->%list_elem_of_singleton. done.
  - (* branch [b] is exhausted *)
    assert (Hex : exhausted ptrs b = true).
    { unfold exhausted, branchLen, pointerOf. rewrite Hptr, Hus. cbn.
      apply bool_decide_eq_true. by apply lookup_ge_None. }
    rewrite allExhausted_eq by done.
    destruct (forallb (exhausted ptrs) branches) eqn:Hall; [by exists selected|].
    specialize (HΦ eq_refl).
    pose proof (gapFrom_step ptrs i b Hb Hex Hall) as Hg.
    destruct (IH selected added (S i) ptrs) as (out & Ho & Hnd' & Hpre');
      try done; [lia|intros _; lia|].
    by exists out.
Qed.

End RoundRobin.

Lemma unread_le byBranch branches ptrs :
  (unread byBranch branches ptrs ≤
   sum_list ((λ b, length (default [] (alist_get b byBranch))) <$> branches))%nat.
Proof.
  unfold unread, branchLen. induction branches as [|b l IH]; [done|].
  rewrite !fmap_cons. cbn [sum_list sum_list_with]. unfold id in *. lia.
Qed.

Section Selector.

Variable pathname : string → option string.
Variable ceilQuota : Z → Z → Z → Z.

Lemma selectByDepth_spec byDepth quotas maxPages depths :
  ∀ selected,
    (∀ d, d ∈ depths → ∃ us, alist_get d byDepth = Some us ∧ us ≠ []) →
    NoDup selected →
    ∃ out,
      selectByDepth byDepth quotas maxPages depths selected = Some out ∧
      NoDup out ∧ selected `prefix_of` out.
Proof.
  induction depths as [|d depths IH]; intros selected Hd Hnd; [by exists selected|].
  cbn [selectByDepth]. case_match; [by exists selected|].
  destruct (Hd d) as (us & Hus & Hne); [left|]. rewrite Hus.
  cbn [mbind option_bind]. cbv zeta.
  set (byBranch := groupBy pu_branch us).
  destruct (roundRobin_spec byBranch (byBranch.*1)) with
    (quota := quotas d) (maxPages := maxPages)
    (fuel := roundRobinFuel byBranch (byBranch.*1)) (selected := selected)
    (added := 0) (i := 0%nat)
    (ptrs := (list_to_map ((λ b, (b, 0%nat)) <$> byBranch.*1) : gmap string nat))
    as (out & Ho & Hnd' & Hpre).
  - intros Hnil%fmap_nil_inv. by apply groupBy_not_nil in Hnil.
  - intros b. apply alist_get_is_Some.
  - intros b Hb. apply not_eq_None_Some.
    intros Hn%not_elem_of_list_to_map. apply Hn. rewrite <- list_fmap_compose.
    replace (fst ∘ (λ b0 : string, (b0, 0%nat))) with (@id string) by done.
    by rewrite list_fmap_id.
  - done.
  - unfold roundRobinFuel. lia.
  - intros _. unfold roundRobinFuel.
    pose proof (unread_le byBranch (byBranch.*1)
      (list_to_map ((λ b, (b, 0%nat)) <$> byBranch.*1))).
    pose proof (gapFrom_le byBranch (byBranch.*1)
      (list_to_map ((λ b, (b, 0%nat)) <$> byBranch.*1))
      (length byBranch.*1) 0%nat).
    nia.
  - rewrite Ho. cbn [mbind option_bind].
    destruct (IH out) as (out' & Ho' & Hnd'' & Hpre'); [|done|].
    { intros d' Hd'. apply Hd. by right. }
    exists out'. split_and!; try done. by etrans.
Qed.

Lemma parseUrl_url (u : string) (p : parsedUrl) :
  parseUrl pathname u = Some p → pu_url p = u.
Proof. unfold parseUrl. destruct (pathname u); [|done]. by intros [= <-]. Qed.

(** C3 (as amended). For a page budget of at least one, the selector
    returns a list of at most [maxPages] urls, pairwise distinct; and when
    some input url parses to depth 0 or to the path [/], the homepage it
    picks (the first such url of the input) is in the list, as its first
    entry. *)
Theorem selectRepresentativeUrls_spec (urls : list string) (maxPages : Z)
    (baseUrl : string) :
  1 ≤ maxPages →
  ∃ out,
    selectRepresentativeUrls pathname ceilQuota urls maxPages baseUrl = Some out ∧
    Z.of_nat (length out) ≤ maxPages ∧
    NoDup out ∧
    (∀ u p, u ∈ urls → parseUrl pathname u = Some p → isHomepage p = true →
       ∃ homepage,
         List.find isHomepage (omap (parseUrl pathname) urls) = Some homepage ∧
         isHomepage homepage = true ∧
         pu_url homepage ∈ urls ∧
         head out = Some (pu_url homepage) ∧
         pu_url homepage ∈ out).
Proof.
  intros Hmax. unfold selectRepresentativeUrls.
  set (parsed := omap (parseUrl pathname) urls).
  set (sel0 := match List.find isHomepage parsed with
               | Some homepage => [pu_url homepage]
               | None => []
               end).
  set (sel1 := if bool_decide (baseUrl ∈ sel0) then sel0 else sel0 ++ [baseUrl]).
  assert (Hnd0 : NoDup sel0).
  { subst sel0. destruct (List.find _ _); [apply NoDup_singleton|constructor]. }
  assert (Hnd1 : NoDup sel1).
  { subst sel1. case_bool_decide as Hin; [done|].
    apply NoDup_app. split_and!; [done| |apply NoDup_singleton].
    by intros x Hx ->%list_elem_of_singleton. }
  assert (Hpre1 : sel0 `prefix_of` sel1).
  { subst sel1. case_bool_decide; [done|]. by apply prefix_app_r. }
  match goal with
  | |- context [selectByDepth ?bd ?q ?m ?ds sel1] =>
      destruct (selectByDepth_spec bd q m ds sel1) as (out & Ho & Hnd & Hpre)
  end; [|done|].
  { intros d Hd. apply groupBy_lookup.
    apply list_elem_of_In. apply list_elem_of_In in Hd.
    revert Hd. apply Permutation_in. apply merge_sort_Permutation. }
  rewrite Ho. cbn [mbind option_bind].
  exists (take (Z.to_nat maxPages) out). split.
  { f_equal. rewrite <- (Z2Nat.id maxPages) at 1 by lia. apply js_slice_prefix. }
  split_and!.
  - rewrite length_take. lia.
  - eapply sublist_NoDup; [exact Hnd|apply sublist_take].
  - intros u p Hu Hp Hhome.
    destruct (List.find isHomepage parsed) as [h|] eqn:Hfind.
    + apply find_some in Hfind as Hh. destruct Hh as [Hhin Hhh].
      apply list_elem_of_In, list_elem_of_omap in Hhin as (u' & Hu' & Hp').
      apply parseUrl_url in Hp' as Hurl. subst u'.
      assert (Hhead : head (take (Z.to_nat maxPages) out) = Some (pu_url h)).
      { assert (Hp0 : [pu_url h] `prefix_of` out) by (by etrans; [|done]).
        destruct Hp0 as [k ->]. destruct (Z.to_nat maxPages) eqn:E; [lia|done]. }
      exists h. split_and!; try done.
      destruct (take _ out); [done|]. cbn in Hhead. injection Hhead as ->. left.
    + exfalso. eapply find_none in Hfind; [by rewrite Hhome in Hfind|].
      apply list_elem_of_In, list_elem_of_omap. eauto.
Qed.

End Selector.

(** A parser for urls of the form [https://host/path], enough for the
    examples: the path starts at the first [/] after the host. *)
Definition sample_pathname (u : string) : option string :=
  if String.prefix "https://" u then
    let rest := String.substring 8 (String.length u - 8) u in
    Some (match String.index 0 "/" rest with
          | Some i => String.substring i (String.length rest - i) rest
          | None => "/"
          end)
  else None.

Definition sample_hostname (u : string) : option string :=
  if String.prefix "https://" u then
    let rest := String.substring 8 (String.length u - 8) u in
    Some (match String.index 0 "/" rest with
          | Some i => String.substring 0 i rest
          | None => rest
          end)
  else None.

(** The quota in exact arithmetic. *)
Definition exact_ceil (weight totalWeight remaining : Z) : Z :=
  - ((- (weight * remaining)) / totalWeight).

Definition sample_site : list string :=
  ["https://example.com/"; "https://example.com/a/"; "https://example.com/a/x/";
   "https://example.com/a/y/"; "https://example.com/b/"; "https://example.com/b/z/"].

(** C3 (as stated) fails: only the first url that parses to depth 0 or to
    the path [/] is pushed as the homepage.  A second one is a candidate
    of depth 0 like any other, and with a budget of one the loop over the
    depths ends before it is looked at: it is not in the output, whatever
    the quotas are. *)
Lemma selectRepresentativeUrls_drops_homepage :
  ∃ p,
    parseUrl sample_pathname "https://example.com/" = Some p ∧
    isHomepage p = true ∧
    "https://example.com/" ∈ ["https://example.com"; "https://example.com/"] ∧
    (∀ ceilQuota : Z → Z → Z → Z,
       selectRepresentativeUrls sample_pathname ceilQuota
         ["https://example.com"; "https://example.com/"] 1
         "https://example.com" = Some ["https://example.com"]) ∧
    "https://example.com/" ∉ ["https://example.com"].
Proof.
  eexists. split; [reflexivity|]. split; [reflexivity|].
  split; [by right; left|]. split; [intros ceilQuota; vm_compute; reflexivity|].
  by intros [=]%list_elem_of_singleton.
Qed.

Lemma selectRepresentativeUrls_spec_witness :
  1 ≤ 10 ∧
  ∃ out,
    selectRepresentativeUrls sample_pathname exact_ceil sample_site 10
      "https://example.com" = Some out ∧
    Z.of_nat (length out) ≤ 10 ∧ NoDup out ∧
    head out = Some "https://example.com/".
Proof.
  split; [lia|].
  destruct (selectRepresentativeUrls_spec sample_pathname exact_ceil sample_site
              10 "https://example.com" ltac:(lia))
    as (out & Ho & Hlen & Hnd & Hhome).
  exists out. split; [exact Ho|]. split; [exact Hlen|]. split; [exact Hnd|].
  destruct (Hhome "https://example.com/"
              (ParsedUrl "https://example.com/" "/" 0 "_root_" []))
    as (h & Hfind & _ & _ & Hhead & _).
  - left.
  - reflexivity.
  - reflexivity.
  - vm_compute in Hfind. injection Hfind as <-. exact Hhead.
Defined.

(** * Store level: objects with identity *)

Module Store.

Abbreviation addr := nat.

(** A node object; its [children] and [hiddenChildren] arrays hold
    references. *)
Record obj := Obj {
  o_name : string;
  o_url : option string;
  o_path : string;
  o_children : list addr;
  o_screenshot : option string;
  o_isEllipsis : bool;
  o_hiddenChildren : list addr;
  o_parentPath : option string;
  o_expandBatchSize : option Z }.

(** The heap: the object at address [a] is the [a]-th element; a new
    object is appended. *)
Abbreviation heap := (list obj).

Definition set_o_children (o : obj) (cs : list addr) : obj :=
  Obj (o_name o) (o_url o) (o_path o) cs (o_screenshot o) (o_isEllipsis o)
      (o_hiddenChildren o) (o_parentPath o) (o_expandBatchSize o).

Definition set_o_url (o : obj) (u : option string) : obj :=
  Obj (o_name o) u (o_path o) (o_children o) (o_screenshot o) (o_isEllipsis o)
      (o_hiddenChildren o) (o_parentPath o) (o_expandBatchSize o).

(** [JSON.stringify]: the tree value read from address [a].  [None] when
    the fuel runs out (a cycle) or a reference dangles. *)
Fixpoint reify (fuel : nat) (h : heap) (a : addr) : option node :=
  match fuel with
  | O => None
  | S fuel =>
      o ← h !! a;
      cs ← mapM (reify fuel h) (o_children o);
      hc ← mapM (reify fuel h) (o_hiddenChildren o);
      Some (Node (o_name o) (o_url o) (o_path o) cs (o_screenshot o)
              (o_isEllipsis o) hc (o_parentPath o) (o_expandBatchSize o))
  end.

(** A loop over an array that threads the heap: [f] is run on each element
    in turn, the results are collected. *)
Definition mapAlloc {A} (f : A → heap → heap * addr)
    : list A → heap → heap * list addr :=
  fix go (l : list A) (h : heap) : heap * list addr :=
    match l with
    | [] => (h, [])
    | x :: l' =>
        let '(h, a) := f x h in
        let '(h, l'') := go l' h in
        (h, a :: l'')
    end.

Definition mapHeap (f : addr → heap → option (heap * addr))
    : list addr → heap → option (heap * list addr) :=
  fix go (l : list addr) (h : heap) : option (heap * list addr) :=
    match l with
    | [] => Some (h, [])
    | x :: l' =>
        '(h, a) ← f x h;
        '(h, l'') ← go l' h;
        Some (h, a :: l'')
    end.

(** [JSON.parse]: fresh objects for a tree value; the address of its root
    is returned. *)
Fixpoint alloc (n : node) (h : heap) : heap * addr :=
  let '(h, cs) := mapAlloc alloc (children n) h in
  let '(h, hc) := mapAlloc alloc (hiddenChildren n) h in
  (h ++ [Obj (name n) (url n) (path n) cs (screenshot n) (isEllipsis n) hc
           (parentPath n) (expandBatchSize n)],
   length h).

(** ** collapseTree on the store (report.js) *)

(** The ellipsis object literal. *)
Definition mkEllipsisObj (ownerPath : string) (hidden : list addr) : obj :=
  Obj ("... +" +:+ pretty (length hidden) +:+ " more") None
      (ownerPath +:+ "_more/") [] None true hidden (Some ownerPath) (Some 5).

(** [collapseTree(node, maxChildren)]: mutates the object at [a] and
    returns it. *)
Fixpoint collapseTree (fuel : nat) (maxChildren : Z) (a : addr) (h : heap)
    : option (heap * addr) :=
  match fuel with
  | O => None
  | S fuel =>
      node ← h !! a;
      match o_children node with
      | [] => Some (h, a)
      | _ =>
          '(h, cs) ← mapHeap (collapseTree fuel maxChildren) (o_children node) h;
          node ← h !! a;
          let h := <[a := set_o_children node cs]> h in
          if Z.of_nat (length cs) >? maxChildren then
            let visibleCount := maxChildren - 1 in
            let visibleChildren := js_slice cs 0 visibleCount in
            let hiddenChildren := js_slice_from cs visibleCount in
            node ← h !! a;
            let ellipsis := length h in
            let h := h ++ [mkEllipsisObj (o_path node) hiddenChildren] in
            Some (<[a := set_o_children node (visibleChildren ++ [ellipsis])]> h, a)
          else Some (h, a)
      end
  end.

(** [renderTree]: [currentTreeData = collapseTree(JSON.parse(
    JSON.stringify(data)), 5)]. *)
Definition renderTree (fuel : nat) (h : heap) (data : addr)
    : option (heap * addr) :=
  t ← reify fuel h data;
  let '(h, copy) := alloc t h in
  collapseTree fuel 5 copy h.

(** ** Representation: which objects make up a tree *)

(** A tree of objects: each node records its address and the object stored
    there. *)
#[local] Unset Elimination Schemes.
Inductive atree : Type :=
  ANode {
    at_addr : addr;
    at_obj : obj;
    at_children : list atree;
    at_hidden : list atree }.
#[local] Set Elimination Schemes.

Section atree_induction.
Variable P : atree → Prop.
Hypothesis Hnode : ∀ a o cs hs, Forall P cs → Forall P hs → P (ANode a o cs hs).

Fixpoint atree_ind (T : atree) : P T :=
  match T with
  | ANode a o cs hs =>
      Hnode a o cs hs
        ((fix go (l : list atree) : Forall P l :=
            match l with
            | [] => Forall_nil_2 P
            | x :: l' => Forall_cons_2 P x l' (atree_ind x) (go l')
            end) cs)
        ((fix go (l : list atree) : Forall P l :=
            match l with
            | [] => Forall_nil_2 P
            | x :: l' => Forall_cons_2 P x l' (atree_ind x) (go l')
            end) hs)
  end.
End atree_induction.

(** The tree value of a tree of objects. *)
Fixpoint erase (T : atree) : node :=
  Node (o_name (at_obj T)) (o_url (at_obj T)) (o_path (at_obj T))
       (erase <$> at_children T) (o_screenshot (at_obj T))
       (o_isEllipsis (at_obj T)) (erase <$> at_hidden T)
       (o_parentPath (at_obj T)) (o_expandBatchSize (at_obj T)).

(** The addresses a tree of objects occupies. *)
Fixpoint cells (T : atree) : list addr :=
  at_addr T :: (at_children T ≫= cells) ++ (at_hidden T ≫= cells).

(** The heap holds the tree of objects [T]. *)
#[local] Unset Elimination Schemes.
Inductive arepr (h : heap) : atree → Prop :=
  | arepr_node (T : atree) :
      h !! at_addr T = Some (at_obj T) →
      o_children (at_obj T) = at_addr <$> at_children T →
      o_hiddenChildren (at_obj T) = at_addr <$> at_hidden T →
      Forall (arepr h) (at_children T) →
      Forall (arepr h) (at_hidden T) →
      arepr h T.
#[local] Set Elimination Schemes.

(** Nesting depth through [children] and [hiddenChildren], and through
    [children] only. *)
Fixpoint height (n : node) : nat :=
  S (max_list (height <$> children n) `max` max_list (height <$> hiddenChildren n)).

Fixpoint depth (n : node) : nat :=
  S (max_list (depth <$> children n)).

Lemma arepr_frame (h h' : heap) (T : atree) :
  arepr h T → (∀ b, b ∈ cells T → h' !! b = h !! b) → arepr h' T.
Proof.
  induction T as [a o cs hs IHc IHh] using atree_ind. intros Hr Hf.
  inversion_clear Hr as [? Ha Hcs Hhs Hrc Hrh]. cbn in *.
  constructor; cbn; try done.
  - rewrite Hf; [done|left].
  - rewrite Forall_forall in IHc, Hrc |- *. intros c Hc.
    apply IHc; [done|by apply Hrc|].
    intros b Hb. apply Hf. right. apply elem_of_app. left.
    apply list_elem_of_bind. eauto.
  - rewrite Forall_forall in IHh, Hrh |- *. intros c Hc.
    apply IHh; [done|by apply Hrh|].
    intros b Hb. apply Hf. right. apply elem_of_app. right.
    apply list_elem_of_bind. eauto.
Qed.

Lemma arepr_lt (h : heap) (T : atree) :
  arepr h T → ∀ b, b ∈ cells T → (b < length h)%nat.
Proof.
  induction T as [a o cs hs IHc IHh] using atree_ind. intros Hr b Hb.
  inversion_clear Hr as [? Ha Hcs Hhs Hrc Hrh]. cbn in *.
  rewrite Forall_forall in IHc, IHh, Hrc, Hrh.
  apply elem_of_cons in Hb as [->|Hb]; [by eapply lookup_lt_Some|].
  apply elem_of_app in Hb as [Hb|Hb];
    apply list_elem_of_bind in Hb as (c & Hb & Hc).
  - by apply (IHc c Hc (Hrc c Hc)).
  - by apply (IHh c Hc (Hrh c Hc)).
Qed.

Lemma arepr_app (h k : heap) (T : atree) : arepr h T → arepr (h ++ k) T.
Proof.
  intros Hr. apply (arepr_frame h); [done|].
  intros b Hb. apply lookup_app_l. by eapply arepr_lt.
Qed.

Lemma Forall_arepr_frame (h h' : heap) (l : list atree) :
  Forall (arepr h) l → (∀ b, b ∈ l ≫= cells → h' !! b = h !! b) →
  Forall (arepr h') l.
Proof.
  rewrite !Forall_forall. intros Hr Hf c Hc.
  apply (arepr_frame h); [by apply Hr|].
  intros b Hb. apply Hf. apply list_elem_of_bind. eauto.
Qed.

Lemma Forall_arepr_lt (h : heap) (l : list atree) :
  Forall (arepr h) l → ∀ b, b ∈ l ≫= cells → (b < length h)%nat.
Proof.
  rewrite Forall_forall. intros Hr b (c & Hb & Hc)%list_elem_of_bind.
  by eapply arepr_lt; [apply Hr|].
Qed.

Lemma max_list_le (l : list nat) (m : nat) :
  Forall (λ x, x ≤ m)%nat l → (max_list l ≤ m)%nat.
Proof. induction 1; cbn; lia. Qed.

Lemma arepr_reify (h : heap) (T : atree) :
  arepr h T → ∀ fuel, (height (erase T) ≤ fuel)%nat →
  reify fuel h (at_addr T) = Some (erase T).
Proof.
  induction T as [a o cs hs IHc IHh] using atree_ind. intros Hr fuel Hfuel.
  inversion_clear Hr as [? Ha Hcs Hhs Hrc Hrh]. cbn in *.
  destruct fuel as [|fuel]; [lia|]. cbn. rewrite Ha. cbn.
  assert (Hmap : ∀ l, Forall (λ T, arepr h T → ∀ fuel,
                    (height (erase T) ≤ fuel)%nat →
                    reify fuel h (at_addr T) = Some (erase T)) l →
            Forall (arepr h) l →
            (max_list (height <$> (erase <$> l)) ≤ fuel)%nat →
            mapM (reify fuel h) (at_addr <$> l) = Some (erase <$> l)).
  { intros l IH Hl Hm. apply mapM_Some, Forall2_fmap.
    apply Forall_Forall2_diag. rewrite Forall_forall in IH, Hl |- *.
    intros c Hc. apply IH; [done|by apply Hl|].
    etrans; [|exact Hm]. apply max_list_elem_of_le.
    apply list_elem_of_fmap. exists (erase c). split; [done|].
    apply list_elem_of_fmap. eauto. }
  rewrite Hcs, Hhs, (Hmap cs), (Hmap hs); try done; lia.
Qed.

Lemma reify_height (fuel : nat) (h : heap) (a : addr) (t : node) :
  reify fuel h a = Some t → (height t ≤ fuel)%nat.
Proof.
  revert a t. induction fuel as [|fuel IH]; intros a t; [done|]. cbn.
  destruct (h !! a) as [o|]; [|done]. cbn.
  destruct (mapM _ (o_children o)) as [cs|] eqn:Hcs; [|done]. cbn.
  destruct (mapM _ (o_hiddenChildren o)) as [hc|] eqn:Hhc; [|done]. cbn.
  intros [= <-]. cbn.
  assert (Hm : ∀ l k, mapM (reify fuel h) l = Some k →
                 (max_list (height <$> k) ≤ fuel)%nat).
  { intros l k Hk%mapM_Some. apply max_list_le, Forall_fmap.
    induction Hk; constructor; eauto. }
  apply Hm in Hcs, Hhc. lia.
Qed.

Lemma mapM_reify_mono (f g : addr → option node) (l : list addr) (k : list node) :
  (∀ a t, f a = Some t → g a = Some t) →
  mapM f l = Some k → mapM g l = Some k.
Proof.
  intros Hfg Hk%mapM_Some. apply mapM_Some. induction Hk; constructor; eauto.
Qed.

Lemma reify_heap_mono (fuel : nat) (h h' : heap) (a : addr) (t : node) :
  (∀ b o, h !! b = Some o → h' !! b = Some o) →
  reify fuel h a = Some t → reify fuel h' a = Some t.
Proof.
  intros Hh. revert a t. induction fuel as [|fuel IH]; intros a t Hr; [done|].
  cbn [reify] in *.
  destruct (h !! a) as [o|] eqn:Ha; [|done]. rewrite (Hh _ _ Ha).
  cbn [mbind option_bind] in *.
  destruct (mapM _ (o_children o)) as [cs|] eqn:Hcs; [|done].
  rewrite (mapM_reify_mono _ _ _ _ IH Hcs). cbn [mbind option_bind] in *.
  destruct (mapM _ (o_hiddenChildren o)) as [hc|] eqn:Hhc; [|done].
  by rewrite (mapM_reify_mono _ _ _ _ IH Hhc).
Qed.

(** [JSON.parse] builds a fresh tree of objects for the value. *)
Definition alloc_ok (n : node) : Prop :=
  ∀ h, ∃ T k,
    alloc n h = (h ++ k, at_addr T) ∧ arepr (h ++ k) T ∧ erase T = n ∧
    NoDup (cells T) ∧ ∀ b, b ∈ cells T → (length h ≤ b)%nat.

Lemma mapAlloc_spec (l : list node) :
  Forall alloc_ok l →
  ∀ h, ∃ Ts k,
    mapAlloc alloc l h = (h ++ k, at_addr <$> Ts) ∧
    Forall (arepr (h ++ k)) Ts ∧ erase <$> Ts = l ∧
    NoDup (Ts ≫= cells) ∧ ∀ b, b ∈ Ts ≫= cells → (length h ≤ b)%nat.
Proof.
  induction 1 as [|n l Hn _ IH]; intros h.
  - exists [], []. rewrite app_nil_r. split_and!; try done; try constructor.
    by intros b ?%elem_of_nil.
  - destruct (Hn h) as (T & k1 & Ha & Hr & He & Hnd & Hge).
    destruct (IH (h ++ k1)) as (Ts & k2 & Hm & Hrs & Hes & Hnds & Hges).
    exists (T :: Ts), (k1 ++ k2). cbn [mapAlloc]. fold (mapAlloc alloc).
    rewrite Ha, Hm, app_assoc. split_and!.
    + done.
    + constructor; [by apply arepr_app|done].
    + cbn. by rewrite He, Hes.
    + cbn. apply NoDup_app. split_and!; [done| |done].
      intros b Hb Hb'. apply Hges in Hb'.
      apply (arepr_lt _ _ Hr) in Hb. lia.
    + cbn. intros b [Hb|Hb]%elem_of_app; [by apply Hge|].
      apply Hges in Hb. rewrite length_app in Hb. lia.
Qed.

Lemma alloc_spec (n : node) : alloc_ok n.
Proof.
  induction n as [nm u p cs sc e hc pp bs IHc IHh] using node_ind. intros h.
  destruct (mapAlloc_spec cs IHc h) as (Tc & k1 & Hmc & Hrc & Hec & Hndc & Hgec).
  destruct (mapAlloc_spec hc IHh (h ++ k1))
    as (Th & k2 & Hmh & Hrh & Heh & Hndh & Hgeh).
  set (o := Obj nm u p (at_addr <$> Tc) sc e (at_addr <$> Th) pp bs).
  exists (ANode (length (h ++ k1 ++ k2)) o Tc Th), (k1 ++ k2 ++ [o]).
  cbn [alloc children hiddenChildren name url path screenshot isEllipsis
       parentPath expandBatchSize].
  rewrite Hmc, Hmh. cbn [at_addr].
  assert (Hlen : ∀ b, b ∈ (Tc ≫= cells) ++ (Th ≫= cells) →
                   (length h ≤ b < length (h ++ k1 ++ k2))%nat).
  { intros b [Hb|Hb]%elem_of_app.
    - split; [by apply Hgec|]. apply (Forall_arepr_lt _ _ Hrc) in Hb.
      rewrite !length_app in *. lia.
    - apply Hgeh in Hb as Hb1. apply (Forall_arepr_lt _ _ Hrh) in Hb.
      rewrite !length_app in *. lia. }
  assert (Happ : h ++ k1 ++ k2 ++ [o] = (h ++ k1 ++ k2) ++ [o])
    by (by rewrite <- !app_assoc).
  assert (Happ' : (h ++ k1) ++ k2 = h ++ k1 ++ k2) by (by rewrite <- app_assoc).
  rewrite Happ' in *. rewrite Happ.
  split_and!.
  - done.
  - constructor; cbn.
    + by apply list_lookup_middle.
    + done.
    + done.
    + apply Forall_arepr_frame with (h := h ++ k1); [done|].
      intros b Hb. rewrite (app_assoc h k1 k2), <- app_assoc.
      apply lookup_app_l. by eapply Forall_arepr_lt.
    + by apply Forall_arepr_frame with (h := h ++ k1 ++ k2);
        [|intros b Hb; apply lookup_app_l; eapply Forall_arepr_lt].
  - cbn. by rewrite Hec, Heh.
  - cbn. constructor.
    + intros Hb%Hlen. lia.
    + apply NoDup_app. split_and!; [done| |done].
      intros b Hb Hb'. apply Hgeh in Hb'.
      apply (Forall_arepr_lt _ _ Hrc) in Hb. lia.
  - cbn. intros b [->|Hb%Hlen]%elem_of_cons; [|lia].
    rewrite !length_app. lia.
Qed.

End Store.

(** ** collapseTree on the store computes collapseTree on values *)

Lemma store_collapseTree_leaf (fuel : nat) (a : Store.addr) (h : Store.heap)
    (o : Store.obj) :
  h !! a = Some o → Store.o_children o = [] →
  Store.collapseTree (S fuel) 5 a h = Some (h, a).
Proof. intros Ha Hc. cbn. rewrite Ha. cbn. by rewrite Hc. Qed.

Lemma store_collapseTree_eq (fuel : nat) (a : Store.addr) (h : Store.heap)
    (o : Store.obj) :
  h !! a = Some o → Store.o_children o ≠ [] →
  Store.collapseTree (S fuel) 5 a h =
    match Store.mapHeap (Store.collapseTree fuel 5) (Store.o_children o) h with
    | Some (h, cs) =>
        match h !! a with
        | Some node =>
            let h := <[a := Store.set_o_children node cs]> h in
            if decide (5 < length cs)%nat then
              match h !! a with
              | Some node =>
                  Some (<[a := Store.set_o_children node (take 4 cs ++ [length h])]>
                          (h ++ [Store.mkEllipsisObj (Store.o_path node) (drop 4 cs)]),
                        a)
              | None => None
              end
            else Some (h, a)
        | None => None
        end
    | None => None
    end.
Proof.
  intros Ha Hc. cbn [Store.collapseTree]. rewrite Ha. cbn [mbind option_bind].
  destruct (Store.o_children o) as [|c cs] eqn:Hcs; [done|].
  destruct (Store.mapHeap _ _ _) as [[h1 cs1]|]; [|done]. cbn [mbind option_bind].
  destruct (h1 !! a) as [node|]; [|done]. cbn [mbind option_bind]. cbv zeta.
  destruct (decide (5 < length cs1)%nat) as [H|H].
  - replace (Z.of_nat (length cs1) >? 5) with true
      by (symmetry; rewrite Z.gtb_ltb; apply Z.ltb_lt; lia).
    change (5 - 1) with (Z.of_nat 4).
    rewrite js_slice_prefix, js_slice_suffix.
    by destruct (_ !! a).
  - by replace (Z.of_nat (length cs1) >? 5) with false
      by (symmetry; rewrite Z.gtb_ltb; apply Z.ltb_ge; lia).
Qed.

(** Collapsing the tree of objects [T] in place succeeds, leaves a tree of
    objects whose value is the collapsed value, and touches nothing
    outside [T]. *)
Definition collapse_ok (T : Store.atree) : Prop :=
  ∀ (h : Store.heap) (fuel : nat),
    Store.arepr h T → NoDup (Store.cells T) →
    (Store.depth (Store.erase T) ≤ fuel)%nat →
    ∃ h' T',
      Store.collapseTree fuel 5 (Store.at_addr T) h = Some (h', Store.at_addr T) ∧
      Store.arepr h' T' ∧
      Store.at_addr T' = Store.at_addr T ∧
      Store.erase T' = collapseTree 5 (Store.erase T) ∧
      NoDup (Store.cells T') ∧
      (∀ b, b ∈ Store.cells T' → b ∈ Store.cells T ∨ (length h ≤ b)%nat) ∧
      (∀ b, (b < length h)%nat → b ∉ Store.cells T → h' !! b = h !! b) ∧
      (length h ≤ length h')%nat.

Lemma mapHeap_collapse (fuel : nat) (cs : list Store.atree) :
  Forall collapse_ok cs →
  ∀ h : Store.heap,
    Forall (Store.arepr h) cs → NoDup (cs ≫= Store.cells) →
    Forall (λ c, Store.depth (Store.erase c) ≤ fuel)%nat cs →
    ∃ h' cs',
      Store.mapHeap (Store.collapseTree fuel 5) (Store.at_addr <$> cs) h
        = Some (h', Store.at_addr <$> cs) ∧
      Forall (Store.arepr h') cs' ∧
      Store.at_addr <$> cs' = Store.at_addr <$> cs ∧
      Store.erase <$> cs' = (collapseTree 5 <$> (Store.erase <$> cs)) ∧
      NoDup (cs' ≫= Store.cells) ∧
      (∀ b, b ∈ cs' ≫= Store.cells →
            b ∈ cs ≫= Store.cells ∨ (length h ≤ b)%nat) ∧
      (∀ b, (b < length h)%nat → b ∉ cs ≫= Store.cells → h' !! b = h !! b) ∧
      (length h ≤ length h')%nat.
Proof.
  induction 1 as [|c cs Hc _ IH]; intros h Hr Hnd Hd.
  - exists h, []. split_and!; try done. by intros b ?%elem_of_nil.
  - apply Forall_cons in Hr as [Hrc Hrs]. apply Forall_cons in Hd as [Hdc Hds].
    cbn [mbind list_bind] in Hnd.
    apply NoDup_app in Hnd as (Hndc & Hdisj & Hnds).
    destruct (Hc h fuel Hrc Hndc Hdc)
      as (h1 & c' & Hrun & Hrc' & Hac & Hec & Hndc' & Hin & Hfr & Hlen).
    assert (Hrs1 : Forall (Store.arepr h1) cs).
    { apply (Store.Forall_arepr_frame h); [done|]. intros b Hb.
      apply Hfr; [by eapply Store.Forall_arepr_lt|].
      intros Hb'. by apply (Hdisj b). }
    destruct (IH h1 Hrs1 Hnds Hds)
      as (h2 & cs' & Hruns & Hrs' & Has & Hes & Hnds' & Hins & Hfrs & Hlens).
    exists h2, (c' :: cs'). cbn [fmap list_fmap Store.mapHeap].
    fold (Store.mapHeap (Store.collapseTree fuel 5)).
    rewrite Hrun. cbn [mbind option_bind].
    change (list_fmap _ _ Store.at_addr cs) with (Store.at_addr <$> cs).
    rewrite Hruns. cbn [mbind option_bind].
    assert (Hc'lt : ∀ b, b ∈ Store.cells c' → (b < length h1)%nat)
      by (intros b; by apply Store.arepr_lt).
    assert (Hcslt : ∀ b, b ∈ cs ≫= Store.cells → (b < length h)%nat)
      by (intros b; by apply Store.Forall_arepr_lt).
    assert (Hclt : ∀ b, b ∈ Store.cells c → (b < length h)%nat)
      by (intros b; by apply Store.arepr_lt).
    split_and!.
    + done.
    + constructor; [|done]. apply (Store.arepr_frame h1); [done|].
      intros b Hb. apply Hfrs; [by apply Hc'lt|].
      intros Hb'. destruct (Hin b Hb) as [Hb1|Hb1].
      * by apply (Hdisj b).
      * apply Hcslt in Hb'. lia.
    + change (Store.at_addr c' :: (Store.at_addr <$> cs') =
              Store.at_addr c :: (Store.at_addr <$> cs)). by rewrite Hac, Has.
    + change (Store.erase c' :: (Store.erase <$> cs') =
              collapseTree 5 (Store.erase c)
                :: (collapseTree 5 <$> (Store.erase <$> cs))).
      by rewrite Hec, Hes.
    + cbn [mbind list_bind]. apply NoDup_app. split_and!; [done| |done].
      intros b Hb Hb'. destruct (Hin b Hb) as [Hb1|Hb1];
        destruct (Hins b Hb') as [Hb2|Hb2].
      * by apply (Hdisj b).
      * apply Hclt in Hb1. lia.
      * apply Hcslt in Hb2. lia.
      * apply Hc'lt in Hb. lia.
    + cbn [mbind list_bind]. intros b [Hb|Hb]%elem_of_app.
      * destruct (Hin b Hb); [left; apply elem_of_app; by left|by right].
      * destruct (Hins b Hb); [left; apply elem_of_app; by right|right; lia].
    + cbn [mbind list_bind]. intros b Hb Hnin.
      rewrite Hfrs, Hfr; [done|done| |lia|].
      * intros ?. apply Hnin, elem_of_app. by left.
      * intros ?. apply Hnin, elem_of_app. by right.
    + lia.
Qed.

Lemma set_o_children_id (o : Store.obj) :
  Store.set_o_children o (Store.o_children o) = o.
Proof. by destruct o. Qed.

Lemma depth_children (n c : node) :
  c ∈ children n → (Store.depth c < Store.depth n)%nat.
Proof.
  intros Hc. destruct n; cbn in *. apply Nat.lt_succ_r.
  apply max_list_elem_of_le, list_elem_of_fmap. eauto.
Qed.

Lemma collapse_sim (T : Store.atree) : collapse_ok T.
Proof.
  induction T as [a o cs hs IHc _] using Store.atree_ind.
  intros h fuel Hr Hnd Hfuel.
  inversion_clear Hr as [? Ha Hcs Hhs Hrc Hrh]. cbn [Store.at_addr Store.at_obj
    Store.at_children Store.at_hidden] in *.
  destruct fuel as [|fuel]; [cbn in Hfuel; lia|].
  destruct (decide (cs = [])) as [->|Hne].
  { (* no children: the node is returned as it is *)
    exists h, (Store.ANode a o [] hs). split_and!; try done.
    - by apply store_collapseTree_leaf with (o := o).
    - intros b ?. by left. }
  cbn [Store.cells Store.at_addr Store.at_children Store.at_hidden] in Hnd.
  apply NoDup_cons in Hnd as [Hna Hnd].
  apply NoDup_app in Hnd as (Hndc & Hdisj & Hndh).
  assert (Hdc : Forall (λ c, Store.depth (Store.erase c) ≤ fuel)%nat cs).
  { apply Forall_forall. intros c Hc. apply Nat.lt_succ_r.
    eapply Nat.lt_le_trans; [|exact Hfuel]. apply depth_children. cbn.
    apply list_elem_of_fmap. eauto. }
  destruct (mapHeap_collapse fuel cs IHc h Hrc Hndc Hdc)
    as (h1 & cs' & Hrun & Hrc' & Has & Hes & Hndc' & Hin & Hfr & Hlen).
  assert (Halt : (a < length h)%nat) by (by eapply lookup_lt_Some).
  assert (Ha1 : h1 !! a = Some o).
  { rewrite Hfr; [done|done|]. intros ?. apply Hna, elem_of_app. by left. }
  assert (Hcs'lt : ∀ b, b ∈ cs' ≫= Store.cells → (b < length h1)%nat)
    by (intros b; by apply Store.Forall_arepr_lt).
  assert (Hcs'a : ∀ b, b ∈ cs' ≫= Store.cells → b ≠ a).
  { intros b Hb ->. destruct (Hin a Hb); [|lia].
    apply Hna, elem_of_app. by left. }
  assert (Hhs1 : ∀ b, b ∈ hs ≫= Store.cells →
                   (b < length h)%nat ∧ b ≠ a ∧ h1 !! b = h !! b).
  { intros b Hb. assert (b < length h)%nat by (by eapply Store.Forall_arepr_lt).
    split_and!; [done| |].
    - intros ->. apply Hna, elem_of_app. by right.
    - apply Hfr; [done|]. intros ?. by apply (Hdisj b). }
  assert (Hlencs : length cs' = length cs).
  { by rewrite <- (length_fmap Store.at_addr cs'), Has, length_fmap. }
  rewrite (store_collapseTree_eq fuel a h o Ha)
    by (rewrite Hcs; by intros ?%fmap_nil_inv).
  rewrite Hcs, Hrun, Ha1. cbv zeta.
  rewrite <- Hcs, set_o_children_id, (list_insert_id h1 a o Ha1), Hcs.
  rewrite length_fmap.
  destruct (decide (5 < length cs)%nat) as [Hbig|Hsmall].
  - (* more than five children: an ellipsis object is allocated *)
    rewrite Ha1.
    set (e := length h1).
    set (E := Store.mkEllipsisObj (Store.o_path o) (drop 4 (Store.at_addr <$> cs))).
    set (o4 := Store.set_o_children o (take 4 (Store.at_addr <$> cs) ++ [e])).
    set (h4 := <[a := o4]> (h1 ++ [E])).
    assert (Hh4 : ∀ b, (b < length h1)%nat → b ≠ a → h4 !! b = h1 !! b).
    { intros b Hb Hba. unfold h4.
      rewrite list_lookup_insert_ne by done. by apply lookup_app_l. }
    assert (Hrc4 : Forall (Store.arepr h4) cs').
    { apply (Store.Forall_arepr_frame h1); [done|]. intros b Hb.
      apply Hh4; [by apply Hcs'lt|by apply Hcs'a]. }
    exists h4, (Store.ANode a o4 (take 4 cs' ++ [Store.ANode e E [] (drop 4 cs')]) hs).
    split_and!.
    + done.
    + constructor; cbn [Store.at_addr Store.at_obj Store.at_children
                        Store.at_hidden].
      * unfold h4. apply list_lookup_insert_eq. rewrite length_app. cbn. lia.
      * unfold o4. cbn. rewrite fmap_app, fmap_take, Has. done.
      * unfold o4. cbn. done.
      * apply Forall_app. split; [by apply Forall_take|].
        apply Forall_singleton. constructor; cbn [Store.at_addr Store.at_obj
          Store.at_children Store.at_hidden].
        -- unfold h4. rewrite list_lookup_insert_ne by (unfold e; lia).
           by apply list_lookup_middle.
        -- done.
        -- unfold E. cbn. by rewrite fmap_drop, Has.
        -- constructor.
        -- by apply Forall_drop.
      * apply (Store.Forall_arepr_frame h); [done|]. intros b Hb.
        destruct (Hhs1 b Hb) as (Hb1 & Hb2 & Hb3).
        rewrite Hh4 by (done || lia). done.
    + done.
    + rewrite collapseTree_5_eq. cbn [Store.erase Store.at_obj Store.at_children
        Store.at_hidden children path]. cbv zeta.
      rewrite <- Hes. rewrite length_fmap, Hlencs.
      destruct (decide (5 < length cs)%nat); [|done].
      unfold set_children. cbn. f_equal.
      rewrite fmap_app, fmap_take. f_equal. cbn. f_equal.
      unfold mkEllipsis, E, Store.mkEllipsisObj. cbn.
      rewrite fmap_drop. f_equal.
      by rewrite !length_drop, !length_fmap, Hlencs.
    + cbn [Store.cells Store.at_addr Store.at_children Store.at_hidden].
      rewrite bind_app. cbn [mbind list_bind Store.cells Store.at_addr
        Store.at_children Store.at_hidden app].
      rewrite app_nil_r.
      assert (Hperm : (take 4 cs' ≫= Store.cells) ++ e :: (drop 4 cs' ≫= Store.cells)
                      ≡ₚ e :: (cs' ≫= Store.cells)).
      { rewrite <- Permutation_middle. constructor.
        by rewrite <- bind_app, take_drop. }
      rewrite Hperm. cbn [app].
      constructor.
      * intros [Hae|[Hb|Hb]%elem_of_app]%elem_of_cons.
        -- unfold e in Hae. lia.
        -- by apply (Hcs'a a).
        -- by apply Hhs1 in Hb as (_ & ? & _).
      * constructor.
        -- intros [Hb|Hb]%elem_of_app.
           ++ apply Hcs'lt in Hb. unfold e in Hb. lia.
           ++ apply Hhs1 in Hb as (Hb & _). unfold e in Hb. lia.
        -- apply NoDup_app. split_and!; [done| |done].
           intros b Hb Hb'. destruct (Hin b Hb) as [Hb1|Hb1].
           ++ by apply (Hdisj b).
           ++ apply Hhs1 in Hb' as (? & _). lia.
    + cbn [Store.cells Store.at_addr Store.at_children Store.at_hidden].
      intros b [->|[Hb|Hb]%elem_of_app]%elem_of_cons.
      * left. left.
      * rewrite bind_app in Hb. apply elem_of_app in Hb as [Hb|Hb].
        -- assert (Hb' : b ∈ cs' ≫= Store.cells).
           { apply list_elem_of_bind in Hb as (c & Hb & Hc%subseteq_take).
             apply list_elem_of_bind. eauto. }
           destruct (Hin b Hb'); [left; right; apply elem_of_app; by left|by right].
        -- cbn in Hb. rewrite app_nil_r in Hb.
           apply elem_of_cons in Hb as [->|Hb]; [right; unfold e; lia|].
           assert (Hb' : b ∈ cs' ≫= Store.cells).
           { apply list_elem_of_bind in Hb as (c & Hb & Hc%subseteq_drop).
             apply list_elem_of_bind. eauto. }
           destruct (Hin b Hb'); [left; right; apply elem_of_app; by left|by right].
      * left. right. apply elem_of_app. by right.
    + cbn [Store.cells Store.at_addr Store.at_children Store.at_hidden].
      intros b Hb Hnin. rewrite Hh4; [|lia|].
      * apply Hfr; [done|]. intros ?. apply Hnin. right. apply elem_of_app. by left.
      * intros ->. apply Hnin. left.
    + unfold h4. rewrite length_insert, length_app. lia.
  - (* at most five children *)
    exists h1, (Store.ANode a o cs' hs). split_and!.
    + done.
    + constructor; cbn [Store.at_addr Store.at_obj Store.at_children
                        Store.at_hidden]; try done.
      * by rewrite Has.
      * apply (Store.Forall_arepr_frame h); [done|]. intros b Hb.
        by destruct (Hhs1 b Hb) as (_ & _ & ?).
    + done.
    + rewrite collapseTree_5_eq. cbn [Store.erase Store.at_obj Store.at_children
        Store.at_hidden children path]. cbv zeta.
      rewrite <- Hes. rewrite length_fmap, Hlencs.
      by destruct (decide (5 < length cs)%nat).
    + cbn [Store.cells Store.at_addr Store.at_children Store.at_hidden].
      constructor.
      * intros [Hb|Hb]%elem_of_app; [by apply (Hcs'a a)|].
        by apply Hhs1 in Hb as (_ & ? & _).
      * apply NoDup_app. split_and!; [done| |done].
        intros b Hb Hb'. destruct (Hin b Hb) as [Hb1|Hb1].
        -- by apply (Hdisj b).
        -- apply Hhs1 in Hb' as (? & _). lia.
    + cbn [Store.cells Store.at_addr Store.at_children Store.at_hidden].
      intros b [->|[Hb|Hb]%elem_of_app]%elem_of_cons.
      * left. left.
      * destruct (Hin b Hb); [left; right; apply elem_of_app; by left|by right].
      * left. right. apply elem_of_app. by right.
    + cbn [Store.cells Store.at_addr Store.at_children Store.at_hidden].
      intros b Hb Hnin. apply Hfr; [done|].
      intros ?. apply Hnin. right. apply elem_of_app. by left.
    + done.
Qed.

Lemma depth_le_height (n : node) : (Store.depth n ≤ Store.height n)%nat.
Proof.
  induction n as [nm u p cs sc e hc pp bs IHc _] using node_ind. cbn.
  apply le_n_S. etrans; [|apply Nat.le_max_l].
  induction IHc as [|c cs Hc _ IH]; cbn; lia.
Qed.

(** ** Tree Collapser: what happens to the source tree *)

(** C6 (as amended). [renderTree] collapses a deep copy: when the source
    at [data] reads as the tree [t], [renderTree] returns a fresh object
    [copy]; every object that existed before is unchanged, so the source
    still reads as [t], and the display tree at [copy] reads as
    [collapseTree 5 t]. *)
Theorem renderTree_keeps_source (h : Store.heap) (data : Store.addr) (t : node)
    (fuel : nat) :
  Store.reify fuel h data = Some t →
  ∃ h' copy,
    Store.renderTree fuel h data = Some (h', copy) ∧
    (length h ≤ copy)%nat ∧
    (∀ b o, h !! b = Some o → h' !! b = Some o) ∧
    Store.reify fuel h' data = Some t ∧
    ∃ fuel', Store.reify fuel' h' copy = Some (collapseTree 5 t).
Proof.
  intros Ht. unfold Store.renderTree. rewrite Ht. cbn [mbind option_bind].
  destruct (Store.alloc_spec t h) as (T & k & Hal & Hr & He & Hnd & Hge).
  rewrite Hal.
  destruct (collapse_sim T (h ++ k) fuel Hr Hnd)
    as (h' & T' & Hrun & Hr' & Ha' & He' & _ & _ & Hfr & _).
  { rewrite He. etrans; [apply depth_le_height|]. by eapply Store.reify_height. }
  assert (Hkeep : ∀ b o, h !! b = Some o → h' !! b = Some o).
  { intros b o Hb. assert (b < length h)%nat by (by eapply lookup_lt_Some).
    rewrite Hfr.
    - by rewrite lookup_app_l.
    - rewrite length_app. lia.
    - intros Hin%Hge. lia. }
  exists h', (Store.at_addr T). split_and!.
  - done.
  - apply Hge. destruct T. left.
  - done.
  - by eapply Store.reify_heap_mono.
  - exists (Store.height (Store.erase T')).
    rewrite <- He, <- He', <- Ha'. by apply Store.arepr_reify.
Qed.

(** The objects of [sample_six], parsed into an empty heap. *)
Definition sample_heap : Store.heap := (Store.alloc sample_six []).1.
Definition sample_root : Store.addr := (Store.alloc sample_six []).2.

Lemma renderTree_keeps_source_witness :
  Store.reify 2 sample_heap sample_root = Some sample_six ∧
  ∃ h' copy,
    Store.renderTree 2 sample_heap sample_root = Some (h', copy) ∧
    Store.reify 2 h' sample_root = Some sample_six.
Proof.
  split; [reflexivity|].
  destruct (renderTree_keeps_source sample_heap sample_root sample_six 2 eq_refl)
    as (h' & copy & Hrun & _ & _ & Hsrc & _).
  exists h', copy. split; [exact Hrun|exact Hsrc].
Defined.

(** C6 (as stated) fails: [collapseTree] rewrites the [children] of the
    very object it is given.  Called on the root of [sample_six], which has
    six children, it returns that root with five. *)
Lemma collapseTree_mutates_argument :
  ∃ h',
    Store.reify 3 sample_heap sample_root = Some sample_six ∧
    Store.collapseTree 3 5 sample_root sample_heap = Some (h', sample_root) ∧
    Store.reify 3 h' sample_root = Some (collapseTree 5 sample_six) ∧
    Store.reify 3 h' sample_root ≠ Store.reify 3 sample_heap sample_root ∧
    (length <$> (Store.o_children <$> sample_heap !! sample_root)) = Some 6%nat ∧
    (length <$> (Store.o_children <$> h' !! sample_root)) = Some 5%nat.
Proof.
  eexists. split; [reflexivity|]. split; [vm_compute; reflexivity|].
  split; [reflexivity|]. split; [|split; reflexivity].
  vm_compute. discriminate.
Qed.

(** * Tree Builder (service worker, buildUrlTree), on the store *)

Record sortedUrl := SortedUrl {
  su_url : string;
  su_path : string;
  su_depth : nat }.

(** [Array.prototype.sort] with [(a, b) => a.depth - b.depth] is stable:
    insertion from the right, before the first entry that is not
    shallower. *)
Fixpoint insertByDepth (x : sortedUrl) (l : list sortedUrl) : list sortedUrl :=
  match l with
  | [] => [x]
  | y :: l' =>
      if decide (su_depth x ≤ su_depth y)%nat then x :: y :: l'
      else y :: insertByDepth x l'
  end.

Definition sortByDepth (l : list sortedUrl) : list sortedUrl :=
  foldr insertByDepth [] l.

(** [parent.children.push(node)] *)
Definition pushChild (parent child : Store.addr) (h : Store.heap)
    : option Store.heap :=
  o ← h !! parent;
  Some (<[parent := Store.set_o_children o (Store.o_children o ++ [child])]> h).

(** The variables of the walk along one url's segments. *)
Record walk := Walk {
  w_heap : Store.heap;
  w_nodeMap : gmap string Store.addr;
  w_currentPath : string;
  w_parent : Store.addr }.

(** The body of [segments.forEach((segment, i) => ...)].  [None] is a
    [TypeError]. *)
Definition addSegment (url : string) (segmentCount : nat) (w : walk) (i : nat)
    (segment : string) : option walk :=
  let newPath := w_currentPath w +:+ segment +:+ "/" in
  match w_nodeMap w !! newPath with
  | None =>
      let isLeaf := bool_decide (i = segmentCount - 1)%nat in
      let node :=
        Store.Obj segment (if isLeaf then Some url else None) newPath [] None
          false [] None None in
      let a := length (w_heap w) in
      h ← pushChild (w_parent w) a (w_heap w ++ [node]);
      let nodeMap := <[newPath := a]> (w_nodeMap w) in
      parent ← nodeMap !! newPath;
      Some (Walk h nodeMap newPath parent)
  | Some parent => Some (Walk (w_heap w) (w_nodeMap w) newPath parent)
  end.

Fixpoint walkSegments (url : string) (segmentCount : nat) (i : nat)
    (segments : list string) (w : walk) : option walk :=
  match segments with
  | [] => Some w
  | segment :: rest =>
      w ← addSegment url segmentCount w i segment;
      walkSegments url segmentCount (S i) rest w
  end.

(** The body of [sortedUrls.forEach(({ url, path }) => ...)]; the root is
    the object at address 0. *)
Definition addUrl (st : Store.heap * gmap string Store.addr) (su : sortedUrl)
    : option (Store.heap * gmap string Store.addr) :=
  let segments := segmentsOf (su_path su) in
  w ← walkSegments (su_url su) (length segments) 0 segments
        (Walk st.1 st.2 "/" 0%nat);
  match w_nodeMap w !! w_currentPath w with
  | Some exactNode =>
      o ← w_heap w !! exactNode;
      if truthy (Store.o_url o) then Some (w_heap w, w_nodeMap w)
      else Some (<[exactNode := Store.set_o_url o (Some (su_url su))]> (w_heap w),
                 w_nodeMap w)
  | None => Some (w_heap w, w_nodeMap w)
  end.

Fixpoint addUrls (st : Store.heap * gmap string Store.addr)
    (l : list sortedUrl) : option (Store.heap * gmap string Store.addr) :=
  match l with
  | [] => Some st
  | su :: l' => st ← addUrl st su; addUrls st l'
  end.

Section TreeBuilder.

Variable pathname : string → option string.
Variable hostname : string → option string.

Definition toSortedUrl (url : string) : option sortedUrl :=
  match pathname url with
  | Some path => Some (SortedUrl url path (length (segmentsOf path)))
  | None => None
  end.

(** [buildUrlTree]: the heap built and the address of the root.  [None]:
    an exception ([new URL(baseUrl)] throws). *)
Definition buildUrlTree (urls : list string) (baseUrl : string)
    : option (Store.heap * Store.addr) :=
  host ← hostname baseUrl;
  let root := Store.Obj host (Some baseUrl) "/" [] None false [] None None in
  let nodeMap : gmap string Store.addr := {[ "/" := 0%nat ]} in
  let sortedUrls := sortByDepth (omap toSortedUrl urls) in
  st ← addUrls ([root], nodeMap) sortedUrls;
  Some (st.1, 0%nat).

End TreeBuilder.

(** ** Trees of objects under in-place updates *)

(** No node has hidden children (a tree of TreeNodes). *)
Fixpoint aplain (T : Store.atree) : bool :=
  match Store.at_hidden T with [] => true | _ => false end
  && forallb aplain (Store.at_children T).

(** Address and path of every node, in pre-order. *)
Fixpoint pathEntries (T : Store.atree) : list (Store.addr * string) :=
  (Store.at_addr T, Store.o_path (Store.at_obj T))
    :: (Store.at_children T ≫= pathEntries).

(** Parent path, child name and child path of every parent-child pair. *)
Fixpoint pathEdges (T : Store.atree) : list (string * string * string) :=
  ((λ C, (Store.o_path (Store.at_obj T), Store.o_name (Store.at_obj C),
          Store.o_path (Store.at_obj C))) <$> Store.at_children T)
    ++ (Store.at_children T ≫= pathEdges).

(** The tree of objects after the object at address [p] has been changed
    by [g] and has been given the further children [extra]. *)
Fixpoint amodify (p : Store.addr) (g : Store.obj → Store.obj)
    (extra : list Store.atree) (T : Store.atree) : Store.atree :=
  if decide (Store.at_addr T = p) then
    Store.ANode (Store.at_addr T) (g (Store.at_obj T))
      (Store.at_children T ++ extra) (Store.at_hidden T)
  else
    Store.ANode (Store.at_addr T) (Store.at_obj T)
      (amodify p g extra <$> Store.at_children T) (Store.at_hidden T).

Lemma aplain_children (T C : Store.atree) :
  aplain T = true → C ∈ Store.at_children T → aplain C = true.
Proof.
  destruct T; cbn. intros [_ H]%andb_prop HC.
  rewrite forallb_forall in H. by apply H, list_elem_of_In.
Qed.

Lemma aplain_hidden (T : Store.atree) : aplain T = true → Store.at_hidden T = [].
Proof. by destruct T as [a o cs [|]]. Qed.

Lemma aplain_intro (T : Store.atree) :
  Store.at_hidden T = [] → Forall (λ C, aplain C = true) (Store.at_children T) →
  aplain T = true.
Proof.
  destruct T as [a o cs hs]; cbn. intros -> H. cbn.
  apply forallb_forall. rewrite Forall_forall in H.
  intros C HC. by apply H, list_elem_of_In.
Qed.

Lemma pathEntries_cells (T : Store.atree) :
  aplain T = true → (pathEntries T).*1 = Store.cells T.
Proof.
  induction T as [a o cs hs IH _] using Store.atree_ind. intros Hp.
  pose proof (aplain_hidden _ Hp) as Hh. cbn in Hh. subst hs.
  cbn. f_equal. rewrite app_nil_r.
  assert (Hcs : ∀ C, C ∈ cs → aplain C = true)
    by (intros C HC; by eapply aplain_children).
  clear Hp. induction IH as [|C cs HC _ IHcs]; [done|].
  cbn. rewrite fmap_app, HC, IHcs; [done| |apply Hcs; left].
  intros C' HC'. apply Hcs. by right.
Qed.

Lemma erase_paths (T : Store.atree) :
  aplain T = true →
  path <$> subnodes (Store.erase T) = (pathEntries T).*2.
Proof.
  induction T as [a o cs hs IH _] using Store.atree_ind. intros Hp.
  cbn. f_equal.
  assert (Hcs : ∀ C, C ∈ cs → aplain C = true)
    by (intros C HC; by eapply aplain_children).
  clear Hp. induction IH as [|C cs HC _ IHcs]; [done|].
  cbn. rewrite !fmap_app, HC, IHcs; [done| |apply Hcs; left].
  intros C' HC'. apply Hcs. by right.
Qed.

Lemma erase_edges (T : Store.atree) (n c : node) :
  n ∈ subnodes (Store.erase T) → c ∈ children n →
  (path n, name c, path c) ∈ pathEdges T.
Proof.
  induction T as [a o cs hs IH _] using Store.atree_ind.
  cbn [subnodes Store.erase children]. intros [->|Hn]%elem_of_cons Hc.
  - cbn [children path] in *. apply list_elem_of_fmap in Hc as (C & -> & HC).
    cbn [pathEdges Store.at_children Store.at_obj]. apply elem_of_app. left.
    apply list_elem_of_fmap. exists C. by destruct C.
  - apply list_elem_of_bind in Hn as (n' & Hn & Hn').
    apply list_elem_of_fmap in Hn' as (C & -> & HC).
    cbn [pathEdges Store.at_children]. apply elem_of_app. right.
    apply list_elem_of_bind. exists C. split; [|done].
    rewrite Forall_forall in IH. by apply IH.
Qed.

Lemma arepr_entries (h : Store.heap) (T : Store.atree) (a : Store.addr) (p : string) :
  Store.arepr h T → (a, p) ∈ pathEntries T →
  ∃ o, h !! a = Some o ∧ Store.o_path o = p.
Proof.
  induction T as [b o cs hs IH _] using Store.atree_ind. intros Hr.
  inversion_clear Hr as [? Hb _ _ Hrc _]. cbn in *.
  intros [[= -> ->]|Hin]%elem_of_cons; [eauto|].
  apply list_elem_of_bind in Hin as (C & Hin & HC).
  rewrite Forall_forall in IH, Hrc. by apply (IH C HC (Hrc C HC)).
Qed.

Lemma NoDup_functional {A B} `{Countable B} (l : list (A * B)) (m : gmap B A) :
  NoDup l.*1 → (∀ a b, (a, b) ∈ l → m !! b = Some a) → NoDup l.*2.
Proof.
  induction l as [|[a b] l IH]; cbn; [constructor|].
  intros [Ha Hnd]%NoDup_cons Hm. constructor.
  - intros Hb. apply list_elem_of_fmap in Hb as ([a' b'] & Heq & Hin).
    cbn in Heq. subst b'. apply Ha.
    assert (a' = a) as <-.
    { pose proof (Hm a' b (list_elem_of_further _ _ _ Hin)) as H1.
      pose proof (Hm a b (list_elem_of_here _ _)) as H2. congruence. }
    apply list_elem_of_fmap. by exists (a', b).
  - apply IH; [done|]. intros a' b' Hin. apply Hm. by right.
Qed.

Lemma NoDup_bind_elem {A B} (f : A → list B) (l : list A) (x : A) :
  NoDup (l ≫= f) → x ∈ l → NoDup (f x).
Proof.
  induction l as [|y l IH]; [by intros _ ?%elem_of_nil|]. cbn.
  intros (? & _ & ?)%NoDup_app [->|?]%elem_of_cons; eauto.
Qed.

Section Modify.

Variable p : Store.addr.
Variable g : Store.obj → Store.obj.
Variable extra : list Store.atree.
Hypothesis g_path : ∀ o, Store.o_path (g o) = Store.o_path o.
Hypothesis g_name : ∀ o, Store.o_name (g o) = Store.o_name o.
Hypothesis g_hidden : ∀ o, Store.o_hiddenChildren (g o) = Store.o_hiddenChildren o.
Hypothesis g_children : ∀ o,
  Store.o_children (g o) = Store.o_children o ++ (Store.at_addr <$> extra).

Lemma amodify_addr (T : Store.atree) :
  Store.at_addr (amodify p g extra T) = Store.at_addr T.
Proof. destruct T; cbn. by case_decide. Qed.

Lemma amodify_path (T : Store.atree) :
  Store.o_path (Store.at_obj (amodify p g extra T)) = Store.o_path (Store.at_obj T).
Proof. destruct T; cbn. case_decide; cbn; [apply g_path|done]. Qed.

Lemma amodify_name (T : Store.atree) :
  Store.o_name (Store.at_obj (amodify p g extra T)) = Store.o_name (Store.at_obj T).
Proof. destruct T; cbn. case_decide; cbn; [apply g_name|done]. Qed.

Lemma amodify_id (T : Store.atree) :
  p ∉ Store.cells T → amodify p g extra T = T.
Proof.
  induction T as [a o cs hs IH _] using Store.atree_ind. cbn. intros Hp.
  case_decide as Ha; [subst; exfalso; apply Hp; left|]. f_equal.
  apply fmap_fixed. rewrite Forall_forall in IH |- *. intros C HC.
  apply IH; [done|]. intros Hin. apply Hp. right. apply elem_of_app. left.
  apply list_elem_of_bind. eauto.
Qed.

Lemma amodify_cells (T : Store.atree) (b : Store.addr) :
  b ∈ Store.cells (amodify p g extra T) →
  b ∈ Store.cells T ∨ b ∈ extra ≫= Store.cells.
Proof.
  induction T as [a o cs hs IH _] using Store.atree_ind. cbn [amodify].
  case_decide as Ha; cbn [Store.cells Store.at_addr Store.at_children
                          Store.at_hidden].
  - rewrite bind_app. rewrite !elem_of_cons, !elem_of_app. tauto.
  - rewrite !elem_of_cons, !elem_of_app.
    intros [?|[Hb|?]]; [tauto| |tauto].
    apply list_elem_of_bind in Hb as (C' & Hb & HC').
    apply list_elem_of_fmap in HC' as (C & -> & HC).
    rewrite Forall_forall in IH. destruct (IH C HC Hb) as [?|?]; [|tauto].
    left. right. left. apply list_elem_of_bind. eauto.
Qed.

Lemma amodify_NoDup (T : Store.atree) :
  NoDup (Store.cells T) →
  (∀ b, b ∈ extra ≫= Store.cells → b ∉ Store.cells T) →
  NoDup (extra ≫= Store.cells) →
  NoDup (Store.cells (amodify p g extra T)).
Proof.
  induction T as [a o cs hs IH _] using Store.atree_ind.
  intros Hnd Hfresh Hex. cbn [amodify].
  cbn [Store.cells Store.at_addr Store.at_children Store.at_hidden] in Hnd, Hfresh.
  apply NoDup_cons in Hnd as [Ha Hnd].
  apply NoDup_app in Hnd as (Hndc & Hdisj & Hndh).
  case_decide as Hap; cbn [Store.cells Store.at_addr Store.at_children
                           Store.at_hidden].
  - rewrite bind_app. constructor.
    + rewrite !elem_of_app. intros [[?|Hb]|?].
      * apply Ha, elem_of_app. by left.
      * apply (Hfresh a Hb). left.
      * apply Ha, elem_of_app. by right.
    + apply NoDup_app. split_and!; [|intros b [Hb|Hb]%elem_of_app Hh|done].
      * apply NoDup_app. split_and!; [done| |done].
        intros b Hb Hb'. apply (Hfresh b Hb'). right. apply elem_of_app. by left.
      * by apply (Hdisj b).
      * apply (Hfresh b Hb). right. apply elem_of_app. by right.
  - assert (Hcs : NoDup ((amodify p g extra <$> cs) ≫= Store.cells) ∧
            ∀ b, b ∈ (amodify p g extra <$> cs) ≫= Store.cells →
                 b ∈ cs ≫= Store.cells ∨ b ∈ extra ≫= Store.cells).
    { assert (Hfr : ∀ b, b ∈ extra ≫= Store.cells → b ∉ cs ≫= Store.cells).
      { intros b Hb Hb'. apply (Hfresh b Hb). right. apply elem_of_app. by left. }
      cbn in Hap. clear Ha Hdisj Hfresh.
      induction IH as [|C cs HC _ IHcs]; [split; [constructor|by intros ? ?%elem_of_nil]|].
      cbn [mbind list_bind fmap list_fmap] in Hndc |- *.
      apply NoDup_app in Hndc as (HndC & HdisjC & Hndcs).
      destruct IHcs as [IH1 IH2]; [done| |].
      { intros b Hb Hb'. apply (Hfr b Hb), elem_of_app. by right. }
      assert (Hfr1 : ∀ b, b ∈ extra ≫= Store.cells → b ∉ Store.cells C).
      { intros b Hb Hb'. apply (Hfr b Hb), elem_of_app. by left. }
      split.
      - destruct (decide (p ∈ Store.cells C)) as [HpC|HpC].
        + (* the update is inside [C]: the other children are untouched *)
          assert (Hrest : amodify p g extra <$> cs = cs).
          { apply fmap_fixed, Forall_forall. intros C' HC'. apply amodify_id.
            intros Hp'. apply (HdisjC p HpC). apply list_elem_of_bind. eauto. }
          change (list_fmap _ _ (amodify p g extra) cs)
            with (amodify p g extra <$> cs).
          rewrite Hrest. apply NoDup_app. split_and!; [by apply HC| |done].
          intros b Hb Hb'. destruct (amodify_cells C b Hb) as [Hb1|Hb1].
          * by apply (HdisjC b).
          * apply (Hfr b Hb1), elem_of_app. by right.
        + rewrite (amodify_id C HpC). apply NoDup_app. split_and!; [done| |done].
          intros b Hb Hb'. destruct (IH2 b Hb') as [Hb1|Hb1].
          * by apply (HdisjC b).
          * by apply (Hfr1 b).
      - intros b [Hb|Hb]%elem_of_app.
        + destruct (amodify_cells C b Hb); [left; apply elem_of_app; by left|by right].
        + destruct (IH2 b Hb); [left; apply elem_of_app; by right|by right]. }
    destruct Hcs as [Hcs1 Hcs2]. constructor.
    + rewrite elem_of_app. intros [Hb|Hb].
      * destruct (Hcs2 a Hb) as [Hb1|Hb1].
        -- apply Ha, elem_of_app. by left.
        -- apply (Hfresh a Hb1). left.
      * apply Ha, elem_of_app. by right.
    + apply NoDup_app. split_and!; [done| |done].
      intros b Hb Hb'. destruct (Hcs2 b Hb) as [Hb1|Hb1].
      * by apply (Hdisj b).
      * apply (Hfresh b Hb1). right. apply elem_of_app. by right.
Qed.

Lemma amodify_entries (T : Store.atree) (x : Store.addr * string) :
  x ∈ pathEntries (amodify p g extra T) →
  x ∈ pathEntries T ∨ x ∈ extra ≫= pathEntries.
Proof.
  induction T as [a o cs hs IH _] using Store.atree_ind. cbn [amodify].
  case_decide as Ha; cbn [pathEntries Store.at_addr Store.at_children
                          Store.at_obj].
  - rewrite g_path, bind_app, !elem_of_cons, !elem_of_app. tauto.
  - rewrite !elem_of_cons. intros [?|Hx]; [tauto|].
    apply list_elem_of_bind in Hx as (C' & Hx & HC').
    apply list_elem_of_fmap in HC' as (C & -> & HC).
    rewrite Forall_forall in IH. destruct (IH C HC Hx) as [?|?]; [|tauto].
    left. right. apply list_elem_of_bind. eauto.
Qed.

Lemma amodify_entries_old (T : Store.atree) (x : Store.addr * string) :
  x ∈ pathEntries T → x ∈ pathEntries (amodify p g extra T).
Proof.
  induction T as [a o cs hs IH _] using Store.atree_ind. cbn [amodify].
  case_decide as Ha; cbn [pathEntries Store.at_addr Store.at_children
                          Store.at_obj].
  - rewrite g_path, bind_app, !elem_of_cons, !elem_of_app. tauto.
  - rewrite !elem_of_cons. intros [?|Hx]; [tauto|]. right.
    apply list_elem_of_bind in Hx as (C & Hx & HC).
    apply list_elem_of_bind. exists (amodify p g extra C).
    rewrite Forall_forall in IH. split; [by apply IH|].
    apply list_elem_of_fmap. eauto.
Qed.

Lemma amodify_entries_new (T : Store.atree) (x : Store.addr * string) :
  p ∈ (pathEntries T).*1 → x ∈ extra ≫= pathEntries →
  x ∈ pathEntries (amodify p g extra T).
Proof.
  induction T as [a o cs hs IH _] using Store.atree_ind. cbn [amodify].
  case_decide as Ha; cbn [pathEntries Store.at_addr Store.at_children
                          Store.at_obj fmap list_fmap fst].
  - rewrite bind_app, !elem_of_cons, !elem_of_app. tauto.
  - cbn in Ha. rewrite !elem_of_cons. intros [?|Hp] Hx; [done|]. right.
    apply list_elem_of_fmap in Hp as ([a' p'] & Heq & Hp). cbn in Heq. subst a'.
    apply list_elem_of_bind in Hp as (C & Hp & HC).
    apply list_elem_of_bind. exists (amodify p g extra C).
    rewrite Forall_forall in IH. split; [|apply list_elem_of_fmap; eauto].
    apply IH; [done| |done]. apply list_elem_of_fmap. by exists (p, p').
Qed.

Lemma amodify_edges (T : Store.atree) (e : string * string * string) :
  e ∈ pathEdges (amodify p g extra T) →
  e ∈ pathEdges T ∨ e ∈ extra ≫= pathEdges ∨
  ∃ pp C, (p, pp) ∈ pathEntries T ∧ C ∈ extra ∧
          e = (pp, Store.o_name (Store.at_obj C), Store.o_path (Store.at_obj C)).
Proof.
  induction T as [a o cs hs IH _] using Store.atree_ind. cbn [amodify].
  case_decide as Ha; cbn [pathEdges Store.at_addr Store.at_children Store.at_obj].
  - cbn in Ha. subst a. rewrite g_path, fmap_app, bind_app, !elem_of_app.
    intros [[?|He]|[?|?]]; [tauto| |tauto|tauto].
    right. right. apply list_elem_of_fmap in He as (C & -> & HC).
    exists (Store.o_path o), C. split_and!; [left|done|done].
  - rewrite !elem_of_app. intros [He|He].
    + apply list_elem_of_fmap in He as (C' & -> & HC').
      apply list_elem_of_fmap in HC' as (C & -> & HC).
      rewrite amodify_name, amodify_path. left. left.
      apply list_elem_of_fmap. by exists C.
    + apply list_elem_of_bind in He as (C' & He & HC').
      apply list_elem_of_fmap in HC' as (C & -> & HC).
      rewrite Forall_forall in IH.
      destruct (IH C HC He) as [?|[?|(pp & C0 & Hpp & HC0 & ->)]]; [|tauto|].
      * left. right. apply list_elem_of_bind. eauto.
      * right. right. exists pp, C0. split_and!; [|done|done].
        right. apply list_elem_of_bind. eauto.
Qed.

Lemma amodify_plain (T : Store.atree) :
  aplain T = true → Forall (λ C, aplain C = true) extra →
  aplain (amodify p g extra T) = true.
Proof.
  induction T as [a o cs hs IH _] using Store.atree_ind. intros Hp Hex.
  pose proof (aplain_hidden _ Hp) as Hh. cbn in Hh. subst hs.
  cbn [amodify]. case_decide; apply aplain_intro; cbn; try done.
  - apply Forall_app. split; [|done]. apply Forall_forall. intros C HC.
    by eapply aplain_children.
  - apply Forall_fmap, Forall_forall. intros C HC. cbn.
    rewrite Forall_forall in IH. apply IH; [done| |done].
    by eapply aplain_children.
Qed.

(** The object at [p] is replaced by its image under [g], in a heap that
    may have grown: the modified tree of objects is in the new heap. *)
Lemma amodify_arepr (h k : Store.heap) (o : Store.obj) (T : Store.atree) :
  Store.arepr h T → NoDup (Store.cells T) → aplain T = true →
  h !! p = Some o →
  Forall (Store.arepr (<[p := g o]> (h ++ k))) extra →
  Store.arepr (<[p := g o]> (h ++ k)) (amodify p g extra T).
Proof.
  intros Hr Hnd Hpl Hp Hex.
  assert (Hplt : (p < length h)%nat) by (by eapply lookup_lt_Some).
  assert (Hframe : ∀ b, (b < length h)%nat → b ≠ p →
                     <[p := g o]> (h ++ k) !! b = h !! b).
  { intros b Hb Hbp. rewrite list_lookup_insert_ne by done. by apply lookup_app_l. }
  induction T as [a oa cs hs IH _] using Store.atree_ind.
  inversion_clear Hr as [? Ha Hcs Hhs Hrc Hrh].
  pose proof (aplain_hidden _ Hpl) as Hh.
  cbn [Store.at_addr Store.at_obj Store.at_children Store.at_hidden] in *.
  subst hs.
  cbn [Store.cells Store.at_addr Store.at_children Store.at_hidden] in Hnd.
  rewrite app_nil_r in Hnd. apply NoDup_cons in Hnd as [Hna Hndc].
  cbn [amodify Store.at_addr]. case_decide as Hap.
  - subst a. assert (oa = o) as -> by congruence.
    constructor; cbn [Store.at_addr Store.at_obj Store.at_children
                      Store.at_hidden].
    + apply list_lookup_insert_eq. rewrite length_app. lia.
    + by rewrite g_children, fmap_app, Hcs.
    + by rewrite g_hidden.
    + apply Forall_app. split; [|done].
      apply (Store.Forall_arepr_frame h); [done|]. intros b Hb.
      apply Hframe; [exact (Store.Forall_arepr_lt h cs Hrc b Hb)|].
      intros ->. by apply Hna.
    + constructor.
  - constructor; cbn [Store.at_addr Store.at_obj Store.at_children
                      Store.at_hidden].
    + rewrite Hframe; [done| |done]. by eapply lookup_lt_Some.
    + rewrite Hcs, <- list_fmap_compose. apply Forall_fmap_ext_1, Forall_forall.
      intros C _. cbn. by rewrite amodify_addr.
    + done.
    + apply Forall_fmap, Forall_forall. intros C HC. cbn.
      rewrite Forall_forall in IH, Hrc. apply IH; [done|by apply Hrc| |].
      * by eapply NoDup_bind_elem.
      * by eapply aplain_children.
    + constructor.
Qed.

End Modify.

(** ** Tree Builder: the invariant of the build *)

(** The heap holds a tree of TreeNode objects rooted at address 0 with
    path [/]; [nodeMap] maps exactly the paths of its nodes to their
    addresses; every child's path is its parent's path, its own name and a
    slash. *)
Definition build_inv (h : Store.heap) (nodeMap : gmap string Store.addr)
    (T : Store.atree) : Prop :=
  Store.arepr h T ∧ Store.at_addr T = 0%nat ∧ aplain T = true ∧
  NoDup (Store.cells T) ∧
  nodeMap !! "/" = Some 0%nat ∧
  (∀ a p, (a, p) ∈ pathEntries T → nodeMap !! p = Some a) ∧
  (∀ p a, nodeMap !! p = Some a → (a, p) ∈ pathEntries T) ∧
  (∀ pp nm cp, (pp, nm, cp) ∈ pathEdges T → cp = pp +:+ nm +:+ "/").

Lemma addSegment_inv (url : string) (n i : nat) (segment : string) (w : walk)
    (T : Store.atree) :
  build_inv (w_heap w) (w_nodeMap w) T →
  w_nodeMap w !! w_currentPath w = Some (w_parent w) →
  ∃ w' T',
    addSegment url n w i segment = Some w' ∧
    build_inv (w_heap w') (w_nodeMap w') T' ∧
    w_nodeMap w' !! w_currentPath w' = Some (w_parent w').
Proof.
  intros (Hr & Ha0 & Hpl & Hnd & Hroot & Hent & Hmap & Hedge) Hpar.
  unfold addSegment.
  set (newPath := w_currentPath w +:+ segment +:+ "/").
  destruct (w_nodeMap w !! newPath) as [parent|] eqn:Hnew.
  { exists (Walk (w_heap w) (w_nodeMap w) newPath parent), T. by split_and!. }
  set (h := w_heap w) in *. set (pa := w_parent w) in *.
  set (a := length h).
  set (node := Store.Obj segment
                 (if bool_decide (i = n - 1)%nat then Some url else None)
                 newPath [] None false [] None None).
  pose proof (Hmap _ _ Hpar) as Hpa.
  destruct (arepr_entries h T pa _ Hr Hpa) as (o & Ho & Hopath).
  assert (Hpalt : (pa < length h)%nat) by (by eapply lookup_lt_Some).
  set (g := λ o : Store.obj, Store.set_o_children o (Store.o_children o ++ [a])).
  set (leaf := Store.ANode a node [] []).
  unfold pushChild. rewrite (lookup_app_l h [node]) by done. rewrite Ho.
  cbn [mbind option_bind]. rewrite lookup_insert_eq. cbn [mbind option_bind].
  change (Store.set_o_children o (Store.o_children o ++ [a])) with (g o).
  set (h' := <[pa := g o]> (h ++ [node])).
  assert (Hleaf : Store.arepr h' leaf).
  { constructor; cbn; try done; try constructor.
    unfold h'. rewrite list_lookup_insert_ne by (unfold a; lia).
    by apply list_lookup_middle. }
  assert (Hfresh : a ∉ Store.cells T).
  { intros Hin. apply (Store.arepr_lt _ _ Hr) in Hin. unfold a in Hin. lia. }
  exists (Walk h' (<[newPath := a]> (w_nodeMap w)) newPath a),
         (amodify pa g [leaf] T).
  split; [done|]. split; [|cbn; by rewrite lookup_insert_eq].
  assert (Gp : ∀ o, Store.o_path (g o) = Store.o_path o) by (by intros []).
  assert (Gn : ∀ o, Store.o_name (g o) = Store.o_name o) by (by intros []).
  assert (Gh : ∀ o, Store.o_hiddenChildren (g o) = Store.o_hiddenChildren o)
    by (by intros []).
  assert (Gc : ∀ o, Store.o_children (g o) =
                    Store.o_children o ++ (Store.at_addr <$> [leaf]))
    by (by intros []).
  cbn [w_heap w_nodeMap]. unfold build_inv. split_and!.
  - apply amodify_arepr; try done. by constructor.
  - by rewrite amodify_addr.
  - apply amodify_plain; [done|]. by constructor.
  - apply amodify_NoDup; [done| |].
    + cbn. intros b [->|?%elem_of_nil]%elem_of_cons; done.
    + cbn. apply NoDup_singleton.
  - rewrite lookup_insert_ne; [done|]. intros Heq. rewrite Heq in Hnew. congruence.
  - intros x q Hx. apply (amodify_entries pa g [leaf] Gp) in Hx as [Hx|Hx].
    + rewrite lookup_insert_ne; [by apply Hent|].
      intros Heq. apply Hent in Hx. rewrite Heq in Hnew. congruence.
    + cbn in Hx. apply elem_of_cons in Hx as [[= -> ->]|?%elem_of_nil]; [|done].
      by rewrite lookup_insert_eq.
  - intros q x. destruct (decide (newPath = q)) as [<-|Hne].
    + rewrite lookup_insert_eq. intros [= <-].
      apply amodify_entries_new; [|cbn; left].
      apply list_elem_of_fmap. by exists (pa, w_currentPath w).
    + rewrite lookup_insert_ne by done. intros Hq.
      apply (amodify_entries_old pa g [leaf] Gp). by apply Hmap.
  - intros pp nm cp He.
    apply (amodify_edges pa g [leaf] Gp Gn) in He
      as [He|[He|(pp' & C & Hpp & HC & [= -> -> ->])]];
      [by apply Hedge|by apply elem_of_nil in He|].
    apply list_elem_of_singleton in HC as ->. cbn.
    destruct (arepr_entries h T pa _ Hr Hpp) as (o' & Ho' & <-).
    assert (o' = o) as -> by congruence. by rewrite Hopath.
Qed.

Lemma walkSegments_inv (url : string) (n : nat) (segments : list string) :
  ∀ (i : nat) (w : walk) (T : Store.atree),
    build_inv (w_heap w) (w_nodeMap w) T →
    w_nodeMap w !! w_currentPath w = Some (w_parent w) →
    ∃ w' T',
      walkSegments url n i segments w = Some w' ∧
      build_inv (w_heap w') (w_nodeMap w') T' ∧
      w_nodeMap w' !! w_currentPath w' = Some (w_parent w').
Proof.
  induction segments as [|segment rest IH]; intros i w T Hinv Hpar.
  - by exists w, T.
  - destruct (addSegment_inv url n i segment w T Hinv Hpar)
      as (w1 & T1 & Hs & Hinv1 & Hpar1).
    cbn [walkSegments]. rewrite Hs. cbn [mbind option_bind].
    by apply (IH _ _ T1).
Qed.

Lemma addUrl_inv (h : Store.heap) (nodeMap : gmap string Store.addr)
    (T : Store.atree) (su : sortedUrl) :
  build_inv h nodeMap T →
  ∃ h' nodeMap' T',
    addUrl (h, nodeMap) su = Some (h', nodeMap') ∧ build_inv h' nodeMap' T'.
Proof.
  intros Hinv. unfold addUrl. cbn [fst snd].
  pose proof Hinv as (_ & _ & _ & _ & Hroot0 & _).
  destruct (walkSegments_inv (su_url su) (length (segmentsOf (su_path su)))
              (segmentsOf (su_path su)) 0 (Walk h nodeMap "/" 0) T)
    as (w & T1 & Hw & Hinv1 & Hpar); [exact Hinv|exact Hroot0|].
  rewrite Hw. cbn [mbind option_bind]. rewrite Hpar.
  destruct Hinv1 as (Hr & Ha0 & Hpl & Hnd & Hroot & Hent & Hmap & Hedge).
  pose proof (Hmap _ _ Hpar) as Hpa.
  destruct (arepr_entries _ _ _ _ Hr Hpa) as (o & Ho & Hopath).
  rewrite Ho. cbn [mbind option_bind].
  destruct (truthy (Store.o_url o)).
  { exists (w_heap w), (w_nodeMap w), T1. by split_and!. }
  set (g := λ o : Store.obj, Store.set_o_url o (Some (su_url su))).
  exists (<[w_parent w := g o]> (w_heap w)), (w_nodeMap w),
         (amodify (w_parent w) g [] T1).
  assert (Gp : ∀ o, Store.o_path (g o) = Store.o_path o) by (by intros []).
  assert (Gn : ∀ o, Store.o_name (g o) = Store.o_name o) by (by intros []).
  assert (Gh : ∀ o, Store.o_hiddenChildren (g o) = Store.o_hiddenChildren o)
    by (by intros []).
  assert (Gc : ∀ o, Store.o_children (g o) =
                    Store.o_children o ++ (Store.at_addr <$> []))
    by (intros []; cbn; by rewrite app_nil_r).
  split; [done|]. unfold build_inv. split_and!.
  - rewrite <- (app_nil_r (w_heap w)) at 1. by apply amodify_arepr.
  - by rewrite amodify_addr.
  - by apply amodify_plain.
  - apply amodify_NoDup; [done| |constructor]. by intros b ?%elem_of_nil.
  - done.
  - intros x q Hx. apply (amodify_entries _ g [] Gp) in Hx as [Hx|Hx];
      [by apply Hent|by apply elem_of_nil in Hx].
  - intros q x Hq. apply (amodify_entries_old _ g [] Gp). by apply Hmap.
  - intros pp nm cp He.
    apply (amodify_edges _ g [] Gp Gn) in He as [He|[He|(pp' & C & _ & HC & _)]];
      [by apply Hedge|by apply elem_of_nil in He|by apply elem_of_nil in HC].
Qed.

Lemma addUrls_inv (l : list sortedUrl) :
  ∀ (h : Store.heap) (nodeMap : gmap string Store.addr) (T : Store.atree),
    build_inv h nodeMap T →
    ∃ h' nodeMap' T',
      addUrls (h, nodeMap) l = Some (h', nodeMap') ∧ build_inv h' nodeMap' T'.
Proof.
  induction l as [|su l IH]; intros h nodeMap T Hinv.
  - by exists h, nodeMap, T.
  - destruct (addUrl_inv h nodeMap T su Hinv) as (h1 & m1 & T1 & H1 & Hinv1).
    cbn [addUrls]. rewrite H1. cbn [mbind option_bind]. by apply (IH _ _ T1).
Qed.

(** ** Tree Builder: one node per path *)

(** C1. For every list of urls and every base url that parses,
    [buildUrlTree] returns a root whose object graph reads as a tree [t] in
    which no two nodes have the same path, and in which the path of every
    child is the path of its parent followed by the child's name and a
    slash.  The root's path is [/]. *)
Theorem buildUrlTree_paths (pathname hostname : string → option string)
    (urls : list string) (baseUrl host : string) :
  hostname baseUrl = Some host →
  ∃ (h : Store.heap) (root : Store.addr) (t : node) (fuel : nat),
    buildUrlTree pathname hostname urls baseUrl = Some (h, root) ∧
    Store.reify fuel h root = Some t ∧
    path t = "/" ∧
    NoDup (path <$> subnodes t) ∧
    (∀ n c, n ∈ subnodes t → c ∈ children n →
            path c = path n +:+ name c +:+ "/").
Proof.
  intros Hhost. unfold buildUrlTree. rewrite Hhost. cbn [mbind option_bind].
  set (root := Store.Obj host (Some baseUrl) "/" [] None false [] None None).
  destruct (addUrls_inv (sortByDepth (omap (toSortedUrl pathname) urls))
              [root] {["/" := 0%nat]} (Store.ANode 0 root [] []))
    as (h & nodeMap & T & Hrun & Hinv).
  { unfold build_inv. split_and!.
    - by repeat constructor.
    - done.
    - done.
    - change (NoDup [0%nat]). apply NoDup_singleton.
    - by rewrite lookup_singleton_eq.
    - intros a p [[= -> ->]|?%elem_of_nil]%elem_of_cons; [|done].
      by rewrite lookup_singleton_eq.
    - intros p a [<- <-]%lookup_singleton_Some. left.
    - by intros pp nm cp ?%elem_of_nil. }
  rewrite Hrun. cbn [mbind option_bind fst].
  destruct Hinv as (Hr & Ha0 & Hpl & Hnd & Hroot & Hent & Hmap & Hedge).
  exists h, 0%nat, (Store.erase T), (Store.height (Store.erase T)).
  split_and!.
  - done.
  - rewrite <- Ha0. by apply Store.arepr_reify.
  - destruct (arepr_entries h T 0 "/" Hr (Hmap _ _ Hroot)) as (o & Ho & Hop).
    inversion_clear Hr as [? HT _ _ _ _]. rewrite Ha0 in HT.
    destruct T. cbn in *. congruence.
  - rewrite erase_paths by done.
    apply (NoDup_functional (pathEntries T) nodeMap); [|done].
    by rewrite pathEntries_cells.
  - intros n c Hn Hc. apply Hedge. by apply erase_edges.
Qed.

Lemma buildUrlTree_paths_witness :
  sample_hostname "https://example.com" = Some "example.com" ∧
  ∃ h root t fuel,
    buildUrlTree sample_pathname sample_hostname sample_site
      "https://example.com" = Some (h, root) ∧
    Store.reify fuel h root = Some t ∧
    NoDup (path <$> subnodes t).
Proof.
  split; [reflexivity|].
  destruct (buildUrlTree_paths sample_pathname sample_hostname sample_site
              "https://example.com" "example.com" eq_refl)
    as (h & root & t & fuel & Hrun & Ht & _ & Hnd & _).
  exists h, root, t, fuel. split; [exact Hrun|]. split; [exact Ht|exact Hnd].
Defined.

(** ** Tree Collapser: the ellipsis path *)

(** Six top-level pages, one of them named [_more]. *)
Definition sample_more_site : list string :=
  ["https://example.com/_more"; "https://example.com/b"; "https://example.com/c";
   "https://example.com/d"; "https://example.com/e"; "https://example.com/f"].

(** C8 fails on the code. For the site [sample_more_site] the tree built by
    [buildUrlTree] has the real node [/_more/] below the root; collapsing
    gives the root an ellipsis node with the same path [/_more/], next to
    that real child. *)
Lemma ellipsis_path_collides :
  ∃ h root t real e,
    buildUrlTree sample_pathname sample_hostname sample_more_site
      "https://example.com" = Some (h, root) ∧
    Store.reify 2 h root = Some t ∧
    children (collapseTree 5 t) !! 0%nat = Some real ∧
    children (collapseTree 5 t) !! 4%nat = Some e ∧
    isEllipsis real = false ∧ url real = Some "https://example.com/_more" ∧
    isEllipsis e = true ∧
    path real = "/_more/" ∧ path e = "/_more/".
Proof.
  eexists _, _, _, _, _. split; [vm_compute; reflexivity|].
  split; [vm_compute; reflexivity|].
  split; [vm_compute; reflexivity|]. split; [vm_compute; reflexivity|].
  repeat split.
Qed.

(** * Expansion Controller: collapsing, then expanding everything *)

(** Erase every screenshot, also inside [hiddenChildren]. *)
Fixpoint dstrip (n : node) : node :=
  Node (name n) (url n) (path n) (dstrip <$> children n) None (isEllipsis n)
       (dstrip <$> hiddenChildren n) (parentPath n) (expandBatchSize n).

(** One expansion of the display tree [d]: the ellipsis node at a position
    is clicked, the batch and the remainder are cut as in
    [handleExpandClick], and [performExpand] runs with the screenshots that
    were captured, if any. *)
Inductive expandStep (d d' : node) : Prop :=
  | expandStep_intro (ellipsisD3Node : list nat) (ellipsisData : node)
      (screenshots : smap) :
      nodeAt d ellipsisD3Node = Some ellipsisData →
      isEllipsis ellipsisData = true →
      hiddenChildren ellipsisData ≠ [] →
      d' = performExpand d ellipsisData
             (js_slice (hiddenChildren ellipsisData) 0 (batchSizeOf ellipsisData))
             (js_slice_from (hiddenChildren ellipsisData) (batchSizeOf ellipsisData))
             screenshots →
      expandStep d d'.

(** The ellipsis node of a node [n] of which the first [c] children are
    shown, if children remain. *)
Definition ellipsisFor (n : node) (c : nat) : list node :=
  if decide (c < length (children n))%nat
  then [mkEllipsis (path n) (collapseTree 5 <$> drop c (children n))]
  else [].

(** [shows n d]: the display tree [d] shows the tree [n], each node with a
    prefix of its children and an ellipsis node that hides the rest,
    collapsed. *)
#[local] Unset Elimination Schemes.
Inductive shows : node → node → Prop :=
  | shows_intro (n : node) (c : nat) (ds : list node) :
      (c ≤ length (children n))%nat →
      Forall2 shows (take c (children n)) ds →
      shows n (set_children n (ds ++ ellipsisFor n c)).
#[local] Set Elimination Schemes.

(** Nodes hidden below a display tree, counted with their own hidden
    nodes. *)
Fixpoint hiddenSize (n : node) : nat :=
  sum_list (hiddenSize <$> children n)
  + sum_list ((λ h, S (hiddenSize h)) <$> hiddenChildren n).

(** The loops of [findNodeByPath] and [updateNodeByPath] over a list of
    children. *)
Definition findInChildren (l : list node) (targetPath : string) : option node :=
  (fix go (l : list node) : option node :=
     match l with
     | [] => None
     | child :: l' =>
         match findNodeByPath child targetPath with
         | Some found => Some found
         | None => go l'
         end
     end) l.

Definition updateInChildren (f : node → node) (targetPath : string)
    (l : list node) : list node :=
  (fix go (l : list node) : list node :=
     match l with
     | [] => []
     | child :: l' =>
         match findNodeByPath child targetPath with
         | Some _ => updateNodeByPath f targetPath child :: l'
         | None => child :: go l'
         end
     end) l.

Lemma findNodeByPath_eq (n : node) (tp : string) :
  findNodeByPath n tp =
    if decide (path n = tp) then Some n else findInChildren (children n) tp.
Proof. by destruct n. Qed.

Lemma updateNodeByPath_eq (f : node → node) (tp : string) (n : node) :
  updateNodeByPath f tp n =
    if decide (path n = tp) then f n
    else set_children n (updateInChildren f tp (children n)).
Proof. by destruct n. Qed.

Lemma findInChildren_cons (c : node) (l : list node) (tp : string) :
  findInChildren (c :: l) tp =
    match findNodeByPath c tp with
    | Some found => Some found
    | None => findInChildren l tp
    end.
Proof. done. Qed.

Lemma updateInChildren_cons (f : node → node) (tp : string) (c : node)
    (l : list node) :
  updateInChildren f tp (c :: l) =
    match findNodeByPath c tp with
    | Some _ => updateNodeByPath f tp c :: l
    | None => c :: updateInChildren f tp l
    end.
Proof. done. Qed.

(** Nothing is found in children in which the path does not occur. *)
Lemma findInChildren_none (l : list node) (tp : string) :
  Forall (λ c, findNodeByPath c tp = None) l → findInChildren l tp = None.
Proof.
  induction 1 as [|c l Hc _ IH]; [done|]. by rewrite findInChildren_cons, Hc.
Qed.

Lemma updateInChildren_none (f : node → node) (l : list node) (tp : string) :
  Forall (λ c, findNodeByPath c tp = None) l → updateInChildren f tp l = l.
Proof.
  induction 1 as [|c l Hc _ IH]; [done|].
  by rewrite updateInChildren_cons, Hc, IH.
Qed.

(** The first child in which the path occurs is the one searched and
    updated. *)
Lemma findInChildren_at (l : list node) (i : nat) (x : node) (tp : string) :
  l !! i = Some x → Forall (λ c, findNodeByPath c tp = None) (take i l) →
  findInChildren l tp =
    match findNodeByPath x tp with
    | Some found => Some found
    | None => findInChildren (drop (S i) l) tp
    end.
Proof.
  revert i. induction l as [|c l IH]; intros i Hi Hnone; [done|].
  destruct i as [|i]; cbn in Hi.
  - injection Hi as ->. by rewrite findInChildren_cons.
  - cbn in Hnone. apply Forall_cons in Hnone as [Hc Hnone].
    rewrite findInChildren_cons, Hc. by apply IH.
Qed.

Lemma updateInChildren_at (f : node → node) (l : list node) (i : nat) (x : node)
    (tp : string) :
  l !! i = Some x → Forall (λ c, findNodeByPath c tp = None) (take i l) →
  is_Some (findNodeByPath x tp) →
  updateInChildren f tp l = <[i := updateNodeByPath f tp x]> l.
Proof.
  revert i. induction l as [|c l IH]; intros i Hi Hnone Hx; [done|].
  destruct i as [|i]; cbn in Hi.
  - injection Hi as ->. rewrite updateInChildren_cons. by destruct Hx as [? ->].
  - cbn in Hnone. apply Forall_cons in Hnone as [Hc Hnone].
    rewrite updateInChildren_cons, Hc. cbn. f_equal. by apply IH.
Qed.

Lemma plainb_set_children (n : node) (l : list node) :
  plainb (set_children n l) = negb (isEllipsis n) && forallb plainb l.
Proof. done. Qed.

Lemma plainb_eq (n : node) :
  plainb n = negb (isEllipsis n) && forallb plainb (children n).
Proof. by destruct n. Qed.

Lemma ellipsisFor_all (n : node) (c : nat) :
  (length (children n) ≤ c)%nat → ellipsisFor n c = [].
Proof. intros. unfold ellipsisFor. case_decide; [lia|done]. Qed.

Lemma ellipsisFor_some (n : node) (c : nat) :
  (c < length (children n))%nat →
  ellipsisFor n c = [mkEllipsis (path n) (collapseTree 5 <$> drop c (children n))].
Proof. intros. unfold ellipsisFor. case_decide; [done|lia]. Qed.

(** The collapsed tree shows the tree. *)
Lemma shows_collapseTree (n : node) : shows n (collapseTree 5 n).
Proof.
  induction n as [nm u p cs sc e hc pp bs IH _] using node_ind.
  rewrite collapseTree_5_eq. cbn [children path]. cbv zeta.
  rewrite length_fmap. set (n := Node nm u p cs sc e hc pp bs).
  assert (Hall : ∀ l, l ⊆ cs → Forall2 shows l (collapseTree 5 <$> l)).
  { intros l Hl. apply Forall2_fmap_r, Forall_Forall2_diag, Forall_forall.
    intros c Hc. rewrite Forall_forall in IH. by apply IH, Hl. }
  case_decide as Hbig.
  - rewrite <- fmap_take, <- fmap_drop.
    change (shows n (set_children n
              ((collapseTree 5 <$> take 4 (children n)) ++
               [mkEllipsis (path n) (collapseTree 5 <$> drop 4 (children n))]))).
    rewrite <- (ellipsisFor_some n 4) by (cbn; lia).
    apply shows_intro; [cbn; lia|]. apply Hall. apply subseteq_take.
  - rewrite <- (app_nil_r (collapseTree 5 <$> cs)).
    rewrite <- (ellipsisFor_all n (length cs)) by done.
    replace (collapseTree 5 <$> cs)
      with (collapseTree 5 <$> take (length cs) (children n))
      by (cbn; by rewrite firstn_all).
    apply shows_intro; [done|]. cbn [children n]. rewrite firstn_all.
    by apply Hall.
Qed.

Lemma Forall2_collapse_eq {A} (R : A → A → Prop) (l l' : list A) :
  Forall2 R l l' → (∀ x y, x ∈ l → y ∈ l' → R x y → y = x) → l' = l.
Proof.
  induction 1 as [|x y l l' Hxy _ IH]; intros Heq; [done|]. f_equal.
  - apply Heq; [left|left|done].
  - apply IH. intros x' y' Hx' Hy'. apply Heq; by right.
Qed.

(** A display tree without ellipsis nodes is the tree it shows. *)
Lemma shows_plain (n d : node) : shows n d → plainb d = true → d = n.
Proof.
  revert d. induction n as [nm u p cs sc e hc pp bs IH _] using node_ind.
  intros d Hs Hd. inversion Hs as [n c ds Hc Hds Hn]; subst. clear Hs.
  set (n := Node nm u p cs sc e hc pp bs) in *. cbn [children n] in *.
  rewrite plainb_set_children in Hd. apply andb_prop in Hd as [_ Hd].
  rewrite forallb_app in Hd. apply andb_prop in Hd as [Hds' Hell].
  destruct (decide (c < length cs)%nat) as [Hlt|Hge].
  { rewrite ellipsisFor_some in Hell by done. done. }
  rewrite ellipsisFor_all, app_nil_r by (cbn; lia).
  rewrite firstn_all2 in Hds by lia.
  replace ds with cs; [apply set_children_id|]. symmetry.
  apply (Forall2_collapse_eq shows); [done|].
  rewrite forallb_forall in Hds'. rewrite Forall_forall in IH.
  intros x y Hx Hy Hxy. apply IH; [done|done|]. by apply Hds', list_elem_of_In.
Qed.

(** ** Facts about the nodes of a tree *)

Lemma subnodes_self (n : node) : n ∈ subnodes n.
Proof. destruct n. left. Qed.

Lemma subnodes_child (n c x : node) :
  c ∈ children n → x ∈ subnodes c → x ∈ subnodes n.
Proof.
  intros Hc Hx. destruct n; cbn in *. right. apply list_elem_of_bind. eauto.
Qed.

Lemma subnodes_inv (n x : node) :
  x ∈ subnodes n → x = n ∨ ∃ c, c ∈ children n ∧ x ∈ subnodes c.
Proof.
  destruct n; cbn. intros [->|Hx]%elem_of_cons; [by left|]. right.
  apply list_elem_of_bind in Hx as (c & ? & ?). eauto.
Qed.

Lemma subnodes_trans (n m x : node) :
  m ∈ subnodes n → x ∈ subnodes m → x ∈ subnodes n.
Proof.
  revert m. induction n as [nm u p cs sc e hc pp bs IH _] using node_ind.
  intros m [->|(c & Hc & Hm)]%subnodes_inv Hx; [done|].
  cbn in Hc. eapply subnodes_child; [done|].
  rewrite Forall_forall in IH. by eapply IH.
Qed.

Lemma NoDup_bind_disjoint {A B} (f : A → list B) (l : list A) (i j : nat)
    (a b : A) (x : B) :
  NoDup (l ≫= f) → l !! i = Some a → l !! j = Some b → i ≠ j →
  x ∈ f a → x ∈ f b → False.
Proof.
  revert i j. induction l as [|y l IH]; intros i j Hnd Hi Hj Hij Ha Hb; [done|].
  cbn in Hnd. apply NoDup_app in Hnd as (_ & Hdisj & Hnd).
  destruct i as [|i], j as [|j]; cbn in Hi, Hj; try done.
  - injection Hi as ->. apply (Hdisj x Ha), list_elem_of_bind.
    exists b. split; [done|]. by eapply list_elem_of_lookup_2.
  - injection Hj as ->. apply (Hdisj x Hb), list_elem_of_bind.
    exists a. split; [done|]. by eapply list_elem_of_lookup_2.
  - apply (IH i j); try done. congruence.
Qed.

Lemma subnodes_paths (n : node) :
  path <$> subnodes n =
    path n :: (children n ≫= λ c, path <$> subnodes c).
Proof.
  destruct n as [nm u p cs sc e hc pp bs]. cbn. f_equal.
  induction cs as [|c cs IH]; [done|]. cbn. by rewrite fmap_app, IH.
Qed.

(** ** Trees whose paths identify their nodes *)

(** A tree of TreeNodes in which no two nodes have the same path, and in
    which a node whose path is another node's path followed by [_more/] is
    a child of that node. *)
Definition wellPathed (n : node) : Prop :=
  plainb n = true ∧ NoDup (path <$> subnodes n) ∧
  ∀ q p, q ∈ subnodes n → p ∈ subnodes n →
         path p = path q +:+ "_more/" → p ∈ children q.

Lemma wellPathed_child (n c : node) :
  wellPathed n → c ∈ children n → wellPathed c.
Proof.
  intros (Hpl & Hnd & Hmore) Hc. split_and!.
  - by eapply plainb_children.
  - rewrite subnodes_paths in Hnd. apply NoDup_cons in Hnd as [_ Hnd].
    by eapply (NoDup_bind_elem (λ c, path <$> subnodes c)).
  - intros q p Hq Hp. apply Hmore; by eapply subnodes_child.
Qed.

Lemma wellPathed_root_path (n c x : node) :
  wellPathed n → c ∈ children n → x ∈ subnodes c → path x ≠ path n.
Proof.
  intros (_ & Hnd & _) Hc Hx Heq. rewrite subnodes_paths in Hnd.
  apply NoDup_cons in Hnd as [Hn _]. apply Hn. rewrite <- Heq.
  apply list_elem_of_bind. exists c. split; [|done].
  by apply list_elem_of_fmap_2.
Qed.

Lemma wellPathed_siblings (n ci cj x y : node) (i j : nat) :
  wellPathed n → children n !! i = Some ci → children n !! j = Some cj →
  i ≠ j → x ∈ subnodes ci → y ∈ subnodes cj → path x ≠ path y.
Proof.
  intros (_ & Hnd & _) Hi Hj Hij Hx Hy Heq. rewrite subnodes_paths in Hnd.
  apply NoDup_cons in Hnd as [_ Hnd].
  apply (NoDup_bind_disjoint _ _ i j ci cj (path x) Hnd Hi Hj Hij).
  - by apply list_elem_of_fmap_2.
  - rewrite Heq. by apply list_elem_of_fmap_2.
Qed.

(** ** What a display tree contains *)

Lemma shows_fields (n d : node) :
  shows n d → path d = path n ∧ isEllipsis d = isEllipsis n ∧
              hiddenChildren d = hiddenChildren n.
Proof. by inversion 1. Qed.

(** A path that is neither the path of a node of [n] nor the ellipsis path
    of one is not found in a display tree of [n]. *)
Lemma shows_find_none (n d : node) (tp : string) :
  shows n d →
  (∀ x, x ∈ subnodes n → path x ≠ tp ∧ path x +:+ "_more/" ≠ tp) →
  findNodeByPath d tp = None.
Proof.
  revert d. induction n as [nm u p cs sc e hc pp bs IH _] using node_ind.
  intros d Hs Hno. inversion Hs as [n c ds Hc Hds Hn]; subst. clear Hs.
  set (n := Node nm u p cs sc e hc pp bs) in *.
  destruct (Hno n (subnodes_self n)) as [Hp Hm].
  rewrite findNodeByPath_eq. cbn [path set_children children] in *.
  case_decide; [done|]. apply findInChildren_none, Forall_app. split.
  - apply Forall_forall. intros y Hy.
    apply list_elem_of_lookup_1 in Hy as [i Hi].
    destruct (Forall2_lookup_r _ _ _ _ _ Hds Hi) as (x & Hx & Hxy).
    apply list_elem_of_lookup_2, subseteq_take in Hx.
    rewrite Forall_forall in IH. apply (IH x Hx y Hxy).
    intros z Hz. apply Hno. by eapply subnodes_child.
  - unfold ellipsisFor. case_decide; [|constructor].
    apply Forall_singleton. rewrite findNodeByPath_eq. cbn.
    by case_decide.
Qed.

(** ** One expansion *)

Lemma findIndex_middle {A} (p : A → bool) (l l' : list A) (y : A) :
  Forall (λ x, p x = false) l → p y = true →
  findIndex p (l ++ y :: l') = Some (length l).
Proof.
  induction 1 as [|x l Hx _ IH]; intros Hy; cbn.
  - by rewrite Hy.
  - by rewrite Hx, IH.
Qed.

Lemma attachScreenshotsToNode_empty (n : node) :
  attachScreenshotsToNode ∅ n = n.
Proof.
  induction n as [nm u p cs sc e hc pp bs IH _] using node_ind. cbn.
  rewrite (fmap_fixed _ _ IH). f_equal.
  destruct u as [u|]; [|done]. by destruct (negb _).
Qed.

Lemma hiddenSize_set_children (n : node) (l : list node) :
  hiddenSize (set_children n l) =
    (sum_list (hiddenSize <$> l)
     + sum_list ((λ h, S (hiddenSize h)) <$> hiddenChildren n))%nat.
Proof. done. Qed.

Lemma hiddenSize_mkEllipsis (p : string) (H : list node) :
  hiddenSize (mkEllipsis p H) = sum_list ((λ h, S (hiddenSize h)) <$> H).
Proof. done. Qed.

Lemma sum_list_app (l k : list nat) :
  sum_list (l ++ k) = (sum_list l + sum_list k)%nat.
Proof. apply sum_list_with_app. Qed.

Lemma sum_list_insert_lt {A} (f : A → nat) (l : list A) (i : nat) (x y : A) :
  l !! i = Some x → (f y < f x)%nat →
  (sum_list (f <$> <[i := y]> l) < sum_list (f <$> l))%nat.
Proof.
  revert i. induction l as [|z l IH]; intros i Hi Hlt; [done|].
  destruct i as [|i]; cbn in *.
  - injection Hi as ->. lia.
  - apply Nat.add_lt_mono_l. by apply IH.
Qed.

Lemma sum_list_S_le {A} (f : A → nat) (l : list A) :
  (sum_list (f <$> l) + length l = sum_list ((λ x, S (f x)) <$> l))%nat.
Proof. induction l as [|x l IH]; cbn; lia. Qed.

(** The step of [performExpand] at the owner [n] of the clicked ellipsis:
    the first [c] children are shown, then the next five. *)
Lemma expandParent_shows (n : node) (c : nat) (ds : list node) :
  plainb n = true → (c < length (children n))%nat →
  Forall2 shows (take c (children n)) ds →
  let H := collapseTree 5 <$> drop c (children n) in
  let d := set_children n (ds ++ [mkEllipsis (path n) H]) in
  let d' := expandParent (path n) (take 5 H) (drop 5 H) ∅ d in
  shows n d' ∧ (hiddenSize d' < hiddenSize d)%nat.
Proof.
  intros Hpl Hc Hds H d d'.
  assert (Hreal : Forall (λ x, isEllipsis x = false) ds).
  { apply Forall_forall. intros y [i Hi]%list_elem_of_lookup_1.
    destruct (Forall2_lookup_r _ _ _ _ _ Hds Hi) as (x & Hx & Hxy).
    apply shows_fields in Hxy as (_ & -> & _).
    apply list_elem_of_lookup_2, subseteq_take in Hx.
    by eapply plainb_not_ellipsis, plainb_children. }
  assert (Hfix : (λ node, collapseTree 5 (json_copy node)) <$>
                   attachScreenshotsToNodes (take 5 H) ∅ = take 5 H).
  { unfold attachScreenshotsToNodes. rewrite <- list_fmap_compose.
    apply fmap_fixed, Forall_forall. intros h Hh%subseteq_take. cbn.
    unfold json_copy. rewrite attachScreenshotsToNode_empty.
    apply list_elem_of_fmap in Hh as (x & -> & _).
    apply collapseTree_idempotent. }
  assert (Hd' : d' = set_children n
            (ds ++ take 5 H ++
             match drop 5 H with [] => [] | _ => [mkEllipsis (path n) (drop 5 H)] end)).
  { unfold d', expandParent, d. cbn [children set_children].
    rewrite (findIndex_middle isEllipsis ds [] (mkEllipsis (path n) H) Hreal eq_refl).
    rewrite delete_middle, app_nil_r, Hfix.
    unfold set_children. cbn. f_equal.
    destruct (drop 5 H); by rewrite <- ?app_assoc, ?app_nil_r. }
  assert (Hdrop : drop 5 H = (collapseTree 5 <$> drop (c + 5) (children n))).
  { unfold H. by rewrite <- fmap_drop, drop_drop. }
  assert (Htake : take 5 H = (collapseTree 5 <$> take 5 (drop c (children n)))).
  { unfold H. by rewrite fmap_take. }
  split.
  - rewrite Hd', app_assoc.
    replace (match drop 5 H with
             | [] => []
             | _ :: _ => [mkEllipsis (path n) (drop 5 H)]
             end) with (ellipsisFor n (Nat.min (c + 5) (length (children n)))).
    + apply shows_intro; [lia|].
      replace (take (Nat.min (c + 5) (length (children n))) (children n))
        with (take c (children n) ++ take 5 (drop c (children n))).
      * apply Forall2_app; [done|]. rewrite Htake.
        apply Forall2_fmap_r, Forall_Forall2_diag, Forall_forall.
        intros x _. apply shows_collapseTree.
      * rewrite take_take_drop.
        destruct (decide (c + 5 ≤ length (children n))%nat).
        -- by rewrite Nat.min_l by lia.
        -- rewrite Nat.min_r by lia. by rewrite !firstn_all2 by lia.
    + rewrite Hdrop. destruct (decide (c + 5 < length (children n))%nat) as [Hlt|Hge].
      * rewrite Nat.min_l by lia. rewrite ellipsisFor_some by done.
        destruct (collapseTree 5 <$> drop (c + 5) (children n)) eqn:E; [|done].
        apply fmap_nil_inv in E. apply (f_equal length) in E.
        rewrite length_drop in E. cbn in E. lia.
      * rewrite ellipsisFor_all by lia.
        by rewrite skipn_all2 by lia.
  - rewrite Hd'. unfold d. rewrite !hiddenSize_set_children.
    rewrite !fmap_app, !sum_list_app. cbn [fmap list_fmap sum_list sum_list_with].
    rewrite hiddenSize_mkEllipsis.
    assert (Hsplit : sum_list ((λ h, S (hiddenSize h)) <$> H) =
              (sum_list ((λ h, S (hiddenSize h)) <$> take 5 H)
               + sum_list ((λ h, S (hiddenSize h)) <$> drop 5 H))%nat).
    { by rewrite <- sum_list_app, <- fmap_app, take_drop. }
    assert (Hrem : sum_list (hiddenSize <$>
                match drop 5 H with
                | [] => []
                | _ :: _ => [mkEllipsis (path n) (drop 5 H)]
                end) = sum_list ((λ h, S (hiddenSize h)) <$> drop 5 H)).
    { generalize (drop 5 H). intros [|x r]; [done|].
      change (hiddenSize <$> [mkEllipsis (path n) (x :: r)])
        with [hiddenSize (mkEllipsis (path n) (x :: r))].
      rewrite hiddenSize_mkEllipsis. cbn. unfold id. lia. }
    pose proof (sum_list_S_le hiddenSize (take 5 H)) as Hle.
    assert (Hne : (0 < length (take 5 H))%nat).
    { rewrite length_take. unfold H. rewrite length_fmap, length_drop. lia. }
    unfold id in *. lia.
Qed.

(** Every ellipsis of a display tree of [n] stands for hidden children of a
    node of [n]; expanding it gives a display tree of [n] again, with fewer
    hidden nodes. *)
Lemma shows_expand (n : node) :
  wellPathed n → ∀ d pos e,
  shows n d → nodeAt d pos = Some e → isEllipsis e = true →
  ∃ q H, q ∈ subnodes n ∧ e = mkEllipsis (path q) H ∧ H ≠ [] ∧
    is_Some (findNodeByPath d (path q)) ∧
    let d' := updateNodeByPath
                (expandParent (path q) (take 5 H) (drop 5 H) ∅) (path q) d in
    shows n d' ∧ (hiddenSize d' < hiddenSize d)%nat.
Proof.
  induction n as [nm u p cs sc el hc pp bs IH _] using node_ind.
  intros Hwp d pos e Hs Hat He.
  inversion Hs as [n c ds Hc Hds Hn]; subst. clear Hs.
  set (n := Node nm u p cs sc el hc pp bs) in *.
  change (children n) with cs in *.
  assert (Hpl : plainb n = true) by apply Hwp.
  assert (Hlen : length ds = c).
  { rewrite <- (Forall2_length _ _ _ Hds), length_take. lia. }
  destruct pos as [|i pos].
  { injection Hat as <-. cbn in He. rewrite plainb_eq in Hpl. cbn in Hpl.
    by rewrite He in Hpl. }
  cbn [nodeAt set_children children] in Hat.
  destruct ((ds ++ ellipsisFor n c) !! i) as [x|] eqn:Hi; [|done].
  destruct (decide (i < length ds)%nat) as [Hlt|Hge].
  - rewrite lookup_app_l in Hi by done.
    destruct (Forall2_lookup_r _ _ _ _ _ Hds Hi) as (ci & Hci & Hshow).
    rewrite lookup_take_Some in Hci. destruct Hci as [Hci _].
    assert (Hin : ci ∈ cs) by by eapply list_elem_of_lookup_2.
    rewrite Forall_forall in IH.
    destruct (IH ci Hin (wellPathed_child n ci Hwp Hin) x pos e Hshow Hat He)
      as (q & H & Hq & -> & Hne & Hfind & Hshow' & Hsize).
    exists q, H. split; [by eapply subnodes_child|].
    split; [done|]. split; [done|].
    assert (Hroot : path n ≠ path q).
    { intros Heq. by eapply (wellPathed_root_path n ci q). }
    assert (Hbefore : Forall (λ y, findNodeByPath y (path q) = None)
                        (take i (ds ++ ellipsisFor n c))).
    { rewrite take_app_le by lia. apply Forall_forall.
      intros y [j Hj]%list_elem_of_lookup_1.
      apply lookup_take_Some in Hj as [Hj Hji].
      destruct (Forall2_lookup_r _ _ _ _ _ Hds Hj) as (cj & Hcj & Hshowj).
      rewrite lookup_take_Some in Hcj. destruct Hcj as [Hcj _].
      apply (shows_find_none cj y _ Hshowj). intros z Hz. split.
      - apply (wellPathed_siblings n cj ci z q j i Hwp Hcj Hci); [lia|done..].
      - intros Hmore. destruct Hwp as (Hpl' & Hnd & Hcl).
        assert (Hzq : q ∈ children z).
        { apply Hcl; [| |done].
          - eapply subnodes_child; [|done]. by eapply list_elem_of_lookup_2.
          - by eapply subnodes_child. }
        assert (Hqj : q ∈ subnodes cj).
        { eapply subnodes_trans; [done|].
          eapply subnodes_child; [done|apply subnodes_self]. }
        refine (wellPathed_siblings n cj ci q q j i _ Hcj Hci _ Hqj Hq eq_refl);
          [done|lia]. }
    assert (Hi' : (ds ++ ellipsisFor n c) !! i = Some x).
    { by rewrite lookup_app_l. }
    split.
    { rewrite findNodeByPath_eq. cbn [path set_children children].
      case_decide; [done|].
      rewrite (findInChildren_at _ i x _ Hi' Hbefore).
      destruct Hfind as [f ->]. done. }
    cbv zeta. rewrite updateNodeByPath_eq. cbn [path set_children children].
    case_decide as Hp; [done|].
    rewrite (updateInChildren_at _ _ i x _ Hi' Hbefore Hfind).
    rewrite insert_app_l by done.
    set (x' := updateNodeByPath _ _ x) in *.
    change (set_children (set_children n (ds ++ ellipsisFor n c))
              (<[i:=x']> ds ++ ellipsisFor n c))
      with (set_children n (<[i:=x']> ds ++ ellipsisFor n c)).
    split.
    + apply shows_intro; [done|]. change (children n) with cs.
      rewrite <- (list_insert_id (take c cs) i ci).
      * by apply Forall2_insert.
      * apply lookup_take_Some. split; [done|lia].
    + rewrite !hiddenSize_set_children, !fmap_app, !sum_list_app.
      pose proof (sum_list_insert_lt hiddenSize ds i x x' Hi Hsize). lia.
  - rewrite lookup_app_r in Hi by lia.
    unfold ellipsisFor in Hi. case_decide as Hck; [|done].
    destruct (i - length ds)%nat; [|done]. injection Hi as <-.
    destruct pos as [|k pos]; [|done]. injection Hat as <-.
    exists n, (collapseTree 5 <$> drop c cs).
    split; [apply subnodes_self|]. split; [done|]. split.
    { intros Hnil%fmap_nil_inv. apply (f_equal length) in Hnil.
      rewrite length_drop in Hnil. change (children n) with cs in Hck.
      cbn [length] in Hnil. lia. }
    split.
    { rewrite findNodeByPath_eq. cbn [path set_children]. by case_decide. }
    cbv zeta. rewrite updateNodeByPath_eq. cbn [path set_children].
    case_decide; [|done].
    pose proof (expandParent_shows n c ds Hpl Hck Hds) as Hstep.
    cbv zeta in Hstep. rewrite ellipsisFor_some by done. exact Hstep.
Qed.

(** ** Screenshots do not matter to the shape

    [dstrip] commutes with everything an expansion does. *)

Lemma dstrip_children (n : node) : children (dstrip n) = dstrip <$> children n.
Proof. by destruct n. Qed.

Lemma dstrip_hiddenChildren (n : node) :
  hiddenChildren (dstrip n) = dstrip <$> hiddenChildren n.
Proof. by destruct n. Qed.

Lemma dstrip_path (n : node) : path (dstrip n) = path n.
Proof. by destruct n. Qed.

Lemma dstrip_isEllipsis (n : node) : isEllipsis (dstrip n) = isEllipsis n.
Proof. by destruct n. Qed.

Lemma dstrip_set_children (n : node) (l : list node) :
  dstrip (set_children n l) = set_children (dstrip n) (dstrip <$> l).
Proof. by destruct n. Qed.

Lemma dstrip_mkEllipsis (p : string) (H : list node) :
  dstrip (mkEllipsis p H) = mkEllipsis p (dstrip <$> H).
Proof. unfold mkEllipsis. cbn. by rewrite length_fmap. Qed.

Lemma js_slice_fmap {A B} (f : A → B) (l : list A) (s e : Z) :
  js_slice (f <$> l) s e = f <$> js_slice l s e.
Proof. unfold js_slice. by rewrite length_fmap, fmap_take, fmap_drop. Qed.

Lemma js_slice_from_fmap {A B} (f : A → B) (l : list A) (s : Z) :
  js_slice_from (f <$> l) s = f <$> js_slice_from l s.
Proof. unfold js_slice_from. by rewrite js_slice_fmap, length_fmap. Qed.

Lemma dstrip_collapseTree (n : node) :
  dstrip (collapseTree 5 n) = collapseTree 5 (dstrip n).
Proof.
  induction n as [nm u p cs sc e hc pp bs IH _] using node_ind.
  rewrite !collapseTree_5_eq. cbv zeta.
  rewrite dstrip_children, dstrip_path. cbn [children path].
  assert (Hl : collapseTree 5 <$> (dstrip <$> cs) =
               dstrip <$> (collapseTree 5 <$> cs)).
  { rewrite <- !list_fmap_compose. symmetry. by apply Forall_fmap_ext_1. }
  rewrite Hl, !length_fmap. case_decide.
  - rewrite dstrip_set_children, fmap_app. cbn [fmap list_fmap].
    by rewrite dstrip_mkEllipsis, fmap_take, fmap_drop.
  - by rewrite dstrip_set_children.
Qed.

Lemma dstrip_attachScreenshotsToNode (m : smap) (n : node) :
  dstrip (attachScreenshotsToNode m n) = dstrip n.
Proof.
  induction n as [nm u p cs sc e hc pp bs IH _] using node_ind. cbn.
  f_equal. rewrite <- list_fmap_compose. by apply Forall_fmap_ext_1.
Qed.

Lemma dstrip_nodeAt (d : node) (pos : list nat) :
  nodeAt (dstrip d) pos = dstrip <$> nodeAt d pos.
Proof.
  revert d. induction pos as [|i pos IH]; intros d; [done|]. cbn.
  rewrite dstrip_children, list_lookup_fmap.
  destruct (children d !! i); [apply IH|done].
Qed.

Lemma dstrip_findNodeByPath (d : node) (tp : string) :
  findNodeByPath (dstrip d) tp = dstrip <$> findNodeByPath d tp.
Proof.
  induction d as [nm u p cs sc e hc pp bs IH _] using node_ind.
  rewrite !findNodeByPath_eq, dstrip_path, dstrip_children.
  case_decide as Hp; [done|]. clear Hp. cbn [children].
  induction IH as [|c l Hc _ IHl]; [done|].
  cbn [fmap list_fmap]. rewrite !findInChildren_cons, Hc.
  by destruct (findNodeByPath c tp).
Qed.

Lemma dstrip_updateNodeByPath (f g : node → node) (tp : string) (d : node) :
  (∀ x, dstrip (f x) = g (dstrip x)) →
  dstrip (updateNodeByPath f tp d) = updateNodeByPath g tp (dstrip d).
Proof.
  intros Hfg. induction d as [nm u p cs sc e hc pp bs IH _] using node_ind.
  rewrite !updateNodeByPath_eq, dstrip_path, dstrip_children.
  case_decide as Hp; [done|]. clear Hp.
  rewrite dstrip_set_children. f_equal. cbn [children].
  induction IH as [|c l Hc _ IHl]; [done|].
  cbn [fmap list_fmap]. rewrite !updateInChildren_cons, dstrip_findNodeByPath.
  destruct (findNodeByPath c tp); cbn [fmap option_fmap option_map].
  - cbn [fmap list_fmap]. by rewrite Hc.
  - cbn [fmap list_fmap]. f_equal. exact IHl.
Qed.

Lemma findIndex_fmap {A B} (f : A → B) (p : B → bool) (q : A → bool) (l : list A) :
  (∀ x, p (f x) = q x) → findIndex p (f <$> l) = findIndex q l.
Proof.
  intros Hpq. induction l as [|x l IH]; [done|]. cbn. by rewrite Hpq, IH.
Qed.

Lemma fmap_delete {A B} (f : A → B) (l : list A) (i : nat) :
  f <$> delete i l = delete i (f <$> l).
Proof.
  revert i. induction l as [|x l IH]; intros [|i]; try done.
  cbn. f_equal. apply IH.
Qed.

Lemma dstrip_expandParent (pp : string) (newNodes remainingNodes : list node)
    (m : smap) (parentNode : node) :
  dstrip (expandParent pp newNodes remainingNodes m parentNode) =
    expandParent pp (dstrip <$> newNodes) (dstrip <$> remainingNodes) ∅
      (dstrip parentNode).
Proof.
  unfold expandParent. rewrite dstrip_children.
  rewrite (findIndex_fmap dstrip isEllipsis isEllipsis _ dstrip_isEllipsis).
  assert (Hnew : dstrip <$> ((λ node, collapseTree 5 (json_copy node)) <$>
                   attachScreenshotsToNodes newNodes m) =
                 (λ node, collapseTree 5 (json_copy node)) <$>
                   attachScreenshotsToNodes (dstrip <$> newNodes) ∅).
  { unfold attachScreenshotsToNodes, json_copy. rewrite <- !list_fmap_compose.
    apply list_fmap_ext. intros i x _. cbn.
    by rewrite attachScreenshotsToNode_empty, dstrip_collapseTree,
      dstrip_attachScreenshotsToNode. }
  rewrite <- Hnew.
  assert (Hcs : dstrip <$>
      match findIndex isEllipsis (children parentNode) with
      | Some ellipsisIndex => delete ellipsisIndex (children parentNode)
      | None => children parentNode
      end =
      match findIndex isEllipsis (children parentNode) with
      | Some ellipsisIndex => delete ellipsisIndex (dstrip <$> children parentNode)
      | None => dstrip <$> children parentNode
      end).
  { destruct (findIndex _ _); [apply fmap_delete|done]. }
  rewrite <- Hcs.
  destruct remainingNodes as [|r rs].
  - by rewrite dstrip_set_children, fmap_app.
  - cbn [fmap list_fmap]. rewrite dstrip_set_children, !fmap_app.
    cbn [fmap list_fmap]. by rewrite dstrip_mkEllipsis.
Qed.

Lemma dstrip_performExpand (d e : node) (newNodes remainingNodes : list node)
    (m : smap) :
  dstrip (performExpand d e newNodes remainingNodes m) =
    performExpand (dstrip d) (dstrip e) (dstrip <$> newNodes)
      (dstrip <$> remainingNodes) ∅.
Proof.
  unfold performExpand. replace (parentPath (dstrip e)) with (parentPath e)
    by by destruct e.
  destruct (parentPath e) as [pp|]; [|done].
  rewrite dstrip_findNodeByPath.
  destruct (findNodeByPath d pp); [|done]. cbn [fmap option_fmap option_map].
  apply dstrip_updateNodeByPath. intros x. apply dstrip_expandParent.
Qed.

Lemma subnodes_dstrip (n : node) : subnodes (dstrip n) = dstrip <$> subnodes n.
Proof.
  induction n as [nm u p cs sc e hc pp bs IH _] using node_ind. cbn.
  f_equal. induction IH as [|c l Hc _ IHl]; [done|].
  cbn. by rewrite fmap_app, Hc, IHl.
Qed.

Lemma plainb_dstrip (n : node) : plainb (dstrip n) = plainb n.
Proof.
  induction n as [nm u p cs sc e hc pp bs IH _] using node_ind. cbn.
  f_equal. induction IH as [|c l Hc _ IHl]; [done|]. cbn. by rewrite Hc, IHl.
Qed.

Lemma hiddenSize_dstrip (n : node) : hiddenSize (dstrip n) = hiddenSize n.
Proof.
  induction n as [nm u p cs sc e hc pp bs IH IHh] using node_ind. cbn.
  f_equal.
  - f_equal. rewrite <- list_fmap_compose. by apply Forall_fmap_ext_1.
  - f_equal. rewrite <- list_fmap_compose. apply Forall_fmap_ext_1.
    eapply Forall_impl; [exact IHh|]. intros x Hx. cbn. by rewrite Hx.
Qed.

Lemma wellPathed_dstrip (n : node) : wellPathed n → wellPathed (dstrip n).
Proof.
  intros (Hpl & Hnd & Hmore). split_and!.
  - by rewrite plainb_dstrip.
  - rewrite subnodes_dstrip, <- list_fmap_compose.
    replace (path ∘ dstrip <$> subnodes n) with (path <$> subnodes n); [done|].
    apply list_fmap_ext. intros i x _. symmetry. apply dstrip_path.
  - rewrite subnodes_dstrip.
    intros q p [q' [-> Hq]]%list_elem_of_fmap [p' [-> Hp]]%list_elem_of_fmap.
    rewrite !dstrip_path, dstrip_children. intros Heq.
    apply list_elem_of_fmap_2. by apply Hmore.
Qed.

(** A tree with an ellipsis has one at some position. *)
Lemma ellipsis_position (d : node) :
  plainb d = false → ∃ pos e, nodeAt d pos = Some e ∧ isEllipsis e = true.
Proof.
  induction d as [nm u p cs sc e hc pp bs IH _] using node_ind.
  rewrite plainb_eq. cbn [isEllipsis children].
  destruct e; [intros _; by exists [], (Node nm u p cs sc true hc pp bs)|].
  cbn [negb andb]. intros Hcs.
  assert (Hex : ∃ i c, cs !! i = Some c ∧ plainb c = false).
  { clear IH. induction cs as [|c cs IHcs]; [done|]. cbn in Hcs.
    destruct (plainb c) eqn:Hc.
    - destruct (IHcs Hcs) as (i & c' & ? & ?). by exists (S i), c'.
    - by exists 0%nat, c. }
  destruct Hex as (i & c & Hi & Hc). rewrite Forall_forall in IH.
  destruct (IH c (list_elem_of_lookup_2 _ _ _ Hi) Hc) as (pos & x & Hat & Hx).
  exists (i :: pos), x. cbn. by rewrite Hi.
Qed.

(** ** Expansions of a collapsed tree *)

(** An expansion of a display tree of [t] is a display tree of [t] with
    fewer hidden nodes. *)
Lemma expandStep_shows (t d d' : node) :
  wellPathed t → shows (dstrip t) (dstrip d) → expandStep d d' →
  shows (dstrip t) (dstrip d') ∧ (hiddenSize d' < hiddenSize d)%nat.
Proof.
  intros Hwp Hshow [pos e m Hat He Hne ->].
  assert (Hat' : nodeAt (dstrip d) pos = Some (dstrip e)).
  { by rewrite dstrip_nodeAt, Hat. }
  assert (He' : isEllipsis (dstrip e) = true) by by rewrite dstrip_isEllipsis.
  destruct (shows_expand (dstrip t) (wellPathed_dstrip t Hwp) (dstrip d) pos
              (dstrip e) Hshow Hat' He')
    as (q & H & _ & Heq & _ & Hfind & Hshow' & Hsize).
  assert (HH : dstrip <$> hiddenChildren e = H).
  { by rewrite <- dstrip_hiddenChildren, Heq. }
  assert (Hb : batchSizeOf e = Z.of_nat 5).
  { unfold batchSizeOf. replace (expandBatchSize e) with (expandBatchSize (dstrip e))
      by by destruct e. by rewrite Heq. }
  assert (Hd' : dstrip (performExpand d e
                  (js_slice (hiddenChildren e) 0 (batchSizeOf e))
                  (js_slice_from (hiddenChildren e) (batchSizeOf e)) m) =
                updateNodeByPath
                  (expandParent (path q) (take 5 H) (drop 5 H) ∅) (path q)
                  (dstrip d)).
  { rewrite dstrip_performExpand, <- js_slice_fmap, <- js_slice_from_fmap.
    rewrite HH, Hb, js_slice_prefix, js_slice_suffix.
    unfold performExpand. rewrite Heq. cbn [parentPath mkEllipsis].
    by destruct Hfind as [f ->]. }
  rewrite <- (hiddenSize_dstrip (performExpand _ _ _ _ _)), Hd'.
  by rewrite <- (hiddenSize_dstrip d).
Qed.

(** While an ellipsis is displayed, an expansion is possible. *)
Lemma expandStep_progress (t d : node) :
  wellPathed t → shows (dstrip t) (dstrip d) → plainb d = false →
  ∃ d', expandStep d d'.
Proof.
  intros Hwp Hshow Hd. destruct (ellipsis_position d Hd) as (pos & e & Hat & He).
  assert (Hat' : nodeAt (dstrip d) pos = Some (dstrip e)).
  { by rewrite dstrip_nodeAt, Hat. }
  assert (He' : isEllipsis (dstrip e) = true) by by rewrite dstrip_isEllipsis.
  destruct (shows_expand (dstrip t) (wellPathed_dstrip t Hwp) (dstrip d) pos
              (dstrip e) Hshow Hat' He')
    as (q & H & _ & Heq & Hne & _).
  eexists. apply (expandStep_intro d _ pos e ∅ Hat He); [|done].
  intros Hnil. apply Hne. apply (f_equal hiddenChildren) in Heq.
  by rewrite dstrip_hiddenChildren, Hnil in Heq.
Qed.

Lemma expand_reachable_shows (t d : node) :
  wellPathed t → rtc expandStep (collapseTree 5 t) d →
  shows (dstrip t) (dstrip d).
Proof.
  intros Hwp Hr. revert d Hr. apply rtc_ind_r.
  - rewrite dstrip_collapseTree. apply shows_collapseTree.
  - intros d0 d _ Hstep IH. by apply (expandStep_shows t d0 d Hwp IH).
Qed.

Lemma expand_fully (t : node) (k : nat) (d : node) :
  wellPathed t → shows (dstrip t) (dstrip d) → (hiddenSize d < k)%nat →
  ∃ d', rtc expandStep d d' ∧ plainb d' = true.
Proof.
  intros Hwp. revert d. induction k as [|k IH]; intros d Hshow Hk; [lia|].
  destruct (plainb d) eqn:Hd; [by exists d|].
  destruct (expandStep_progress t d Hwp Hshow Hd) as [d1 Hstep].
  destruct (expandStep_shows t d d1 Hwp Hshow Hstep) as [Hshow1 Hlt].
  destruct (IH d1 Hshow1) as (d' & Hr & Hp); [lia|].
  exists d'. split; [by eapply rtc_l|done].
Qed.

(** A checker for [wellPathed]. *)
Definition wellPathedb (n : node) : bool :=
  plainb n && bool_decide (NoDup (path <$> subnodes n)) &&
  forallb (λ q, forallb (λ p,
      bool_decide (path p = path q +:+ "_more/" →
                   path p ∈ path <$> children q))
    (subnodes n)) (subnodes n).

Lemma NoDup_fmap_elem {A B} (f : A → B) (l : list A) (x y : A) :
  NoDup (f <$> l) → x ∈ l → y ∈ l → f x = f y → x = y.
Proof.
  induction l as [|z l IH]; [by intros _ ?%elem_of_nil|].
  cbn. intros [Hz Hnd]%NoDup_cons [->|Hx]%elem_of_cons [->|Hy]%elem_of_cons Heq.
  - done.
  - destruct Hz. rewrite Heq. by apply list_elem_of_fmap_2.
  - destruct Hz. rewrite <- Heq. by apply list_elem_of_fmap_2.
  - by apply IH.
Qed.

Lemma wellPathedb_spec (n : node) : wellPathedb n = true → wellPathed n.
Proof.
  unfold wellPathedb. intros [[Hpl Hnd%bool_decide_eq_true_1]%andb_prop Hall]%andb_prop.
  split; [done|]. split; [done|]. intros q p Hq Hp Heq.
  rewrite forallb_forall in Hall. apply list_elem_of_In in Hq as Hq', Hp as Hp'.
  specialize (Hall q Hq'). rewrite forallb_forall in Hall.
  specialize (Hall p Hp'). apply bool_decide_eq_true_1 in Hall.
  apply Hall in Heq as Hin. apply list_elem_of_fmap in Hin as (c & Hpc & Hc).
  assert (Hcn : c ∈ subnodes n).
  { eapply subnodes_trans; [exact Hq|].
    eapply subnodes_child; [exact Hc|apply subnodes_self]. }
  by rewrite (NoDup_fmap_elem path (subnodes n) p c Hnd Hp Hcn Hpc).
Qed.

(** ** The Tree Builder's trees are well pathed *)

(** No slash in the string. *)
Fixpoint slashFree (s : string) : bool :=
  match s with
  | EmptyString => true
  | String c s' => negb (Ascii.eqb c "/") && slashFree s'
  end.

Lemma split_on_slashFree (p : string) :
  Forall (λ s, slashFree s = true) (split_on "/" p).
Proof.
  induction p as [|c p IH]; cbn; [by repeat constructor|].
  destruct (Ascii.eqb c "/") eqn:Hc; [by constructor|].
  destruct (split_on "/" p) as [|x xs]; constructor; cbn; rewrite ?Hc; try done.
  - by apply Forall_cons in IH as [-> _].
  - by apply Forall_cons in IH as [_ ?].
Qed.

Lemma segmentsOf_slashFree (p : string) :
  Forall (λ s, slashFree s = true) (segmentsOf p).
Proof.
  apply Forall_forall. intros s [_ Hs]%list_elem_of_filter.
  revert s Hs. apply Forall_forall, split_on_slashFree.
Qed.

(** The first slash of [a/] is its last character. *)
Lemma segment_end (a u v : string) :
  slashFree a = true → a +:+ "/" = u +:+ String "/" v → v = "" ∧ a = u.
Proof.
  revert u. induction a as [|c a IH]; intros u Ha Heq.
  - destruct u as [|c' u]; cbn in Heq.
    + by injection Heq as <-.
    + injection Heq as _ Heq. by destruct u.
  - cbn in Ha. apply andb_prop in Ha as [Hc Ha].
    destruct u as [|c' u]; cbn in Heq.
    + injection Heq as -> _. done.
    + injection Heq as -> Heq. destruct (IH u Ha Heq) as [-> ->]. done.
Qed.

(** [x/a/ = y/b/] for segments [a] and [b] only if [x = y]. *)
Lemma parent_path_inj (x y a b : string) :
  slashFree a = true → slashFree b = true →
  x +:+ "/" +:+ a +:+ "/" = y +:+ "/" +:+ b +:+ "/" → x = y.
Proof.
  intros Ha Hb. revert y. induction x as [|c x IH]; intros [|c' y] Heq.
  - done.
  - cbn in Heq. injection Heq as _ Heq.
    destruct (segment_end a y (b +:+ "/") Ha Heq) as [Hv _]. by destruct b.
  - cbn in Heq. injection Heq as _ Heq.
    symmetry in Heq.
    destruct (segment_end b x (a +:+ "/") Hb Heq) as [Hv _]. by destruct a.
  - cbn in Heq. injection Heq as -> Heq. f_equal. by apply IH.
Qed.

Lemma append_length (x y : string) :
  String.length (x +:+ y) = (String.length x + String.length y)%nat.
Proof.
  induction x as [|c x IH]; [done|].
  change (S (String.length (x +:+ y)) = S (String.length x + String.length y)).
  by rewrite IH.
Qed.

(** What the builder keeps true of every object it makes: it is no
    ellipsis, and it is the root or is named by a path segment. *)
Definition obj_ok (o : Store.obj) : Prop :=
  Store.o_isEllipsis o = false ∧
  (Store.o_path o = "/" ∨ slashFree (Store.o_name o) = true).

Definition heap_ok (h : Store.heap) : Prop := Forall obj_ok h.

Lemma addSegment_heap_ok (url : string) (n i : nat) (segment : string)
    (w w' : walk) :
  slashFree segment = true → heap_ok (w_heap w) →
  addSegment url n w i segment = Some w' → heap_ok (w_heap w').
Proof.
  intros Hseg Hok. unfold addSegment.
  destruct (w_nodeMap w !! _); [by intros [= <-]|].
  unfold pushChild. intros Hrun.
  destruct ((w_heap w ++ _) !! w_parent w) as [o|] eqn:Ho; [|done].
  cbn [mbind option_bind] in Hrun.
  destruct (_ !! _) in Hrun; [|done]. injection Hrun as <-. cbn [w_heap].
  assert (Hok' : heap_ok (w_heap w ++
            [Store.Obj segment
               (if bool_decide (i = (n - 1)%nat) then Some url else None)
               (w_currentPath w +:+ segment +:+ "/") [] None false [] None None])).
  { apply Forall_app. split; [done|]. apply Forall_singleton. split; [done|by right]. }
  apply Forall_insert; [done|].
  apply list_elem_of_lookup_2 in Ho.
  unfold heap_ok in Hok'. rewrite Forall_forall in Hok'.
  destruct (Hok' o Ho) as [? ?]. by destruct o.
Qed.

Lemma walkSegments_heap_ok (url : string) (n : nat) (segments : list string) :
  Forall (λ s, slashFree s = true) segments → ∀ i w w',
  heap_ok (w_heap w) → walkSegments url n i segments w = Some w' →
  heap_ok (w_heap w').
Proof.
  induction 1 as [|s l Hs _ IH]; intros i w w' Hok; cbn.
  - by intros [= <-].
  - destruct (addSegment url n w i s) as [w1|] eqn:H1; [|done]. cbn.
    apply IH. by eapply addSegment_heap_ok.
Qed.

Lemma addUrl_heap_ok (st st' : Store.heap * gmap string Store.addr)
    (su : sortedUrl) :
  heap_ok st.1 → addUrl st su = Some st' → heap_ok st'.1.
Proof.
  intros Hok. unfold addUrl.
  destruct (walkSegments _ _ _ _ _) as [w|] eqn:Hw; [|done].
  cbn [mbind option_bind].
  assert (Hw' : heap_ok (w_heap w)).
  { eapply walkSegments_heap_ok; [apply segmentsOf_slashFree| |exact Hw]. done. }
  destruct (w_nodeMap w !! w_currentPath w) as [a|]; [|by intros [= <-]].
  destruct (w_heap w !! a) as [o|] eqn:Ho; [|done]. cbn [mbind option_bind].
  destruct (truthy _); intros [= <-]; [done|]. cbn [fst].
  apply Forall_insert; [done|]. apply list_elem_of_lookup_2 in Ho.
  unfold heap_ok in Hw'. rewrite Forall_forall in Hw'.
  destruct (Hw' o Ho) as [? ?]. by destruct o.
Qed.

Lemma addUrls_heap_ok (l : list sortedUrl) :
  ∀ st st', heap_ok st.1 → addUrls st l = Some st' → heap_ok st'.1.
Proof.
  induction l as [|su l IH]; intros st st' Hok; cbn.
  - by intros [= <-].
  - destruct (addUrl st su) as [st1|] eqn:H1; [|done]. cbn.
    apply IH. by eapply addUrl_heap_ok.
Qed.

Lemma append_assoc (x y z : string) : (x +:+ y) +:+ z = x +:+ y +:+ z.
Proof.
  induction x as [|c x IH]; [done|].
  change (String c ((x +:+ y) +:+ z) = String c (x +:+ y +:+ z)).
  by rewrite IH.
Qed.

Definition node_ok (n : node) : Prop :=
  isEllipsis n = false ∧ (path n = "/" ∨ slashFree (name n) = true).

Lemma arepr_nodes_ok (h : Store.heap) (T : Store.atree) :
  heap_ok h → Store.arepr h T → aplain T = true →
  Forall node_ok (subnodes (Store.erase T)).
Proof.
  intros Hok. induction T as [a o cs hs IH _] using Store.atree_ind.
  intros Hr Hpl. inversion_clear Hr as [? Ho _ _ Hcs _].
  cbn [Store.at_addr Store.at_obj Store.at_children] in *.
  cbn [Store.erase subnodes Store.at_obj Store.at_children].
  apply Forall_cons. split.
  - apply list_elem_of_lookup_2 in Ho. unfold heap_ok in Hok.
    rewrite Forall_forall in Hok. exact (Hok o Ho).
  - apply Forall_forall. intros x Hx.
    apply list_elem_of_bind in Hx as (c & Hx & Hc).
    apply list_elem_of_fmap in Hc as (C & -> & HC).
    rewrite Forall_forall in IH, Hcs.
    pose proof (IH C HC (Hcs C HC) (aplain_children _ C Hpl HC)) as HCok.
    rewrite Forall_forall in HCok. by apply HCok.
Qed.

Lemma plainb_intro (n : node) :
  (∀ x, x ∈ subnodes n → isEllipsis x = false) → plainb n = true.
Proof.
  induction n as [nm u p cs sc e hc pp bs IH _] using node_ind. intros Hall.
  rewrite plainb_eq. rewrite (Hall _ (subnodes_self _)).
  cbn [children negb andb]. apply forallb_forall. intros c Hc%list_elem_of_In.
  rewrite Forall_forall in IH. apply IH; [done|].
  intros x Hx. apply Hall. by eapply subnodes_child.
Qed.

(** Every node but the root is a child of a node. *)
Lemma subnodes_parent (t p : node) :
  p ∈ subnodes t → p = t ∨ ∃ r, r ∈ subnodes t ∧ p ∈ children r.
Proof.
  induction t as [nm u pa cs sc e hc pp bs IH _] using node_ind.
  intros [->|(c & Hc & Hp)]%subnodes_inv; [by left|]. right.
  cbn [children] in Hc. rewrite Forall_forall in IH.
  destruct (IH c Hc Hp) as [->|(r & Hr & Hpr)].
  - eexists. split; [apply subnodes_self|done].
  - exists r. split; [by eapply subnodes_child|done].
Qed.

(** The invariants of the builder's trees make them well pathed. *)
Lemma wellPathed_intro (t : node) :
  path t = "/" → NoDup (path <$> subnodes t) →
  (∀ n c, n ∈ subnodes t → c ∈ children n →
          path c = path n +:+ name c +:+ "/") →
  Forall node_ok (subnodes t) → wellPathed t.
Proof.
  intros Hroot Hnd Hedge Hok. rewrite Forall_forall in Hok.
  assert (Hslash : ∀ x, x ∈ subnodes t → ∃ y, path x = y +:+ "/").
  { intros x [->|(r & Hr & Hx)]%subnodes_parent.
    - exists "". by rewrite Hroot.
    - exists (path r +:+ name x). by rewrite (Hedge r x Hr Hx), append_assoc. }
  assert (Hlen : ∀ q, "/" ≠ q +:+ "_more/").
  { intros q Heq%(f_equal String.length). rewrite append_length in Heq.
    cbn in Heq. lia. }
  split; [|split; [done|]].
  - apply plainb_intro. intros x Hx. by apply Hok.
  - intros q p Hq Hp Heq.
    destruct (subnodes_parent t p Hp) as [->|(r & Hr & Hpr)].
    { rewrite Hroot in Heq. by apply Hlen in Heq. }
    destruct (Hok p Hp) as [_ [Hp1|Hname]].
    { rewrite Hp1 in Heq. by apply Hlen in Heq. }
    destruct (Hslash r Hr) as [x Hx], (Hslash q Hq) as [y Hy].
    assert (Hxy : x = y).
    { apply (parent_path_inj x y (name p) "_more" Hname eq_refl).
      transitivity (path p).
      - rewrite (Hedge r p Hr Hpr), Hx. by rewrite append_assoc.
      - rewrite Heq, Hy. by rewrite append_assoc. }
    assert (Hrq : r = q).
    { apply (NoDup_fmap_elem path (subnodes t) r q Hnd Hr Hq). congruence. }
    by rewrite <- Hrq.
Qed.

(** The tree that [buildUrlTree] returns is well pathed, so the round trip
    of collapsing and expanding applies to it. *)
Lemma buildUrlTree_wellPathed (pathname hostname : string → option string)
    (urls : list string) (baseUrl host : string) :
  hostname baseUrl = Some host →
  ∃ (h : Store.heap) (root : Store.addr) (t : node) (fuel : nat),
    buildUrlTree pathname hostname urls baseUrl = Some (h, root) ∧
    Store.reify fuel h root = Some t ∧ wellPathed t.
Proof.
  intros Hhost. unfold buildUrlTree. rewrite Hhost. cbn [mbind option_bind].
  set (root := Store.Obj host (Some baseUrl) "/" [] None false [] None None).
  destruct (addUrls_inv (sortByDepth (omap (toSortedUrl pathname) urls))
              [root] {["/" := 0%nat]} (Store.ANode 0 root [] []))
    as (h & nodeMap & T & Hrun & Hinv).
  { unfold build_inv. split_and!.
    - by repeat constructor.
    - done.
    - done.
    - change (NoDup [0%nat]). apply NoDup_singleton.
    - by rewrite lookup_singleton_eq.
    - intros a p [[= -> ->]|?%elem_of_nil]%elem_of_cons; [|done].
      by rewrite lookup_singleton_eq.
    - intros p a [<- <-]%lookup_singleton_Some. left.
    - by intros pp nm cp ?%elem_of_nil. }
  assert (Hok : heap_ok h).
  { apply (addUrls_heap_ok _ ([root], {["/" := 0%nat]}) (h, nodeMap)) in Hrun;
      [done|]. apply Forall_singleton. split; [done|by left]. }
  rewrite Hrun. cbn [mbind option_bind fst].
  destruct Hinv as (Hr & Ha0 & Hpl & Hnd & Hroot & Hent & Hmap & Hedge).
  exists h, 0%nat, (Store.erase T), (Store.height (Store.erase T)).
  split; [done|]. split; [rewrite <- Ha0; by apply Store.arepr_reify|].
  apply wellPathed_intro.
  - destruct (arepr_entries h T 0 "/" Hr (Hmap _ _ Hroot)) as (o & Ho & Hop).
    inversion_clear Hr as [? HT _ _ _ _]. rewrite Ha0 in HT.
    destruct T. cbn in *. congruence.
  - rewrite erase_paths by done.
    apply (NoDup_functional (pathEntries T) nodeMap); [|done].
    by rewrite pathEntries_cells.
  - intros n c Hn Hc. apply Hedge. by apply erase_edges.
  - by apply (arepr_nodes_ok h).
Qed.

(** ** Collapsing and expanding: the round trip *)

(** C4.  Let [t] be a TreeNode tree: no ellipsis in it, pairwise distinct
    paths, and a node whose path is [q.path + "_more/"] is a child of [q]
    (this follows from the invariants of the TreeNode model, lemma
    [wellPathed_intro], and holds of every tree that [buildUrlTree]
    returns, lemma [buildUrlTree_wellPathed]).  Let [d] be a display tree
    reached from [collapseTree t 5] by any number of clicks on ellipsis
    nodes, whatever screenshots arrive.  Then every further expansion
    strictly decreases the number of hidden nodes, so expanding until no
    ellipsis remains ends, and it can always be carried on to an
    ellipsis-free tree; and when [d] has no ellipsis left it is [t] up to
    screenshots: the same nodes in the same order, hence the same paths
    with the same url at each path. *)
Theorem collapse_expand_roundtrip (t d : node) :
  wellPathed t → rtc expandStep (collapseTree 5 t) d →
  (∀ d', expandStep d d' → (hiddenSize d' < hiddenSize d)%nat) ∧
  (∃ d', rtc expandStep d d' ∧ plainb d' = true) ∧
  (plainb d = true →
     dstrip d = dstrip t ∧
     (λ n, (path n, url n)) <$> subnodes d =
       (λ n, (path n, url n)) <$> subnodes t).
Proof.
  intros Hwp Hr. pose proof (expand_reachable_shows t d Hwp Hr) as Hshow.
  split; [|split].
  - intros d' Hstep. by destruct (expandStep_shows t d d' Hwp Hshow Hstep).
  - by apply (expand_fully t (S (hiddenSize d)) d Hwp Hshow); lia.
  - intros Hd.
    assert (Heq : dstrip d = dstrip t).
    { apply shows_plain; [done|]. by rewrite plainb_dstrip. }
    split; [done|].
    assert (Hpu : ∀ x, (λ n, (path n, url n)) <$> subnodes (dstrip x) =
                       (λ n, (path n, url n)) <$> subnodes x).
    { intros x. rewrite subnodes_dstrip, <- list_fmap_compose.
      apply list_fmap_ext. intros i y _. by destruct y. }
    by rewrite <- (Hpu d), <- (Hpu t), Heq.
Qed.

(** The ellipsis below the root of the collapsed [sample_six], and the
    display tree after a click on it. *)
Definition sample_ellipsis : node :=
  mkEllipsis "/" (sample_leaf <$> ["e"; "f"]).

Definition sample_expanded : node :=
  performExpand (collapseTree 5 sample_six) sample_ellipsis
    (js_slice (hiddenChildren sample_ellipsis) 0 (batchSizeOf sample_ellipsis))
    (js_slice_from (hiddenChildren sample_ellipsis) (batchSizeOf sample_ellipsis))
    ∅.

Lemma collapse_expand_roundtrip_witness :
  wellPathed sample_six ∧
  rtc expandStep (collapseTree 5 sample_six) sample_expanded ∧
  plainb sample_expanded = true ∧
  (λ n, (path n, url n)) <$> subnodes sample_expanded =
    (λ n, (path n, url n)) <$> subnodes sample_six.
Proof.
  assert (Hwp : wellPathed sample_six).
  { apply wellPathedb_spec. vm_compute. reflexivity. }
  assert (Hr : rtc expandStep (collapseTree 5 sample_six) sample_expanded).
  { apply rtc_once.
    apply (expandStep_intro _ _ [4%nat] sample_ellipsis ∅).
    - vm_compute. reflexivity.
    - reflexivity.
    - discriminate.
    - reflexivity. }
  assert (Hpl : plainb sample_expanded = true) by (vm_compute; reflexivity).
  split; [exact Hwp|]. split; [exact Hr|]. split; [exact Hpl|].
  exact (proj2 (proj2 (proj2 (collapse_expand_roundtrip sample_six
                                sample_expanded Hwp Hr)) Hpl)).
Defined.

(** * Further properties of the code *)

(** ** findNodeByPath (report.js) *)

Lemma find_app {A} (f : A → bool) (l1 l2 : list A) :
  List.find f (l1 ++ l2) =
    match List.find f l1 with
    | Some x => Some x
    | None => List.find f l2
    end.
Proof. induction l1 as [|x l1 IH]; cbn; [done|]. by destruct (f x). Qed.

Lemma findNodeByPath_find (t : node) (targetPath : string) :
  findNodeByPath t targetPath =
    List.find (λ n, bool_decide (path n = targetPath)) (subnodes t).
Proof.
  induction t as [nm u p cs sc e hc pp bs IH _] using node_ind.
  rewrite findNodeByPath_eq. cbn [subnodes children path List.find].
  case_decide as Hp.
  - by rewrite bool_decide_eq_true_2.
  - rewrite bool_decide_eq_false_2 by done.
    induction IH as [|c l Hc _ IHl]; [done|].
    rewrite findInChildren_cons. cbn [mbind list_bind].
    rewrite find_app, <- Hc. destruct (findNodeByPath c targetPath); [done|].
    apply IHl.
Qed.

(** X1. [findNodeByPath] returns the first node, in pre-order through
    [children], whose path is the target, and [null] exactly when no node
    has that path. *)
Theorem findNodeByPath_first (t : node) (targetPath : string) :
  findNodeByPath t targetPath =
    List.find (λ n, bool_decide (path n = targetPath)) (subnodes t) ∧
  (findNodeByPath t targetPath = None ↔ targetPath ∉ path <$> subnodes t).
Proof.
  split; [apply findNodeByPath_find|]. rewrite findNodeByPath_find. split.
  - intros Hnone [n [Hn Hin]]%list_elem_of_fmap.
    apply list_elem_of_In in Hin.
    apply (find_none _ _ Hnone) in Hin. cbn in Hin.
    by rewrite bool_decide_eq_true_2 in Hin.
  - intros Hno. destruct (List.find _ _) as [n|] eqn:Hfind; [|done].
    apply find_some in Hfind as [Hin Hp%bool_decide_eq_true_1].
    destruct Hno. rewrite <- Hp. apply list_elem_of_fmap_2.
    by apply list_elem_of_In.
Qed.

Lemma find_NoDup_fmap {A B} `{EqDecision B} (f : A → B) (l : list A) (x : A) :
  NoDup (f <$> l) → x ∈ l →
  List.find (λ y, bool_decide (f y = f x)) l = Some x.
Proof.
  induction l as [|y l IH]; [by intros _ ?%elem_of_nil|].
  cbn. intros [Hy Hnd]%NoDup_cons [->|Hx]%elem_of_cons.
  - by rewrite bool_decide_eq_true_2.
  - rewrite bool_decide_eq_false_2; [by apply IH|].
    intros Heq. apply Hy. rewrite Heq. by apply list_elem_of_fmap_2.
Qed.

(** X2. In a tree whose nodes have pairwise distinct paths, looking up the
    path of a node gives back that node. *)
Theorem findNodeByPath_lookup (t n : node) :
  NoDup (path <$> subnodes t) → n ∈ subnodes t →
  findNodeByPath t (path n) = Some n.
Proof.
  intros Hnd Hn. rewrite findNodeByPath_find. by apply find_NoDup_fmap.
Qed.

Lemma findNodeByPath_lookup_witness :
  NoDup (path <$> subnodes sample_six) ∧
  sample_leaf "c" ∈ subnodes sample_six ∧
  findNodeByPath sample_six "/c/" = Some (sample_leaf "c").
Proof.
  assert (Hnd : NoDup (path <$> subnodes sample_six)).
  { apply (bool_decide_eq_true_1 _). vm_compute. reflexivity. }
  assert (Hin : sample_leaf "c" ∈ subnodes sample_six).
  { do 3 apply list_elem_of_further. apply list_elem_of_here. }
  split; [exact Hnd|]. split; [exact Hin|].
  exact (findNodeByPath_lookup sample_six (sample_leaf "c") Hnd Hin).
Defined.

(** ** collectUrlsForCapture (report.js) *)

(** The url that [collect] pushes for one node. *)
Definition ownUrl (n : node) : list string :=
  match url n with
  | Some u => if truthy (Some u) && negb (isEllipsis n) then [u] else []
  | None => []
  end.

(** The urls of the non-ellipsis nodes of [n] down to [k] levels below it,
    in pre-order. *)
Fixpoint urlsWithin (k : nat) (n : node) : list string :=
  ownUrl n ++
  match k with
  | O => []
  | S k' => children n ≫= urlsWithin k'
  end.

(** The [for] loop of [collect] over the children of a node at depth
    [currentDepth - 1]. *)
Definition collectLoop (maxCount maxDepth currentDepth : Z) (l : list node)
    (urls : list string) : list string :=
  (fix loop (l : list node) (urls : list string) : list string :=
     match l with
     | [] => urls
     | c :: l' =>
         if Z.of_nat (length urls) >=? maxCount then urls
         else loop l' (collectNode maxCount maxDepth currentDepth c urls)
     end) l urls.

Lemma collectNode_eq (maxCount maxDepth currentDepth : Z) (n : node)
    (urls : list string) :
  collectNode maxCount maxDepth currentDepth n urls =
    let urls := urls ++ ownUrl n in
    match children n with
    | [] => urls
    | _ =>
        if (currentDepth + 1 >? maxDepth) || (Z.of_nat (length urls) >=? maxCount)
        then urls
        else collectLoop maxCount maxDepth (currentDepth + 1) (children n) urls
    end.
Proof.
  destruct n as [nm u p cs sc e hc pp bs]. unfold ownUrl. cbn.
  destruct u as [u|]; cbn; [|by rewrite app_nil_r].
  destruct (_ && _); cbn; [done|by rewrite app_nil_r].
Qed.

Lemma collectLoop_cons (maxCount maxDepth currentDepth : Z) (c : node)
    (l : list node) (urls : list string) :
  collectLoop maxCount maxDepth currentDepth (c :: l) urls =
    if Z.of_nat (length urls) >=? maxCount then urls
    else collectLoop maxCount maxDepth currentDepth l
           (collectNode maxCount maxDepth currentDepth c urls).
Proof. done. Qed.

Lemma take_take_app {A} (m : nat) (x y : list A) :
  take m (take m x ++ y) = take m (x ++ y).
Proof.
  destruct (decide (m ≤ length x)%nat).
  - rewrite !take_app_le by (rewrite ?length_take; lia). by rewrite take_take, Nat.min_id.
  - by rewrite (take_ge x) by lia.
Qed.

Lemma geb_length {A} (maxCount : Z) (urls : list A) :
  (length urls ≤ Z.to_nat maxCount)%nat →
  (Z.of_nat (length urls) >=? maxCount) = true →
  length urls = Z.to_nat maxCount.
Proof. rewrite Z.geb_leb. intros ? ?%Z.leb_le. lia. Qed.

Lemma collectLoop_spec (maxCount maxDepth currentDepth : Z) (k : nat)
    (l : list node) :
  Forall (λ c, ∀ urls, (length urls < Z.to_nat maxCount)%nat →
            collectNode maxCount maxDepth currentDepth c urls =
              take (Z.to_nat maxCount) (urls ++ urlsWithin k c)) l →
  ∀ urls, (length urls ≤ Z.to_nat maxCount)%nat →
    collectLoop maxCount maxDepth currentDepth l urls =
      take (Z.to_nat maxCount) (urls ++ (l ≫= urlsWithin k)).
Proof.
  induction 1 as [|c l Hc _ IH]; intros urls Hlen.
  - cbn. rewrite app_nil_r. by rewrite take_ge.
  - rewrite collectLoop_cons.
    destruct (Z.of_nat (length urls) >=? maxCount) eqn:Hfull.
    + apply geb_length in Hfull; [|done].
      by rewrite take_app_le, take_ge by lia.
    + rewrite Z.geb_leb in Hfull. apply Z.leb_gt in Hfull.
      rewrite Hc by lia. rewrite IH by (rewrite length_take; lia).
      cbn [mbind list_bind]. by rewrite take_take_app, app_assoc.
Qed.

Lemma collectNode_spec (maxCount maxDepth : Z) (n : node) :
  ∀ (k : nat) (currentDepth : Z) (urls : list string),
    maxDepth - currentDepth = Z.of_nat k →
    (length urls < Z.to_nat maxCount)%nat →
    collectNode maxCount maxDepth currentDepth n urls =
      take (Z.to_nat maxCount) (urls ++ urlsWithin k n).
Proof.
  induction n as [nm u p cs sc e hc pp bs IH _] using node_ind.
  intros k cd urls Hk Hlen. rewrite collectNode_eq. cbv zeta.
  set (n := Node nm u p cs sc e hc pp bs) in *. cbn [children n].
  assert (Hown : (length (urls ++ ownUrl n) ≤ Z.to_nat maxCount)%nat).
  { rewrite length_app. unfold ownUrl. destruct (url n); [|cbn; lia].
    destruct (_ && _); cbn; lia. }
  destruct cs as [|c cs].
  { destruct k; cbn [urlsWithin children n mbind list_bind];
      rewrite ?app_nil_r; by rewrite take_ge. }
  set (l := c :: cs) in *.
  destruct k as [|k].
  - replace (cd + 1 >? maxDepth) with true
      by (symmetry; rewrite Z.gtb_ltb; apply Z.ltb_lt; lia).
    cbn [orb urlsWithin]. rewrite app_nil_r. by rewrite take_ge.
  - replace (cd + 1 >? maxDepth) with false
      by (symmetry; rewrite Z.gtb_ltb; apply Z.ltb_ge; lia).
    cbn [orb urlsWithin children n].
    destruct (Z.of_nat (length (urls ++ ownUrl n)) >=? maxCount) eqn:Hfull.
    + apply geb_length in Hfull; [|done].
      by rewrite app_assoc, take_app_le, take_ge by lia.
    + rewrite (collectLoop_spec maxCount maxDepth (cd + 1) k l); [|..|done].
      * by rewrite app_assoc.
      * eapply Forall_impl; [exact IH|]. intros x Hx urls' Hlen'.
        apply Hx; [lia|done].
Qed.

(** X3. [collectUrlsForCapture(nodes, maxCount)] returns the first
    [maxCount] entries of the list, in pre-order, of the urls of the
    non-ellipsis nodes with a url among [nodes], their children and their
    grandchildren; a [maxCount] of zero or less gives the empty list. *)
Theorem collectUrlsForCapture_spec (nodes : list node) (maxCount : Z) :
  collectUrlsForCapture nodes maxCount =
    take (Z.to_nat maxCount) (nodes ≫= urlsWithin 2).
Proof.
  unfold collectUrlsForCapture, collect. cbn [orb length].
  change (0 >? 2) with false. cbn [orb].
  destruct (Z.of_nat 0 >=? maxCount) eqn:Hz.
  - rewrite Z.geb_leb in Hz. apply Z.leb_le in Hz.
    by replace (Z.to_nat maxCount) with 0%nat by lia.
  - change (collectLoop maxCount 2 0 nodes [] =
            take (Z.to_nat maxCount) ([] ++ (nodes ≫= urlsWithin 2))).
    apply collectLoop_spec; [|cbn; lia].
    apply Forall_forall. intros c _ urls Hlen.
    by apply collectNode_spec.
Qed.

(** X4. A click on an ellipsis node either sends nothing, or sends one
    [captureMore] request and locks the page; the request then names at
    least one and at most ten urls, none of them captured before, all of
    them urls of the nodes about to be revealed, their children or their
    grandchildren, and the display tree is not touched until the answer
    arrives. *)
Theorem handleExpandClick_request (p : page) (ellipsisD3Node : list nat) :
  let p' := handleExpandClick p ellipsisD3Node in
  pageSent p' = pageSent p ∨
  ∃ e urls,
    nodeAt (currentTreeData p) ellipsisD3Node = Some e ∧
    pageSent p' =
      pageSent p ++
      [MsgCaptureMore urls (parentPath e) (optionsOf (currentReportData p))] ∧
    urls ≠ [] ∧ (length urls ≤ 10)%nat ∧
    (∀ u, u ∈ urls →
       (u ∉ capturedUrlSet (currentReportData p)) ∧
       u ∈ (js_slice (hiddenChildren e) 0 (batchSizeOf e) ≫= urlsWithin 2)) ∧
    isExpanding p' = true ∧ currentTreeData p' = currentTreeData p.
Proof.
  cbv zeta. unfold handleExpandClick.
  destruct (isExpanding p); [by left|].
  destruct (nodeAt (currentTreeData p) ellipsisD3Node) as [e|] eqn:He; [|by left].
  destruct (hiddenChildren e) as [|h hs] eqn:Hh; [by left|].
  set (new := js_slice (h :: hs) 0 (batchSizeOf e)).
  assert (Hspec : collectUrlsForCapture new 10 = take 10 (new ≫= urlsWithin 2)).
  { unfold collectUrlsForCapture, collect. cbn [orb length].
    change (collectLoop 10 2 0 new [] = take 10 ([] ++ (new ≫= urlsWithin 2))).
    apply collectLoop_spec; [|cbn; lia].
    apply Forall_forall. intros c _ urls Hlen. by apply collectNode_spec. }
  destruct (filter _ (collectUrlsForCapture new 10)) as [|u us] eqn:Hf; [by left|].
  right. exists e, (u :: us). cbn [pageSent isExpanding currentTreeData].
  split; [done|]. split; [done|]. split; [done|]. split.
  - rewrite <- Hf. etrans; [apply length_filter|].
    rewrite Hspec, length_take. lia.
  - split; [|done]. intros x Hx. rewrite <- Hf in Hx.
    apply list_elem_of_filter in Hx as [Hnew Hx]. split; [done|].
    rewrite Hspec in Hx. apply subseteq_take in Hx. by rewrite Hh.
Qed.

(** ** Export (report.js, collectScreenshots) *)

(** The object that [collectScreenshots] pushes for a node. *)
Record card := Card {
  card_name : string;
  card_path : string;
  card_url : option string;
  card_screenshot : option string }.

Definition cardOf (n : node) : card :=
  Card (name n) (path n) (url n) (screenshot n).

(** [collectScreenshots(node, result)]: the [result] array afterwards. *)
Fixpoint collectScreenshots (n : node) (result : list card) : list card :=
  let result :=
    if truthy (screenshot n) && truthy (url n) then result ++ [cardOf n]
    else result in
  foldl (λ result child, collectScreenshots child result) result (children n).

(** X5. [collectScreenshots] appends to [result], in pre-order, one card
    for each node that has both a screenshot and a url, and nothing else;
    what [result] held before is kept in front. *)
Theorem collectScreenshots_spec (n : node) (result : list card) :
  collectScreenshots n result =
    result ++
    (cardOf <$> filter (λ x, truthy (screenshot x) && truthy (url x) = true)
                  (subnodes n)).
Proof.
  revert result. induction n as [nm u p cs sc e hc pp bs IH _] using node_ind.
  intros result. cbn [collectScreenshots subnodes children screenshot url].
  set (n := Node nm u p cs sc e hc pp bs).
  rewrite filter_cons. cbn [screenshot url n].
  set (r0 := if truthy sc && truthy u then result ++ [cardOf n] else result).
  assert (Hr0 : ∀ rest : list node,
    r0 ++ (cardOf <$> rest) =
    result ++ (cardOf <$> (if decide (truthy sc && truthy u = true)
                           then n :: rest else rest))).
  { intros rest. unfold r0. destruct (truthy sc && truthy u).
    - rewrite decide_True by done. by rewrite <- app_assoc.
    - by rewrite decide_False by done. }
  rewrite <- Hr0. clear Hr0. generalize r0. clear r0.
  induction IH as [|c l Hc _ IHl]; intros r0; [by rewrite app_nil_r|].
  cbn [foldl mbind list_bind]. rewrite IHl, Hc.
  by rewrite filter_app, fmap_app, app_assoc.
Qed.

(** ** truncateText (report.js) *)

(** [text.substring(0, end)] *)
Definition js_substring_to (text : string) (e : Z) : string :=
  String.substring 0
    (Z.to_nat (Z.min (Z.max e 0) (Z.of_nat (String.length text)))) text.

Definition truncateText (text : string) (maxLength : Z) : string :=
  if Z.of_nat (String.length text) <=? maxLength then text
  else js_substring_to text (maxLength - 2) +:+ "...".

Lemma substring_length (m : nat) (s : string) :
  String.length (String.substring 0 m s) = Nat.min m (String.length s).
Proof.
  revert m. induction s as [|c s IH]; intros [|m]; try done.
  cbn. by rewrite IH.
Qed.

(** X6. [truncateText] returns a text that fits unchanged.  A text longer
    than [maxLength] is cut to its first [maxLength - 2] characters followed
    by three dots, so for [maxLength] of two or more the result is
    [maxLength + 1] characters long, one more than [maxLength], and never
    longer than the text. *)
Theorem truncateText_length (text : string) (maxLength : Z) :
  2 ≤ maxLength →
  (Z.of_nat (String.length text) ≤ maxLength → truncateText text maxLength = text) ∧
  (maxLength < Z.of_nat (String.length text) →
     truncateText text maxLength =
       String.substring 0 (Z.to_nat (maxLength - 2)) text +:+ "..." ∧
     Z.of_nat (String.length (truncateText text maxLength)) = maxLength + 1 ∧
     (String.length (truncateText text maxLength) ≤ String.length text)%nat).
Proof.
  intros Hmax. unfold truncateText, js_substring_to. split.
  - intros Hfit. by rewrite (proj2 (Z.leb_le _ _) Hfit).
  - intros Hlong. rewrite (proj2 (Z.leb_gt _ _) Hlong).
    rewrite Z.max_l, Z.min_l by lia. split; [done|].
    rewrite append_length, substring_length. cbn [String.length]. lia.
Qed.

Lemma truncateText_length_witness :
  2 ≤ 20 ∧
  truncateText "a-very-long-directory-name" 20 = "a-very-long-direct...".
Proof.
  split; [lia|].
  destruct (truncateText_length "a-very-long-directory-name" 20 ltac:(lia))
    as [_ Hlong].
  destruct Hlong as (Heq & _ & _); [vm_compute; reflexivity|exact Heq].
Defined.

(** ** Crawler (service worker): isSameDomain *)

(** [s.endsWith(suffix)] *)
Fixpoint endsWith (s suffix : string) : bool :=
  String.eqb s suffix ||
  match s with
  | EmptyString => false
  | String _ s' => endsWith s' suffix
  end.

Lemma endsWith_spec (s suffix : string) :
  endsWith s suffix = true ↔ ∃ pre, s = pre +:+ suffix.
Proof.
  induction s as [|c s IH]; cbn [endsWith].
  - rewrite orb_false_r, String.eqb_eq. split.
    + intros <-. by exists "".
    + intros [[|c pre] Hpre]; [done|discriminate].
  - rewrite orb_true_iff, String.eqb_eq, IH. split.
    + intros [<-|[pre ->]]; [by exists ""|by exists (String c pre)].
    + intros [[|c' pre] Hpre]; [by left|]. right. exists pre.
      by injection Hpre.
Qed.

Section SameDomain.

(** [new URL(url).hostname], or [None] when the constructor throws. *)
Variable hostname : string → option string.

Definition isSameDomain (url baseUrl : string) : bool :=
  match hostname url with
  | Some urlHost =>
      match hostname baseUrl with
      | Some baseHost =>
          String.eqb urlHost baseHost || endsWith urlHost ("." +:+ baseHost)
      | None => false
      end
  | None => false
  end.

(** [isSameDomain] through the host names. *)
Lemma isSameDomain_hosts (url baseUrl : string) :
  isSameDomain url baseUrl = true ↔
  ∃ urlHost baseHost,
    hostname url = Some urlHost ∧ hostname baseUrl = Some baseHost ∧
    (urlHost = baseHost ∨ ∃ pre, urlHost = pre +:+ "." +:+ baseHost).
Proof.
  unfold isSameDomain. destruct (hostname url) as [uh|]; [|split; [done|]].
  - destruct (hostname baseUrl) as [bh|]; [|split; [done|]].
    + rewrite orb_true_iff, String.eqb_eq, endsWith_spec. split.
      * intros H. by exists uh, bh.
      * by intros (? & ? & [= <-] & [= <-] & H).
    + by intros (? & ? & _ & ? & _).
  - by intros (? & ? & ? & _).
Qed.

(** X7. [isSameDomain] holds between a url that parses and itself, is
    false as soon as one of the two urls does not parse, and is
    transitive: a subdomain of a subdomain of the base counts as the same
    site. *)
Theorem isSameDomain_order (a b c : string) :
  (is_Some (hostname a) → isSameDomain a a = true) ∧
  (hostname a = None ∨ hostname b = None → isSameDomain a b = false) ∧
  (isSameDomain a b = true → isSameDomain b c = true →
   isSameDomain a c = true).
Proof.
  split; [|split].
  - intros [h Hh]. apply isSameDomain_hosts. exists h, h. by auto.
  - unfold isSameDomain. intros [->| ->]; [done|]. by destruct (hostname a).
  - intros (ah & bh & Ha & Hb & Hab)%isSameDomain_hosts
           (bh' & ch & Hb' & Hc & Hbc)%isSameDomain_hosts.
    assert (bh' = bh) as -> by congruence.
    apply isSameDomain_hosts. exists ah, ch. split; [done|]. split; [done|].
    destruct Hab as [->|[pre ->]]; [done|]. right.
    destruct Hbc as [->|[pre' ->]]; [by exists pre|].
    exists (pre +:+ "." +:+ pre'). by rewrite !append_assoc.
Qed.

End SameDomain.

Lemma isSameDomain_order_witness :
  isSameDomain sample_hostname "https://blog.shop.example.com/post"
    "https://shop.example.com/" = true ∧
  isSameDomain sample_hostname "https://shop.example.com/"
    "https://example.com" = true ∧
  isSameDomain sample_hostname "https://blog.shop.example.com/post"
    "https://example.com" = true.
Proof.
  split; [reflexivity|]. split; [reflexivity|].
  exact (proj2 (proj2 (isSameDomain_order sample_hostname
           "https://blog.shop.example.com/post" "https://shop.example.com/"
           "https://example.com")) eq_refl eq_refl).
Defined.

(** ** Crawler (service worker): crawlFromHomepage *)

(** What the crawler does to the outside, in order. *)
Inductive crawlEvent :=
  | CrCreateTab
  | CrAttach
  | CrProgress (current total : Z) (text : string)
  | CrVisit (url : string)
  | CrDetach
  | CrRemoveTab.

(** The call of the set-up that throws. *)
Inductive crawlSetupStage := AtCreateTab | AtAttach | AtPageEnable.

(** The browser as the crawler sees it.  [crawlSetupError] is the exception
    of [chrome.tabs.create], [chrome.debugger.attach] or [Page.enable], if
    any, and which of them threw; [crawlCancelAt i] is the value of [shouldCancel] read at the top of
    iteration [i]; [pageLinks i url] is what iteration [i] gets from
    navigating to [url] and evaluating the link query: the [href]s that
    start with [http], or [None] when navigation or evaluation throws or
    gives no value. *)
Record crawlBrowser := CrawlBrowser {
  crawlSetupError : option (crawlSetupStage * string);
  crawlCancelAt : nat → bool;
  pageLinks : nat → string → option (list string) }.

Record crawlState := CrawlState {
  cs_visited : list string;
  cs_queue : list (string * Z);
  cs_urls : list string;
  cs_log : list crawlEvent }.

Section Crawler.

Variable hostname : string → option string.

(** [new URL(url)], [hash = ''], [href.replace(/\/$/, '')]; [None] when the
    constructor throws. *)
Variable normalize : string → option string.

(** [extractLinks], given what the evaluation returned. *)
Definition extractLinks (value : option (list string)) (baseUrl : string)
    : list string :=
  match value with
  | Some value => filter (λ url, isSameDomain hostname url baseUrl = true) value
  | None => []
  end.

(** One iteration of the [while] loop that got past the loop condition and
    the cancel check, for the queue entry [(url, depth)] it shifts. *)
Definition crawlStep (b : crawlBrowser) (baseUrl : string) (maxPages : Z)
    (i : nat) (url : string) (depth : Z) (st : crawlState) : crawlState :=
  let maxDepth := 3 in
  if bool_decide (url ∈ cs_visited st) || (depth >? maxDepth) then st
  else
    let visited := cs_visited st ++ [url] in
    match normalize url with
    | None => CrawlState visited (cs_queue st) (cs_urls st) (cs_log st)
    | Some normalizedUrl =>
        if bool_decide (normalizedUrl ∈ cs_urls st)
        then CrawlState visited (cs_queue st) (cs_urls st) (cs_log st)
        else
          let urls := cs_urls st ++ [normalizedUrl] in
          let log :=
            cs_log st ++
            [CrProgress (Z.of_nat (length urls)) maxPages
               ("Crawling: " +:+ normalizedUrl);
             CrVisit normalizedUrl] in
          let links := extractLinks (pageLinks b i normalizedUrl) baseUrl in
          let queue :=
            cs_queue st ++
            ((λ link, (link, depth + 1)) <$>
               filter (λ link, (link ∉ visited) ∧ depth + 1 ≤ maxDepth) links) in
          CrawlState visited queue urls log
    end.

(** The [while] loop.  [None]: the fuel ran out. *)
Fixpoint crawlLoop (fuel : nat) (b : crawlBrowser) (baseUrl : string)
    (maxPages : Z) (i : nat) (st : crawlState) : option crawlState :=
  match cs_queue st with
  | [] => Some st
  | (url, depth) :: queue =>
      if negb (Z.of_nat (length (cs_urls st)) <? maxPages) then Some st
      else if crawlCancelAt b i then Some st
      else
        match fuel with
        | O => None
        | S fuel =>
            crawlLoop fuel b baseUrl maxPages (S i)
              (crawlStep b baseUrl maxPages i url depth
                 (CrawlState (cs_visited st) queue (cs_urls st) (cs_log st)))
        end
  end.

(** [crawlFromHomepage]: [inl message] when the promise rejects, else the
    urls; and the events. *)
Definition crawlFromHomepage (fuel : nat) (b : crawlBrowser) (baseUrl : string)
    (maxPages : Z) : option ((string + list string) * list crawlEvent) :=
  match crawlSetupError b with
  | Some (AtCreateTab, message) => Some (inl message, [])
  | Some (AtAttach, message) => Some (inl message, [CrCreateTab])
  | Some (AtPageEnable, message) =>
      Some (inl message, [CrCreateTab; CrAttach; CrDetach; CrRemoveTab])
  | None =>
      st ← crawlLoop fuel b baseUrl maxPages 0
              (CrawlState [] [(baseUrl, 0)] [] [CrCreateTab; CrAttach]);
      Some (inr (cs_urls st), cs_log st ++ [CrDetach; CrRemoveTab])
  end.

End Crawler.

(** The pages visited and the progress reports of a crawl, in order. *)
Definition crawlVisits (log : list crawlEvent) : list string :=
  omap (λ e, match e with CrVisit url => Some url | _ => None end) log.

Definition crawlProgress (log : list crawlEvent) : list (Z * Z * string) :=
  omap (λ e, match e with
             | CrProgress current total text => Some (current, total, text)
             | _ => None
             end) log.

(** What the loop does to the browser for the pages [urls], in order: for
    the [k]-th page a progress report, then the visit. *)
Definition crawlTrace (maxPages : Z) (urls : list string) : list crawlEvent :=
  mjoin (imap (λ k u, [CrProgress (Z.of_nat k + 1) maxPages
                         ("Crawling: " +:+ u);
                       CrVisit u]) urls).

Section CrawlerFacts.

Variable hostname : string → option string.
Variable normalize : string → option string.
Variable b : crawlBrowser.
Variable baseUrl : string.
Variable maxPages : Z.

(** The base url or a link to the same site. *)
Definition fromSite (u : string) : Prop :=
  u = baseUrl ∨ isSameDomain hostname u baseUrl = true.

Definition crawl_inv (st : crawlState) : Prop :=
  NoDup (cs_urls st) ∧
  Z.of_nat (length (cs_urls st)) ≤ Z.max 0 maxPages ∧
  Forall (λ e, fromSite e.1 ∧ 0 ≤ e.2 ≤ 3) (cs_queue st) ∧
  Forall (λ x, ∃ u, fromSite u ∧ normalize u = Some x) (cs_urls st) ∧
  crawlVisits (cs_log st) = cs_urls st ∧
  crawlProgress (cs_log st) =
    imap (λ k u, (Z.of_nat k + 1, maxPages, "Crawling: " +:+ u)) (cs_urls st).

Lemma crawlStep_inv (i : nat) (url : string) (depth : Z) (v : list string)
    (q : list (string * Z)) (urls : list string) (log : list crawlEvent) :
  crawl_inv (CrawlState v ((url, depth) :: q) urls log) →
  Z.of_nat (length urls) < maxPages →
  let st' := crawlStep hostname normalize b baseUrl maxPages i url depth
               (CrawlState v q urls log) in
  crawl_inv st' ∧
  ((∃ v', st' = CrawlState v' q urls log) ∨
   length (cs_urls st') = S (length urls)).
Proof.
  intros (Hnd & Hlen & Hq & Hu & Hvis & Hprog) Hroom. cbn in * |-.
  apply Forall_cons in Hq as [[Hsite Hdepth] Hq]. cbn in Hsite, Hdepth.
  assert (Hsame : ∀ v', crawl_inv (CrawlState v' q urls log)).
  { intros v'. by split_and!. }
  cbv zeta. unfold crawlStep. cbn [cs_visited cs_queue cs_urls cs_log].
  destruct (bool_decide (url ∈ v) || (depth >? 3)); [by eauto|].
  destruct (normalize url) as [nu|] eqn:Hnu; [|by eauto].
  case_bool_decide as Hin; [by eauto|].
  split; [|by right; cbn; rewrite length_app; cbn; lia].
  split_and!; cbn [cs_visited cs_queue cs_urls cs_log].
  - apply NoDup_app. split_and!; [done| |apply NoDup_singleton].
    by intros x Hx ->%list_elem_of_singleton.
  - rewrite length_app. cbn. lia.
  - apply Forall_app. split; [done|]. apply Forall_fmap, Forall_forall.
    intros link [[_ Hd] Hl]%list_elem_of_filter. cbn. split; [|lia].
    right. unfold extractLinks in Hl. destruct (pageLinks b i nu); [|by apply elem_of_nil in Hl].
    by apply list_elem_of_filter in Hl as [? _].
  - apply Forall_app. split; [done|]. apply Forall_singleton. by exists url.
  - unfold crawlVisits in *. rewrite omap_app, Hvis. done.
  - unfold crawlProgress in *. rewrite omap_app, Hprog, imap_app. cbn.
    by rewrite Nat.add_0_r, length_app, Nat2Z.inj_add.
Qed.

(** The loop ends: every iteration takes an entry off the queue, and only
    an iteration that adds a page, of which there are at most [maxPages],
    puts entries on it. *)
Lemma crawlLoop_ends (n : nat) :
  ∀ (st : crawlState) (i : nat),
    Z.to_nat (maxPages - Z.of_nat (length (cs_urls st))) = n →
    crawl_inv st →
    ∃ fuel st',
      crawlLoop hostname normalize fuel b baseUrl maxPages i st = Some st' ∧
      crawl_inv st'.
Proof.
  induction n as [n IHn] using lt_wf_ind. intros [v q urls log].
  revert v. induction q as [|[url depth] q IHq]; intros v i Hn Hinv.
  { exists 0%nat. eexists. by split. }
  cbn [cs_urls] in Hn.
  destruct (Z.ltb_spec (Z.of_nat (length urls)) maxPages) as [Hroom|Hfull].
  2: { exists 0%nat. eexists. split; [|done]. cbn.
       by rewrite (proj2 (Z.ltb_ge _ _) Hfull). }
  destruct (crawlCancelAt b i) eqn:Hcancel.
  { exists 0%nat. eexists. split; [|done]. cbn.
    by rewrite (proj2 (Z.ltb_lt _ _) Hroom), Hcancel. }
  destruct (crawlStep_inv i url depth v q urls log Hinv Hroom) as [Hinv' Hcase].
  cbv zeta in Hinv', Hcase.
  set (st' := crawlStep hostname normalize b baseUrl maxPages i url depth
                (CrawlState v q urls log)) in *.
  assert (Hnext : ∃ fuel st'',
    crawlLoop hostname normalize fuel b baseUrl maxPages (S i) st' = Some st'' ∧
    crawl_inv st'').
  { destruct Hcase as [[v' Hst']|Hgrow].
    - rewrite Hst' in Hinv' |- *. by apply IHq.
    - apply (IHn (Z.to_nat (maxPages - Z.of_nat (length (cs_urls st'))))); [|done..].
      rewrite Hgrow. lia. }
  destruct Hnext as (fuel & st'' & Hrun & Hinv'').
  exists (S fuel), st''. split; [|done]. cbn [crawlLoop cs_queue cs_urls].
  by rewrite (proj2 (Z.ltb_lt _ _) Hroom), Hcancel.
Qed.

Lemma crawlTrace_snoc (urls : list string) (u : string) :
  crawlTrace maxPages (urls ++ [u]) =
    crawlTrace maxPages urls ++
    [CrProgress (Z.of_nat (length (urls ++ [u]))) maxPages ("Crawling: " +:+ u);
     CrVisit u].
Proof.
  unfold crawlTrace. rewrite imap_app, join_app. cbn.
  rewrite Nat.add_0_r, length_app. cbn. do 3 f_equal. lia.
Qed.

Lemma crawlStep_log (pre : list crawlEvent) (i : nat) (url : string)
    (depth : Z) (st : crawlState) :
  cs_log st = pre ++ crawlTrace maxPages (cs_urls st) →
  cs_log (crawlStep hostname normalize b baseUrl maxPages i url depth st) =
    pre ++ crawlTrace maxPages
             (cs_urls (crawlStep hostname normalize b baseUrl maxPages i url
                         depth st)).
Proof.
  intros Hlog. unfold crawlStep.
  destruct (bool_decide (url ∈ cs_visited st) || (depth >? 3)); [done|].
  destruct (normalize url) as [nu|]; [|done].
  case_bool_decide; [done|]. cbn [cs_log cs_urls].
  by rewrite crawlTrace_snoc, Hlog, <- app_assoc.
Qed.

Lemma crawlLoop_log (pre : list crawlEvent) (fuel : nat) :
  ∀ (st st' : crawlState) (i : nat),
    crawlLoop hostname normalize fuel b baseUrl maxPages i st = Some st' →
    cs_log st = pre ++ crawlTrace maxPages (cs_urls st) →
    cs_log st' = pre ++ crawlTrace maxPages (cs_urls st').
Proof.
  induction fuel as [|fuel IH]; intros [v q urls log] st' i Hrun Hlog.
  - cbn in Hrun. destruct q as [|[url depth] q]; [by injection Hrun as <-|].
    destruct (negb _); [by injection Hrun as <-|].
    destruct (crawlCancelAt b i); [by injection Hrun as <-|done].
  - cbn [crawlLoop cs_queue cs_urls cs_visited cs_log] in Hrun.
    destruct q as [|[url depth] q]; [by injection Hrun as <-|].
    destruct (negb _); [by injection Hrun as <-|].
    destruct (crawlCancelAt b i); [by injection Hrun as <-|].
    apply IH in Hrun; [done|]. by apply crawlStep_log.
Qed.

End CrawlerFacts.

Section CrawlerResults.

Variable hostname : string → option string.
Variable normalize : string → option string.
Variable b : crawlBrowser.
Variable baseUrl : string.
Variable maxPages : Z.

Lemma crawl_inv_init :
  crawl_inv hostname normalize baseUrl maxPages
    (CrawlState [] [(baseUrl, 0)] [] [CrCreateTab; CrAttach]).
Proof.
  split_and!; cbn; try done; [constructor|lia|].
  apply Forall_singleton. cbn. split; [by left|lia].
Qed.

Lemma crawlLoop_inv (fuel : nat) :
  ∀ (st st' : crawlState) (i : nat),
    crawlLoop hostname normalize fuel b baseUrl maxPages i st = Some st' →
    crawl_inv hostname normalize baseUrl maxPages st →
    crawl_inv hostname normalize baseUrl maxPages st' ∧
    cs_urls st `prefix_of` cs_urls st'.
Proof.
  induction fuel as [|fuel IH]; intros [v q urls log] st' i Hrun Hinv.
  - cbn in Hrun. destruct q as [|[url depth] q]; [by injection Hrun as <-|].
    destruct (negb _); [by injection Hrun as <-|].
    destruct (crawlCancelAt b i); [by injection Hrun as <-|done].
  - cbn [crawlLoop cs_queue cs_urls cs_visited cs_log] in Hrun.
    destruct q as [|[url depth] q]; [by injection Hrun as <-|].
    destruct (Z.ltb_spec (Z.of_nat (length urls)) maxPages) as [Hroom|Hfull];
      cbn [negb] in Hrun; [|by injection Hrun as <-].
    destruct (crawlCancelAt b i); [by injection Hrun as <-|].
    destruct (crawlStep_inv hostname normalize b baseUrl maxPages i url depth
                v q urls log Hinv Hroom) as [Hinv' Hcase].
    cbv zeta in Hinv', Hcase.
    destruct (IH _ _ _ Hrun Hinv') as [Hinv'' Hpre]. split; [done|].
    etrans; [|exact Hpre]. cbn [cs_urls]. clear.
    unfold crawlStep. cbn [cs_visited cs_queue cs_urls cs_log].
    destruct (_ || _); [done|]. destruct (normalize url); [|done].
    case_bool_decide; [done|]. by apply prefix_app_r.
Qed.

(** X8. When the set-up succeeds, [crawlFromHomepage] returns: the loop
    ends whatever links the pages hold.  The urls it returns are pairwise
    distinct and at most [maxPages] many (none for a budget of zero or
    less).  Between attaching and detaching, the crawler does this and
    nothing else: for the [k]-th url of the result, in order, one progress
    report that counts it, and then the visit.  So each url is navigated
    to exactly once, after its own progress report. *)
Theorem crawlFromHomepage_ends :
  crawlSetupError b = None →
  ∃ fuel urls log,
    crawlFromHomepage hostname normalize fuel b baseUrl maxPages =
      Some (inr urls, log) ∧
    NoDup urls ∧
    Z.of_nat (length urls) ≤ Z.max 0 maxPages ∧
    log = [CrCreateTab; CrAttach] ++ crawlTrace maxPages urls ++
          [CrDetach; CrRemoveTab] ∧
    crawlVisits log = urls ∧
    crawlProgress log =
      imap (λ k u, (Z.of_nat k + 1, maxPages, "Crawling: " +:+ u)) urls.
Proof.
  intros Hsetup. unfold crawlFromHomepage. rewrite Hsetup.
  destruct (crawlLoop_ends hostname normalize b baseUrl maxPages _ _ 0%nat
              eq_refl crawl_inv_init)
    as (fuel & st' & Hrun & Hnd & Hlen & _ & _ & Hvis & Hprog).
  pose proof (crawlLoop_log hostname normalize b baseUrl maxPages
                [CrCreateTab; CrAttach] fuel _ _ _ Hrun eq_refl) as Hlog.
  exists fuel, (cs_urls st'), (cs_log st' ++ [CrDetach; CrRemoveTab]).
  rewrite Hrun. cbn [mbind option_bind]. split; [done|].
  split; [done|]. split; [done|].
  split; [by rewrite Hlog, <- app_assoc|].
  unfold crawlVisits, crawlProgress in *. rewrite !omap_app, Hvis, Hprog.
  cbn. by rewrite !app_nil_r.
Qed.

(** X9. Every url that [crawlFromHomepage] returns is the normal form of
    the base url or of a link that [isSameDomain] accepts; and when the
    budget is at least one, the first iteration is not cancelled and the
    base url parses, the result starts with the normal form of the base
    url. *)
Theorem crawlFromHomepage_urls (fuel : nat) (urls : list string)
    (log : list crawlEvent) :
  crawlFromHomepage hostname normalize fuel b baseUrl maxPages =
    Some (inr urls, log) →
  (∀ x, x ∈ urls →
     ∃ u, (u = baseUrl ∨ isSameDomain hostname u baseUrl = true) ∧
          normalize u = Some x) ∧
  (∀ nb, 1 ≤ maxPages → crawlCancelAt b 0 = false → (0 < fuel)%nat →
         normalize baseUrl = Some nb → head urls = Some nb).
Proof.
  unfold crawlFromHomepage.
  destruct (crawlSetupError b) as [[[] msg]|]; try done.
  destruct (crawlLoop _ _ _ _ _ _ _ _) as [st'|] eqn:Hrun; [|done].
  cbn [mbind option_bind]. intros [= <- <-].
  destruct (crawlLoop_inv _ _ _ _ Hrun crawl_inv_init)
    as [(_ & _ & _ & Hu & _) _].
  split.
  - intros x Hx. rewrite Forall_forall in Hu. by apply Hu.
  - intros nb Hmax Hcancel Hfuel Hnb. destruct fuel as [|fuel]; [lia|].
    cbn [crawlLoop cs_queue cs_urls cs_visited cs_log length] in Hrun.
    rewrite (proj2 (Z.ltb_lt _ _)) in Hrun by (cbn; lia).
    cbn [negb] in Hrun. rewrite Hcancel in Hrun.
    unfold crawlStep in Hrun. cbn [cs_visited cs_queue cs_urls cs_log] in Hrun.
    rewrite bool_decide_eq_false_2 in Hrun by apply not_elem_of_nil.
    change (0 >? 3) with false in Hrun. cbn [orb] in Hrun.
    rewrite Hnb in Hrun.
    rewrite bool_decide_eq_false_2 in Hrun by apply not_elem_of_nil.
    cbn [app] in Hrun.
    assert (Hinv1 : crawl_inv hostname normalize baseUrl maxPages
              (crawlStep hostname normalize b baseUrl maxPages 0 baseUrl 0
                 (CrawlState [] [] [] [CrCreateTab; CrAttach]))).
    { apply (crawlStep_inv hostname normalize b baseUrl maxPages 0 baseUrl 0
               [] [] [] [CrCreateTab; CrAttach] crawl_inv_init). cbn. lia. }
    unfold crawlStep in Hinv1. cbn [cs_visited cs_queue cs_urls cs_log] in Hinv1.
    rewrite bool_decide_eq_false_2 in Hinv1 by apply not_elem_of_nil.
    change (0 >? 3) with false in Hinv1. cbn [orb] in Hinv1.
    rewrite Hnb in Hinv1.
    rewrite bool_decide_eq_false_2 in Hinv1 by apply not_elem_of_nil.
    cbn [app] in Hinv1.
    destruct (crawlLoop_inv _ _ _ _ Hrun Hinv1) as [_ [rest Hpre]].
    cbn [cs_urls] in Hpre. by rewrite Hpre.
Qed.

End CrawlerResults.

(** A site whose home page links to one page of its own, twice, and to
    another site. *)
Definition sample_crawl_browser : crawlBrowser :=
  CrawlBrowser None (λ _, false)
    (λ _ url,
       if String.eqb url "https://example.com"
       then Some ["https://example.com/a"; "https://other.org/";
                  "https://example.com/a"]
       else Some []).

Definition sample_normalize (u : string) : option string :=
  if String.prefix "https://" u then Some u else None.

Lemma crawlFromHomepage_ends_witness :
  crawlSetupError sample_crawl_browser = None ∧
  ∃ fuel urls log,
    crawlFromHomepage sample_hostname sample_normalize fuel
      sample_crawl_browser "https://example.com" 10 = Some (inr urls, log) ∧
    NoDup urls ∧ Z.of_nat (length urls) ≤ 10 ∧
    log = [CrCreateTab; CrAttach] ++ crawlTrace 10 urls ++
          [CrDetach; CrRemoveTab].
Proof.
  split; [reflexivity|].
  destruct (crawlFromHomepage_ends sample_hostname sample_normalize
              sample_crawl_browser "https://example.com" 10 eq_refl)
    as (fuel & urls & log & Hrun & Hnd & Hlen & Hlog & _).
  exists fuel, urls, log. split; [exact Hrun|]. split; [exact Hnd|].
  split; [exact Hlen|exact Hlog].
Defined.

Lemma crawlFromHomepage_urls_witness :
  crawlFromHomepage sample_hostname sample_normalize 5 sample_crawl_browser
    "https://example.com" 10 =
    Some (inr ["https://example.com"; "https://example.com/a"],
          [CrCreateTab; CrAttach;
           CrProgress 1 10 "Crawling: https://example.com";
           CrVisit "https://example.com";
           CrProgress 2 10 "Crawling: https://example.com/a";
           CrVisit "https://example.com/a";
           CrDetach; CrRemoveTab]) ∧
  head ["https://example.com"; "https://example.com/a"] =
    Some "https://example.com".
Proof.
  assert (Hrun : crawlFromHomepage sample_hostname sample_normalize 5
            sample_crawl_browser "https://example.com" 10 =
          Some (inr ["https://example.com"; "https://example.com/a"],
                [CrCreateTab; CrAttach;
                 CrProgress 1 10 "Crawling: https://example.com";
                 CrVisit "https://example.com";
                 CrProgress 2 10 "Crawling: https://example.com/a";
                 CrVisit "https://example.com/a";
                 CrDetach; CrRemoveTab])) by (vm_compute; reflexivity).
  split; [exact Hrun|].
  apply (proj2 (crawlFromHomepage_urls sample_hostname sample_normalize
                  sample_crawl_browser "https://example.com" 10 5 _ _ Hrun));
    [lia|reflexivity|lia|reflexivity].
Defined.

(** ** Capture Orchestrator: cancellation *)

(** How many urls the loop handles from index [i] on before it reads
    [shouldCancel] as set. *)
Fixpoint firstCancel (b : browser) (i : nat) (urls : list string) : nat :=
  match urls with
  | [] => 0
  | _ :: rest => if cancelAt b i then 0 else S (firstCancel b (S i) rest)
  end.

Lemma firstCancel_spec (b : browser) (urls : list string) :
  ∀ i, (firstCancel b i urls ≤ length urls)%nat ∧
       (firstCancel b i urls < length urls →
        cancelAt b (i + firstCancel b i urls) = true)%nat ∧
       (∀ j, j < firstCancel b i urls → cancelAt b (i + j) = false)%nat.
Proof.
  induction urls as [|u rest IH]; intros i; cbn [firstCancel length].
  - split; [lia|]. split; intros; lia.
  - destruct (cancelAt b i) eqn:Hc.
    + split; [lia|]. split; [by rewrite Nat.add_0_r|]. intros; lia.
    + destruct (IH (S i)) as (Hle & Hat & Hbefore). split; [lia|]. split.
      * intros Hlt. rewrite <- Nat.add_succ_comm. apply Hat. lia.
      * intros [|j] Hj; [by rewrite Nat.add_0_r|].
        rewrite <- Nat.add_succ_comm. apply Hbefore. lia.
Qed.

Lemma captureLoop_cancel (b : browser) opts sink total urls :
  ∀ i results log,
    captureLoop b opts sink total i urls results log =
      (results ++ imap (λ j url, resultFor b opts (i + j) url)
                    (take (firstCancel b i urls) urls),
       log ++ mjoin (imap (λ j url,
                 [EvProgress sink (Z.of_nat (i + j) + 1) (Z.of_nat total) url;
                  EvRender url opts]) (take (firstCancel b i urls) urls))).
Proof.
  induction urls as [|url rest IH]; intros i results log.
  - cbn. by rewrite !app_nil_r.
  - cbn [captureLoop firstCancel]. destruct (cancelAt b i).
    + cbn. by rewrite !app_nil_r.
    + rewrite IH. cbn [take imap mjoin list_join].
      rewrite <- !app_assoc. cbn [app]. rewrite Nat.add_0_r.
      unfold resultFor at 2. f_equal.
      * do 2 f_equal. apply imap_ext. intros j u _. cbn. f_equal. lia.
      * do 4 f_equal. apply imap_ext. intros j u _. cbn.
        by replace (i + S j)%nat with (S i + j)%nat by lia.
Qed.

(** X10. When the set-up succeeds, the orchestrator resolves whatever is
    cancelled: with the entries, in order, of the urls before the first
    index at which [shouldCancel] is read as set (all of them if there is
    none), one progress report for each; and the debugger is detached and
    the tab removed at the end of every such run. *)
Theorem captureScreenshotsDebugger_cancel (b : browser) (urls : list string)
    (opts : captureOptions) (onProgress : bool) (log : list browserEvent) :
  setupError b = None →
  let k := firstCancel b 0 urls in
  (k ≤ length urls)%nat ∧
  (k < length urls → cancelAt b k = true)%nat ∧
  (∀ j, j < k → cancelAt b j = false)%nat ∧
  ∃ events,
    captureScreenshotsDebugger b urls opts onProgress log =
      (inr (imap (resultFor b opts) (take k urls)),
       log ++ [EvCreateTab; EvAttach] ++ events ++ [EvDetach; EvRemoveTab]) ∧
    cr_url <$> imap (resultFor b opts) (take k urls) = take k urls ∧
    progressEvents events =
      imap (λ i url, (Z.of_nat i + 1, Z.of_nat (length urls), url)) (take k urls).
Proof.
  intros Hs k. destruct (firstCancel_spec b urls 0) as (Hle & Hat & Hbefore).
  split; [done|]. split; [done|]. split; [done|].
  exists (mjoin (imap (λ j url,
            [EvProgress (if onProgress then ToCallback else ToBroadcast)
               (Z.of_nat (0 + j) + 1) (Z.of_nat (length urls)) url;
             EvRender url opts]) (take k urls))).
  split.
  - unfold captureScreenshotsDebugger. rewrite Hs, captureLoop_cancel.
    fold k. cbn [app]. f_equal. rewrite <- !app_assoc. reflexivity.
  - split.
    + rewrite fmap_imap. etrans; [|apply list_fmap_id].
      etrans; [|apply (imap_const id)].
      apply imap_ext. intros j u _. cbn. unfold resultFor.
      by destruct (renderPage b j u opts).
    + by rewrite (progressEvents_loop _ _ _ _ 0).
Qed.

(** A browser in which the run is cancelled while the second url is being
    rendered. *)
Definition sample_cancel_browser : browser :=
  Browser None (λ i, bool_decide (2 ≤ i)%nat) (λ _ _ _, inl "iVBORw0KGgo=")
    None None false.

Lemma captureScreenshotsDebugger_cancel_witness :
  setupError sample_cancel_browser = None ∧
  ∃ events,
    captureScreenshotsDebugger sample_cancel_browser sample_urls
      (CaptureOptions 5000 1000) false [] =
      (inr [CaptureResult "https://example.com/a"
              (Some "data:image/png;base64,iVBORw0KGgo=") None;
            CaptureResult "https://example.com/b"
              (Some "data:image/png;base64,iVBORw0KGgo=") None],
       [] ++ [EvCreateTab; EvAttach] ++ events ++ [EvDetach; EvRemoveTab]) ∧
    progressEvents events =
      [(1, 3, "https://example.com/a"); (2, 3, "https://example.com/b")].
Proof.
  split; [reflexivity|].
  destruct (captureScreenshotsDebugger_cancel sample_cancel_browser sample_urls
              (CaptureOptions 5000 1000) false [] eq_refl)
    as (_ & _ & _ & events & Hrun & _ & Hprog).
  exists events. split; [exact Hrun|exact Hprog].
Defined.

(** ** Stored dataset (service worker, captureMoreScreenshots) *)

(** The captured urls are listed once each, they are the keys of the
    screenshot map, and the map holds no empty image. *)
Definition storage_inv (d : dataset) : Prop :=
  NoDup (capturedUrlSet d) ∧
  (∀ u, u ∈ capturedUrlSet d ↔ is_Some (screenshotMap d !! u)) ∧
  (∀ u v, screenshotMap d !! u = Some v → truthy v = true).

Lemma storeScreenshot_inv (d : dataset) (s : captureResult) :
  storage_inv d →
  storage_inv (storeScreenshot d s) ∧
  capturedUrlSet d `prefix_of` capturedUrlSet (storeScreenshot d s) ∧
  (truthy (cr_screenshot s) = true →
   screenshotMap (storeScreenshot d s) !! cr_url s = Some (cr_screenshot s)) ∧
  (∀ u, u ∈ capturedUrlSet (storeScreenshot d s) →
        u ∈ capturedUrlSet d ∨ (u = cr_url s ∧ truthy (cr_screenshot s) = true)) ∧
  (∀ u v, screenshotMap d !! u = Some v → u ≠ cr_url s →
          screenshotMap (storeScreenshot d s) !! u = Some v).
Proof.
  intros (Hnd & Hsync & Htruthy). unfold storeScreenshot.
  destruct (truthy (cr_screenshot s)) eqn:Hs.
  2: { split; [done|]. split; [done|]. split; [done|]. split; [by left|done]. }
  unfold storage_inv. cbn [capturedUrlSet screenshotMap].
  split; [|split; [|split; [|split]]].
  - split; [|split].
    + case_bool_decide as Hin; [done|]. apply NoDup_app.
      split; [done|]. split; [|apply NoDup_singleton].
      by intros x Hx ->%list_elem_of_singleton.
    + intros u. destruct (decide (u = cr_url s)) as [->|Hne].
      * rewrite lookup_insert_eq. split; [by eauto|]. intros _.
        case_bool_decide; [done|]. apply elem_of_app. right. left.
      * rewrite lookup_insert_ne by done. rewrite <- Hsync.
        case_bool_decide; [done|]. rewrite elem_of_app, list_elem_of_singleton.
        split; [by intros [?|?]|by left].
    + intros u v. destruct (decide (u = cr_url s)) as [->|Hne].
      * rewrite lookup_insert_eq. by intros [= <-].
      * rewrite lookup_insert_ne by done. apply Htruthy.
  - case_bool_decide; [done|]. by apply prefix_app_r.
  - intros _. by rewrite lookup_insert_eq.
  - intros u. case_bool_decide; [by left|].
    rewrite elem_of_app, list_elem_of_singleton.
    intros [?|?]; [by left|by right].
  - intros u v Hu Hne. by rewrite lookup_insert_ne.
Qed.

Lemma storeScreenshots_inv (screenshots : list captureResult) :
  ∀ d, storage_inv d →
    storage_inv (foldl storeScreenshot d screenshots) ∧
    capturedUrlSet d `prefix_of` capturedUrlSet (foldl storeScreenshot d screenshots) ∧
    (∀ s, s ∈ screenshots → truthy (cr_screenshot s) = true →
          cr_url s ∈ capturedUrlSet (foldl storeScreenshot d screenshots)) ∧
    (∀ u, u ∈ capturedUrlSet (foldl storeScreenshot d screenshots) →
          u ∈ capturedUrlSet d ∨
          ∃ s, s ∈ screenshots ∧ cr_url s = u ∧ truthy (cr_screenshot s) = true).
Proof.
  induction screenshots as [|s l IH]; intros d Hinv; cbn [foldl].
  { split; [done|]. split; [done|]. split; [by intros ? ?%elem_of_nil|by left]. }
  destruct (storeScreenshot_inv d s Hinv) as (Hinv1 & Hpre1 & Hmap1 & Hin1 & _).
  destruct (IH _ Hinv1) as (Hinv2 & Hpre2 & Hall2 & Hin2).
  split; [done|]. split; [by etrans|]. split.
  - intros x [->|Hx]%elem_of_cons Ht; [|by apply Hall2].
    destruct Hinv1 as (_ & Hsync1 & _).
    assert (Hx : cr_url s ∈ capturedUrlSet (storeScreenshot d s)).
    { apply Hsync1. rewrite Hmap1 by done. by eauto. }
    destruct Hpre2 as [rest ->]. apply elem_of_app. by left.
  - intros u Hu. destruct (Hin2 u Hu) as [Hu1|(x & Hx & Hxu & Ht)].
    + destruct (Hin1 u Hu1) as [?|[-> Ht]]; [by left|]. right. exists s.
      split; [left|done].
    + right. exists x. split; [by right|done].
Qed.

(** X11. The storage update of [captureMoreScreenshots] keeps the stored
    dataset consistent: the captured urls stay pairwise distinct and stay
    exactly the keys of the screenshot map, which holds no empty image, and
    [capturedUrls] is their number.  The urls captured before keep their
    places, every url that came with a screenshot is among the captured
    ones afterwards, and no other url is added. *)
Theorem updateStorage_inv (d : dataset) (screenshots : list captureResult) :
  storage_inv d →
  let d' := updateStorage d screenshots in
  storage_inv d' ∧
  capturedUrls d' = Z.of_nat (length (capturedUrlSet d')) ∧
  capturedUrlSet d `prefix_of` capturedUrlSet d' ∧
  (∀ s, s ∈ screenshots → truthy (cr_screenshot s) = true →
        cr_url s ∈ capturedUrlSet d') ∧
  (∀ u, u ∈ capturedUrlSet d' →
        u ∈ capturedUrlSet d ∨
        ∃ s, s ∈ screenshots ∧ cr_url s = u ∧ truthy (cr_screenshot s) = true).
Proof.
  intros Hinv. cbv zeta. unfold updateStorage.
  cbn [capturedUrlSet capturedUrls screenshotMap].
  destruct (storeScreenshots_inv screenshots d Hinv) as (Hinv' & Hpre & Hall & Hin).
  split; [|by split_and!].
  destruct Hinv' as (Hnd & Hsync & Ht). by split_and!.
Qed.

Lemma updateStorage_inv_witness :
  storage_inv sample_dataset ∧
  capturedUrlSet
    (updateStorage sample_dataset
       [CaptureResult "https://example.com/a" (Some "data:image/png;base64,AA") None;
        CaptureResult "https://example.com/b" None (Some "net::ERR_FAILED");
        CaptureResult "https://example.com/a" (Some "data:image/png;base64,BB") None])
    = ["https://example.com/a"] ∧
  storage_inv
    (updateStorage sample_dataset
       [CaptureResult "https://example.com/a" (Some "data:image/png;base64,AA") None;
        CaptureResult "https://example.com/b" None (Some "net::ERR_FAILED");
        CaptureResult "https://example.com/a" (Some "data:image/png;base64,BB") None]).
Proof.
  assert (Hinv : storage_inv sample_dataset).
  { split; [constructor|]. split.
    - intros u. cbn. rewrite lookup_empty. split; [by intros ?%elem_of_nil|].
      by intros [? ?].
    - intros u v. cbn. by rewrite lookup_empty. }
  split; [exact Hinv|]. split; [vm_compute; reflexivity|].
  exact (proj1 (updateStorage_inv sample_dataset _ Hinv)).
Defined.

(** ** attachScreenshotsToTree (service worker) *)

Lemma subnodes_attachScreenshotsToTree (m : smap) (t : node) :
  subnodes (attachScreenshotsToTree m t) =
    attachScreenshotsToTree m <$> subnodes t.
Proof.
  induction t as [nm u p cs sc e hc pp bs IH _] using node_ind.
  cbn [attachScreenshotsToTree subnodes children fmap list_fmap]. f_equal.
  induction IH as [|c l Hc _ IHl]; [done|].
  cbn [fmap list_fmap mbind list_bind]. by rewrite fmap_app, Hc, IHl.
Qed.

(** X12. After the storage update of [captureMoreScreenshots] every node
    of the stored tree whose url is a key of the stored screenshot map
    carries the image stored under that url; the tree is otherwise the one
    stored before. *)
Theorem updateStorage_tree (d : dataset) (screenshots : list captureResult) :
  let d' := updateStorage d screenshots in
  strip (tree d') = strip (tree d) ∧
  ∀ n u v, n ∈ subnodes (tree d') → url n = Some u → u ≠ "" →
           screenshotMap d' !! u = Some v → screenshot n = v.
Proof.
  cbv zeta. unfold updateStorage. cbn [tree screenshotMap].
  set (d1 := foldl storeScreenshot d screenshots).
  assert (Htree : tree d1 = tree d).
  { subst d1. revert d. induction screenshots as [|s l IH]; intros d; [done|].
    cbn [foldl]. rewrite IH. unfold storeScreenshot. by destruct (truthy _). }
  split.
  - by rewrite attachScreenshotsToTree_strip, Htree.
  - intros n u v Hn Hu Hne Hv.
    rewrite subnodes_attachScreenshotsToTree in Hn.
    apply list_elem_of_fmap in Hn as (n0 & -> & _).
    destruct n0 as [nm u0 p cs sc e hc pp bs]. cbn in Hu |- *. subst u0.
    rewrite (proj2 (String.eqb_neq u "") Hne). cbn [negb]. by rewrite Hv.
Qed.

(** X13. Attaching one map of screenshots and then another is attaching
    their union, in which the second map wins; so attaching the same map
    twice is attaching it once. *)
Theorem attachScreenshotsToTree_compose (m1 m2 : smap) (t : node) :
  attachScreenshotsToTree m2 (attachScreenshotsToTree m1 t) =
    attachScreenshotsToTree (m2 ∪ m1) t ∧
  attachScreenshotsToTree m1 (attachScreenshotsToTree m1 t) =
    attachScreenshotsToTree m1 t.
Proof.
  assert (Hcomp : ∀ (ma mb : smap) t,
    attachScreenshotsToTree mb (attachScreenshotsToTree ma t) =
      attachScreenshotsToTree (mb ∪ ma) t).
  { clear. intros ma mb t.
    induction t as [nm u p cs sc e hc pp bs IH _] using node_ind.
    cbn [attachScreenshotsToTree url children screenshot name path isEllipsis
         hiddenChildren parentPath expandBatchSize].
    f_equal.
    - rewrite <- list_fmap_compose. by apply Forall_fmap_ext_1.
    - destruct u as [u|]; [|done]. destruct (truthy (Some u)); [|done].
      destruct (mb !! u) as [v|] eqn:Hb.
      + by rewrite (lookup_union_Some_l mb ma u v Hb).
      + by rewrite (lookup_union_r mb ma u Hb). }
  split; [apply Hcomp|]. rewrite Hcomp. f_equal. apply (idemp_L (∪)).
Qed.

(** ** Expansion Controller: the answer of the service worker *)

(** [screenshotMap] built by [handleExpandComplete]. *)
Definition screenshotMapOf (screenshots : list captureResult) : smap :=
  foldl (λ m s, <[cr_url s := cr_screenshot s]> m) ∅ screenshots.

(** What [handleExpandComplete] does to [currentReportData] for one entry. *)
Definition recordScreenshot (d : dataset) (s : captureResult) : dataset :=
  Dataset (tree d) (baseUrl d) (totalUrls d) (capturedUrls d) (timestamp d)
    (if bool_decide (cr_url s ∈ capturedUrlSet d) then capturedUrlSet d
     else capturedUrlSet d ++ [cr_url s])
    (if truthy (cr_screenshot s)
     then <[cr_url s := cr_screenshot s]> (screenshotMap d)
     else screenshotMap d)
    (options d).

(** What [handleSingleNodeComplete] does to the node it finds. *)
Definition showScreenshot (screenshotMap : smap) (nodeInTree : node) : node :=
  match url nodeInTree with
  | Some u =>
      if truthy (Some u) then
        let screenshot := default None (screenshotMap !! u) in
        if truthy screenshot then set_screenshot nodeInTree screenshot
        else nodeInTree
      else nodeInTree
  | None => nodeInTree
  end.

Definition handleSingleNodeComplete (p : page) (screenshotMap : smap) : page :=
  match pendingExpand p with
  | Some (PendingSingle nodePath) =>
      Page (currentReportData p)
        (updateNodeByPath (showScreenshot screenshotMap) nodePath
           (currentTreeData p))
        (isExpanding p) (pendingExpand p) (pageSent p) (expandLoading p)
        (modal p) (alerts p)
  | _ => p
  end.

Definition handleExpandComplete (p : page) (screenshots : list captureResult)
    (parentPath : option string) : page :=
  match pendingExpand p with
  | None =>
      Page (currentReportData p) (currentTreeData p) false None (pageSent p)
        false (modal p) (alerts p)
  | Some pend =>
      let screenshotMap := screenshotMapOf screenshots in
      let data := foldl recordScreenshot (currentReportData p) screenshots in
      let p := Page data (currentTreeData p) (isExpanding p) (pendingExpand p)
                 (pageSent p) false (modal p) (alerts p) in
      match pend with
      | PendingSingle _ =>
          let p := handleSingleNodeComplete p screenshotMap in
          Page (currentReportData p) (currentTreeData p) false None
            (pageSent p) (expandLoading p) (modal p) (alerts p)
      | PendingExpand ellipsis nodesToExpand remainingNodes pendingPath =>
          if decide (pendingPath = parentPath) then
            Page (currentReportData p)
              (performExpand (currentTreeData p) ellipsis nodesToExpand
                 remainingNodes screenshotMap)
              false None (pageSent p) (expandLoading p) (modal p) (alerts p)
          else
            Page (currentReportData p) (currentTreeData p) false None
              (pageSent p) (expandLoading p) (modal p) (alerts p)
      end
  end.

(** The message listener of the report page.  A progress message only
    moves the progress bar. *)
Definition pageReceive (p : page) (m : message) : page :=
  match m with
  | MsgCaptureMoreProgress _ _ _ _ => p
  | MsgCaptureMoreComplete screenshots parentPath =>
      handleExpandComplete p screenshots parentPath
  | MsgCaptureMoreError error _ => handleExpandError p error
  | MsgCaptureMore _ _ _ => p
  end.

(** The message listener of the service worker, for the messages of the
    report page. *)
Definition workerReceive (b : browser) (w : worker) (senderTab : option nat)
    (m : message) : worker :=
  match m with
  | MsgCaptureMore urls parentPath opts =>
      captureMoreScreenshots b w urls parentPath opts senderTab
  | _ => w
  end.

(** A click on a node of the report page in tab [tab], the work of the
    service worker on the request it sends, if any, and the delivery of
    the worker's messages to the page. *)
Definition clickSession (b : browser) (tab : option nat) (p : page)
    (w : worker) (d3Node : list nat) : page * worker :=
  let p1 := handleNodeClick p d3Node in
  let requests := drop (length (pageSent p)) (pageSent p1) in
  let w1 := foldl (λ w m, workerReceive b w tab m) w requests in
  let answers := drop (length (workerSent w)) (workerSent w1) in
  (foldl (λ p rm, pageReceive p rm.2) p1 answers, w1).

Lemma captureMoreScreenshots_idle (b : browser) (w : worker) (urls : list string)
    (pp : option string) (opts : captureOptions) (tab : option nat) :
  isRunning w = false →
  ∃ progress final,
    workerSent (captureMoreScreenshots b w urls pp opts tab) =
      workerSent w ++ progress ++ [(recipientOf tab, final)] ∧
    Forall (λ rm, ∃ c t u q, rm.2 = MsgCaptureMoreProgress c t u q) progress ∧
    isRunning (captureMoreScreenshots b w urls pp opts tab) = false ∧
    match captureFailure b (reportData w) with
    | Some message => final = MsgCaptureMoreError message pp
    | None => ∃ screenshots, final = MsgCaptureMoreComplete screenshots pp
    end.
Proof.
  intros Hidle. unfold captureMoreScreenshots, captureFailure. rewrite Hidle.
  destruct (captureScreenshotsDebugger b urls opts true (workerLog w))
    as [outcome log] eqn:Hcap.
  exists (progressMessages tab pp (drop (length (workerLog w)) log)).
  assert (Hprog : Forall (λ rm : recipient * message,
            ∃ c t u q, rm.2 = MsgCaptureMoreProgress c t u q)
            (progressMessages tab pp (drop (length (workerLog w)) log))).
  { apply Forall_forall. intros rm Hrm. unfold progressMessages in Hrm.
    apply list_elem_of_omap in Hrm as (e & _ & He).
    destruct e as [| |[] c t u| | |]; try done. injection He as <-.
    cbn. by eauto. }
  unfold captureScreenshotsDebugger in Hcap.
  destruct (setupError b) as [[stage message]|].
  - exists (MsgCaptureMoreError message pp).
    destruct stage; injection Hcap as <- <-;
      cbn [sendToTab workerSent isRunning];
      rewrite <- app_assoc; by split_and!.
  - destruct (captureLoop _ _ _ _ _ _ _ _) as [results log0].
    injection Hcap as <- <-. cbn [reportData].
    destruct (storageFailure b (reportData w)) as [message|].
    + exists (MsgCaptureMoreError message pp).
      cbn [sendToTab workerSent isRunning].
      rewrite <- app_assoc. by split_and!.
    + eexists. cbn [sendToTab workerSent isRunning].
      rewrite <- app_assoc. split_and!; [done..|by eexists].
Qed.

Lemma pageReceive_progress (p : page) (progress : list (recipient * message)) :
  Forall (λ rm, ∃ c t u q, rm.2 = MsgCaptureMoreProgress c t u q) progress →
  foldl (λ p rm, pageReceive p rm.2) p progress = p.
Proof.
  induction 1 as [|rm l (c & t & u & q & Hrm) _ IH]; [done|].
  cbn [foldl]. by rewrite Hrm.
Qed.

Lemma updateNodeByPath_dstrip (f : node → node) (tp : string) (d : node) :
  (∀ x, dstrip (f x) = dstrip x) →
  dstrip (updateNodeByPath f tp d) = dstrip d.
Proof.
  intros Hf. induction d as [nm u p cs sc e hc pp bs IH _] using node_ind.
  rewrite updateNodeByPath_eq. case_decide as Hp; [apply Hf|]. clear Hp.
  rewrite dstrip_set_children. cbn [children].
  transitivity (set_children (dstrip (Node nm u p cs sc e hc pp bs))
                  (dstrip <$> cs)); [|done].
  f_equal. induction IH as [|c l Hc _ IHl]; [done|].
  rewrite updateInChildren_cons.
  destruct (findNodeByPath c tp); cbn [fmap list_fmap]; by rewrite ?Hc, ?IHl.
Qed.

Lemma updateAt_dstrip (f : node → node) (pos : list nat) :
  (∀ x, dstrip (f x) = dstrip x) →
  ∀ d, dstrip (updateAt f d pos) = dstrip d.
Proof.
  intros Hf. induction pos as [|i pos IH]; intros d; [apply Hf|].
  cbn [updateAt]. destruct (children d !! i) as [c|] eqn:Hc; [|done].
  rewrite dstrip_set_children, list_fmap_insert, IH.
  rewrite list_insert_id by (by rewrite list_lookup_fmap, Hc).
  by destruct d.
Qed.

Lemma showScreenshot_dstrip (m : smap) (x : node) :
  dstrip (showScreenshot m x) = dstrip x.
Proof.
  unfold showScreenshot. destruct (url x); [|done].
  destruct (truthy (Some _)); [|done]. destruct (truthy (default _ _)); [|done].
  by destruct x.
Qed.

Lemma clickSession_no_request (b : browser) (tab : option nat) (p : page)
    (w : worker) (d3Node : list nat) :
  pageSent (handleNodeClick p d3Node) = pageSent p →
  clickSession b tab p w d3Node = (handleNodeClick p d3Node, w).
Proof.
  intros Hsent. unfold clickSession. rewrite Hsent, drop_all. cbn [foldl].
  by rewrite drop_all.
Qed.

Lemma clickSession_request (b : browser) (tab : option nat) (p : page)
    (w : worker) (d3Node : list nat) (urls : list string)
    (pp : option string) (opts : captureOptions) :
  pageSent (handleNodeClick p d3Node) =
    pageSent p ++ [MsgCaptureMore urls pp opts] →
  isRunning w = false →
  ∃ final,
    (clickSession b tab p w d3Node).1 =
      pageReceive (handleNodeClick p d3Node) final ∧
    isRunning (clickSession b tab p w d3Node).2 = false ∧
    match captureFailure b (reportData w) with
    | Some message => final = MsgCaptureMoreError message pp
    | None => ∃ screenshots, final = MsgCaptureMoreComplete screenshots pp
    end.
Proof.
  intros Hsent Hidle. unfold clickSession. rewrite Hsent, drop_app_length.
  cbn [foldl workerReceive fst snd].
  destruct (captureMoreScreenshots_idle b w urls pp opts tab Hidle)
    as (progress & final & Hw & Hprog & Hrun & Hfinal).
  exists final. rewrite Hw, drop_app_length, foldl_app.
  rewrite (pageReceive_progress _ _ Hprog). by split_and!.
Qed.

(** What a click does on an idle page: it is handled at once, or one
    request is sent and remembered in [pendingExpand]. *)
Lemma handleNodeClick_cases (p : page) (d3Node : list nat) :
  isExpanding p = false →
  let p1 := handleNodeClick p d3Node in
  (pageSent p1 = pageSent p ∧ isExpanding p1 = false ∧
   (dstrip (currentTreeData p1) = dstrip (currentTreeData p) ∨
    expandStep (currentTreeData p) (currentTreeData p1)) ∧
   (∀ e, nodeAt (currentTreeData p) d3Node = Some e → isEllipsis e = true →
         hiddenChildren e ≠ [] →
         expandStep (currentTreeData p) (currentTreeData p1))) ∨
  (∃ urls pp opts pend,
     pageSent p1 = pageSent p ++ [MsgCaptureMore urls pp opts] ∧
     currentTreeData p1 = currentTreeData p ∧
     pendingExpand p1 = Some pend ∧
     match pend with
     | PendingSingle _ =>
         ∀ e, nodeAt (currentTreeData p) d3Node = Some e → isEllipsis e = false
     | PendingExpand e new rem pp' =>
         pp' = pp ∧ nodeAt (currentTreeData p) d3Node = Some e ∧
         isEllipsis e = true ∧ hiddenChildren e ≠ [] ∧
         new = js_slice (hiddenChildren e) 0 (batchSizeOf e) ∧
         rem = js_slice_from (hiddenChildren e) (batchSizeOf e)
     end).
Proof.
  intros Hp. cbv zeta. unfold handleNodeClick.
  destruct (nodeAt (currentTreeData p) d3Node) as [data|] eqn:Hat.
  2: { left. split_and!; [done|done|by left|done]. }
  destruct (isEllipsis data) eqn:Hell.
  - unfold handleExpandClick. rewrite Hp, Hat.
    destruct (hiddenChildren data) as [|h hs] eqn:Hh.
    { left. split_and!; [done|done|by left|].
      intros e [= <-] _ Hne. by rewrite Hh in Hne. }
    destruct (filter _ (collectUrlsForCapture _ 10)) as [|u us].
    + left. cbn [pageSent isExpanding currentTreeData].
      assert (Hstep : expandStep (currentTreeData p)
                (performExpand (currentTreeData p) data
                   (js_slice (h :: hs) 0 (batchSizeOf data))
                   (js_slice_from (h :: hs) (batchSizeOf data)) ∅)).
      { apply (expandStep_intro _ _ d3Node data ∅ Hat Hell);
          [by rewrite Hh|by rewrite Hh]. }
      split_and!; [done|done|by right|done].
    + right. eexists _, _, _, _. cbn [pageSent currentTreeData pendingExpand].
      split; [done|]. split; [done|]. split; [done|]. cbn.
      rewrite Hh. by split_and!.
  - destruct (truthy (screenshot data)) eqn:Hsc.
    { left. cbn. split_and!; [done|done|by left|].
      intros e [= <-]. by rewrite Hell. }
    cbn [negb]. rewrite andb_true_r.
    destruct (truthy (url data)) eqn:Hurl.
    2: { left. split_and!; [done|done|by left|].
         intros e [= <-]. by rewrite Hell. }
    unfold handleSingleNodeCapture. rewrite Hp, Hat.
    destruct (url data) as [u|] eqn:Hu; [|done].
    rewrite Hurl, Hsc. cbn [negb orb].
    destruct (truthy (if bool_decide _ then _ else _)).
    + left. cbn [pageSent isExpanding currentTreeData].
      split_and!; [done|done| |].
      * left. apply updateAt_dstrip. intros x. by destruct x.
      * intros e [= <-]. by rewrite Hell.
    + right. eexists _, _, _, _. cbn [pageSent currentTreeData pendingExpand].
      split; [done|]. split; [done|]. split; [done|].
      intros e [= <-]. exact Hell.
Qed.

(** What a click session comes to: page and worker are idle again, and
    either the click was handled at once, or the request it sent was
    answered, by an error that leaves the display tree alone or by the
    screenshots with which the pending update is made. *)
Lemma clickSession_outcome (b : browser) (tab : option nat) (p : page)
    (w : worker) (d3Node : list nat) :
  isExpanding p = false → isRunning w = false →
  let p1 := handleNodeClick p d3Node in
  let p' := (clickSession b tab p w d3Node).1 in
  let w' := (clickSession b tab p w d3Node).2 in
  isExpanding p' = false ∧ isRunning w' = false ∧
  ((pageSent p1 = pageSent p ∧ p' = p1) ∨
   (∃ urls pp opts pend,
      pageSent p1 = pageSent p ++ [MsgCaptureMore urls pp opts] ∧
      pendingExpand p1 = Some pend ∧
      match captureFailure b (reportData w) with
      | Some _ => currentTreeData p' = currentTreeData p
      | None =>
          ∃ screenshots,
            currentTreeData p' =
              match pend with
              | PendingSingle nodePath =>
                  updateNodeByPath
                    (showScreenshot (screenshotMapOf screenshots)) nodePath
                    (currentTreeData p)
              | PendingExpand e new rem _ =>
                  performExpand (currentTreeData p) e new rem
                    (screenshotMapOf screenshots)
              end
      end)).
Proof.
  intros Hp Hw. cbv zeta.
  destruct (handleNodeClick_cases p d3Node Hp)
    as [(Hsent & Hex & _)|
        (urls & pp & opts & pend & Hsent & Htree & Hpend & Hkind)].
  { rewrite clickSession_no_request by done. cbn [fst snd].
    split; [done|]. split; [done|]. by left. }
  destruct (clickSession_request b tab p w d3Node urls pp opts Hsent Hw)
    as (final & -> & Hrun & Hfinal).
  split; [|split; [done|]].
  { destruct (captureFailure b (reportData w)); [by subst final|].
    destruct Hfinal as [shots ->]. cbn [pageReceive].
    unfold handleExpandComplete. rewrite Hpend.
    destruct pend; [done|]. cbn. by case_decide. }
  right. exists urls, pp, opts, pend. split; [done|]. split; [done|].
  destruct (captureFailure b (reportData w)) as [message|].
  { subst final. cbn. by rewrite Htree. }
  destruct Hfinal as [shots ->]. exists shots. cbn [pageReceive].
  unfold handleExpandComplete. rewrite Hpend.
  destruct pend as [nodePath|e new rem pp'].
  - unfold handleSingleNodeComplete. cbn [pendingExpand currentTreeData].
    by rewrite Htree.
  - destruct Hkind as (-> & _). rewrite decide_True by done.
    cbn [currentTreeData]. by rewrite Htree.
Qed.

(** What a click that sends no request does on an idle page: it leaves
    the display tree alone up to screenshots, or, on an ellipsis node that
    hides something, it runs [performExpand] at once. *)
Lemma handleNodeClick_at_once (p : page) (d3Node : list nat) :
  isExpanding p = false →
  pageSent (handleNodeClick p d3Node) = pageSent p →
  (dstrip (currentTreeData (handleNodeClick p d3Node)) =
     dstrip (currentTreeData p) ∧
   ∀ e, nodeAt (currentTreeData p) d3Node = Some e → isEllipsis e = true →
        hiddenChildren e = []) ∨
  (∃ e, nodeAt (currentTreeData p) d3Node = Some e ∧ isEllipsis e = true ∧
        hiddenChildren e ≠ [] ∧
        currentTreeData (handleNodeClick p d3Node) =
          performExpand (currentTreeData p) e
            (js_slice (hiddenChildren e) 0 (batchSizeOf e))
            (js_slice_from (hiddenChildren e) (batchSizeOf e)) ∅).
Proof.
  intros Hp. unfold handleNodeClick.
  destruct (nodeAt (currentTreeData p) d3Node) as [data|] eqn:Hat.
  2: { intros _. left. by split. }
  assert (Hlen : ∀ l (x : message), l ++ [x] ≠ l).
  { intros l x Heq%(f_equal length). rewrite length_app in Heq.
    cbn in Heq. lia. }
  destruct (isEllipsis data) eqn:Hell.
  - unfold handleExpandClick. rewrite Hp, Hat.
    destruct (hiddenChildren data) as [|h hs] eqn:Hh.
    { intros _. left. split; [done|]. by intros e [= <-]. }
    destruct (filter _ (collectUrlsForCapture _ 10)) as [|u us].
    + intros _. right. exists data. rewrite Hh. by split_and!.
    + cbn [pageSent]. by intros ?%Hlen.
  - destruct (truthy (screenshot data)) eqn:Hsc.
    { intros _. left. split; [done|]. intros e [= <-]. by rewrite Hell. }
    cbn [negb]. rewrite andb_true_r.
    destruct (truthy (url data)) eqn:Hurl.
    2: { intros _. left. split; [done|]. intros e [= <-]. by rewrite Hell. }
    unfold handleSingleNodeCapture. rewrite Hp, Hat.
    destruct (url data) as [u|] eqn:Hu; [|done].
    rewrite Hurl, Hsc. cbn [negb orb].
    destruct (truthy (if bool_decide _ then _ else _)).
    + intros _. left. cbn [currentTreeData]. split.
      * apply updateAt_dstrip. intros x. by destruct x.
      * intros e [= <-]. by rewrite Hell.
    + cbn [pageSent]. by intros ?%Hlen.
Qed.

(** X14. A click on a node of the current display tree, followed by the
    service worker's work on the request and the delivery of its messages,
    when page and worker were idle before: afterwards both are idle
    again, whatever the capture and the storage did.  The display tree is
    then the same up to screenshots, or it is the result of
    [performExpand] for the clicked node, an ellipsis node that hides
    something, with the batch cut from its hidden children.  The second
    is the case for every such ellipsis node when the capture could be set
    up and the storage took the update. *)
Theorem clickSession_spec (b : browser) (tab : option nat) (p : page)
    (w : worker) (d3Node : list nat) :
  isExpanding p = false → isRunning w = false →
  let p' := (clickSession b tab p w d3Node).1 in
  let w' := (clickSession b tab p w d3Node).2 in
  isExpanding p' = false ∧ isRunning w' = false ∧
  (dstrip (currentTreeData p') = dstrip (currentTreeData p) ∨
   ∃ e m, nodeAt (currentTreeData p) d3Node = Some e ∧ isEllipsis e = true ∧
          hiddenChildren e ≠ [] ∧
          currentTreeData p' =
            performExpand (currentTreeData p) e
              (js_slice (hiddenChildren e) 0 (batchSizeOf e))
              (js_slice_from (hiddenChildren e) (batchSizeOf e)) m) ∧
  (∀ e, nodeAt (currentTreeData p) d3Node = Some e → isEllipsis e = true →
        hiddenChildren e ≠ [] →
        setupError b = None → storageFailure b (reportData w) = None →
        ∃ m, currentTreeData p' =
               performExpand (currentTreeData p) e
                 (js_slice (hiddenChildren e) 0 (batchSizeOf e))
                 (js_slice_from (hiddenChildren e) (batchSizeOf e)) m).
Proof.
  intros Hp Hw. cbv zeta.
  destruct (clickSession_outcome b tab p w d3Node Hp Hw) as (Hidle & Hrun & Hout).
  cbv zeta in Hout. split; [done|]. split; [done|].
  destruct Hout as [[Hsent ->]|(urls & pp & opts & pend & Hsent & Hpend & Hout)].
  { destruct (handleNodeClick_at_once p d3Node Hp Hsent)
      as [[Htree Hnone]|(e & Hat & Hi & Hh & Htree)].
    - split; [by left|]. intros e Hat Hi Hh _ _. by rewrite (Hnone e Hat Hi) in Hh.
    - split; [right; by exists e, ∅|].
      intros e' Hat' _ _ _ _. assert (e' = e) as -> by congruence. by exists ∅. }
  destruct (handleNodeClick_cases p d3Node Hp)
    as [(Hsent' & _)|(urls' & pp' & opts' & pend' & _ & _ & Hpend' & Hkind)].
  { rewrite Hsent in Hsent'. apply (f_equal length) in Hsent'.
    rewrite length_app in Hsent'. cbn in Hsent'. lia. }
  assert (pend' = pend) as -> by congruence. clear Hpend'.
  split.
  - destruct (captureFailure b (reportData w)) as [message|].
    + left. by rewrite Hout.
    + destruct Hout as [shots ->]. destruct pend as [nodePath|e new rem q].
      * left. apply updateNodeByPath_dstrip, showScreenshot_dstrip.
      * destruct Hkind as (_ & Hat & Hi & Hh & -> & ->).
        right. by exists e, (screenshotMapOf shots).
  - intros e Hat Hi Hh Hsetup Hstore.
    unfold captureFailure in Hout. rewrite Hsetup, Hstore in Hout.
    destruct Hout as [shots ->]. destruct pend as [nodePath|e0 new rem q].
    + rewrite (Hkind e Hat) in Hi. done.
    + destruct Hkind as (_ & Hat0 & _ & _ & -> & ->).
      assert (e0 = e) as -> by congruence. by exists (screenshotMapOf shots).
Qed.

Definition sample_page_idle : page :=
  Page sample_dataset (collapseTree 5 sample_six) false None [] false None [].

Definition sample_worker_idle : worker :=
  Worker false false (Some sample_dataset) [] [].

Lemma clickSession_spec_witness :
  isExpanding sample_page_idle = false ∧
  isRunning sample_worker_idle = false ∧
  ∃ e m,
    nodeAt (currentTreeData sample_page_idle) [4%nat] = Some e ∧
    currentTreeData
      (clickSession sample_browser (Some 7%nat) sample_page_idle
         sample_worker_idle [4%nat]).1 =
      performExpand (currentTreeData sample_page_idle) e
        (js_slice (hiddenChildren e) 0 (batchSizeOf e))
        (js_slice_from (hiddenChildren e) (batchSizeOf e)) m.
Proof.
  split; [reflexivity|]. split; [reflexivity|].
  eassert (Hat : nodeAt (currentTreeData sample_page_idle) [4%nat] = Some _)
    by reflexivity.
  match type of Hat with
  | _ = Some ?e =>
      destruct (proj2 (proj2 (proj2
                  (clickSession_spec sample_browser (Some 7%nat)
                     sample_page_idle sample_worker_idle [4%nat]
                     eq_refl eq_refl)))
                  e Hat eq_refl ltac:(discriminate) eq_refl eq_refl)
        as [m Hm];
      exists e, m; split; [exact Hat|exact Hm]
  end.
Defined.

(** ** Tree Builder: no page is lost, no url is made up *)

(** The path under which [buildUrlTree] files a url with these segments. *)
Definition pathOf (segments : list string) : string :=
  foldl (λ currentPath segment, currentPath +:+ segment +:+ "/") "/" segments.

(** Every path of [nodeMap] leads to an object. *)
Definition map_ok (h : Store.heap) (m : gmap string Store.addr) : Prop :=
  ∀ p a, m !! p = Some a → is_Some (h !! a).

(** The builder only adds: paths keep their objects, and an object that has
    a url keeps it. *)
Definition extends (h : Store.heap) (m : gmap string Store.addr)
    (h' : Store.heap) (m' : gmap string Store.addr) : Prop :=
  (∀ p a, m !! p = Some a → m' !! p = Some a) ∧
  (∀ a o, h !! a = Some o →
     ∃ o', h' !! a = Some o' ∧
           (truthy (Store.o_url o) = true → Store.o_url o' = Store.o_url o)).

Lemma extends_refl h m : extends h m h m.
Proof. split; [done|]. intros a o Ho. by exists o. Qed.

Lemma extends_trans h1 m1 h2 m2 h3 m3 :
  extends h1 m1 h2 m2 → extends h2 m2 h3 m3 → extends h1 m1 h3 m3.
Proof.
  intros [Hm12 Hh12] [Hm23 Hh23]. split; [by auto|].
  intros a o Ho. destruct (Hh12 a o Ho) as (o2 & Ho2 & Hu2).
  destruct (Hh23 a o2 Ho2) as (o3 & Ho3 & Hu3). exists o3. split; [done|].
  intros Ht. rewrite <- (Hu2 Ht). apply Hu3. by rewrite (Hu2 Ht).
Qed.

(** The node map has a page with a url at path [p]. *)
Definition hasPage (h : Store.heap) (m : gmap string Store.addr) (p : string)
    : Prop :=
  ∃ a o, m !! p = Some a ∧ h !! a = Some o ∧ truthy (Store.o_url o) = true.

Lemma hasPage_extends h m h' m' p :
  extends h m h' m' → hasPage h m p → hasPage h' m' p.
Proof.
  intros [Hm Hh] (a & o & Ha & Ho & Ht).
  destruct (Hh a o Ho) as (o' & Ho' & Hu). exists a, o'.
  split; [by apply Hm|]. split; [done|]. by rewrite (Hu Ht).
Qed.

Lemma addSegment_extends (url : string) (n i : nat) (segment : string)
    (w w' : walk) :
  map_ok (w_heap w) (w_nodeMap w) →
  addSegment url n w i segment = Some w' →
  extends (w_heap w) (w_nodeMap w) (w_heap w') (w_nodeMap w') ∧
  map_ok (w_heap w') (w_nodeMap w') ∧
  w_currentPath w' = w_currentPath w +:+ segment +:+ "/" ∧
  w_nodeMap w' !! w_currentPath w' = Some (w_parent w').
Proof.
  intros Hok. unfold addSegment.
  set (newPath := w_currentPath w +:+ segment +:+ "/").
  destruct (w_nodeMap w !! newPath) as [parent|] eqn:Hnew.
  { intros [= <-]. cbn. split; [apply extends_refl|done]. }
  unfold pushChild. set (h := w_heap w) in *.
  set (node := Store.Obj segment _ newPath [] None false [] None None).
  destruct ((h ++ [node]) !! w_parent w) as [o|] eqn:Ho; [|done].
  cbn [mbind option_bind]. rewrite lookup_insert_eq. cbn [mbind option_bind].
  intros [= <-]. cbn [w_heap w_nodeMap w_currentPath w_parent].
  assert (Hkeep : ∀ a o0, h !! a = Some o0 →
            ∃ o', <[w_parent w := Store.set_o_children o
                      (Store.o_children o ++ [length h])]> (h ++ [node]) !! a
                  = Some o' ∧ Store.o_url o' = Store.o_url o0).
  { intros a o0 Ha. pose proof (lookup_lt_Some _ _ _ Ha) as Hlt.
    destruct (decide (a = w_parent w)) as [->|Hne].
    - rewrite list_lookup_insert_eq by (rewrite length_app; lia).
      eexists. split; [done|]. rewrite lookup_app_l in Ho by done.
      cbn. congruence.
    - rewrite list_lookup_insert_ne by done. rewrite lookup_app_l by done.
      by exists o0. }
  split; [split|split; [|split]].
  - intros p a Hp. rewrite lookup_insert_ne; [done|]. intros <-. congruence.
  - intros a o0 Ha. destruct (Hkeep a o0 Ha) as (o' & Ho' & Hu).
    exists o'. by split.
  - intros p a. destruct (decide (p = newPath)) as [->|Hne].
    + rewrite lookup_insert_eq. intros [= <-]. apply lookup_lt_is_Some.
      rewrite length_insert, length_app. cbn. lia.
    + rewrite lookup_insert_ne by done. intros Hp.
      destruct (Hok p a Hp) as [o0 Ha].
      destruct (Hkeep a o0 Ha) as (o' & Ho' & _). by exists o'.
  - done.
  - by rewrite lookup_insert_eq.
Qed.

Lemma walkSegments_extends (url : string) (n : nat) (segments : list string) :
  ∀ (i : nat) (w w' : walk),
    map_ok (w_heap w) (w_nodeMap w) →
    w_nodeMap w !! w_currentPath w = Some (w_parent w) →
    walkSegments url n i segments w = Some w' →
    extends (w_heap w) (w_nodeMap w) (w_heap w') (w_nodeMap w') ∧
    map_ok (w_heap w') (w_nodeMap w') ∧
    w_currentPath w' =
      foldl (λ currentPath segment, currentPath +:+ segment +:+ "/")
        (w_currentPath w) segments ∧
    w_nodeMap w' !! w_currentPath w' = Some (w_parent w').
Proof.
  induction segments as [|segment rest IH]; intros i w w' Hok Hpar; cbn.
  - intros [= <-]. split; [apply extends_refl|done].
  - destruct (addSegment url n w i segment) as [w1|] eqn:H1; [|done]. cbn.
    destruct (addSegment_extends _ _ _ _ _ _ Hok H1) as (He1 & Hok1 & Hp1 & Hpar1).
    intros Hrun. destruct (IH _ _ _ Hok1 Hpar1 Hrun) as (He & Hok' & Hp & Hpar').
    split; [by eapply extends_trans|]. split; [done|]. split; [|done].
    by rewrite Hp, Hp1.
Qed.

Lemma addUrl_extends (h h' : Store.heap) (m m' : gmap string Store.addr)
    (su : sortedUrl) :
  map_ok h m → m !! "/" = Some 0%nat →
  addUrl (h, m) su = Some (h', m') →
  extends h m h' m' ∧ map_ok h' m' ∧
  (su_url su ≠ "" → hasPage h' m' (pathOf (segmentsOf (su_path su)))).
Proof.
  intros Hok Hroot. unfold addUrl. cbn [fst snd].
  destruct (walkSegments _ _ _ _ _) as [w|] eqn:Hw; [|done].
  cbn [mbind option_bind].
  destruct (walkSegments_extends _ _ _ _ (Walk h m "/" 0) _ Hok Hroot Hw)
    as (He & Hok' & Hp & Hpar). cbn [w_heap w_nodeMap w_currentPath] in *.
  rewrite Hpar. destruct (Hok' _ _ Hpar) as [o Ho]. rewrite Ho.
  cbn [mbind option_bind]. fold (pathOf (segmentsOf (su_path su))) in Hp.
  destruct (truthy (Store.o_url o)) eqn:Ht; intros [= <- <-].
  - split; [done|]. split; [done|]. intros _. exists (w_parent w), o.
    by rewrite <- Hp.
  - assert (Hlt : (w_parent w < length (w_heap w))%nat)
      by by eapply lookup_lt_Some.
    split; [|split].
    + eapply extends_trans; [exact He|]. split; [done|].
      intros a o0 Ha. destruct (decide (a = w_parent w)) as [->|Hne].
      * rewrite list_lookup_insert_eq by done. eexists. split; [done|].
        intros Ht0. congruence.
      * rewrite list_lookup_insert_ne by done. by exists o0.
    + intros p a Hpa. apply lookup_lt_is_Some. rewrite length_insert.
      apply lookup_lt_is_Some. by eapply Hok'.
    + intros Hne. exists (w_parent w), (Store.set_o_url o (Some (su_url su))).
      rewrite <- Hp. split; [done|].
      split; [by rewrite list_lookup_insert_eq|].
      cbn. apply negb_true_iff. by apply String.eqb_neq.
Qed.

Lemma addUrls_extends (l : list sortedUrl) :
  ∀ (h h' : Store.heap) (m m' : gmap string Store.addr),
    map_ok h m → m !! "/" = Some 0%nat →
    addUrls (h, m) l = Some (h', m') →
    extends h m h' m' ∧
    ∀ su, su ∈ l → su_url su ≠ "" →
          hasPage h' m' (pathOf (segmentsOf (su_path su))).
Proof.
  induction l as [|su l IH]; intros h h' m m' Hok Hroot; cbn [addUrls].
  - intros [= <- <-]. split; [apply extends_refl|]. by intros ? ?%elem_of_nil.
  - destruct (addUrl (h, m) su) as [[h1 m1]|] eqn:H1; [|done].
    cbn [mbind option_bind]. intros Hrun.
    destruct (addUrl_extends _ _ _ _ _ Hok Hroot H1) as (He1 & Hok1 & Hpage1).
    destruct (IH _ _ _ _ Hok1 (proj1 He1 _ _ Hroot) Hrun) as (He & Hpages).
    split; [by eapply extends_trans|].
    intros x [->|Hx]%elem_of_cons Hne; [|by apply Hpages].
    eapply hasPage_extends; [exact He|]. by apply Hpage1.
Qed.

Lemma elem_of_insertByDepth (x y : sortedUrl) (l : list sortedUrl) :
  x ∈ insertByDepth y l ↔ x = y ∨ x ∈ l.
Proof.
  induction l as [|z l IH]; cbn [insertByDepth].
  - rewrite list_elem_of_singleton. split; [by left|].
    by intros [?|?%elem_of_nil].
  - case_decide; [by rewrite elem_of_cons|].
    rewrite !elem_of_cons, IH. tauto.
Qed.

Lemma elem_of_sortByDepth (x : sortedUrl) (l : list sortedUrl) :
  x ∈ sortByDepth l ↔ x ∈ l.
Proof.
  unfold sortByDepth. induction l as [|y l IH]; [done|].
  cbn [foldr]. by rewrite elem_of_insertByDepth, elem_of_cons, IH.
Qed.

(** An entry of the node map is a node of the tree that the heap holds. *)
Lemma arepr_entry_node (h : Store.heap) (T : Store.atree) (a : Store.addr)
    (p : string) :
  Store.arepr h T → (a, p) ∈ pathEntries T →
  ∃ o n, h !! a = Some o ∧ n ∈ subnodes (Store.erase T) ∧
         path n = p ∧ url n = Store.o_url o.
Proof.
  induction T as [b o cs hs IH _] using Store.atree_ind. intros Hr.
  inversion_clear Hr as [? Hb _ _ Hrc _]. cbn in Hb.
  cbn [pathEntries Store.at_addr Store.at_obj Store.at_children].
  intros [[= -> ->]|Hin]%elem_of_cons.
  - exists o, (Store.erase (Store.ANode b o cs hs)).
    split; [done|]. split; [apply subnodes_self|done].
  - apply list_elem_of_bind in Hin as (C & Hin & HC).
    rewrite Forall_forall in IH, Hrc. cbn in Hrc.
    destruct (IH C HC (Hrc C HC) Hin) as (o' & n & Ho' & Hn & Hp & Hu).
    exists o', n. split; [done|]. split; [|done].
    eapply subnodes_child; [|exact Hn]. cbn. by apply list_elem_of_fmap_2.
Qed.

(** X15. The tree that [buildUrlTree] returns has a node for every input
    url that parses: at the path made of the url's path segments, and with
    a url on it (this url, or the url that claimed the path first). *)
Theorem buildUrlTree_complete (pathname hostname : string → option string)
    (urls : list string) (baseUrl host : string) :
  hostname baseUrl = Some host →
  ∃ (h : Store.heap) (root : Store.addr) (t : node) (fuel : nat),
    buildUrlTree pathname hostname urls baseUrl = Some (h, root) ∧
    Store.reify fuel h root = Some t ∧
    ∀ u p, u ∈ urls → pathname u = Some p → u ≠ "" →
      ∃ n, n ∈ subnodes t ∧ path n = pathOf (segmentsOf p) ∧
           truthy (url n) = true.
Proof.
  intros Hhost. unfold buildUrlTree. rewrite Hhost. cbn [mbind option_bind].
  set (root := Store.Obj host (Some baseUrl) "/" [] None false [] None None).
  set (l := sortByDepth (omap (toSortedUrl pathname) urls)).
  destruct (addUrls_inv l [root] {["/" := 0%nat]} (Store.ANode 0 root [] []))
    as (h & nodeMap & T & Hrun & Hinv).
  { unfold build_inv. split_and!.
    - by repeat constructor.
    - done.
    - done.
    - change (NoDup [0%nat]). apply NoDup_singleton.
    - by rewrite lookup_singleton_eq.
    - intros a p [[= -> ->]|?%elem_of_nil]%elem_of_cons; [|done].
      by rewrite lookup_singleton_eq.
    - intros p a [<- <-]%lookup_singleton_Some. left.
    - by intros pp nm cp ?%elem_of_nil. }
  destruct (addUrls_extends l [root] h {["/" := 0%nat]} nodeMap) as [_ Hpages].
  { intros p a [<- <-]%lookup_singleton_Some. by eexists. }
  { by rewrite lookup_singleton_eq. }
  { exact Hrun. }
  rewrite Hrun. cbn [mbind option_bind fst].
  destruct Hinv as (Hr & Ha0 & Hpl & Hnd & Hroot & Hent & Hmap & Hedge).
  exists h, 0%nat, (Store.erase T), (Store.height (Store.erase T)).
  split; [done|]. split; [rewrite <- Ha0; by apply Store.arepr_reify|].
  intros u p Hu Hp Hne.
  destruct (Hpages (SortedUrl u p (length (segmentsOf p)))) as (a & o & Ha & Ho & Ht).
  { apply elem_of_sortByDepth, list_elem_of_omap. exists u. split; [done|].
    unfold toSortedUrl. by rewrite Hp. }
  { done. }
  cbn [su_path] in Ha.
  destruct (arepr_entry_node h T a _ Hr (Hmap _ _ Ha)) as (o' & n & Ho' & Hn & Hpn & Hun).
  exists n. split; [done|]. split; [done|]. rewrite Hun.
  assert (o' = o) as -> by congruence. done.
Qed.

Lemma buildUrlTree_complete_witness :
  sample_hostname "https://example.com" = Some "example.com" ∧
  ∃ h root t fuel,
    buildUrlTree sample_pathname sample_hostname sample_site
      "https://example.com" = Some (h, root) ∧
    Store.reify fuel h root = Some t ∧
    ∃ n, n ∈ subnodes t ∧ path n = "/a/x/" ∧ truthy (url n) = true.
Proof.
  split; [reflexivity|].
  destruct (buildUrlTree_complete sample_pathname sample_hostname sample_site
              "https://example.com" "example.com" eq_refl)
    as (h & root & t & fuel & Hrun & Ht & Hall).
  exists h, root, t, fuel. split; [exact Hrun|]. split; [exact Ht|].
  apply (Hall "https://example.com/a/x/" "/a/x/").
  - do 2 apply list_elem_of_further. apply list_elem_of_here.
  - reflexivity.
  - discriminate.
Defined.

Section BuilderSources.

Variable baseUrl : string.
Variable l : list sortedUrl.

(** Where the url of an object comes from: the object has no url, or it is
    the root with the base url, or its url is one of the urls to file and
    its path is the path of that url. *)
Definition objSrc (o : Store.obj) : Prop :=
  Store.o_screenshot o = None ∧
  (Store.o_url o = None ∨
   (Store.o_url o = Some baseUrl ∧ Store.o_path o = "/") ∨
   ∃ su, su ∈ l ∧ Store.o_url o = Some (su_url su) ∧
         Store.o_path o = pathOf (segmentsOf (su_path su))).

Definition src_inv (h : Store.heap) (m : gmap string Store.addr) : Prop :=
  (∀ p a, m !! p = Some a → ∃ o, h !! a = Some o ∧ Store.o_path o = p) ∧
  Forall objSrc h.

Lemma objSrc_set_o_children (o : Store.obj) (cs : list Store.addr) :
  objSrc o → objSrc (Store.set_o_children o cs).
Proof. by destruct o. Qed.

Lemma addSegment_src (su : sortedUrl) (n i : nat) (segment : string)
    (w w' : walk) :
  su ∈ l →
  (i = (n - 1)%nat →
   w_currentPath w +:+ segment +:+ "/" = pathOf (segmentsOf (su_path su))) →
  src_inv (w_heap w) (w_nodeMap w) →
  addSegment (su_url su) n w i segment = Some w' →
  src_inv (w_heap w') (w_nodeMap w') ∧
  w_currentPath w' = w_currentPath w +:+ segment +:+ "/".
Proof.
  intros Hsu Hleaf [Hmap Hobjs]. unfold addSegment.
  set (newPath := w_currentPath w +:+ segment +:+ "/") in *.
  destruct (w_nodeMap w !! newPath) as [parent|] eqn:Hnew.
  { intros [= <-]. by cbn. }
  unfold pushChild. set (h := w_heap w) in *.
  set (node := Store.Obj segment _ newPath [] None false [] None None).
  destruct ((h ++ [node]) !! w_parent w) as [o|] eqn:Ho; [|done].
  cbn [mbind option_bind]. rewrite lookup_insert_eq. cbn [mbind option_bind].
  intros [= <-]. cbn [w_heap w_nodeMap w_currentPath]. split; [|done].
  assert (Hnode : objSrc node).
  { split; [done|]. cbn [Store.o_url Store.o_path node].
    case_bool_decide as Hi; [|by left]. right. right. exists su.
    split; [done|]. split; [done|]. by apply Hleaf. }
  assert (Hall : Forall objSrc (h ++ [node])).
  { apply Forall_app. split; [done|]. by apply Forall_singleton. }
  split.
  - intros p a. destruct (decide (p = newPath)) as [->|Hne].
    + rewrite lookup_insert_eq. intros [= <-].
      destruct (decide (length h = w_parent w)) as [Heq|Hneq].
      * rewrite Heq, list_lookup_insert_eq
          by (rewrite length_app; cbn; lia).
        eexists. split; [done|]. rewrite <- Heq in Ho.
        rewrite lookup_app_r, Nat.sub_diag in Ho by done.
        cbn in Ho. by injection Ho as <-.
      * rewrite list_lookup_insert_ne by done.
        rewrite lookup_app_r, Nat.sub_diag by done. by exists node.
    + rewrite lookup_insert_ne by done. intros Hp.
      destruct (Hmap p a Hp) as (o0 & Ha & Hpath).
      pose proof (lookup_lt_Some _ _ _ Ha) as Hlt.
      destruct (decide (a = w_parent w)) as [->|Hneq].
      * rewrite list_lookup_insert_eq by (rewrite length_app; lia).
        eexists. split; [done|]. rewrite lookup_app_l in Ho by done.
        cbn. congruence.
      * rewrite list_lookup_insert_ne by done. rewrite lookup_app_l by done.
        by exists o0.
  - apply Forall_insert; [done|]. apply objSrc_set_o_children.
    rewrite Forall_forall in Hall. apply Hall. by eapply list_elem_of_lookup_2.
Qed.

Lemma pathOf_snoc (done : list string) (segment : string) :
  pathOf (done ++ [segment]) = pathOf done +:+ segment +:+ "/".
Proof. unfold pathOf. by rewrite foldl_app. Qed.

Lemma walkSegments_src (su : sortedUrl) (rest : list string) :
  ∀ (done : list string) (w w' : walk),
    su ∈ l → segmentsOf (su_path su) = done ++ rest →
    w_currentPath w = pathOf done →
    src_inv (w_heap w) (w_nodeMap w) →
    walkSegments (su_url su) (length (done ++ rest)) (length done) rest w
      = Some w' →
    src_inv (w_heap w') (w_nodeMap w') ∧
    w_currentPath w' = pathOf (done ++ rest).
Proof.
  induction rest as [|segment rest IH]; intros done w w' Hsu Hsegs Hcur Hinv.
  - cbn. intros [= <-]. by rewrite app_nil_r.
  - cbn [walkSegments].
    destruct (addSegment _ _ _ _ _) as [w1|] eqn:H1; [|done].
    cbn [mbind option_bind]. intros Hrun.
    assert (Hleaf : length done = (length (done ++ segment :: rest) - 1)%nat →
              w_currentPath w +:+ segment +:+ "/" =
                pathOf (segmentsOf (su_path su))).
    { rewrite length_app. cbn [length]. intros Hi.
      assert (rest = []) as -> by (destruct rest; [done|cbn in Hi; lia]).
      by rewrite Hsegs, Hcur, pathOf_snoc. }
    destruct (addSegment_src su _ _ _ _ _ Hsu Hleaf Hinv H1) as [Hinv1 Hcur1].
    clear Hleaf H1.
    replace (done ++ segment :: rest) with ((done ++ [segment]) ++ rest) in *
      by by rewrite <- app_assoc.
    apply (IH (done ++ [segment]) w1 w'); [done|done| |done|].
    + by rewrite Hcur1, Hcur, pathOf_snoc.
    + by rewrite (length_app done [segment]), Nat.add_1_r.
Qed.

Lemma addUrl_src (h h' : Store.heap) (m m' : gmap string Store.addr)
    (su : sortedUrl) :
  su ∈ l → src_inv h m →
  addUrl (h, m) su = Some (h', m') → src_inv h' m'.
Proof.
  intros Hsu Hinv. unfold addUrl. cbn [fst snd].
  destruct (walkSegments _ _ _ _ _) as [w|] eqn:Hw; [|done].
  cbn [mbind option_bind].
  destruct (walkSegments_src su (segmentsOf (su_path su)) [] (Walk h m "/" 0) w)
    as [[Hmap Hobjs] Hcur]; [done|done|done|done|exact Hw|].
  cbn [app] in Hcur.
  destruct (w_nodeMap w !! w_currentPath w) as [a|] eqn:Ha; [|by intros [= <- <-]].
  destruct (Hmap _ _ Ha) as (o & Ho & Hpath). rewrite Ho.
  cbn [mbind option_bind]. destruct (truthy (Store.o_url o)); intros [= <- <-];
    [done|].
  pose proof (lookup_lt_Some _ _ _ Ho) as Hlt. split.
  - intros p a' Hp. destruct (Hmap p a' Hp) as (o' & Ho' & Hpath').
    destruct (decide (a' = a)) as [->|Hne].
    + rewrite list_lookup_insert_eq by done. eexists. split; [done|].
      cbn. congruence.
    + rewrite list_lookup_insert_ne by done. by exists o'.
  - apply Forall_insert; [done|]. rewrite Forall_forall in Hobjs.
    destruct (Hobjs o) as [Hsc _]; [by eapply list_elem_of_lookup_2|].
    split; [by destruct o|]. right. right. exists su.
    split; [done|]. split; [done|]. cbn. congruence.
Qed.

End BuilderSources.

Lemma addUrls_src (baseUrl : string) (l l' : list sortedUrl) :
  ∀ (h h' : Store.heap) (m m' : gmap string Store.addr),
    (∀ su, su ∈ l' → su ∈ l) → src_inv baseUrl l h m →
    addUrls (h, m) l' = Some (h', m') → src_inv baseUrl l h' m'.
Proof.
  induction l' as [|su l' IH]; intros h h' m m' Hsub Hinv; cbn [addUrls].
  - by intros [= <- <-].
  - destruct (addUrl (h, m) su) as [[h1 m1]|] eqn:H1; [|done].
    cbn [mbind option_bind]. apply IH.
    + intros x Hx. apply Hsub. by right.
    + eapply addUrl_src; [|done|exact H1]. apply Hsub. left.
Qed.

(** What holds of every object of the heap holds of every node of a tree
    that the heap holds. *)
Lemma arepr_nodes_Forall (P : Store.obj → Prop) (Q : node → Prop)
    (h : Store.heap) (T : Store.atree) :
  (∀ C, P (Store.at_obj C) → Q (Store.erase C)) →
  Forall P h → Store.arepr h T → Forall Q (subnodes (Store.erase T)).
Proof.
  intros HPQ Hh. induction T as [a o cs hs IH _] using Store.atree_ind.
  intros Hr. inversion Hr as [? Ho _ _ Hcs _]. subst.
  cbn [Store.at_addr Store.at_obj Store.at_children] in *.
  cbn [Store.erase subnodes children Store.at_obj Store.at_children].
  apply Forall_cons. split.
  - apply (HPQ (Store.ANode a o cs hs)). cbn. rewrite Forall_forall in Hh.
    apply Hh. by eapply list_elem_of_lookup_2.
  - apply Forall_forall. intros x Hx.
    apply list_elem_of_bind in Hx as (c & Hx & Hc).
    apply list_elem_of_fmap in Hc as (C & -> & HC).
    rewrite Forall_forall in IH, Hcs.
    pose proof (IH C HC (Hcs C HC)) as HCok.
    rewrite Forall_forall in HCok. by apply HCok.
Qed.

(** X16. In the tree that [buildUrlTree] returns no node has a screenshot,
    and no url is made up or misplaced: the url of a node, if it has one,
    is the base url, on the root, or an input url that parses, on the node
    whose path is made of that url's path segments. *)
Theorem buildUrlTree_sound (pathname hostname : string → option string)
    (urls : list string) (baseUrl host : string) :
  hostname baseUrl = Some host →
  ∃ (h : Store.heap) (root : Store.addr) (t : node) (fuel : nat),
    buildUrlTree pathname hostname urls baseUrl = Some (h, root) ∧
    Store.reify fuel h root = Some t ∧
    ∀ n, n ∈ subnodes t →
      screenshot n = None ∧
      ∀ u, url n = Some u →
        (u = baseUrl ∧ path n = "/") ∨
        (u ∈ urls ∧ ∃ p, pathname u = Some p ∧ path n = pathOf (segmentsOf p)).
Proof.
  intros Hhost. unfold buildUrlTree. rewrite Hhost. cbn [mbind option_bind].
  set (root := Store.Obj host (Some baseUrl) "/" [] None false [] None None).
  set (l := sortByDepth (omap (toSortedUrl pathname) urls)).
  destruct (addUrls_inv l [root] {["/" := 0%nat]} (Store.ANode 0 root [] []))
    as (h & nodeMap & T & Hrun & Hinv).
  { unfold build_inv. split_and!.
    - by repeat constructor.
    - done.
    - done.
    - change (NoDup [0%nat]). apply NoDup_singleton.
    - by rewrite lookup_singleton_eq.
    - intros a p [[= -> ->]|?%elem_of_nil]%elem_of_cons; [|done].
      by rewrite lookup_singleton_eq.
    - intros p a [<- <-]%lookup_singleton_Some. left.
    - by intros pp nm cp ?%elem_of_nil. }
  assert (Hsrc : src_inv baseUrl l h nodeMap).
  { apply (addUrls_src baseUrl l l [root] h {["/" := 0%nat]} nodeMap);
      [done| |exact Hrun]. split.
    - intros p a [<- <-]%lookup_singleton_Some. by exists root.
    - apply Forall_singleton. split; [done|]. right. by left. }
  rewrite Hrun. cbn [mbind option_bind fst].
  destruct Hinv as (Hr & Ha0 & Hpl & Hnd & Hroot & Hent & Hmap & Hedge).
  exists h, 0%nat, (Store.erase T), (Store.height (Store.erase T)).
  split; [done|]. split; [rewrite <- Ha0; by apply Store.arepr_reify|].
  apply Forall_forall.
  apply (arepr_nodes_Forall (objSrc baseUrl l) _ h T); [|apply Hsrc|done].
  intros C [Hsc Hurl]. destruct C as [a o cs hs]. cbn in *.
  split; [done|]. intros u Hu.
  destruct Hurl as [Hnone|[[Hbase Hp]|(su & Hsu & Hsuu & Hp)]].
  - congruence.
  - left. split; [congruence|done].
  - right. apply elem_of_sortByDepth, list_elem_of_omap in Hsu as (u' & Hu' & Hparse).
    unfold toSortedUrl in Hparse. destruct (pathname u') as [p'|] eqn:Hp'; [|done].
    injection Hparse as <-. cbn in *. assert (u = u') as -> by congruence.
    split; [done|]. by exists p'.
Qed.

Lemma buildUrlTree_sound_witness :
  sample_hostname "https://example.com" = Some "example.com" ∧
  ∃ h root t fuel,
    buildUrlTree sample_pathname sample_hostname sample_site
      "https://example.com" = Some (h, root) ∧
    Store.reify fuel h root = Some t ∧
    Forall (λ n, screenshot n = None) (subnodes t).
Proof.
  split; [reflexivity|].
  destruct (buildUrlTree_sound sample_pathname sample_hostname sample_site
              "https://example.com" "example.com" eq_refl)
    as (h & root & t & fuel & Hrun & Ht & Hall).
  exists h, root, t, fuel. split; [exact Hrun|]. split; [exact Ht|].
  apply Forall_forall. intros n Hn. exact (proj1 (Hall n Hn)).
Defined.

(** ** Representative Selector: where the selected urls come from *)

Lemma group_push_members {K V} `{EqDecision K} (k : K) (v : V)
    (m : list (K * list V)) (k' : K) (vs : list V) (x : V) :
  (k', vs) ∈ group_push k v m → x ∈ vs →
  x = v ∨ ∃ vs0, (k', vs0) ∈ m ∧ x ∈ vs0.
Proof.
  induction m as [|[k0 vs0] m IH]; cbn [group_push].
  - intros [= -> ->]%list_elem_of_singleton Hx%list_elem_of_singleton. by left.
  - case_decide as Hk.
    + intros [[= -> ->]|Hin]%elem_of_cons Hx.
      * apply elem_of_app in Hx as [Hx|Hx%list_elem_of_singleton]; [|by left].
        right. exists vs0. split; [left|done].
      * right. exists vs. split; [by right|done].
    + intros [[= -> ->]|Hin]%elem_of_cons Hx.
      * right. exists vs0. split; [left|done].
      * destruct (IH Hin Hx) as [?|(vs1 & ? & ?)]; [by left|].
        right. exists vs1. split; [by right|done].
Qed.

Lemma groupBy_members {K V} `{EqDecision K} (key : V → K) (l : list V)
    (k : K) (vs : list V) (x : V) :
  (k, vs) ∈ groupBy key l → x ∈ vs → x ∈ l.
Proof.
  revert k vs. induction l as [|v l IH] using rev_ind; intros k vs.
  - by intros ?%elem_of_nil.
  - rewrite groupBy_snoc. intros Hin Hx.
    destruct (group_push_members _ _ _ _ _ _ Hin Hx) as [->|(vs0 & Hin0 & Hx0)].
    + apply elem_of_app. right. left.
    + apply elem_of_app. left. by eapply IH.
Qed.

Lemma roundRobin_sound (byBranch : list (string * list parsedUrl))
    (branches : list string) (quota maxPages : Z) (fuel : nat) :
  ∀ selected added i ptrs out,
    roundRobin fuel byBranch branches quota maxPages selected added i ptrs
      = Some out →
    selected `prefix_of` out ∧
    ∀ x, x ∈ out →
      x ∈ selected ∨
      ∃ b us p, alist_get b byBranch = Some us ∧ p ∈ us ∧ x = pu_url p.
Proof.
  induction fuel as [|fuel IH]; intros selected added i ptrs out; cbn [roundRobin].
  { destruct (_ && _); [done|]. intros [= <-]. split; [done|by left]. }
  destruct (_ && _); [|intros [= <-]; split; [done|by left]].
  destruct (branches !! _) as [b|]; [|done]. cbn [mbind option_bind].
  destruct (alist_get b byBranch) as [us|] eqn:Hus; [|done]. cbn [mbind option_bind].
  destruct (ptrs !! b) as [ptr|]; [|done]. cbn [mbind option_bind]. cbv zeta.
  destruct (us !! ptr) as [p|] eqn:Hp.
  - case_bool_decide as Hin.
    + destruct (allExhausted _ _ _) as [[|]|]; [|apply IH|done].
      intros [= <-]. split; [done|by left].
    + assert (Hnew : ∀ x, x ∈ selected ++ [pu_url p] →
                x ∈ selected ∨
                ∃ b us p, alist_get b byBranch = Some us ∧ p ∈ us ∧ x = pu_url p).
      { intros x [?| ->%list_elem_of_singleton]%elem_of_app; [by left|].
        right. exists b, us, p. split; [done|].
        split; [by eapply list_elem_of_lookup_2|done]. }
      destruct (allExhausted _ _ _) as [[|]|]; [| |done].
      * intros [= <-]. split; [by apply prefix_app_r|done].
      * intros Hrun. destruct (IH _ _ _ _ _ Hrun) as [Hpre Hall].
        split; [etrans; [|exact Hpre]; by apply prefix_app_r|].
        intros x Hx. destruct (Hall x Hx) as [Hx'|?]; [by apply Hnew|by right].
  - destruct (allExhausted _ _ _) as [[|]|]; [|apply IH|done].
    intros [= <-]. split; [done|by left].
Qed.

Lemma selectByDepth_sound (byDepth : list (nat * list parsedUrl))
    (quotas : nat → Z) (maxPages : Z) (depths : list nat) :
  ∀ selected out,
    selectByDepth byDepth quotas maxPages depths selected = Some out →
    selected `prefix_of` out ∧
    ∀ x, x ∈ out →
      x ∈ selected ∨
      ∃ d us p, alist_get d byDepth = Some us ∧ p ∈ us ∧ x = pu_url p.
Proof.
  induction depths as [|d depths IH]; intros selected out; cbn [selectByDepth].
  { intros [= <-]. split; [done|by left]. }
  destruct (_ >=? _); [intros [= <-]; split; [done|by left]|].
  destruct (alist_get d byDepth) as [us|] eqn:Hus; [|done].
  cbn [mbind option_bind]. cbv zeta.
  destruct (roundRobin _ _ _ _ _ _ _ _ _) as [sel1|] eqn:Hrr; [|done].
  cbn [mbind option_bind]. intros Hrun.
  destruct (roundRobin_sound _ _ _ _ _ _ _ _ _ _ Hrr) as [Hpre1 Hall1].
  destruct (IH _ _ Hrun) as [Hpre Hall]. split; [by etrans|].
  intros x Hx. destruct (Hall x Hx) as [Hx1|?]; [|by right].
  destruct (Hall1 x Hx1) as [?|(b & us' & p & Hb & Hp & ->)]; [by left|].
  right. exists d, us, p. split; [done|]. split; [|done].
  apply alist_get_elem_of in Hb. by eapply groupBy_members.
Qed.

(** X17. Every url that [selectRepresentativeUrls] returns is the base url
    or an input url that parses; and with a budget of two or more pages the
    base url is among them. *)
Theorem selectRepresentativeUrls_sound (pathname : string → option string)
    (ceilQuota : Z → Z → Z → Z) (urls : list string) (maxPages : Z)
    (baseUrl : string) (out : list string) :
  selectRepresentativeUrls pathname ceilQuota urls maxPages baseUrl = Some out →
  (∀ x, x ∈ out → x = baseUrl ∨ (x ∈ urls ∧ is_Some (pathname x))) ∧
  (2 ≤ maxPages → baseUrl ∈ out).
Proof.
  unfold selectRepresentativeUrls.
  set (parsed := omap (parseUrl pathname) urls).
  set (sel0 := match List.find isHomepage parsed with
               | Some homepage => [pu_url homepage]
               | None => []
               end).
  set (sel1 := if bool_decide (baseUrl ∈ sel0) then sel0 else sel0 ++ [baseUrl]).
  assert (Hparsed : ∀ p, p ∈ parsed → pu_url p ∈ urls ∧ is_Some (pathname (pu_url p))).
  { intros p (u & Hu & Hp)%list_elem_of_omap.
    rewrite (parseUrl_url pathname u p Hp). split; [done|].
    unfold parseUrl in Hp. by destruct (pathname u). }
  assert (Hsel0 : ∀ x, x ∈ sel0 → x ∈ urls ∧ is_Some (pathname x)).
  { intros x. unfold sel0. destruct (List.find isHomepage parsed) as [hp|] eqn:Hf;
      [|by intros ?%elem_of_nil].
    intros ->%list_elem_of_singleton. apply Hparsed.
    apply find_some in Hf as [Hin _]. by apply list_elem_of_In. }
  assert (Hsel1 : ∀ x, x ∈ sel1 → x = baseUrl ∨ (x ∈ urls ∧ is_Some (pathname x))).
  { intros x. unfold sel1. case_bool_decide; [by right; apply Hsel0|].
    intros [?| ->%list_elem_of_singleton]%elem_of_app; [right; by apply Hsel0|by left]. }
  assert (Hbase : ∃ k, (k < 2)%nat ∧ sel1 !! k = Some baseUrl).
  { unfold sel1, sel0. destruct (List.find isHomepage parsed) as [hp|].
    - case_bool_decide as Hin.
      + apply list_elem_of_singleton in Hin. exists 0%nat.
        split; [lia|]. cbn. by rewrite Hin.
      + exists 1%nat. split; [lia|done].
    - rewrite bool_decide_eq_false_2 by apply not_elem_of_nil. exists 0%nat.
      split; [lia|done]. }
  destruct (selectByDepth _ _ _ _ sel1) as [sel|] eqn:Hrun; [|done].
  cbn [mbind option_bind]. intros [= <-].
  destruct (selectByDepth_sound _ _ _ _ _ _ Hrun) as [[rest ->] Hall]. split.
  - intros x Hx. unfold js_slice in Hx.
    apply subseteq_take, subseteq_drop in Hx.
    destruct (Hall x Hx) as [?|(d & us & p & Hd & Hp & ->)]; [by apply Hsel1|].
    right. apply Hparsed. apply alist_get_elem_of in Hd.
    by eapply groupBy_members.
  - intros Hmax. destruct Hbase as (k & Hk & Hbase).
    replace maxPages with (Z.of_nat (Z.to_nat maxPages)) by lia.
    rewrite js_slice_prefix. apply (list_elem_of_lookup_2 _ k).
    rewrite lookup_take_lt by lia. by apply lookup_app_l_Some.
Qed.

Lemma selectRepresentativeUrls_sound_witness :
  selectRepresentativeUrls sample_pathname exact_ceil sample_site 3
    "https://example.com" =
    Some ["https://example.com/"; "https://example.com"; "https://example.com/a/"] ∧
  "https://example.com" ∈
    ["https://example.com/"; "https://example.com"; "https://example.com/a/"].
Proof.
  assert (Hrun : selectRepresentativeUrls sample_pathname exact_ceil sample_site 3
            "https://example.com" =
          Some ["https://example.com/"; "https://example.com";
                "https://example.com/a/"]) by (vm_compute; reflexivity).
  split; [exact Hrun|].
  apply (proj2 (selectRepresentativeUrls_sound _ _ _ _ _ _ Hrun)). lia.
Defined.

(** ** Page and worker agree on what is captured *)

(** The two datasets list the same captured urls and hold the same
    screenshots. *)
Definition sameCaptures (d1 d2 : dataset) : Prop :=
  capturedUrlSet d1 = capturedUrlSet d2 ∧ screenshotMap d1 = screenshotMap d2.

Lemma handleNodeClick_data (p : page) (d3Node : list nat) :
  currentReportData (handleNodeClick p d3Node) = currentReportData p.
Proof.
  unfold handleNodeClick. destruct (nodeAt _ _) as [data|]; [|done].
  destruct (isEllipsis data).
  - unfold handleExpandClick. destruct (isExpanding p); [done|].
    destruct (nodeAt _ _) as [e|]; [|done].
    destruct (hiddenChildren e); [done|]. by destruct (filter _ _).
  - destruct (truthy (screenshot data)); [done|].
    destruct (_ && _); [|done]. unfold handleSingleNodeCapture.
    destruct (isExpanding p); [done|]. destruct (nodeAt _ _) as [nd|]; [|done].
    destruct (url nd); [|done]. destruct (_ || _); [done|].
    by destruct (truthy _).
Qed.

Lemma captureMoreScreenshots_idle_data (b : browser) (w : worker)
    (urls : list string) (pp : option string) (opts : captureOptions)
    (tab : option nat) :
  isRunning w = false →
  let w' := captureMoreScreenshots b w urls pp opts tab in
  ∃ progress,
    Forall (λ rm, ∃ c t u q, rm.2 = MsgCaptureMoreProgress c t u q) progress ∧
    match captureFailure b (reportData w) with
    | Some message =>
        workerSent w' =
          workerSent w ++ progress ++
          [(recipientOf tab, MsgCaptureMoreError message pp)] ∧
        reportData w' = reportData w
    | None =>
        ∃ results,
          workerSent w' =
            workerSent w ++ progress ++
            [(recipientOf tab,
              MsgCaptureMoreComplete
                (filter (λ s, truthy (cr_screenshot s) = true) results) pp)] ∧
          reportData w' = (λ d, updateStorage d results) <$> reportData w
    end.
Proof.
  intros Hidle. cbv zeta. unfold captureMoreScreenshots. rewrite Hidle.
  destruct (captureScreenshotsDebugger b urls opts true (workerLog w))
    as [outcome log] eqn:Hcap.
  exists (progressMessages tab pp (drop (length (workerLog w)) log)). split.
  { apply Forall_forall. intros rm Hrm. unfold progressMessages in Hrm.
    apply list_elem_of_omap in Hrm as (e & _ & He).
    destruct e as [| |[] c t u| | |]; try done. injection He as <-.
    cbn. by eauto. }
  unfold captureScreenshotsDebugger in Hcap. unfold captureFailure.
  destruct (setupError b) as [[stage message]|].
  - destruct stage; injection Hcap as <- <-;
      cbn [sendToTab workerSent reportData]; by rewrite <- app_assoc.
  - destruct (captureLoop _ _ _ _ _ _ _ _) as [results log0].
    injection Hcap as <- <-. cbn [reportData].
    destruct (storageFailure b (reportData w)) as [message|].
    + cbn [sendToTab workerSent reportData]. by rewrite <- app_assoc.
    + exists results.
      cbn [sendToTab workerSent reportData]. by rewrite <- app_assoc.
Qed.

Lemma storeScreenshot_falsy (d : dataset) (s : captureResult) :
  truthy (cr_screenshot s) = false → storeScreenshot d s = d.
Proof. unfold storeScreenshot. by intros ->. Qed.

Lemma sameCaptures_record (dw dp : dataset) (results : list captureResult) :
  sameCaptures dw dp →
  sameCaptures (foldl storeScreenshot dw results)
    (foldl recordScreenshot dp
       (filter (λ s, truthy (cr_screenshot s) = true) results)).
Proof.
  revert dw dp. induction results as [|s l IH]; intros dw dp Hsame; [done|].
  cbn [foldl]. rewrite filter_cons. destruct (truthy (cr_screenshot s)) eqn:Hs.
  - rewrite decide_True by done. cbn [foldl]. apply IH.
    destruct Hsame as [Hset Hmap]. unfold storeScreenshot, recordScreenshot.
    rewrite Hs. split; cbn; by rewrite ?Hset, ?Hmap.
  - rewrite decide_False by (cbn; congruence). rewrite storeScreenshot_falsy by done.
    by apply IH.
Qed.

Lemma recordScreenshots_inv (d : dataset) (results : list captureResult) :
  storage_inv d →
  storage_inv (foldl recordScreenshot d
                 (filter (λ s, truthy (cr_screenshot s) = true) results)).
Proof.
  revert d. induction results as [|s l IH]; intros d Hinv; [done|].
  rewrite filter_cons. destruct (truthy (cr_screenshot s)) eqn:Hs.
  - rewrite decide_True by done. cbn [foldl]. apply IH.
    replace (recordScreenshot d s) with (storeScreenshot d s).
    + by apply storeScreenshot_inv.
    + unfold storeScreenshot, recordScreenshot. by rewrite Hs.
  - rewrite decide_False by (cbn; congruence). by apply IH.
Qed.

(** X18. Across a click and the service worker's answer, page and worker
    keep the same record of what is captured: if [currentReportData] on the
    page and [reportData] in storage list the same captured urls and hold
    the same screenshots before, they do so afterwards; and the page's
    record stays consistent (no duplicate, the captured urls are the keys of
    the screenshot map, no empty image). *)
Theorem clickSession_captures (b : browser) (tab : option nat) (p : page)
    (w : worker) (d3Node : list nat) (dw : dataset) :
  isExpanding p = false → isRunning w = false →
  reportData w = Some dw → sameCaptures dw (currentReportData p) →
  let p' := (clickSession b tab p w d3Node).1 in
  let w' := (clickSession b tab p w d3Node).2 in
  (∃ dw', reportData w' = Some dw' ∧ sameCaptures dw' (currentReportData p')) ∧
  (storage_inv (currentReportData p) → storage_inv (currentReportData p')).
Proof.
  intros Hp Hw Hdw Hsame. cbv zeta.
  destruct (handleNodeClick_cases p d3Node Hp)
    as [(Hsent & _)|(urls & pp & opts & pend & Hsent & _ & Hpend & _)].
  { rewrite clickSession_no_request by done. cbn [fst snd].
    rewrite handleNodeClick_data. split; [by exists dw|done]. }
  unfold clickSession. rewrite Hsent, drop_app_length.
  cbn [foldl workerReceive fst snd].
  destruct (captureMoreScreenshots_idle_data b w urls pp opts tab Hw)
    as (progress & Hprog & Hout). cbv zeta in Hout.
  destruct (captureFailure b (reportData w)) as [message|].
  - destruct Hout as [Hmsgs Hdata]. rewrite Hmsgs, drop_app_length, foldl_app.
    rewrite (pageReceive_progress _ _ Hprog). cbn [foldl snd pageReceive].
    rewrite Hdata. cbn [handleExpandError currentReportData].
    rewrite handleNodeClick_data. split; [by exists dw|done].
  - destruct Hout as (results & Hmsgs & Hdata).
    rewrite Hmsgs, drop_app_length, foldl_app.
    rewrite (pageReceive_progress _ _ Hprog). cbn [foldl snd pageReceive].
    rewrite Hdata, Hdw. cbn [fmap option_fmap option_map].
    assert (Hpage : currentReportData
              (handleExpandComplete (handleNodeClick p d3Node)
                 (filter (λ s, truthy (cr_screenshot s) = true) results) pp) =
            foldl recordScreenshot (currentReportData p)
              (filter (λ s, truthy (cr_screenshot s) = true) results)).
    { unfold handleExpandComplete. rewrite Hpend, handleNodeClick_data.
      destruct pend as [nodePath|e new rem pp'].
      - unfold handleSingleNodeComplete. by cbn [pendingExpand currentReportData].
      - by case_decide. }
    rewrite Hpage. split.
    + eexists. split; [done|]. unfold updateStorage.
      destruct (sameCaptures_record dw (currentReportData p) results Hsame)
        as [Hset Hmap]. by split.
    + apply recordScreenshots_inv.
Qed.

Lemma clickSession_captures_witness :
  isExpanding sample_page_idle = false ∧
  isRunning sample_worker_idle = false ∧
  reportData sample_worker_idle = Some sample_dataset ∧
  sameCaptures sample_dataset (currentReportData sample_page_idle) ∧
  capturedUrlSet (currentReportData
    (clickSession sample_browser (Some 7%nat) sample_page_idle
       sample_worker_idle [4%nat]).1) =
    ["https://example.com/e"; "https://example.com/f"] ∧
  ∃ dw', reportData (clickSession sample_browser (Some 7%nat) sample_page_idle
                       sample_worker_idle [4%nat]).2 = Some dw' ∧
         sameCaptures dw' (currentReportData
           (clickSession sample_browser (Some 7%nat) sample_page_idle
              sample_worker_idle [4%nat]).1).
Proof.
  split; [reflexivity|]. split; [reflexivity|]. split; [reflexivity|].
  split; [by split|]. split; [vm_compute; reflexivity|].
  exact (proj1 (clickSession_captures sample_browser (Some 7%nat)
                  sample_page_idle sample_worker_idle [4%nat] sample_dataset
                  eq_refl eq_refl eq_refl (conj eq_refl eq_refl))).
Defined.

(** ** Expansions never lose, repeat or reorder children *)

(** The real children that a display node shows, and the children that its
    ellipsis node hides. *)
Definition shownChildren (x : node) : list node :=
  filter (λ c, isEllipsis c = false) (children x).

Definition hiddenOf (x : node) : list node :=
  children x ≫= λ c, if isEllipsis c then hiddenChildren c else [].

Lemma shows_node (n : node) :
  ∀ d x, shows n d → x ∈ subnodes d → isEllipsis x = false →
         ∃ n0, n0 ∈ subnodes n ∧ shows n0 x.
Proof.
  induction n as [nm u p cs sc e hc pp bs IH _] using node_ind.
  intros d x Hs Hx Hreal. inversion Hs as [n c ds Hc Hds Hn]; subst.
  set (n := Node nm u p cs sc e hc pp bs) in *.
  apply subnodes_inv in Hx as [->|(y & Hy & Hx)].
  { exists n. split; [apply subnodes_self|done]. }
  cbn [children set_children] in Hy. apply elem_of_app in Hy as [Hy|Hy].
  - apply list_elem_of_lookup_1 in Hy as [i Hi].
    destruct (Forall2_lookup_r _ _ _ _ _ Hds Hi) as (ci & Hci & Hshow).
    apply list_elem_of_lookup_2, subseteq_take in Hci.
    rewrite Forall_forall in IH.
    destruct (IH ci Hci y x Hshow Hx Hreal) as (n0 & Hn0 & Hs0).
    exists n0. split; [|done]. by eapply subnodes_child.
  - unfold ellipsisFor in Hy. case_decide; [|by apply elem_of_nil in Hy].
    apply list_elem_of_singleton in Hy as ->. cbn in Hx.
    apply list_elem_of_singleton in Hx as ->. done.
Qed.

Lemma Forall2_shows_paths (l l' : list node) :
  Forall2 shows l l' → path <$> l' = path <$> l.
Proof.
  induction 1 as [|a y l l' Hay _ IHl]; [done|].
  cbn. f_equal; [|done]. by apply shows_fields in Hay as (-> & _).
Qed.

Lemma real_children (l : list node) :
  Forall (λ y, isEllipsis y = false) l →
  filter (λ y, isEllipsis y = false) l = l ∧
  l ≫= (λ y, if isEllipsis y then hiddenChildren y else []) = [] ∧
  isEllipsis <$> l = replicate (length l) false.
Proof.
  induction 1 as [|y l Hy _ (IH1 & IH2 & IH3)]; [done|]. split; [|split].
  - rewrite filter_cons, decide_True by done. by rewrite IH1.
  - cbn [mbind list_bind]. by rewrite Hy, IH2.
  - cbn. by rewrite Hy, IH3.
Qed.

Lemma shows_children_paths (n0 x : node) :
  plainb n0 = true → shows n0 x →
  (path <$> shownChildren x) ++ (path <$> hiddenOf x) = path <$> children n0 ∧
  ∃ k e, isEllipsis <$> children x = replicate k false ++ e ∧
         (e = [] ∨ e = [true]).
Proof.
  intros Hpl Hs. inversion Hs as [n c ds Hc Hds Hn]; subst.
  assert (Hreal : Forall (λ y, isEllipsis y = false) ds).
  { apply Forall_forall. intros y [i Hi]%list_elem_of_lookup_1.
    destruct (Forall2_lookup_r _ _ _ _ _ Hds Hi) as (ci & Hci & Hxy).
    apply shows_fields in Hxy as (_ & -> & _).
    apply list_elem_of_lookup_2, subseteq_take in Hci.
    by eapply plainb_not_ellipsis, plainb_children. }
  assert (Hpaths : path <$> ds = path <$> take c (children n0)).
  { by apply Forall2_shows_paths. }
  destruct (real_children ds Hreal) as (Hfilter & Hbind & Hflags).
  unfold shownChildren, hiddenOf. cbn [children set_children].
  rewrite filter_app, bind_app, (fmap_app isEllipsis), Hfilter, Hbind, Hflags.
  unfold ellipsisFor. case_decide as Hlt.
  - set (H := collapseTree 5 <$> drop c (children n0)).
    replace (filter (λ c0, isEllipsis c0 = false) [mkEllipsis (path n0) H])
      with (@nil node) by done.
    replace ([mkEllipsis (path n0) H] ≫=
             (λ c0, if isEllipsis c0 then hiddenChildren c0 else []))
      with H by (cbn; by rewrite app_nil_r).
    split.
    + rewrite !app_nil_r, app_nil_l, Hpaths. unfold H.
      rewrite <- list_fmap_compose.
      rewrite <- (take_drop c (children n0)) at 3. rewrite fmap_app. f_equal.
      apply list_fmap_ext. intros i y _. cbn.
      by destruct (collapseTree_fields 5 y) as (_ & _ & -> & _).
    + exists (length ds), [true]. split; [done|by right].
  - split.
    + cbn. rewrite !app_nil_r, Hpaths. by rewrite take_ge by lia.
    + exists (length ds), []. split; [done|by left].
Qed.

Lemma shownChildren_dstrip (x : node) :
  shownChildren (dstrip x) = dstrip <$> shownChildren x.
Proof.
  unfold shownChildren. rewrite dstrip_children.
  induction (children x) as [|c l IH]; [done|].
  cbn [fmap list_fmap]. rewrite !filter_cons, dstrip_isEllipsis.
  case_decide; cbn [fmap list_fmap]; by rewrite IH.
Qed.

Lemma hiddenOf_dstrip (x : node) :
  hiddenOf (dstrip x) = dstrip <$> hiddenOf x.
Proof.
  unfold hiddenOf. rewrite dstrip_children.
  induction (children x) as [|c l IH]; [done|].
  cbn [fmap list_fmap mbind list_bind]. rewrite IH, fmap_app, dstrip_isEllipsis.
  f_equal. destruct (isEllipsis c); [apply dstrip_hiddenChildren|done].
Qed.

Lemma fmap_path_dstrip (l : list node) : path <$> (dstrip <$> l) = path <$> l.
Proof.
  rewrite <- list_fmap_compose. apply list_fmap_ext. intros i y _.
  apply dstrip_path.
Qed.

(** X19. In every display tree reached from the collapsed tree by
    expansions of ellipsis nodes that are in the display tree, each with
    the batch cut from what it hides, each real node stands for a node of
    the original tree, with its path, name and url; its children are real
    nodes followed by at most one ellipsis node; and the paths of the
    children it shows, followed by the paths of the children its ellipsis
    hides, are the paths of its original children, in their order.  (An
    expansion for an ellipsis node that has left the tree is not of this
    kind, and repeats children: see the last section.) *)
Theorem expansion_keeps_children (t d x : node) :
  wellPathed t → rtc expandStep (collapseTree 5 t) d →
  x ∈ subnodes d → isEllipsis x = false →
  ∃ n, n ∈ subnodes t ∧ path n = path x ∧ name n = name x ∧ url n = url x ∧
       (path <$> shownChildren x) ++ (path <$> hiddenOf x) = path <$> children n ∧
       ∃ k e, isEllipsis <$> children x = replicate k false ++ e ∧
              (e = [] ∨ e = [true]).
Proof.
  intros Hwp Hr Hx Hreal.
  pose proof (expand_reachable_shows t d Hwp Hr) as Hshow.
  assert (Hx' : dstrip x ∈ subnodes (dstrip d)).
  { rewrite subnodes_dstrip. by apply list_elem_of_fmap_2. }
  destruct (shows_node _ _ _ Hshow Hx') as (n' & Hn' & Hs);
    [by rewrite dstrip_isEllipsis|].
  rewrite subnodes_dstrip in Hn'.
  apply list_elem_of_fmap in Hn' as (n & -> & Hn).
  assert (Hpl : plainb (dstrip n) = true).
  { rewrite plainb_dstrip. eapply plainb_subnodes; [apply Hwp|done]. }
  destruct (shows_children_paths _ _ Hpl Hs) as (Hpaths & k & e & Hflags & He).
  exists n. split; [done|].
  assert (Hfields : path n = path x ∧ name n = name x ∧ url n = url x).
  { assert (Hsf : path (dstrip x) = path (dstrip n) ∧
                  name (dstrip x) = name (dstrip n) ∧
                  url (dstrip x) = url (dstrip n)) by by inversion Hs.
    destruct n, x. cbn in Hsf. by destruct Hsf as (-> & -> & ->). }
  destruct Hfields as (Hp & Hnm & Hu). split; [done|]. split; [done|].
  split; [done|]. split.
  - rewrite shownChildren_dstrip, hiddenOf_dstrip, dstrip_children in Hpaths.
    by rewrite !fmap_path_dstrip in Hpaths.
  - exists k, e. split; [|done]. rewrite dstrip_children in Hflags.
    rewrite <- Hflags, <- list_fmap_compose. apply list_fmap_ext.
    intros i y _. cbn. by rewrite dstrip_isEllipsis.
Qed.

(** A root with twelve pages below it: collapsed, it shows four and hides
    eight; after one expansion it shows nine and hides three. *)
Definition sample_twelve : node :=
  treeNode "example.com" (Some "https://example.com") "/"
    (sample_leaf <$> ["a"; "b"; "c"; "d"; "e"; "f"; "g"; "h"; "i"; "j"; "k"; "l"]).

Definition sample_twelve_ellipsis : node :=
  mkEllipsis "/"
    (sample_leaf <$> ["e"; "f"; "g"; "h"; "i"; "j"; "k"; "l"]).

Definition sample_twelve_expanded : node :=
  performExpand (collapseTree 5 sample_twelve) sample_twelve_ellipsis
    (js_slice (hiddenChildren sample_twelve_ellipsis) 0
       (batchSizeOf sample_twelve_ellipsis))
    (js_slice_from (hiddenChildren sample_twelve_ellipsis)
       (batchSizeOf sample_twelve_ellipsis))
    ∅.

Lemma expansion_keeps_children_witness :
  wellPathed sample_twelve ∧
  rtc expandStep (collapseTree 5 sample_twelve) sample_twelve_expanded ∧
  sample_twelve_expanded ≠ collapseTree 5 sample_twelve ∧
  path <$> shownChildren sample_twelve_expanded =
    ["/a/"; "/b/"; "/c/"; "/d/"; "/e/"; "/f/"; "/g/"; "/h/"; "/i/"] ∧
  path <$> hiddenOf sample_twelve_expanded = ["/j/"; "/k/"; "/l/"] ∧
  ∃ n, n ∈ subnodes sample_twelve ∧ path n = "/" ∧
       (path <$> shownChildren sample_twelve_expanded) ++
       (path <$> hiddenOf sample_twelve_expanded) = path <$> children n.
Proof.
  assert (Hwp : wellPathed sample_twelve).
  { apply wellPathedb_spec. vm_compute. reflexivity. }
  assert (Hr : rtc expandStep (collapseTree 5 sample_twelve)
                 sample_twelve_expanded).
  { apply rtc_once.
    apply (expandStep_intro _ _ [4%nat] sample_twelve_ellipsis ∅).
    - vm_compute. reflexivity.
    - reflexivity.
    - discriminate.
    - reflexivity. }
  split; [exact Hwp|]. split; [exact Hr|].
  split; [vm_compute; discriminate|].
  split; [vm_compute; reflexivity|]. split; [vm_compute; reflexivity|].
  destruct (expansion_keeps_children sample_twelve sample_twelve_expanded
              sample_twelve_expanded Hwp Hr (subnodes_self _) eq_refl)
    as (n & Hn & Hp & _ & _ & Hpaths & _).
  exists n. split; [exact Hn|]. split; [exact Hp|exact Hpaths].
Defined.

(** ** A click on a real node touches that node only *)

(** [pos] is the position of the first node in pre-order with path [tp]. *)
Fixpoint firstAt (d : node) (pos : list nat) (tp : string) : Prop :=
  match pos with
  | [] => path d = tp
  | i :: pos' =>
      path d ≠ tp ∧
      ∃ c, children d !! i = Some c ∧
           Forall (λ y, findNodeByPath y tp = None) (take i (children d)) ∧
           firstAt c pos' tp
  end.

Lemma firstAt_update (f : node → node) (tp : string) (pos : list nat) :
  ∀ d, firstAt d pos tp →
    (∃ x, nodeAt d pos = Some x ∧ path x = tp) ∧
    findNodeByPath d tp = nodeAt d pos ∧
    updateNodeByPath f tp d = updateAt f d pos.
Proof.
  induction pos as [|i pos IH]; intros d; cbn [firstAt nodeAt updateAt].
  - intros Hp. rewrite findNodeByPath_eq, updateNodeByPath_eq.
    rewrite !decide_True by done. split; [by exists d|done].
  - intros (Hne & c & Hc & Hbefore & Hfirst).
    destruct (IH c Hfirst) as ((x & Hx & Hpx) & Hfind & Hupd).
    rewrite Hc. split; [by exists x|].
    rewrite findNodeByPath_eq, updateNodeByPath_eq.
    rewrite !decide_False by done. split.
    + rewrite (findInChildren_at _ i c tp Hc Hbefore), Hfind, Hx. done.
    + rewrite (updateInChildren_at f _ i c tp Hc Hbefore); [by rewrite Hupd|].
      rewrite Hfind, Hx. by eexists.
Qed.

Lemma firstAt_dstrip (tp : string) (pos : list nat) :
  ∀ d, firstAt (dstrip d) pos tp → firstAt d pos tp.
Proof.
  induction pos as [|i pos IH]; intros d; cbn [firstAt].
  - by rewrite dstrip_path.
  - rewrite dstrip_path, dstrip_children, list_lookup_fmap.
    intros (Hne & c' & Hc' & Hbefore & Hfirst). split; [done|].
    destruct (children d !! i) as [c|] eqn:Hc; [|done].
    injection Hc' as <-. exists c. split; [done|]. split; [|by apply IH].
    rewrite <- fmap_take in Hbefore. apply Forall_fmap in Hbefore.
    eapply Forall_impl; [exact Hbefore|]. intros y Hy. cbn in Hy.
    rewrite dstrip_findNodeByPath in Hy. by destruct (findNodeByPath y tp).
Qed.

(** In a display tree of a well pathed tree, a real node is the first node
    with its path. *)
Lemma shows_firstAt (n : node) :
  wellPathed n → ∀ d pos x,
  shows n d → nodeAt d pos = Some x → isEllipsis x = false →
  firstAt d pos (path x) ∧ ∃ q, q ∈ subnodes n ∧ path q = path x.
Proof.
  induction n as [nm u p cs sc el hc pp bs IH _] using node_ind.
  intros Hwp d pos x Hs Hat Hreal.
  inversion Hs as [n c ds Hc Hds Hn]; subst. clear Hs.
  set (n := Node nm u p cs sc el hc pp bs) in *.
  change (children n) with cs in *.
  destruct pos as [|i pos].
  { injection Hat as <-. split; [done|]. exists n.
    split; [apply subnodes_self|done]. }
  cbn [nodeAt set_children children] in Hat.
  destruct ((ds ++ ellipsisFor n c) !! i) as [y|] eqn:Hi; [|done].
  destruct (decide (i < length ds)%nat) as [Hlt|Hge].
  - pose proof Hi as Hi'. rewrite lookup_app_l in Hi by done.
    destruct (Forall2_lookup_r _ _ _ _ _ Hds Hi) as (ci & Hci & Hshow).
    rewrite lookup_take_Some in Hci. destruct Hci as [Hci _].
    assert (Hin : ci ∈ cs) by by eapply list_elem_of_lookup_2.
    rewrite Forall_forall in IH.
    destruct (IH ci Hin (wellPathed_child n ci Hwp Hin) y pos x Hshow Hat Hreal)
      as (Hfirst & q & Hq & Hpq).
    split; [|exists q; split; [by eapply subnodes_child|done]].
    cbn [firstAt path set_children children]. split.
    { rewrite <- Hpq. intros Heq. by eapply (wellPathed_root_path n ci q). }
    exists y. split; [done|]. split; [|done].
    rewrite take_app_le by lia. apply Forall_forall.
    intros z [j Hj]%list_elem_of_lookup_1.
    apply lookup_take_Some in Hj as [Hj Hji].
    destruct (Forall2_lookup_r _ _ _ _ _ Hds Hj) as (cj & Hcj & Hshowj).
    rewrite lookup_take_Some in Hcj. destruct Hcj as [Hcj _].
    rewrite <- Hpq. apply (shows_find_none cj z _ Hshowj). intros r Hr. split.
    + apply (wellPathed_siblings n cj ci r q j i Hwp Hcj Hci); [lia|done..].
    + intros Hmore. destruct Hwp as (Hpl' & Hnd & Hcl).
      assert (Hzq : q ∈ children r).
      { apply Hcl; [| |done].
        - eapply subnodes_child; [|done]. by eapply list_elem_of_lookup_2.
        - by eapply subnodes_child. }
      assert (Hqj : q ∈ subnodes cj).
      { eapply subnodes_trans; [done|].
        eapply subnodes_child; [done|apply subnodes_self]. }
      refine (wellPathed_siblings n cj ci q q j i _ Hcj Hci _ Hqj Hq eq_refl);
        [done|lia].
  - rewrite lookup_app_r in Hi by lia.
    unfold ellipsisFor in Hi. case_decide as Hck; [|done].
    destruct (i - length ds)%nat; [|done]. injection Hi as <-.
    destruct pos as [|k pos]; [|done]. by injection Hat as <-.
Qed.

Lemma updateAt_ext (f g : node → node) (pos : list nat) :
  ∀ d x, nodeAt d pos = Some x → f x = g x →
         updateAt f d pos = updateAt g d pos.
Proof.
  induction pos as [|i pos IH]; intros d x; cbn [nodeAt updateAt].
  - by intros [= ->].
  - destruct (children d !! i) as [c|]; [|done]. intros Hx Hfg.
    by rewrite (IH c x Hx Hfg).
Qed.

Lemma updateAt_same (f : node → node) (pos : list nat) :
  ∀ d x, nodeAt d pos = Some x → f x = x → updateAt f d pos = d.
Proof.
  induction pos as [|i pos IH]; intros d x; cbn [nodeAt updateAt].
  - by intros [= ->].
  - destruct (children d !! i) as [c|] eqn:Hc; [|done]. intros Hx Hf.
    rewrite (IH c x Hx Hf), list_insert_id by done. apply set_children_id.
Qed.

Lemma handleNodeClick_real (p : page) (d3Node : list nat) (x : node) :
  isExpanding p = false →
  nodeAt (currentTreeData p) d3Node = Some x → isEllipsis x = false →
  let p1 := handleNodeClick p d3Node in
  (pageSent p1 = pageSent p ∧
   (currentTreeData p1 = currentTreeData p ∨
    ∃ v, truthy v = true ∧
         currentTreeData p1 =
           updateAt (λ n, set_screenshot n v) (currentTreeData p) d3Node)) ∨
  (∃ urls pp opts,
     pageSent p1 = pageSent p ++ [MsgCaptureMore urls pp opts] ∧
     pendingExpand p1 = Some (PendingSingle (path x))).
Proof.
  intros Hp Hat Hreal. cbv zeta. unfold handleNodeClick. rewrite Hat, Hreal.
  destruct (truthy (screenshot x)) eqn:Hsc; [left; split; [done|by left]|].
  cbn [negb]. rewrite andb_true_r.
  destruct (truthy (url x)) eqn:Hurl; [|left; split; [done|by left]].
  unfold handleSingleNodeCapture. rewrite Hp, Hat.
  destruct (url x) as [u|] eqn:Hu; [|done].
  rewrite Hurl, Hsc. cbn [negb orb].
  destruct (truthy (if bool_decide _ then _ else _)) eqn:Hstored.
  - left. cbn [pageSent currentTreeData]. split; [done|]. right.
    eexists. by split.
  - right. by eexists _, _, _.
Qed.

(** X20. On a page that displays a well pathed tree, a click on a real
    node changes no other node: after the click and the service worker's
    answer the display tree is what it was, or what it was with a
    screenshot set on the clicked node. *)
Theorem clickSession_real_node (t : node) (b : browser) (tab : option nat)
    (p : page) (w : worker) (d3Node : list nat) (x : node) :
  wellPathed t → shows (dstrip t) (dstrip (currentTreeData p)) →
  isExpanding p = false → isRunning w = false →
  nodeAt (currentTreeData p) d3Node = Some x → isEllipsis x = false →
  let p' := (clickSession b tab p w d3Node).1 in
  currentTreeData p' = currentTreeData p ∨
  ∃ v, truthy v = true ∧
       currentTreeData p' =
         updateAt (λ n, set_screenshot n v) (currentTreeData p) d3Node.
Proof.
  intros Hwp Hshow Hp Hw Hat Hreal. cbv zeta.
  destruct (clickSession_outcome b tab p w d3Node Hp Hw) as (_ & _ & Hout).
  cbv zeta in Hout.
  destruct (handleNodeClick_real p d3Node x Hp Hat Hreal)
    as [[Hsent Htree]|(urls & pp & opts & Hsent & Hpend)]; cbv zeta in *.
  { destruct Hout as [[_ ->]|(? & ? & ? & ? & Hsent' & _)]; [done|].
    rewrite Hsent in Hsent'. apply (f_equal length) in Hsent'.
    rewrite length_app in Hsent'. cbn in Hsent'. lia. }
  destruct Hout as [[Hsent' _]|(? & ? & ? & pend & _ & Hpend' & Hout)].
  { rewrite Hsent in Hsent'. apply (f_equal length) in Hsent'.
    rewrite length_app in Hsent'. cbn in Hsent'. lia. }
  assert (pend = PendingSingle (path x)) as -> by congruence.
  destruct (captureFailure b (reportData w)); [by left|].
  destruct Hout as [shots ->].
  assert (Hfirst : firstAt (currentTreeData p) d3Node (path x)).
  { apply firstAt_dstrip. rewrite <- (dstrip_path x).
    apply (shows_firstAt (dstrip t) (wellPathed_dstrip t Hwp) _ _ _ Hshow).
    - by rewrite dstrip_nodeAt, Hat.
    - by rewrite dstrip_isEllipsis. }
  destruct (firstAt_update (showScreenshot (screenshotMapOf shots)) _ _ _ Hfirst)
    as (_ & _ & ->).
  unfold showScreenshot at 1.
  destruct (url x) as [u|] eqn:Hu.
  2: { left. apply (updateAt_same _ _ _ x Hat). unfold showScreenshot.
       by rewrite Hu. }
  destruct (truthy (Some u)) eqn:Htu.
  2: { left. apply (updateAt_same _ _ _ x Hat). unfold showScreenshot.
       by rewrite Hu, Htu. }
  destruct (truthy (default None (screenshotMapOf shots !! u))) eqn:Hv.
  - right. exists (default None (screenshotMapOf shots !! u)). split; [done|].
    apply (updateAt_ext _ _ _ _ x Hat). unfold showScreenshot.
    by rewrite Hu, Htu, Hv.
  - left. apply (updateAt_same _ _ _ x Hat). unfold showScreenshot.
    by rewrite Hu, Htu, Hv.
Qed.

Lemma clickSession_real_node_witness :
  wellPathed sample_six ∧
  shows (dstrip sample_six) (dstrip (currentTreeData sample_page_idle)) ∧
  isExpanding sample_page_idle = false ∧
  isRunning sample_worker_idle = false ∧
  nodeAt (currentTreeData sample_page_idle) [0%nat] = Some (sample_leaf "a") ∧
  currentTreeData
    (clickSession sample_browser (Some 7%nat) sample_page_idle
       sample_worker_idle [0%nat]).1 =
    updateAt (λ n, set_screenshot n (Some "data:image/png;base64,iVBORw0KGgo="))
      (currentTreeData sample_page_idle) [0%nat].
Proof.
  assert (Hwp : wellPathed sample_six).
  { apply wellPathedb_spec. vm_compute. reflexivity. }
  assert (Hshow : shows (dstrip sample_six)
                    (dstrip (currentTreeData sample_page_idle))).
  { cbn [currentTreeData sample_page_idle]. rewrite dstrip_collapseTree.
    apply shows_collapseTree. }
  split; [exact Hwp|]. split; [exact Hshow|].
  split; [reflexivity|]. split; [reflexivity|]. split; [reflexivity|].
  destruct (clickSession_real_node sample_six sample_browser (Some 7%nat)
              sample_page_idle sample_worker_idle [0%nat] (sample_leaf "a")
              Hwp Hshow eq_refl eq_refl eq_refl eq_refl) as [_|_];
    vm_compute; reflexivity.
Defined.

(** ** The report page over any number of clicks *)

(** One click on a node of the current display tree (a d3 node is a
    position in it) with the service worker's answer; page and worker
    before and after.  The browser may behave differently at every click.
    A click on an element that is on its way out of the page, with the
    datum of a node that is no longer in the tree, is not of this kind:
    see [handleExpandClickOn]. *)
Inductive pageRun : page * worker → page * worker → Prop :=
  | pageRun_click (b : browser) (tab : option nat) (p : page) (w : worker)
      (d3Node : list nat) :
      pageRun (p, w) (clickSession b tab p w d3Node).

Lemma clickSession_shows (t : node) (b : browser) (tab : option nat)
    (p : page) (w : worker) (d3Node : list nat) :
  wellPathed t → isExpanding p = false → isRunning w = false →
  shows (dstrip t) (dstrip (currentTreeData p)) →
  shows (dstrip t) (dstrip (currentTreeData (clickSession b tab p w d3Node).1)).
Proof.
  intros Hwp Hp Hw Hshow.
  destruct (clickSession_outcome b tab p w d3Node Hp Hw) as (_ & _ & Hout).
  cbv zeta in Hout.
  destruct (handleNodeClick_cases p d3Node Hp)
    as [(Hsent & _ & Htree & _)|
        (urls & pp & opts & pend & Hsent & _ & Hpend & Hkind)].
  { destruct Hout as [[_ ->]|(? & ? & ? & ? & Hsent' & _)].
    - destruct Htree as [->|Hstep]; [done|].
      by apply (expandStep_shows t _ _ Hwp Hshow).
    - rewrite Hsent in Hsent'. apply (f_equal length) in Hsent'.
      rewrite length_app in Hsent'. cbn in Hsent'. lia. }
  destruct Hout as [[Hsent' _]|(urls' & pp' & opts' & pend' & _ & Hpend' & Hout)].
  { rewrite Hsent in Hsent'. apply (f_equal length) in Hsent'.
    rewrite length_app in Hsent'. cbn in Hsent'. lia. }
  assert (pend' = pend) as -> by congruence.
  destruct (captureFailure b (reportData w)); [by rewrite Hout|].
  destruct Hout as [shots ->].
  destruct pend as [nodePath|e new rem q].
  - by rewrite updateNodeByPath_dstrip by apply showScreenshot_dstrip.
  - destruct Hkind as (_ & Hat & Hi & Hh & -> & ->).
    apply (expandStep_shows t (currentTreeData p) _ Hwp Hshow).
    by apply (expandStep_intro _ _ d3Node e (screenshotMapOf shots)).
Qed.

(** X21. The report page after any number of clicks on nodes of the
    display tree as it is at the time of the click, each with whatever the
    capture and the storage do: if the page starts idle with the collapsed
    copy of a well pathed tree [t] and the worker starts idle, then after
    every sequence of such clicks both are idle again, and whenever the
    display tree has no ellipsis node left it is [t] up to screenshots,
    with the same paths and the same url at each path.  (This does not
    extend to a click on the element of an ellipsis node that has left
    the tree: see the last section.) *)
Theorem report_page_roundtrip (t : node) (p0 p : page) (w0 w : worker) :
  wellPathed t → currentTreeData p0 = collapseTree 5 t →
  isExpanding p0 = false → isRunning w0 = false →
  rtc pageRun (p0, w0) (p, w) →
  isExpanding p = false ∧ isRunning w = false ∧
  (plainb (currentTreeData p) = true →
     dstrip (currentTreeData p) = dstrip t ∧
     (λ n, (path n, url n)) <$> subnodes (currentTreeData p) =
       (λ n, (path n, url n)) <$> subnodes t).
Proof.
  intros Hwp Htree Hp0 Hw0 Hrun.
  assert (Hinv : isExpanding p = false ∧ isRunning w = false ∧
                 shows (dstrip t) (dstrip (currentTreeData p))).
  { change p with (p, w).1. change w with (p, w).2 at 2.
    revert Hrun. generalize (p, w). clear p w. apply rtc_ind_r.
    - cbn. split; [done|]. split; [done|].
      rewrite Htree, dstrip_collapseTree. apply shows_collapseTree.
    - intros [p1 w1] pw2 _ Hstep (Hp1 & Hw1 & Hshow1). cbn [fst snd] in *.
      inversion Hstep as [b tab p' w' pos]; subst.
      destruct (clickSession_outcome b tab p1 w1 pos Hp1 Hw1) as (Hi & Hr & _).
      split; [done|]. split; [done|]. by apply clickSession_shows. }
  destruct Hinv as (Hp & Hw & Hshow). split; [done|]. split; [done|].
  intros Hplain.
  assert (Heq : dstrip (currentTreeData p) = dstrip t).
  { apply shows_plain; [done|]. by rewrite plainb_dstrip. }
  split; [done|].
  assert (Hpu : ∀ x, (λ n, (path n, url n)) <$> subnodes (dstrip x) =
                     (λ n, (path n, url n)) <$> subnodes x).
  { intros x. rewrite subnodes_dstrip, <- list_fmap_compose.
    apply list_fmap_ext. intros i y _. by destruct y. }
  by rewrite <- (Hpu (currentTreeData p)), <- (Hpu t), Heq.
Qed.

Lemma report_page_roundtrip_witness :
  wellPathed sample_six ∧
  currentTreeData sample_page_idle = collapseTree 5 sample_six ∧
  isExpanding sample_page_idle = false ∧
  isRunning sample_worker_idle = false ∧
  rtc pageRun (sample_page_idle, sample_worker_idle)
    (clickSession sample_browser (Some 7%nat) sample_page_idle
       sample_worker_idle [4%nat]) ∧
  (λ n, (path n, url n)) <$>
    subnodes (currentTreeData
      (clickSession sample_browser (Some 7%nat) sample_page_idle
         sample_worker_idle [4%nat]).1) =
  (λ n, (path n, url n)) <$> subnodes sample_six.
Proof.
  assert (Hwp : wellPathed sample_six).
  { apply wellPathedb_spec. vm_compute. reflexivity. }
  assert (Hrun : rtc pageRun (sample_page_idle, sample_worker_idle)
            (clickSession sample_browser (Some 7%nat) sample_page_idle
               sample_worker_idle [4%nat])).
  { apply rtc_once. constructor. }
  split; [exact Hwp|]. split; [reflexivity|]. split; [reflexivity|].
  split; [reflexivity|]. split; [exact Hrun|].
  destruct (clickSession sample_browser (Some 7%nat) sample_page_idle
              sample_worker_idle [4%nat]) as [p w] eqn:Hs.
  destruct (report_page_roundtrip sample_six sample_page_idle p
              sample_worker_idle w Hwp eq_refl eq_refl eq_refl Hrun)
    as (_ & _ & Hplain).
  apply Hplain. apply (f_equal fst) in Hs. cbn [fst] in Hs. rewrite <- Hs.
  vm_compute. reflexivity.
Defined.

(** ** Capture Orchestrator: the window method and the fallback *)

(** What [captureScreenshotsWindow] does to the browser, in order. *)
Inductive windowEvent :=
  | WCreateWindow
  | WProgress (current total : Z) (url : string)
  | WRender (url : string) (opts : captureOptions)
  | WRemoveWindow.

(** The call of the set-up that throws: [chrome.windows.create], or the
    read of [captureWindow.tabs[0]]. *)
Inductive windowSetupStage := AtWindowCreate | AtWindowTabs.

(** The browser as the window method sees it.  [windowCancelAt i] is the
    value of [shouldCancel] read at the top of iteration [i];
    [renderWindow i url opts] is the outcome of the tab update, the wait,
    the delay and [captureVisibleTab] in iteration [i]: the data url, or
    the message of the error thrown. *)
Record windowBrowser := WindowBrowser {
  windowSetupError : option (windowSetupStage * string);
  windowCancelAt : nat → bool;
  renderWindow : nat → string → captureOptions → string + string }.

(** The result entry of the window method for [url] in iteration [i]. *)
Definition windowResultFor (wb : windowBrowser) (opts : captureOptions)
    (i : nat) (url : string) : captureResult :=
  match renderWindow wb i url opts with
  | inl screenshot => CaptureResult url (Some screenshot) None
  | inr message => CaptureResult url None (Some message)
  end.

Fixpoint windowLoop (wb : windowBrowser) (opts : captureOptions) (total : nat)
    (i : nat) (urls : list string) (results : list captureResult)
    (log : list windowEvent) : list captureResult * list windowEvent :=
  match urls with
  | [] => (results, log)
  | url :: rest =>
      if windowCancelAt wb i then (results, log)
      else
        let log := log ++ [WProgress (Z.of_nat i + 1) (Z.of_nat total) url] in
        let log := log ++ [WRender url opts] in
        windowLoop wb opts total (S i) rest
          (results ++ [windowResultFor wb opts i url]) log
  end.

(** [inl message]: the promise rejects; [inr results]: it resolves. *)
Definition captureScreenshotsWindow (wb : windowBrowser) (urls : list string)
    (opts : captureOptions) (log : list windowEvent)
    : (string + list captureResult) * list windowEvent :=
  match windowSetupError wb with
  | Some (AtWindowCreate, message) => (inl message, log)
  | Some (AtWindowTabs, message) => (inl message, log ++ [WCreateWindow])
  | None =>
      let '(results, log) :=
        windowLoop wb opts (length urls) 0 urls [] (log ++ [WCreateWindow]) in
      (inr results, log ++ [WRemoveWindow])
  end.

(** [captureScreenshots]: the debugger method, and the window method when
    the debugger method rejects. *)
Definition captureScreenshots (b : browser) (wb : windowBrowser)
    (urls : list string) (opts : captureOptions)
    (log : list browserEvent) (wlog : list windowEvent)
    : (string + list captureResult) * list browserEvent * list windowEvent :=
  match captureScreenshotsDebugger b urls opts false log with
  | (inr results, log) => (inr results, log, wlog)
  | (inl _, log) =>
      let '(outcome, wlog) := captureScreenshotsWindow wb urls opts wlog in
      (outcome, log, wlog)
  end.

(** How many urls the window loop handles from index [i] on before it
    reads [shouldCancel] as set. *)
Fixpoint windowFirstCancel (wb : windowBrowser) (i : nat) (urls : list string)
    : nat :=
  match urls with
  | [] => 0
  | _ :: rest =>
      if windowCancelAt wb i then 0 else S (windowFirstCancel wb (S i) rest)
  end.

Lemma windowLoop_cancel (wb : windowBrowser) opts total urls :
  ∀ i results log,
    windowLoop wb opts total i urls results log =
      (results ++ imap (λ j url, windowResultFor wb opts (i + j) url)
                    (take (windowFirstCancel wb i urls) urls),
       log ++ mjoin (imap (λ j url,
                 [WProgress (Z.of_nat (i + j) + 1) (Z.of_nat total) url;
                  WRender url opts]) (take (windowFirstCancel wb i urls) urls))).
Proof.
  induction urls as [|url rest IH]; intros i results log.
  - cbn. by rewrite !app_nil_r.
  - cbn [windowLoop windowFirstCancel]. destruct (windowCancelAt wb i).
    + cbn. by rewrite !app_nil_r.
    + rewrite IH. cbn [take imap mjoin list_join].
      rewrite <- !app_assoc. cbn [app]. rewrite Nat.add_0_r. f_equal.
      * do 2 f_equal. apply imap_ext. intros j u _. cbn. f_equal. lia.
      * do 4 f_equal. apply imap_ext. intros j u _. cbn.
        by replace (i + S j)%nat with (S i + j)%nat by lia.
Qed.

Lemma imap_result_urls (f : nat → string → captureResult) (l : list string) :
  (∀ i u, cr_url (f i u) = u) → cr_url <$> imap f l = l.
Proof.
  intros Hf. rewrite fmap_imap. etrans; [|apply list_fmap_id].
  etrans; [|apply (imap_const id)]. apply imap_ext. intros j u _. apply Hf.
Qed.

Lemma resultFor_url b opts i u : cr_url (resultFor b opts i u) = u.
Proof. unfold resultFor. by destruct (renderPage b i u opts). Qed.

Lemma windowResultFor_url wb opts i u : cr_url (windowResultFor wb opts i u) = u.
Proof. unfold windowResultFor. by destruct (renderWindow wb i u opts). Qed.

(** The urls of what [captureScreenshots] resolves with are the first urls
    asked for. *)
Lemma captureScreenshots_prefix (b : browser) (wb : windowBrowser)
    (urls : list string) (opts : captureOptions) log wlog results log' wlog' :
  captureScreenshots b wb urls opts log wlog = (inr results, log', wlog') →
  ∃ k, cr_url <$> results = take k urls.
Proof.
  unfold captureScreenshots, captureScreenshotsDebugger.
  destruct (setupError b) as [[stage message]|].
  - assert (Hw : ∀ log0,
              (let '(outcome, wlog0) :=
                 captureScreenshotsWindow wb urls opts wlog in
               (outcome, log0, wlog0)) = (inr results, log', wlog') →
              ∃ k, cr_url <$> results = take k urls).
    { intros log0. unfold captureScreenshotsWindow.
      destruct (windowSetupError wb) as [[[] ?]|]; [done|done|].
      rewrite windowLoop_cancel. cbn [app]. intros [= <- _ _].
      exists (windowFirstCancel wb 0 urls).
      apply imap_result_urls. intros. apply windowResultFor_url. }
    destruct stage; apply Hw.
  - rewrite captureLoop_cancel. cbn [app]. intros [= <- _ _].
    exists (firstCancel b 0 urls).
    apply imap_result_urls. intros. apply resultFor_url.
Qed.

(** What the debugger method has done to the browser when its set-up
    throws at [stage]: the calls before the [try] block are not undone. *)
Definition setupTrace (stage : captureSetupStage) : list browserEvent :=
  match stage with
  | AtTabCreate => []
  | AtDebuggerAttach => [EvCreateTab]
  | AtViewport => [EvCreateTab; EvAttach; EvDetach; EvRemoveTab]
  end.

Definition windowSetupTrace (stage : windowSetupStage) : list windowEvent :=
  match stage with
  | AtWindowCreate => []
  | AtWindowTabs => [WCreateWindow]
  end.

(** X22. [captureScreenshots] uses the window method exactly when the
    debugger method cannot be set up.  With the debugger set up, no window
    is opened.  When the set-up of the debugger method throws, what it did
    before stays done: nothing when the tab could not be created; a tab
    that is never removed when the attach throws; a tab created, attached,
    detached and removed when the viewport command throws.  The window
    method runs next.  With the window open the call resolves: with one
    entry per url, in order, for the urls before the first index at which
    the window loop reads [shouldCancel] as set, and the window is removed
    at the end.  When the set-up of the window method throws too, the call
    rejects with its error, and a window that was created stays.  These
    are the only rejections. *)
Theorem captureScreenshots_fallback (b : browser) (wb : windowBrowser)
    (urls : list string) (opts : captureOptions)
    (log : list browserEvent) (wlog : list windowEvent) :
  (setupError b = None →
   ∃ results log',
     captureScreenshots b wb urls opts log wlog = (inr results, log', wlog) ∧
     cr_url <$> results = take (firstCancel b 0 urls) urls) ∧
  (∀ stage message, setupError b = Some (stage, message) →
     (windowSetupError wb = None →
      ∃ results events,
        captureScreenshots b wb urls opts log wlog =
          (inr results, log ++ setupTrace stage,
           wlog ++ [WCreateWindow] ++ events ++ [WRemoveWindow]) ∧
        results = imap (windowResultFor wb opts)
                    (take (windowFirstCancel wb 0 urls) urls) ∧
        cr_url <$> results = take (windowFirstCancel wb 0 urls) urls) ∧
     (∀ wstage wmessage, windowSetupError wb = Some (wstage, wmessage) →
        captureScreenshots b wb urls opts log wlog =
          (inl wmessage, log ++ setupTrace stage,
           wlog ++ windowSetupTrace wstage))) ∧
  (∀ message log' wlog',
     captureScreenshots b wb urls opts log wlog = (inl message, log', wlog') →
     is_Some (setupError b) ∧
     ∃ stage, windowSetupError wb = Some (stage, message)).
Proof.
  assert (Hfail : ∀ stage message, setupError b = Some (stage, message) →
            captureScreenshots b wb urls opts log wlog =
              (let '(outcome, wlog0) :=
                 captureScreenshotsWindow wb urls opts wlog in
               (outcome, log ++ setupTrace stage, wlog0))).
  { intros stage message Hs.
    unfold captureScreenshots, captureScreenshotsDebugger. rewrite Hs.
    destruct stage; cbn [setupTrace]; by rewrite ?app_nil_r. }
  split; [|split].
  - unfold captureScreenshots, captureScreenshotsDebugger.
    intros ->. rewrite captureLoop_cancel. cbn [app].
    exists (imap (resultFor b opts) (take (firstCancel b 0 urls) urls)).
    eexists. split; [reflexivity|].
    apply imap_result_urls. intros. apply resultFor_url.
  - intros stage message Hs. rewrite (Hfail stage message Hs).
    unfold captureScreenshotsWindow. split.
    + intros Hw. rewrite Hw. rewrite windowLoop_cancel. cbn [app].
      exists (imap (windowResultFor wb opts)
                (take (windowFirstCancel wb 0 urls) urls)).
      exists (mjoin (imap (λ j url,
                [WProgress (Z.of_nat (0 + j) + 1) (Z.of_nat (length urls)) url;
                 WRender url opts])
                (take (windowFirstCancel wb 0 urls) urls))).
      split; [|split; [done|]].
      * f_equal. rewrite <- !app_assoc. reflexivity.
      * apply imap_result_urls. intros. apply windowResultFor_url.
    + intros wstage wmessage Hw. rewrite Hw.
      destruct wstage; cbn [windowSetupTrace]; by rewrite ?app_nil_r.
  - intros message log' wlog'.
    destruct (setupError b) as [[stage m]|] eqn:Hs.
    + rewrite (Hfail stage m eq_refl). unfold captureScreenshotsWindow.
      destruct (windowSetupError wb) as [[wstage m']|].
      * destruct wstage; intros [= <- _ _]; split; by eauto.
      * by destruct (windowLoop _ _ _ _ _ _ _).
    + unfold captureScreenshots, captureScreenshotsDebugger. rewrite Hs.
      by destruct (captureLoop _ _ _ _ _ _ _ _).
Qed.

Definition sample_failing_debugger : browser :=
  Browser (Some (AtDebuggerAttach, "Cannot attach to this target"))
    (λ _, false) (λ _ _ _, inl "iVBORw0KGgo=") None None false.

Definition sample_window : windowBrowser :=
  WindowBrowser None (λ _, false) (λ _ _ _, inl "data:image/png;base64,AAAA").

Lemma captureScreenshots_fallback_witness :
  setupError sample_failing_debugger =
    Some (AtDebuggerAttach, "Cannot attach to this target") ∧
  windowSetupError sample_window = None ∧
  ∃ results events,
    captureScreenshots sample_failing_debugger sample_window sample_urls
      defaultOptions [] [] =
      (inr results, [EvCreateTab],
       [] ++ [WCreateWindow] ++ events ++ [WRemoveWindow]) ∧
    cr_url <$> results = sample_urls.
Proof.
  split; [reflexivity|]. split; [reflexivity|].
  destruct (proj1 (proj1 (proj2 (captureScreenshots_fallback
              sample_failing_debugger sample_window sample_urls
              defaultOptions [] []))
              AtDebuggerAttach "Cannot attach to this target" eq_refl)
              eq_refl)
    as (results & events & Hrun & _ & Hurls).
  exists results, events. split; [exact Hrun|exact Hurls].
Defined.

(** ** Analysis run (service worker, startAnalysis) *)

Record analysisOptions := AnalysisOptions {
  ao_url : string;
  ao_maxPages : Z;
  ao_loadTimeout : Z;
  ao_captureDelay : Z }.

(** The [runningState] global. *)
Record runningState := RunningState {
  rs_active : bool;
  rs_current : Z;
  rs_total : Z;
  rs_url : string;
  rs_targetUrl : string }.

(** The messages of type [progress], [complete] and [error] that the
    service worker broadcasts for the popup. *)
Inductive popupMessage :=
  | PmProgress (current total : Z) (url : string)
  | PmComplete (data : dataset)
  | PmError (error : string).

(** The service worker during an analysis: the globals and the storage
    ([an_worker]), [runningState], the broadcasts so far, the number of
    report tabs opened, and what the crawler and the window method did. *)
Record analysis := Analysis {
  an_worker : worker;
  an_runningState : runningState;
  an_sent : list popupMessage;
  an_reportTabs : nat;
  an_crawlLog : list crawlEvent;
  an_windowLog : list windowEvent }.

(** What the run meets.  [sitemapOutcome] is the outcome of
    [fetchSitemap(options.url)]: the message of the error it rejects with,
    or the urls; [baseUrlError] is the message of the [TypeError] of
    [new URL(options.url)]; [cancelledAfterCapture] is the value of
    [shouldCancel] read after [captureScreenshots]; [now] is
    [new Date().toISOString()]; [storageRejects] tells whether
    [chrome.storage.local.set] rejects. *)
Record analysisEnv := AnalysisEnv {
  sitemapOutcome : string + list string;
  crawlerBrowser : crawlBrowser;
  debuggerBrowser : browser;
  captureWindow : windowBrowser;
  baseUrlError : string;
  cancelledAfterCapture : bool;
  now : string;
  storageRejects : bool }.

Definition sendProgress (a : analysis) (current total : Z) (url : string)
    : analysis :=
  Analysis (an_worker a)
    (RunningState (rs_active (an_runningState a)) current total url
       (rs_targetUrl (an_runningState a)))
    (an_sent a ++ [PmProgress current total url]) (an_reportTabs a)
    (an_crawlLog a) (an_windowLog a).

(** [sendComplete]: store, open the report page, notify the popup.  When
    the store rejects nothing follows it. *)
Definition sendComplete (env : analysisEnv) (a : analysis) (data : dataset)
    : analysis :=
  if storageRejects env then a
  else
    let w := an_worker a in
    Analysis
      (Worker (isRunning w) (shouldCancel w) (Some data) (workerSent w)
         (workerLog w))
      (an_runningState a) (an_sent a ++ [PmComplete data])
      (S (an_reportTabs a)) (an_crawlLog a) (an_windowLog a).

Definition sendError (a : analysis) (error : string) : analysis :=
  Analysis (an_worker a) (an_runningState a) (an_sent a ++ [PmError error])
    (an_reportTabs a) (an_crawlLog a) (an_windowLog a).

(** The [sendProgress] calls behind a list of progress reports. *)
Definition sendProgressAll (a : analysis) (reports : list (Z * Z * string))
    : analysis :=
  foldl (λ a r, sendProgress a r.1.1 r.1.2 r.2) a reports.

(** The progress reports that the debugger method broadcasts. *)
Definition broadcastProgress (log : list browserEvent) : list (Z * Z * string) :=
  omap (λ e, match e with
             | EvProgress ToBroadcast current total url =>
                 Some (current, total, url)
             | _ => None
             end) log.

Definition windowProgress (log : list windowEvent) : list (Z * Z * string) :=
  omap (λ e, match e with
             | WProgress current total url => Some (current, total, url)
             | _ => None
             end) log.

(** The body of [screenshots.forEach] in step 4, on the pair of
    [screenshotMapObj] and [capturedUrlSet]. *)
Definition keepScreenshot (acc : smap * list string) (s : captureResult)
    : smap * list string :=
  if truthy (cr_screenshot s)
  then (<[cr_url s := cr_screenshot s]> acc.1, acc.2 ++ [cr_url s])
  else acc.

Section Analysis.

Variable pathname : string → option string.
Variable hostname : string → option string.
Variable ceilQuota : Z → Z → Z → Z.
Variable normalize : string → option string.

(** Step 1: the urls of the sitemap, or of the crawl when [fetchSitemap]
    rejects; and [usedCrawler].  [inl message]: the crawl rejects.
    [None]: the fuel of the crawl ran out. *)
Definition analysisStep1 (crawlFuel : nat) (env : analysisEnv) (a : analysis)
    (opts : analysisOptions)
    : option (analysis * (string + list string) * bool) :=
  let a := sendProgress a 0 0 "Fetching sitemap..." in
  match sitemapOutcome env with
  | inr urls => Some (a, inr urls, false)
  | inl _ =>
      let a := sendProgress a 0 0 "No sitemap found, crawling pages..." in
      '(outcome, log) ← crawlFromHomepage hostname normalize crawlFuel
                          (crawlerBrowser env) (ao_url opts) (ao_maxPages opts);
      let a := sendProgressAll a (crawlProgress log) in
      Some (Analysis (an_worker a) (an_runningState a) (an_sent a)
              (an_reportTabs a) (an_crawlLog a ++ log) (an_windowLog a),
            outcome, true)
  end.

(** Steps 2 to 4, for a list of urls that is not empty: the tree, the
    selection, the capture, and the dataset.  The tree objects are reached
    from the root only, so attaching the screenshots to them and storing
    the tree gives the value read from the root with the screenshots
    attached.  [inl message]: an exception.  [None]: the fuel of the read
    ran out. *)
Definition analysisSteps2to4 (readFuel : nat) (env : analysisEnv)
    (a : analysis) (opts : analysisOptions) (urls : list string)
    : option (analysis * (string + dataset)) :=
  let a := sendProgress a 0 0 "Building URL tree..." in
  match hostname (ao_url opts) with
  | None => Some (a, inl (baseUrlError env))
  | Some _ =>
      '(h, root) ← buildUrlTree pathname hostname urls (ao_url opts);
      selectedUrls ← selectRepresentativeUrls pathname ceilQuota urls
                       (ao_maxPages opts) (ao_url opts);
      let w := an_worker a in
      let copts := CaptureOptions (ao_loadTimeout opts) (ao_captureDelay opts) in
      let '(outcome, log, wlog) :=
        captureScreenshots (debuggerBrowser env) (captureWindow env)
          selectedUrls copts (workerLog w) (an_windowLog a) in
      let a :=
        sendProgressAll a (broadcastProgress (drop (length (workerLog w)) log)) in
      let a :=
        sendProgressAll a
          (windowProgress (drop (length (an_windowLog a)) wlog)) in
      let a :=
        Analysis
          (Worker (isRunning w) (shouldCancel w) (reportData w) (workerSent w)
             log)
          (an_runningState a) (an_sent a) (an_reportTabs a) (an_crawlLog a)
          wlog in
      match outcome with
      | inl message => Some (a, inl message)
      | inr screenshots =>
          if cancelledAfterCapture env then Some (a, inl "Analysis cancelled")
          else
            t ← Store.reify readFuel h root;
            let tree := attachScreenshotsToTree (screenshotMapOf screenshots) t in
            let '(screenshotMapObj, capturedUrlSet) :=
              foldl keepScreenshot (∅, []) screenshots in
            Some (a, inr (Dataset tree (ao_url opts)
                            (Z.of_nat (length urls))
                            (Z.of_nat (length capturedUrlSet)) (now env)
                            capturedUrlSet screenshotMapObj (Some copts)))
      end
  end.

(** The [try] block. *)
Definition analysisBody (crawlFuel readFuel : nat) (env : analysisEnv)
    (a : analysis) (opts : analysisOptions)
    : option (analysis * (string + dataset)) :=
  '(a, fetched, usedCrawler) ← analysisStep1 crawlFuel env a opts;
  match fetched with
  | inl message => Some (a, inl message)
  | inr urls =>
      if bool_decide (urls = [])
      then Some (a, inl (if usedCrawler : bool
                         then "No pages found while crawling. The website may block automated access."
                         else "No URLs found in sitemap."))
      else analysisSteps2to4 readFuel env a opts urls
  end.

(** [startAnalysis], with every promise settled. *)
Definition startAnalysis (crawlFuel readFuel : nat) (env : analysisEnv)
    (a : analysis) (opts : analysisOptions) : option analysis :=
  let w := an_worker a in
  if isRunning w then Some a
  else
    let a :=
      Analysis (Worker true false (reportData w) (workerSent w) (workerLog w))
        (RunningState true 0 0 "Starting..." (ao_url opts))
        (an_sent a) (an_reportTabs a) (an_crawlLog a) (an_windowLog a) in
    '(a, outcome) ← analysisBody crawlFuel readFuel env a opts;
    let a :=
      match outcome with
      | inr data => sendComplete env a data
      | inl message => sendError a message
      end in
    let w := an_worker a in
    let rs := an_runningState a in
    Some (Analysis
            (Worker false (shouldCancel w) (reportData w) (workerSent w)
               (workerLog w))
            (RunningState false (rs_current rs) (rs_total rs) (rs_url rs)
               (rs_targetUrl rs))
            (an_sent a) (an_reportTabs a) (an_crawlLog a) (an_windowLog a)).

End Analysis.

(** *** The tree of the dataset *)

Lemma reify_fuel_mono (fuel fuel' : nat) (h : Store.heap) (a : Store.addr)
    (t : node) :
  (fuel ≤ fuel')%nat →
  Store.reify fuel h a = Some t → Store.reify fuel' h a = Some t.
Proof.
  revert fuel' a t. induction fuel as [|fuel IH]; intros fuel' a t Hle Hr; [done|].
  destruct fuel' as [|fuel']; [lia|]. cbn [Store.reify] in *.
  destruct (h !! a) as [o|]; [|done]. cbn [mbind option_bind] in *.
  assert (Hmono : ∀ b s, Store.reify fuel h b = Some s →
                         Store.reify fuel' h b = Some s).
  { intros b s. apply IH. lia. }
  destruct (mapM _ (Store.o_children o)) as [cs|] eqn:Hcs; [|done].
  rewrite (Store.mapM_reify_mono _ _ _ _ Hmono Hcs).
  cbn [mbind option_bind] in *.
  destruct (mapM _ (Store.o_hiddenChildren o)) as [hc|] eqn:Hhc; [|done].
  by rewrite (Store.mapM_reify_mono _ _ _ _ Hmono Hhc).
Qed.

(** No object of the heap carries a screenshot. *)
Definition blank (h : Store.heap) : Prop :=
  Forall (λ o, Store.o_screenshot o = None) h.

Lemma addSegment_blank (url : string) (n i : nat) (segment : string)
    (w w' : walk) :
  blank (w_heap w) → addSegment url n w i segment = Some w' →
  blank (w_heap w').
Proof.
  intros Hok. unfold addSegment.
  destruct (w_nodeMap w !! _); [by intros [= <-]|].
  unfold pushChild. intros Hrun.
  destruct ((w_heap w ++ _) !! w_parent w) as [o|] eqn:Ho; [|done].
  cbn [mbind option_bind] in Hrun.
  destruct (_ !! _) in Hrun; [|done]. injection Hrun as <-. cbn [w_heap].
  assert (Hok' : blank (w_heap w ++
            [Store.Obj segment
               (if bool_decide (i = (n - 1)%nat) then Some url else None)
               (w_currentPath w +:+ segment +:+ "/") [] None false [] None None])).
  { apply Forall_app. split; [done|]. by apply Forall_singleton. }
  apply Forall_insert; [done|].
  apply list_elem_of_lookup_2 in Ho.
  unfold blank in Hok'. rewrite Forall_forall in Hok'. exact (Hok' o Ho).
Qed.

Lemma walkSegments_blank (url : string) (n : nat) (segments : list string) :
  ∀ i w w',
    blank (w_heap w) → walkSegments url n i segments w = Some w' →
    blank (w_heap w').
Proof.
  induction segments as [|s l IH]; intros i w w' Hok; cbn.
  - by intros [= <-].
  - destruct (addSegment url n w i s) as [w1|] eqn:H1; [|done]. cbn.
    apply IH. by eapply addSegment_blank.
Qed.

Lemma addUrl_blank (st st' : Store.heap * gmap string Store.addr)
    (su : sortedUrl) :
  blank st.1 → addUrl st su = Some st' → blank st'.1.
Proof.
  intros Hok. unfold addUrl.
  destruct (walkSegments _ _ _ _ _) as [w|] eqn:Hw; [|done].
  cbn [mbind option_bind].
  assert (Hw' : blank (w_heap w)).
  { eapply walkSegments_blank; [|exact Hw]. done. }
  destruct (w_nodeMap w !! w_currentPath w) as [a|]; [|by intros [= <-]].
  destruct (w_heap w !! a) as [o|] eqn:Ho; [|done]. cbn [mbind option_bind].
  destruct (truthy _); intros [= <-]; [done|]. cbn [fst].
  apply Forall_insert; [done|]. apply list_elem_of_lookup_2 in Ho.
  unfold blank in Hw'. rewrite Forall_forall in Hw'. exact (Hw' o Ho).
Qed.

Lemma addUrls_blank (l : list sortedUrl) :
  ∀ st st', blank st.1 → addUrls st l = Some st' → blank st'.1.
Proof.
  induction l as [|su l IH]; intros st st' Hok; cbn.
  - by intros [= <-].
  - destruct (addUrl st su) as [st1|] eqn:H1; [|done]. cbn.
    apply IH. by eapply addUrl_blank.
Qed.

Lemma reify_blank (fuel : nat) (h : Store.heap) :
  blank h → ∀ (a : Store.addr) (t : node),
    Store.reify fuel h a = Some t →
    Forall (λ n, screenshot n = None) (subnodes t).
Proof.
  intros Hh. induction fuel as [|fuel IH]; intros a t; [done|].
  cbn [Store.reify].
  destruct (h !! a) as [o|] eqn:Ho; [|done]. cbn [mbind option_bind].
  destruct (mapM _ (Store.o_children o)) as [cs|] eqn:Hcs; [|done].
  cbn [mbind option_bind].
  destruct (mapM _ (Store.o_hiddenChildren o)) as [hc|]; [|done].
  cbn [mbind option_bind]. intros [= <-]. cbn [subnodes children].
  apply Forall_cons. split.
  - cbn. unfold blank in Hh. rewrite Forall_forall in Hh.
    apply Hh. by eapply list_elem_of_lookup_2.
  - apply mapM_Some in Hcs. apply Forall_forall. intros x Hx.
    apply list_elem_of_bind in Hx as (c & Hx & Hc).
    apply list_elem_of_lookup in Hc as [k Hk].
    destruct (Forall2_lookup_r _ _ _ _ _ Hcs Hk) as (b & _ & Hb).
    specialize (IH b c Hb). rewrite Forall_forall in IH. by apply IH.
Qed.

(** What [buildUrlTree] returns reads, with any fuel that gives a value, as
    one well-pathed tree without screenshots. *)
Lemma buildUrlTree_fresh (pathname hostname : string → option string)
    (urls : list string) (baseUrl host : string) :
  hostname baseUrl = Some host →
  ∃ (h : Store.heap) (root : Store.addr) (t : node) (fuel : nat),
    buildUrlTree pathname hostname urls baseUrl = Some (h, root) ∧
    Store.reify fuel h root = Some t ∧
    (∀ fuel' t', Store.reify fuel' h root = Some t' → t' = t) ∧
    wellPathed t ∧
    Forall (λ n, screenshot n = None) (subnodes t).
Proof.
  intros Hhost.
  destruct (buildUrlTree_wellPathed pathname hostname urls baseUrl host Hhost)
    as (h & root & t & fuel & Hrun & Ht & Hwp).
  exists h, root, t, fuel. split; [done|]. split; [done|].
  split; [|split; [done|]].
  - intros fuel' t' Ht'.
    apply (reify_fuel_mono _ (fuel `max` fuel')) in Ht; [|lia].
    apply (reify_fuel_mono _ (fuel `max` fuel')) in Ht'; [|lia]. congruence.
  - apply (reify_blank fuel h) with (a := root); [|done].
    revert Hrun. unfold buildUrlTree. rewrite Hhost. cbn [mbind option_bind].
    destruct (addUrls _ _) as [st|] eqn:Hst; [|done]. cbn [mbind option_bind].
    intros [= <- _]. eapply addUrls_blank; [|exact Hst]. by apply Forall_singleton.
Qed.

Lemma wellPathed_attachScreenshotsToTree (m : smap) (t : node) :
  wellPathed t → wellPathed (attachScreenshotsToTree m t).
Proof.
  assert (Hpath : ∀ n, path (attachScreenshotsToTree m n) = path n)
    by (by intros []).
  assert (Hch : ∀ n, children (attachScreenshotsToTree m n) =
                     attachScreenshotsToTree m <$> children n)
    by (by intros []).
  assert (Hpl : ∀ n, plainb (attachScreenshotsToTree m n) = plainb n).
  { induction n as [nm u p cs sc e hc pp bs IH _] using node_ind.
    cbn [attachScreenshotsToTree plainb isEllipsis children]. f_equal.
    induction IH as [|c l Hc _ IHl]; [done|]. cbn. by rewrite Hc, IHl. }
  intros (Hp & Hnd & Hmore). split_and!.
  - by rewrite Hpl.
  - rewrite subnodes_attachScreenshotsToTree, <- list_fmap_compose.
    replace (path ∘ attachScreenshotsToTree m <$> subnodes t)
      with (path <$> subnodes t); [done|].
    apply list_fmap_ext. intros i x _. symmetry. apply Hpath.
  - rewrite subnodes_attachScreenshotsToTree.
    intros q p [q' [-> Hq]]%list_elem_of_fmap [p' [-> Hp']]%list_elem_of_fmap.
    rewrite !Hpath, Hch. intros Heq.
    apply list_elem_of_fmap_2. by apply Hmore.
Qed.

(** *** The selection and the screenshots kept *)

Lemma js_slice_sublist {A} (l : list A) (s e : Z) : js_slice l s e `sublist_of` l.
Proof. unfold js_slice. etrans; [apply sublist_take|apply sublist_drop]. Qed.

(** The selector returns for every page budget, and what it returns is
    duplicate free. *)
Lemma selectRepresentativeUrls_total (pathname : string → option string)
    (ceilQuota : Z → Z → Z → Z) (urls : list string) (maxPages : Z)
    (baseUrl : string) :
  ∃ out,
    selectRepresentativeUrls pathname ceilQuota urls maxPages baseUrl = Some out ∧
    NoDup out.
Proof.
  unfold selectRepresentativeUrls.
  set (parsed := omap (parseUrl pathname) urls).
  set (sel0 := match List.find isHomepage parsed with
               | Some homepage => [pu_url homepage]
               | None => []
               end).
  set (sel1 := if bool_decide (baseUrl ∈ sel0) then sel0 else sel0 ++ [baseUrl]).
  assert (Hnd0 : NoDup sel0).
  { subst sel0. destruct (List.find _ _); [apply NoDup_singleton|constructor]. }
  assert (Hnd1 : NoDup sel1).
  { subst sel1. case_bool_decide as Hin; [done|].
    apply NoDup_app. split_and!; [done| |apply NoDup_singleton].
    by intros x Hx ->%list_elem_of_singleton. }
  match goal with
  | |- context [selectByDepth ?bd ?q ?m ?ds sel1] =>
      destruct (selectByDepth_spec bd q m ds sel1) as (out & Ho & Hnd & _)
  end; [|done|].
  { intros d Hd. apply groupBy_lookup.
    apply list_elem_of_In. apply list_elem_of_In in Hd.
    revert Hd. apply Permutation_in. apply merge_sort_Permutation. }
  rewrite Ho. cbn [mbind option_bind].
  exists (js_slice out 0 maxPages). split; [done|].
  eapply sublist_NoDup; [exact Hnd|apply js_slice_sublist].
Qed.

Lemma keepScreenshot_spec (screenshots : list captureResult) :
  ∀ acc,
    foldl keepScreenshot acc screenshots =
      (foldl (λ m s, <[cr_url s := cr_screenshot s]> m) acc.1
         (filter (λ s, truthy (cr_screenshot s) = true) screenshots),
       acc.2 ++
       (cr_url <$> filter (λ s, truthy (cr_screenshot s) = true) screenshots)).
Proof.
  induction screenshots as [|s l IH]; intros [m us]; cbn [foldl].
  - cbn. by rewrite app_nil_r.
  - rewrite IH, filter_cons. unfold keepScreenshot at 1 2.
    destruct (truthy (cr_screenshot s)) eqn:E.
    + rewrite decide_True by done. cbn [fst snd fmap list_fmap foldl].
      by rewrite <- app_assoc.
    + by rewrite decide_False by done.
Qed.

Lemma insertAll_lookup (rs : list captureResult) :
  NoDup (cr_url <$> rs) → ∀ (m : smap) (u : string) (v : option string),
    (∀ s, s ∈ rs → m !! cr_url s = None) →
    foldl (λ m s, <[cr_url s := cr_screenshot s]> m) m rs !! u = Some v ↔
    m !! u = Some v ∨ ∃ s, s ∈ rs ∧ cr_url s = u ∧ cr_screenshot s = v.
Proof.
  induction rs as [|s rs IH]; intros Hnd m u v Hm; cbn [foldl].
  - split; [by left|]. by intros [?|(s & Hs%elem_of_nil & _)].
  - cbn in Hnd. apply NoDup_cons in Hnd as [Hs Hnd].
    rewrite IH; [|done|].
    2: { intros s' Hs'. rewrite lookup_insert_ne; [apply Hm; by right|].
         intros Heq. apply Hs. rewrite Heq. by apply list_elem_of_fmap_2. }
    split.
    + intros [Hl|(s' & Hs' & Hu & Hv)].
      * destruct (decide (cr_url s = u)) as [<-|Hne].
        -- rewrite lookup_insert_eq in Hl. injection Hl as <-.
           right. exists s. split; [left|done].
        -- rewrite lookup_insert_ne in Hl by done. by left.
      * right. exists s'. split; [by right|done].
    + intros [Hl|(s' & [->|Hs']%elem_of_cons & Hu & Hv)].
      * left. rewrite lookup_insert_ne; [done|].
        intros <-. rewrite Hm in Hl; [done|left].
      * left. subst. by rewrite lookup_insert_eq.
      * right. eauto.
Qed.

Lemma screenshotMapOf_lookup (rs : list captureResult) (u : string)
    (v : option string) :
  NoDup (cr_url <$> rs) →
  screenshotMapOf rs !! u = Some v ↔
  ∃ s, s ∈ rs ∧ cr_url s = u ∧ cr_screenshot s = v.
Proof.
  intros Hnd. unfold screenshotMapOf. rewrite insertAll_lookup; [|done|done].
  rewrite lookup_empty. split; [by intros [?|?]|by right].
Qed.

Lemma keepScreenshot_lookup (rs : list captureResult) (u : string)
    (v : option string) :
  NoDup (cr_url <$> rs) →
  (foldl keepScreenshot (∅, []) rs).1 !! u = Some v ↔
  ∃ s, s ∈ rs ∧ cr_url s = u ∧ cr_screenshot s = v ∧ truthy v = true.
Proof.
  intros Hnd. rewrite keepScreenshot_spec. cbn [fst].
  rewrite insertAll_lookup; [| |done].
  2: { eapply sublist_NoDup; [exact Hnd|]. apply fmap_sublist, sublist_filter. }
  rewrite lookup_empty. split.
  - intros [?|(s & [Ht Hs]%list_elem_of_filter & Hu & Hv)]; [done|].
    exists s. split_and!; try done. by rewrite <- Hv.
  - intros (s & Hs & Hu & Hv & Ht). right. exists s. split; [|done].
    apply list_elem_of_filter. split; [by rewrite Hv|done].
Qed.

(** *** Progress reports *)

Definition progressMessage (r : Z * Z * string) : popupMessage :=
  PmProgress r.1.1 r.1.2 r.2.

Definition setProgress (rs : runningState) (r : Z * Z * string) : runningState :=
  RunningState (rs_active rs) r.1.1 r.1.2 r.2 (rs_targetUrl rs).

(** [a1] is [a] after the progress reports [R], with nothing stored, no
    tab opened and [isRunning] as it was. *)
Definition progressed (a a1 : analysis) (R : list (Z * Z * string)) : Prop :=
  an_sent a1 = an_sent a ++ (progressMessage <$> R) ∧
  an_runningState a1 = foldl setProgress (an_runningState a) R ∧
  an_reportTabs a1 = an_reportTabs a ∧
  isRunning (an_worker a1) = isRunning (an_worker a) ∧
  reportData (an_worker a1) = reportData (an_worker a).

Lemma progressed_trans (a a1 a2 : analysis) (R1 R2 : list (Z * Z * string)) :
  progressed a a1 R1 → progressed a1 a2 R2 → progressed a a2 (R1 ++ R2).
Proof.
  intros (Hs1 & Hr1 & Ht1 & Hi1 & Hd1) (Hs2 & Hr2 & Ht2 & Hi2 & Hd2).
  unfold progressed.
  rewrite Hs2, Hs1, Hr2, Hr1, Ht2, Ht1, Hi2, Hi1, Hd2, Hd1.
  by rewrite fmap_app, foldl_app, app_assoc.
Qed.

Lemma sendProgressAll_progressed (R : list (Z * Z * string)) :
  ∀ a, progressed a (sendProgressAll a R) R.
Proof.
  induction R as [|r R IH]; intros a.
  - unfold progressed. cbn. by rewrite app_nil_r.
  - apply (progressed_trans a (sendProgress a r.1.1 r.1.2 r.2) _ [r] R);
      [|apply IH].
    unfold progressed. by destruct r as [[c t] u].
Qed.

Lemma setProgress_last (R : list (Z * Z * string)) (rs : runningState)
    (r : Z * Z * string) :
  last R = Some r →
  foldl setProgress rs R =
    RunningState (rs_active rs) r.1.1 r.1.2 r.2 (rs_targetUrl rs).
Proof.
  intros [R' ->]%last_Some. rewrite foldl_snoc. unfold setProgress. f_equal.
  - clear. revert rs. induction R' as [|x R' IH]; intros rs; [done|].
    cbn [foldl]. by rewrite IH.
  - clear. revert rs. induction R' as [|x R' IH]; intros rs; [done|].
    cbn [foldl]. by rewrite IH.
Qed.

Lemma crawlFromHomepage_returns (hostname normalize : string → option string)
    (b : crawlBrowser) (baseUrl : string) (maxPages : Z) :
  ∃ fuel r,
    crawlFromHomepage hostname normalize fuel b baseUrl maxPages = Some r.
Proof.
  unfold crawlFromHomepage.
  destruct (crawlSetupError b) as [[[] message]|]; try by exists 0%nat; eexists.
  destruct (crawlLoop_ends hostname normalize b baseUrl maxPages _ _ 0%nat
              eq_refl (crawl_inv_init hostname normalize baseUrl maxPages))
    as (fuel & st' & Hrun & _).
  exists fuel. rewrite Hrun. cbn [mbind option_bind]. by eexists.
Qed.

(** *** Facts about the run *)

Section AnalysisFacts.

Variable pathname : string → option string.
Variable hostname : string → option string.
Variable ceilQuota : Z → Z → Z → Z.
Variable normalize : string → option string.
Variable env : analysisEnv.
Variable opts : analysisOptions.

Lemma analysisStep1_progressed (crawlFuel : nat) (a a1 : analysis)
    (fetched : string + list string) (usedCrawler : bool) :
  analysisStep1 hostname normalize crawlFuel env a opts =
    Some (a1, fetched, usedCrawler) →
  ∃ R, progressed a a1 ((0, 0, "Fetching sitemap...") :: R).
Proof.
  unfold analysisStep1. destruct (sitemapOutcome env) as [error|urls].
  - destruct (crawlFromHomepage _ _ _ _ _ _) as [[outcome log]|]; [|done].
    cbn [mbind option_bind]. intros [= <- _ _].
    exists ((0, 0, "No sitemap found, crawling pages...") :: crawlProgress log).
    set (a0 := sendProgress (sendProgress a 0 0 "Fetching sitemap...") 0 0
                 "No sitemap found, crawling pages...").
    destruct (sendProgressAll_progressed (crawlProgress log) a0)
      as (Hs & Hr & Ht & Hi & Hd).
    unfold progressed.
    cbn [an_sent an_runningState an_reportTabs an_worker].
    rewrite Hs, Hr, Ht, Hi, Hd. subst a0. cbn. by rewrite <- !app_assoc.
  - intros [= <- _ _]. exists []. by unfold progressed.
Qed.

Lemma analysisSteps2to4_progressed (readFuel : nat) (a a1 : analysis)
    (urls : list string) (outcome : string + dataset) :
  analysisSteps2to4 pathname hostname ceilQuota readFuel env a opts urls =
    Some (a1, outcome) →
  ∃ R, progressed a a1 ((0, 0, "Building URL tree...") :: R).
Proof.
  unfold analysisSteps2to4. destruct (hostname (ao_url opts)).
  2: { intros [= <- _]. exists []. by unfold progressed. }
  destruct (buildUrlTree _ _ _ _) as [[h root]|]; [|done].
  cbn [mbind option_bind].
  destruct (selectRepresentativeUrls _ _ _ _ _) as [sel|]; [|done].
  cbn [mbind option_bind].
  destruct (captureScreenshots _ _ _ _ _ _) as [[out log] wlog].
  intros Hrun.
  match type of Hrun with
  | context [sendProgressAll (sendProgressAll ?a0 ?R1) ?R2] =>
      exists (R1 ++ R2);
      assert (Hp : progressed a (sendProgressAll (sendProgressAll a0 R1) R2)
                     ((0, 0, "Building URL tree...") :: R1 ++ R2));
      [apply (progressed_trans a a0 _ [(0, 0, "Building URL tree...")] (R1 ++ R2));
         [by unfold progressed|];
       apply (progressed_trans a0 (sendProgressAll a0 R1) _ R1 R2);
         apply sendProgressAll_progressed|]
  end.
  destruct Hp as (Hs & Hr & Ht & Hi & Hd).
  destruct out as [message|screenshots].
  - injection Hrun as <- _. by unfold progressed.
  - destruct (cancelledAfterCapture env).
    + injection Hrun as <- _. by unfold progressed.
    + destruct (Store.reify readFuel h root); [|done].
      cbn [mbind option_bind] in Hrun.
      destruct (foldl keepScreenshot _ _). injection Hrun as <- _.
      by unfold progressed.
Qed.

Lemma analysisBody_progressed (crawlFuel readFuel : nat) (a a1 : analysis)
    (outcome : string + dataset) :
  analysisBody pathname hostname ceilQuota normalize crawlFuel readFuel env a
    opts = Some (a1, outcome) →
  ∃ R, progressed a a1 ((0, 0, "Fetching sitemap...") :: R).
Proof.
  unfold analysisBody.
  destruct (analysisStep1 _ _ _ _ _ _) as [[[a0 fetched] used]|] eqn:H1; [|done].
  cbn [mbind option_bind].
  apply analysisStep1_progressed in H1 as [R1 H1].
  destruct fetched as [message|urls].
  - intros [= <- _]. by exists R1.
  - case_bool_decide.
    + intros [= <- _]. by exists R1.
    + intros [R2 H2]%analysisSteps2to4_progressed.
      exists (R1 ++ (0, 0, "Building URL tree...") :: R2).
      by apply (progressed_trans a a0 a1 (_ :: R1) (_ :: R2)).
Qed.

Lemma analysisBody_returns (a : analysis) :
  ∃ crawlFuel readFuel r,
    analysisBody pathname hostname ceilQuota normalize crawlFuel readFuel env a
      opts = Some r.
Proof.
  assert (H1 : ∃ crawlFuel r,
            analysisStep1 hostname normalize crawlFuel env a opts = Some r).
  { unfold analysisStep1. destruct (sitemapOutcome env) as [error|urls].
    - destruct (crawlFromHomepage_returns hostname normalize
                  (crawlerBrowser env) (ao_url opts) (ao_maxPages opts))
        as (fuel & [outcome log] & Hrun).
      exists fuel. rewrite Hrun. cbn [mbind option_bind]. by eexists.
    - exists 0%nat. by eexists. }
  destruct H1 as (crawlFuel & [[a0 fetched] used] & H1).
  exists crawlFuel. unfold analysisBody. rewrite H1. cbn [mbind option_bind].
  destruct fetched as [message|urls]; [exists 0%nat; by eexists|].
  case_bool_decide; [exists 0%nat; by eexists|].
  unfold analysisSteps2to4.
  destruct (hostname (ao_url opts)) as [host|] eqn:Hhost;
    [|exists 0%nat; by eexists].
  destruct (buildUrlTree_fresh pathname hostname urls (ao_url opts) host Hhost)
    as (h & root & t & fuel & Hb & Ht & _).
  exists fuel. rewrite Hb. cbn [mbind option_bind].
  destruct (selectRepresentativeUrls_total pathname ceilQuota urls
              (ao_maxPages opts) (ao_url opts)) as (sel & Hsel & _).
  rewrite Hsel. cbn [mbind option_bind].
  destruct (captureScreenshots _ _ _ _ _ _) as [[out log] wlog].
  destruct out as [message|screenshots]; [by eexists|].
  destruct (cancelledAfterCapture env); [by eexists|].
  rewrite Ht. cbn [mbind option_bind].
  destruct (foldl keepScreenshot _ _). by eexists.
Qed.

Lemma analysisSteps2to4_data (readFuel : nat) (a a1 : analysis)
    (urls : list string) (data : dataset) :
  analysisSteps2to4 pathname hostname ceilQuota readFuel env a opts urls =
    Some (a1, inr data) →
  storage_inv data ∧
  capturedUrls data = Z.of_nat (length (capturedUrlSet data)) ∧
  totalUrls data = Z.of_nat (length urls) ∧
  baseUrl data = ao_url opts ∧
  options data =
    Some (CaptureOptions (ao_loadTimeout opts) (ao_captureDelay opts)) ∧
  wellPathed (tree data) ∧
  ∀ n, n ∈ subnodes (tree data) →
    match url n with
    | Some u =>
        u ≠ "" →
        (∀ v, screenshotMap data !! u = Some v → screenshot n = v) ∧
        (truthy (screenshot n) = true →
         screenshotMap data !! u = Some (screenshot n))
    | None => screenshot n = None
    end.
Proof.
  unfold analysisSteps2to4.
  destruct (hostname (ao_url opts)) as [host|] eqn:Hhost; [|done].
  destruct (buildUrlTree_fresh pathname hostname urls (ao_url opts) host Hhost)
    as (h & root & t & fuel & Hb & _ & Hread & Hwp & Hblank).
  rewrite Hb. cbn [mbind option_bind].
  destruct (selectRepresentativeUrls_total pathname ceilQuota urls
              (ao_maxPages opts) (ao_url opts)) as (sel & Hsel & Hnd).
  rewrite Hsel. cbn [mbind option_bind].
  destruct (captureScreenshots _ _ _ _ _ _) as [[out log] wlog] eqn:Hcap.
  destruct out as [message|screenshots]; [done|].
  destruct (cancelledAfterCapture env); [done|].
  destruct (Store.reify readFuel h root) as [t'|] eqn:Ht'; [|done].
  apply Hread in Ht' as ->. cbn [mbind option_bind].
  destruct (foldl keepScreenshot _ _) as [m L] eqn:Hkeep.
  intros [= _ <-].
  cbn [tree baseUrl totalUrls capturedUrls capturedUrlSet screenshotMap options].
  assert (Hnd' : NoDup (cr_url <$> screenshots)).
  { destruct (captureScreenshots_prefix _ _ _ _ _ _ _ _ _ Hcap) as [k Hk].
    rewrite Hk. eapply sublist_NoDup; [exact Hnd|apply sublist_take]. }
  assert (Hm : ∀ u v, m !! u = Some v ↔
            ∃ s, s ∈ screenshots ∧ cr_url s = u ∧ cr_screenshot s = v ∧
                 truthy v = true).
  { intros u v. rewrite <- (keepScreenshot_lookup _ _ _ Hnd'). by rewrite Hkeep. }
  assert (HL : L = cr_url <$> filter (λ s, truthy (cr_screenshot s) = true)
                                screenshots).
  { rewrite keepScreenshot_spec in Hkeep. by injection Hkeep as _ <-. }
  split_and!; try done.
  - unfold storage_inv. cbn [capturedUrlSet screenshotMap]. split_and!.
    + rewrite HL. eapply sublist_NoDup; [exact Hnd'|].
      apply fmap_sublist, sublist_filter.
    + intros u. rewrite HL. split.
      * intros (s & -> & [Ht Hs]%list_elem_of_filter)%list_elem_of_fmap.
        exists (cr_screenshot s). apply Hm. by exists s.
      * intros [v (s & Hs & Hu & Hv & Ht)%Hm].
        apply list_elem_of_fmap. exists s. split; [done|].
        apply list_elem_of_filter. split; [by rewrite Hv|done].
    + intros u v (s & _ & _ & _ & Ht)%Hm. done.
  - by apply wellPathed_attachScreenshotsToTree.
  - rewrite subnodes_attachScreenshotsToTree.
    intros n (n0 & -> & Hn0)%list_elem_of_fmap.
    rewrite Forall_forall in Hblank. specialize (Hblank n0 Hn0).
    destruct n0 as [nm u p cs sc e hc pp bs]. cbn in Hblank. subst sc.
    cbn [attachScreenshotsToTree url screenshot].
    destruct u as [u|]; [|done]. intros Hu.
    assert (Htu : truthy (Some u) = true).
    { cbn. by apply negb_true_iff, String.eqb_neq. }
    rewrite Htu. split.
    + intros v (s & Hs & Hsu & Hsv & _)%Hm.
      assert (HM : screenshotMapOf screenshots !! u = Some v)
        by (apply screenshotMapOf_lookup; [done|by exists s]).
      by rewrite HM.
    + destruct (screenshotMapOf screenshots !! u) as [v|] eqn:HM; [|done].
      intros Hv. apply Hm.
      apply screenshotMapOf_lookup in HM as (s & Hs & Hsu & Hsv); [|done].
      by exists s.
Qed.

End AnalysisFacts.

Lemma last_progress (l : list popupMessage) (R : list (Z * Z * string))
    (m : popupMessage) :
  R ≠ [] → last (l ++ (progressMessage <$> R)) = Some m →
  ∃ r, m = progressMessage r.
Proof.
  intros HR. rewrite last_app, fmap_last.
  destruct (last R) as [r|] eqn:E; [|by apply last_None in E].
  cbn. intros [= <-]. by exists r.
Qed.

(** X23. [startAnalysis], called while no run is active, ends once
    [fetchSitemap] has settled, whatever the sitemap, the site and the
    browser do: it leaves [isRunning] and [runningState.active] cleared.  Its broadcasts are progress reports,
    the first of them for fetching the sitemap, followed by one final
    message; [runningState] holds the last report.  The final message is
    an error, with the stored report and the tabs untouched, or a
    completion, with its dataset stored and one report tab opened; only
    when the store rejects is there no final message, and then nothing is
    stored and no tab opened. *)
Theorem startAnalysis_ends (pathname hostname : string → option string)
    (ceilQuota : Z → Z → Z → Z) (normalize : string → option string)
    (env : analysisEnv) (a : analysis) (opts : analysisOptions) :
  isRunning (an_worker a) = false →
  ∃ crawlFuel readFuel a' R final,
    startAnalysis pathname hostname ceilQuota normalize crawlFuel readFuel env
      a opts = Some a' ∧
    isRunning (an_worker a') = false ∧
    an_sent a' =
      an_sent a ++
      (progressMessage <$> (0, 0, "Fetching sitemap...") :: R) ++ final ∧
    (∃ r, last ((0, 0, "Fetching sitemap...") :: R) = Some r ∧
          an_runningState a' =
            RunningState false r.1.1 r.1.2 r.2 (ao_url opts)) ∧
    ((∃ error, final = [PmError error] ∧
               reportData (an_worker a') = reportData (an_worker a) ∧
               an_reportTabs a' = an_reportTabs a) ∨
     (∃ data, final = [PmComplete data] ∧ storageRejects env = false ∧
              reportData (an_worker a') = Some data ∧
              an_reportTabs a' = S (an_reportTabs a)) ∨
     (final = [] ∧ storageRejects env = true ∧
      reportData (an_worker a') = reportData (an_worker a) ∧
      an_reportTabs a' = an_reportTabs a)).
Proof.
  intros Hidle. unfold startAnalysis. rewrite Hidle.
  set (w := an_worker a).
  set (a0 := Analysis (Worker true false (reportData w) (workerSent w)
                         (workerLog w))
               (RunningState true 0 0 "Starting..." (ao_url opts))
               (an_sent a) (an_reportTabs a) (an_crawlLog a) (an_windowLog a)).
  destruct (analysisBody_returns pathname hostname ceilQuota normalize env opts
              a0) as (crawlFuel & readFuel & [a1 outcome] & Hb).
  exists crawlFuel, readFuel. rewrite Hb. cbn [mbind option_bind].
  destruct (analysisBody_progressed _ _ _ _ _ _ _ _ _ _ _ Hb)
    as (R & Hs & Hr & Ht & Hi & Hd).
  cbn [a0 an_sent an_runningState an_reportTabs an_worker isRunning reportData]
    in Hs, Hr, Ht, Hi, Hd.
  assert (Hlast : ∃ r, last ((0, 0, "Fetching sitemap...") :: R) = Some r).
  { destruct (last _) as [r|] eqn:E; [by exists r|by apply last_None in E]. }
  destruct Hlast as [r Hlast].
  rewrite (setProgress_last _ _ r Hlast) in Hr. cbn [rs_active rs_targetUrl] in Hr.
  destruct outcome as [message|data].
  - eexists. exists R, [PmError message]. split; [reflexivity|].
    cbn [sendError an_worker an_sent an_runningState an_reportTabs isRunning
         reportData].
    split; [done|]. split; [by rewrite Hs, <- app_assoc|].
    split; [exists r; split; [done|]; by rewrite Hr|].
    left. exists message. by rewrite Hd, Ht.
  - unfold sendComplete. destruct (storageRejects env) eqn:Hrej.
    + eexists. exists R, []. split; [reflexivity|].
      cbn [an_worker an_sent an_runningState an_reportTabs isRunning reportData].
      split; [done|]. split; [by rewrite Hs, app_nil_r|].
      split; [exists r; split; [done|]; by rewrite Hr|].
      right. right. by rewrite Hd, Ht.
    + eexists. exists R, [PmComplete data]. split; [reflexivity|].
      cbn [an_worker an_sent an_runningState an_reportTabs isRunning reportData].
      split; [done|]. split; [by rewrite Hs, <- app_assoc|].
      split; [exists r; split; [done|]; by rewrite Hr|].
      right. left. exists data. by rewrite Ht.
Qed.

Definition sample_env : analysisEnv :=
  AnalysisEnv (inr sample_site) sample_crawl_browser sample_browser
    sample_window "Invalid URL" false "2024-01-01T00:00:00.000Z" false.

Definition sample_analysis : analysis :=
  Analysis sample_worker_idle (RunningState false 0 0 "" "") [] 0 [] [].

Definition sample_options : analysisOptions :=
  AnalysisOptions "https://example.com" 10 5000 1000.

Lemma startAnalysis_ends_witness :
  isRunning (an_worker sample_analysis) = false ∧
  ∃ crawlFuel readFuel a',
    startAnalysis sample_pathname sample_hostname exact_ceil sample_normalize
      crawlFuel readFuel sample_env sample_analysis sample_options = Some a' ∧
    isRunning (an_worker a') = false.
Proof.
  split; [reflexivity|].
  destruct (startAnalysis_ends sample_pathname sample_hostname exact_ceil
              sample_normalize sample_env sample_analysis sample_options
              eq_refl)
    as (crawlFuel & readFuel & a' & R & final & Hrun & Hidle & _).
  exists crawlFuel, readFuel, a'. split; [exact Hrun|exact Hidle].
Defined.

(** X24. The dataset that a completed [startAnalysis] stores and sends:
    its captured urls are listed once each and are the keys of its
    screenshot map, which holds no empty image, and [capturedUrls] is
    their number; [totalUrls] is positive; its tree has pairwise distinct
    paths and no ellipsis node, and a node of the tree with a url carries
    a screenshot exactly when the map has one for the url, the same one;
    a node without a url carries none. *)
Theorem startAnalysis_dataset (pathname hostname : string → option string)
    (ceilQuota : Z → Z → Z → Z) (normalize : string → option string)
    (crawlFuel readFuel : nat) (env : analysisEnv) (a a' : analysis)
    (opts : analysisOptions) (data : dataset) :
  isRunning (an_worker a) = false →
  startAnalysis pathname hostname ceilQuota normalize crawlFuel readFuel env
    a opts = Some a' →
  last (an_sent a') = Some (PmComplete data) →
  reportData (an_worker a') = Some data ∧
  storage_inv data ∧
  capturedUrls data = Z.of_nat (length (capturedUrlSet data)) ∧
  0 < totalUrls data ∧
  baseUrl data = ao_url opts ∧
  options data =
    Some (CaptureOptions (ao_loadTimeout opts) (ao_captureDelay opts)) ∧
  wellPathed (tree data) ∧
  ∀ n, n ∈ subnodes (tree data) →
    match url n with
    | Some u =>
        u ≠ "" →
        (∀ v, screenshotMap data !! u = Some v → screenshot n = v) ∧
        (truthy (screenshot n) = true →
         screenshotMap data !! u = Some (screenshot n))
    | None => screenshot n = None
    end.
Proof.
  intros Hidle. unfold startAnalysis. rewrite Hidle.
  destruct (analysisBody _ _ _ _ _ _ _ _ _) as [[a1 outcome]|] eqn:Hb; [|done].
  cbn [mbind option_bind].
  destruct (analysisBody_progressed _ _ _ _ _ _ _ _ _ _ _ Hb)
    as (R & Hs & _).
  destruct outcome as [message|d].
  - intros [= <-]. cbn [sendError an_sent]. by rewrite last_snoc.
  - unfold sendComplete. destruct (storageRejects env).
    + intros [= <-]. cbn [an_sent]. rewrite Hs.
      by intros [r Hr]%last_progress.
    + intros [= <-]. cbn [an_sent an_worker reportData]. rewrite last_snoc.
      intros [= ->]. split; [done|].
      revert Hb. unfold analysisBody.
      destruct (analysisStep1 _ _ _ _ _ _) as [[[a2 fetched] used]|]; [|done].
      cbn [mbind option_bind]. destruct fetched as [message|urls]; [done|].
      case_bool_decide as Hne; [done|].
      intros (Hinv & Hcount & Htotal & Hrest)%analysisSteps2to4_data.
      split; [done|]. split; [done|]. split; [|done].
      rewrite Htotal. destruct urls; [done|]. cbn. lia.
Qed.

Lemma startAnalysis_dataset_witness :
  ∃ a' data,
    startAnalysis sample_pathname sample_hostname exact_ceil sample_normalize
      0 10 sample_env sample_analysis sample_options = Some a' ∧
    last (an_sent a') = Some (PmComplete data) ∧
    storage_inv data ∧ wellPathed (tree data).
Proof.
  eassert (Hrun : startAnalysis sample_pathname sample_hostname exact_ceil
                    sample_normalize 0 10 sample_env sample_analysis
                    sample_options = Some _)
    by (vm_compute; reflexivity).
  match type of Hrun with
  | _ = Some ?a' =>
      eassert (Hlast : last (an_sent a') = Some (PmComplete _))
        by (vm_compute; reflexivity);
      match type of Hlast with
      | _ = Some (PmComplete ?d) =>
          exists a', d; split; [exact Hrun|]; split; [exact Hlast|];
          destruct (startAnalysis_dataset sample_pathname sample_hostname
                      exact_ceil sample_normalize 0 10 sample_env
                      sample_analysis a' sample_options d eq_refl Hrun Hlast)
            as (_ & Hinv & _ & _ & _ & _ & Hwp & _)
      end
  end.
  split; [exact Hinv|exact Hwp].
Defined.

(** *** When the run completes *)

Lemma captureScreenshots_resolves (b : browser) (wb : windowBrowser)
    (urls : list string) (opts : captureOptions) (log : list browserEvent)
    (wlog : list windowEvent) :
  (∃ results, (captureScreenshots b wb urls opts log wlog).1.1 = inr results) ↔
  setupError b = None ∨ windowSetupError wb = None.
Proof.
  unfold captureScreenshots, captureScreenshotsDebugger, captureScreenshotsWindow.
  destruct (setupError b) as [[stage message]|].
  - destruct stage;
      (destruct (windowSetupError wb) as [[[] message']|];
         [split; [by intros [? ?]|by intros [?|?]]
         |split; [by intros [? ?]|by intros [?|?]]
         |destruct (windowLoop _ _ _ _ _ _ _) as [results wlog'];
          split; [by right|by exists results]]).
  - destruct (captureLoop _ _ _ _ _ _ _ _) as [results log'].
    split; [by left|by exists results].
Qed.

Section AnalysisOutcome.

Variable pathname : string → option string.
Variable hostname : string → option string.
Variable ceilQuota : Z → Z → Z → Z.
Variable normalize : string → option string.
Variable env : analysisEnv.
Variable opts : analysisOptions.

Lemma analysisStep1_fetched (crawlFuel : nat) (a a1 : analysis)
    (fetched : string + list string) (usedCrawler : bool)
    (urls : list string) :
  analysisStep1 hostname normalize crawlFuel env a opts =
    Some (a1, fetched, usedCrawler) →
  fetched = inr urls ↔
  sitemapOutcome env = inr urls ∨
  ((∃ message, sitemapOutcome env = inl message) ∧
   ∃ log, crawlFromHomepage hostname normalize crawlFuel (crawlerBrowser env)
            (ao_url opts) (ao_maxPages opts) = Some (inr urls, log)).
Proof.
  unfold analysisStep1. destruct (sitemapOutcome env) as [error|urls'].
  - destruct (crawlFromHomepage _ _ _ _ _ _) as [[outcome log]|]; [|done].
    cbn [mbind option_bind]. intros [= _ <- _]. split.
    + intros ->. right. split; [by exists error|by exists log].
    + by intros [?|[_ [log' [= -> _]]]].
  - intros [= _ <- _]. split.
    + intros [= ->]. by left.
    + by intros [[= ->]|[[message ?] _]].
Qed.

Lemma analysisSteps2to4_outcome (readFuel : nat) (a a1 : analysis)
    (urls : list string) (outcome : string + dataset) :
  analysisSteps2to4 pathname hostname ceilQuota readFuel env a opts urls =
    Some (a1, outcome) →
  (∃ data, outcome = inr data) ↔
  cancelledAfterCapture env = false ∧
  is_Some (hostname (ao_url opts)) ∧
  (setupError (debuggerBrowser env) = None ∨
   windowSetupError (captureWindow env) = None).
Proof.
  unfold analysisSteps2to4.
  destruct (hostname (ao_url opts)) as [host|] eqn:Hhost.
  2: { intros [= _ <-]. split; [by intros [? ?]|]. by intros (_ & [? ?] & _). }
  destruct (buildUrlTree _ _ _ _) as [[h root]|]; [|done].
  cbn [mbind option_bind].
  destruct (selectRepresentativeUrls _ _ _ _ _) as [sel|]; [|done].
  cbn [mbind option_bind].
  pose proof (captureScreenshots_resolves (debuggerBrowser env)
                (captureWindow env) sel
                (CaptureOptions (ao_loadTimeout opts) (ao_captureDelay opts))
                (workerLog (an_worker (sendProgress a 0 0 "Building URL tree...")))
                (an_windowLog (sendProgress a 0 0 "Building URL tree...")))
    as Hcap.
  destruct (captureScreenshots _ _ _ _ _ _) as [[out log] wlog].
  cbn [fst] in Hcap. destruct out as [message|screenshots].
  - intros [= _ <-]. split; [by intros [? ?]|].
    intros (_ & _ & [results ?]%Hcap). done.
  - assert (Hsetup : setupError (debuggerBrowser env) = None ∨
                     windowSetupError (captureWindow env) = None)
      by (apply Hcap; by exists screenshots).
    destruct (cancelledAfterCapture env).
    + intros [= _ <-]. split; [by intros [? ?]|by intros [? _]].
    + destruct (Store.reify readFuel h root); [|done].
      cbn [mbind option_bind].
      destruct (foldl keepScreenshot _ _). intros [= _ <-].
      split; [by intros _|by eexists].
Qed.

End AnalysisOutcome.

(** X25. A run of [startAnalysis] ends with a completion exactly when the
    store accepts the dataset, [shouldCancel] is clear after the capture,
    the base url parses, the debugger or the window can be set up, and the
    sitemap, or else the crawl, gave at least one url.  So once there is
    a url, no url that fails to parse, no page that fails to load or to
    render, and no page budget makes the run fail. *)
Theorem startAnalysis_completes (pathname hostname : string → option string)
    (ceilQuota : Z → Z → Z → Z) (normalize : string → option string)
    (crawlFuel readFuel : nat) (env : analysisEnv) (a a' : analysis)
    (opts : analysisOptions) :
  isRunning (an_worker a) = false →
  startAnalysis pathname hostname ceilQuota normalize crawlFuel readFuel env
    a opts = Some a' →
  (∃ data, last (an_sent a') = Some (PmComplete data)) ↔
  storageRejects env = false ∧
  cancelledAfterCapture env = false ∧
  is_Some (hostname (ao_url opts)) ∧
  (setupError (debuggerBrowser env) = None ∨
   windowSetupError (captureWindow env) = None) ∧
  ∃ urls, urls ≠ [] ∧
    (sitemapOutcome env = inr urls ∨
     ((∃ message, sitemapOutcome env = inl message) ∧
      ∃ log, crawlFromHomepage hostname normalize crawlFuel
               (crawlerBrowser env) (ao_url opts) (ao_maxPages opts) =
               Some (inr urls, log))).
Proof.
  intros Hidle. unfold startAnalysis. rewrite Hidle.
  destruct (analysisBody _ _ _ _ _ _ _ _ _) as [[a1 outcome]|] eqn:Hb; [|done].
  cbn [mbind option_bind].
  destruct (analysisBody_progressed _ _ _ _ _ _ _ _ _ _ _ Hb) as (R & Hs & _).
  assert (Hout : (∃ data, outcome = inr data) ↔
            cancelledAfterCapture env = false ∧
            is_Some (hostname (ao_url opts)) ∧
            (setupError (debuggerBrowser env) = None ∨
             windowSetupError (captureWindow env) = None) ∧
            ∃ urls, urls ≠ [] ∧
              (sitemapOutcome env = inr urls ∨
               ((∃ message, sitemapOutcome env = inl message) ∧
                ∃ log, crawlFromHomepage hostname normalize crawlFuel
                         (crawlerBrowser env) (ao_url opts) (ao_maxPages opts) =
                         Some (inr urls, log)))).
  { revert Hb. unfold analysisBody.
    destruct (analysisStep1 _ _ _ _ _ _) as [[[a2 fetched] used]|] eqn:H1;
      [|done].
    cbn [mbind option_bind].
    pose proof (λ urls, analysisStep1_fetched hostname normalize env opts
                          crawlFuel _ _ _ _ urls H1) as Hf.
    destruct fetched as [message|urls].
    - intros [= _ <-]. split; [by intros [? ?]|].
      intros (_ & _ & _ & urls & _ & Hu%Hf). done.
    - case_bool_decide as Hne.
      + intros [= _ <-]. split; [by intros [? ?]|].
        intros (_ & _ & _ & urls' & Hne' & Hu%Hf). congruence.
      + intros H2%analysisSteps2to4_outcome. rewrite H2. split.
        * intros (Hc & Hh & Hsetup). split_and!; try done.
          exists urls. split; [done|]. by apply Hf.
        * intros (Hc & Hh & Hsetup & _). done. }
  intros [= <-]. rewrite <- Hout. clear Hout. destruct outcome as [message|d].
  - cbn [sendError an_sent]. rewrite last_snoc.
    split; [by intros [? ?]|by intros (_ & [? ?])].
  - unfold sendComplete. destruct (storageRejects env).
    + cbn [an_sent]. rewrite Hs.
      split; [|by intros [? _]]. by intros [data [r Hr]%last_progress].
    + cbn [an_sent]. rewrite last_snoc. split; [intros _|by exists d].
      split; [done|by exists d].
Qed.

Lemma startAnalysis_completes_witness :
  ∃ a',
    startAnalysis sample_pathname sample_hostname exact_ceil sample_normalize
      0 10 sample_env sample_analysis sample_options = Some a' ∧
    ∃ data, last (an_sent a') = Some (PmComplete data).
Proof.
  eassert (Hrun : startAnalysis sample_pathname sample_hostname exact_ceil
                    sample_normalize 0 10 sample_env sample_analysis
                    sample_options = Some _)
    by (vm_compute; reflexivity).
  match type of Hrun with
  | _ = Some ?a' =>
      exists a'; split; [exact Hrun|];
      apply (startAnalysis_completes sample_pathname sample_hostname exact_ceil
               sample_normalize 0 10 sample_env sample_analysis a'
               sample_options eq_refl Hrun)
  end.
  split; [reflexivity|]. split; [reflexivity|]. split; [by eexists|].
  split; [by left|]. exists sample_site. split; [done|by left].
Defined.

(** ** Sitemap Fetcher (service worker, fetchSitemap and parseSitemap) *)

(** The web as the fetcher sees it.  [resolveUrl path base] is
    [new URL(path, base).href], or [None] when the constructor throws, and
    then [urlError] is the message; [fetchText i url] is the text of the
    response to the [i]-th [fetch] of the run when it is for [url], or
    [None] when the fetch throws, the response is not [ok] or reading the
    text throws; [sitemapLocs xml] and [urlLocs xml] are the first groups
    of the matches of [sitemapPattern] and of [urlPattern] in [xml], in
    order; [trim] is [String.prototype.trim]; [parseCancelAt i] is the
    value of [shouldCancel] at its [i]-th read by [parseSitemap]. *)
Record web := Web {
  resolveUrl : string → string → option string;
  urlError : string;
  fetchText : nat → string → option string;
  sitemapLocs : string → list string;
  urlLocs : string → list string;
  trim : string → string;
  parseCancelAt : nat → bool }.

(** The urls fetched so far, in order, and the number of reads of
    [shouldCancel]. *)
Record fetchState := FetchState {
  fs_fetched : list string;
  fs_reads : nat }.

Definition fetched (st : fetchState) (url : string) : fetchState :=
  FetchState (fs_fetched st ++ [url]) (fs_reads st).

Section SitemapFetcher.

Variable w : web.

(** The [for] loop of [parseSitemap] over the matches still to do; [rec]
    is the recursive call. *)
Definition nestedLoop
    (rec : string → fetchState → option (list string * fetchState))
    : list string → list string → fetchState →
      option (list string * fetchState) :=
  fix go (sitemapMatches : list string) (allUrls : list string)
      (st : fetchState) : option (list string * fetchState) :=
    match sitemapMatches with
    | [] => Some (allUrls, st)
    | m :: rest =>
        let cancel := parseCancelAt w (fs_reads st) in
        let st := FetchState (fs_fetched st) (S (fs_reads st)) in
        if cancel then Some (allUrls, st)
        else
          let nestedUrl := trim w m in
          match fetchText w (length (fs_fetched st)) nestedUrl with
          | Some nestedXml =>
              '(nestedUrls, st) ← rec nestedXml (fetched st nestedUrl);
              go rest (allUrls ++ nestedUrls) st
          | None => go rest allUrls (fetched st nestedUrl)
          end
    end.

(** [parseSitemap].  [None]: the fuel ran out. *)
Fixpoint parseSitemap (fuel : nat) (xml : string) (st : fetchState)
    : option (list string * fetchState) :=
  match fuel with
  | O => None
  | S fuel =>
      let sitemapMatches := sitemapLocs w xml in
      if (0 <? length sitemapMatches)%nat
      then nestedLoop (parseSitemap fuel) sitemapMatches [] st
      else Some (trim w <$> urlLocs w xml, st)
  end.

(** One location after the other: the [try] block of [fetchSitemap] for
    [/sitemap.xml] and the loop over the alternatives do the same for a
    location that resolves. *)
Fixpoint tryLocations (fuel : nat) (baseUrl : string) (paths : list string)
    (st : fetchState) : option ((string + list string) * fetchState) :=
  match paths with
  | [] => Some (inl "Could not find sitemap.xml at common locations", st)
  | path :: rest =>
      match resolveUrl w path baseUrl with
      | None => tryLocations fuel baseUrl rest st
      | Some url =>
          match fetchText w (length (fs_fetched st)) url with
          | Some xml =>
              '(urls, st) ← parseSitemap fuel xml (fetched st url);
              Some (inr urls, st)
          | None => tryLocations fuel baseUrl rest (fetched st url)
          end
      end
  end.

(** [fetchSitemap]: [inl message] when the promise rejects, else the
    urls. *)
Definition fetchSitemap (fuel : nat) (baseUrl : string) (st : fetchState)
    : option ((string + list string) * fetchState) :=
  match resolveUrl w "/sitemap.xml" baseUrl with
  | None => Some (inl (urlError w), st)
  | Some sitemapUrl =>
      match fetchText w (length (fs_fetched st)) sitemapUrl with
      | Some xml =>
          '(urls, st) ← parseSitemap fuel xml (fetched st sitemapUrl);
          Some (inr urls, st)
      | None =>
          tryLocations fuel baseUrl
            ["/sitemap_index.xml"; "/sitemap-index.xml"; "/sitemaps.xml"]
            (fetched st sitemapUrl)
      end
  end.

End SitemapFetcher.

(** The locations of [paths] that resolve against [baseUrl], in order. *)
Definition locations (w : web) (baseUrl : string) (paths : list string)
    : list string :=
  omap (λ path, resolveUrl w path baseUrl) paths.

Definition sitemapPaths : list string :=
  ["/sitemap.xml"; "/sitemap_index.xml"; "/sitemap-index.xml"; "/sitemaps.xml"].

(** The urls that entry [k] of a sitemap index contributes when the
    nested documents are plain sitemaps and [n] fetches came before. *)
Definition nestedUrlsOf (w : web) (n k : nat) (m : string) : list string :=
  match fetchText w (n + k) (trim w m) with
  | Some nestedXml => trim w <$> urlLocs w nestedXml
  | None => []
  end.

Section SitemapFacts.

Variable w : web.

Lemma nestedLoop_flat (fuel : nat) (sitemapMatches : list string) :
  (∀ i, parseCancelAt w i = false) →
  (∀ i m nested, m ∈ sitemapMatches →
     fetchText w i (trim w m) = Some nested → sitemapLocs w nested = []) →
  ∀ allUrls st,
    nestedLoop w (parseSitemap w (S fuel)) sitemapMatches allUrls st =
      Some (allUrls ++
            mjoin (imap (nestedUrlsOf w (length (fs_fetched st)))
                     sitemapMatches),
            FetchState (fs_fetched st ++ (trim w <$> sitemapMatches))
              (fs_reads st + length sitemapMatches)).
Proof.
  intros Hcancel. induction sitemapMatches as [|m rest IH];
    intros Hflat allUrls [fetchedUrls reads].
  - cbn. by rewrite !app_nil_r, Nat.add_0_r.
  - cbn [nestedLoop fs_reads fs_fetched]. rewrite Hcancel.
    cbn [imap mjoin fmap list_fmap length].
    unfold nestedUrlsOf at 1. rewrite Nat.add_0_r.
    assert (Hshift : imap (nestedUrlsOf w (length fetchedUrls) ∘ S) rest =
                     imap (nestedUrlsOf w (length (fetchedUrls ++ [trim w m])))
                       rest).
    { apply imap_ext. intros k x _. unfold nestedUrlsOf. cbn.
      rewrite length_app. cbn. by replace (length fetchedUrls + 1 + k)%nat
        with (length fetchedUrls + S k)%nat by lia. }
    rewrite Hshift.
    destruct (fetchText w (length fetchedUrls) (trim w m)) as [nested|] eqn:Hf.
    + assert (Hn : sitemapLocs w nested = []) by (eapply Hflat; [left|done]).
      cbn [parseSitemap]. rewrite Hn. cbn [length Nat.ltb Nat.leb].
      cbn [mbind option_bind]. unfold fetched. cbn [fs_fetched fs_reads].
      rewrite IH by (intros; eapply Hflat; [by right|done]).
      cbn [fs_fetched fs_reads]. f_equal. f_equal.
      * by rewrite <- app_assoc.
      * f_equal; [by rewrite <- app_assoc|lia].
    + unfold fetched. cbn [fs_fetched fs_reads].
      rewrite IH by (intros; eapply Hflat; [by right|done]).
      cbn [fs_fetched fs_reads]. f_equal. f_equal.
      f_equal; [by rewrite <- app_assoc|lia].
Qed.

(** X26. A sitemap index whose nested documents are plain sitemaps: when
    [shouldCancel] stays clear, [parseSitemap] fetches the entries of the
    index, each once and in order, and returns the urls of the documents
    it got, in that order; an entry whose fetch fails contributes nothing,
    and the [url] entries of the index itself are not read. *)
Theorem parseSitemap_index (xml : string) (st : fetchState) (fuel : nat) :
  sitemapLocs w xml ≠ [] →
  (∀ i, parseCancelAt w i = false) →
  (∀ i m nested, m ∈ sitemapLocs w xml →
     fetchText w i (trim w m) = Some nested → sitemapLocs w nested = []) →
  (2 ≤ fuel)%nat →
  parseSitemap w fuel xml st =
    Some (mjoin (imap (nestedUrlsOf w (length (fs_fetched st)))
                   (sitemapLocs w xml)),
          FetchState (fs_fetched st ++ (trim w <$> sitemapLocs w xml))
            (fs_reads st + length (sitemapLocs w xml))).
Proof.
  intros Hne Hcancel Hflat Hfuel.
  destruct fuel as [|[|fuel]]; [lia|lia|].
  change (parseSitemap w (S (S fuel)) xml st) with
    (if (0 <? length (sitemapLocs w xml))%nat
     then nestedLoop w (parseSitemap w (S fuel)) (sitemapLocs w xml) [] st
     else Some (trim w <$> urlLocs w xml, st)).
  destruct (sitemapLocs w xml) as [|m rest] eqn:Hlocs; [done|].
  cbn [length Nat.ltb Nat.leb].
  by rewrite (nestedLoop_flat fuel (m :: rest) Hcancel Hflat).
Qed.

(** X27. A sitemap index whose first entry fetches the index itself: while
    [shouldCancel] stays clear, [parseSitemap] never returns, and neither
    does [fetchSitemap] when [/sitemap.xml] is such a document. *)
Theorem parseSitemap_cycle (xml m : string) (rest : list string) :
  sitemapLocs w xml = m :: rest →
  (∀ i, parseCancelAt w i = false) →
  (∀ i, fetchText w i (trim w m) = Some xml) →
  (∀ fuel st, parseSitemap w fuel xml st = None) ∧
  (∀ fuel baseUrl st sitemapUrl,
     resolveUrl w "/sitemap.xml" baseUrl = Some sitemapUrl →
     fetchText w (length (fs_fetched st)) sitemapUrl = Some xml →
     fetchSitemap w fuel baseUrl st = None).
Proof.
  intros Hlocs Hcancel Hself.
  assert (Hloop : ∀ fuel st, parseSitemap w fuel xml st = None).
  { induction fuel as [|fuel IH]; intros st; [done|].
    cbn [parseSitemap]. rewrite Hlocs. cbn [length Nat.ltb Nat.leb nestedLoop].
    by rewrite Hcancel, Hself, IH. }
  split; [done|]. intros fuel baseUrl st sitemapUrl Hres Hf.
  unfold fetchSitemap. by rewrite Hres, Hf, Hloop.
Qed.

Lemma locations_cons (baseUrl path : string) (rest : list string) :
  locations w baseUrl (path :: rest) =
    match resolveUrl w path baseUrl with
    | Some url => url :: locations w baseUrl rest
    | None => locations w baseUrl rest
    end.
Proof. done. Qed.

Lemma tryLocations_spec (fuel : nat) (baseUrl : string) (paths : list string) :
  ∀ st out st',
    tryLocations w fuel baseUrl paths st = Some (out, st') →
    (out = inl "Could not find sitemap.xml at common locations" ∧
     st' = FetchState (fs_fetched st ++ locations w baseUrl paths)
             (fs_reads st) ∧
     ∀ k u, locations w baseUrl paths !! k = Some u →
            fetchText w (length (fs_fetched st) + k) u = None) ∨
    (∃ k u xml urls,
       locations w baseUrl paths !! k = Some u ∧
       (∀ j u', (j < k)%nat → locations w baseUrl paths !! j = Some u' →
                fetchText w (length (fs_fetched st) + j) u' = None) ∧
       fetchText w (length (fs_fetched st) + k) u = Some xml ∧
       parseSitemap w fuel xml
         (FetchState (fs_fetched st ++ take (S k) (locations w baseUrl paths))
            (fs_reads st)) = Some (urls, st') ∧
       out = inr urls).
Proof.
  induction paths as [|path rest IH]; intros [fetchedUrls reads] out st'.
  - cbn. intros [= <- <-]. left. by rewrite app_nil_r.
  - cbn [tryLocations fs_fetched fs_reads]. rewrite locations_cons.
    destruct (resolveUrl w path baseUrl) as [url|] eqn:Hres;
      [|exact (IH (FetchState fetchedUrls reads) out st')].
    destruct (fetchText w (length fetchedUrls) url) as [xml|] eqn:Hf.
    + destruct (parseSitemap w fuel xml _) as [[urls st1]|] eqn:Hp; [|done].
      cbn [mbind option_bind]. intros [= <- <-]. right.
      exists 0%nat, url, xml, urls. rewrite Nat.add_0_r.
      split; [done|]. split; [intros; lia|]. split; [done|]. by split.
    + intros Hrun.
      apply (IH (fetched (FetchState fetchedUrls reads) url)) in Hrun
        as [(-> & -> & Hall)|(k & u & xml & urls & Hk & Hbefore & Hfk & Hp & ->)].
      * left. split; [done|]. unfold fetched. cbn [fs_fetched fs_reads].
        split; [by rewrite <- app_assoc|].
        intros [|k] u Hk; cbn in Hk.
        -- injection Hk as <-. by rewrite Nat.add_0_r.
        -- specialize (Hall k u Hk). unfold fetched in Hall.
           cbn [fs_fetched] in Hall. rewrite length_app in Hall. cbn in Hall.
           by replace (length fetchedUrls + S k)%nat
             with (length fetchedUrls + 1 + k)%nat by lia.
      * right. exists (S k), u, xml, urls.
        unfold fetched in Hbefore, Hfk, Hp. cbn [fs_fetched fs_reads] in *.
        rewrite length_app in Hbefore, Hfk. cbn [length] in Hbefore, Hfk.
        split; [done|]. split.
        { intros [|j] u' Hj Hu'; cbn in Hu'.
          - injection Hu' as <-. by rewrite Nat.add_0_r.
          - replace (length fetchedUrls + S j)%nat
              with (length fetchedUrls + 1 + j)%nat by lia.
            apply Hbefore; [lia|done]. }
        split.
        { by replace (length fetchedUrls + S k)%nat
            with (length fetchedUrls + 1 + k)%nat by lia. }
        split; [|done]. rewrite <- Hp. f_equal. f_equal.
        cbn [take]. by rewrite <- app_assoc.
Qed.

(** X28. [fetchSitemap] asks the four locations in their fixed order and
    takes the first that answers: the urls are those that [parseSitemap]
    gets from that document, also when they are none, and no later
    location is asked.  It rejects only when the base url does not
    resolve or every location was asked and none answered. *)
Theorem fetchSitemap_first (fuel : nat) (baseUrl : string) (st st' : fetchState)
    (out : string + list string) :
  is_Some (resolveUrl w "/sitemap.xml" baseUrl) →
  fetchSitemap w fuel baseUrl st = Some (out, st') →
  (out = inl "Could not find sitemap.xml at common locations" ∧
   fs_fetched st' = fs_fetched st ++ locations w baseUrl sitemapPaths ∧
   ∀ k u, locations w baseUrl sitemapPaths !! k = Some u →
          fetchText w (length (fs_fetched st) + k) u = None) ∨
  (∃ k u xml urls,
     locations w baseUrl sitemapPaths !! k = Some u ∧
     (∀ j u', (j < k)%nat → locations w baseUrl sitemapPaths !! j = Some u' →
              fetchText w (length (fs_fetched st) + j) u' = None) ∧
     fetchText w (length (fs_fetched st) + k) u = Some xml ∧
     parseSitemap w fuel xml
       (FetchState
          (fs_fetched st ++ take (S k) (locations w baseUrl sitemapPaths))
          (fs_reads st)) = Some (urls, st') ∧
     out = inr urls).
Proof.
  intros [sitemapUrl Hres] Hrun.
  assert (Hsame : fetchSitemap w fuel baseUrl st =
                  tryLocations w fuel baseUrl sitemapPaths st).
  { unfold fetchSitemap, sitemapPaths. cbn [tryLocations]. by rewrite Hres. }
  rewrite Hsame in Hrun.
  apply tryLocations_spec in Hrun
    as [(-> & -> & Hall)|(k & u & xml & urls & Hk & Hbefore & Hfk & Hp & ->)].
  - left. by split.
  - right. by exists k, u, xml, urls.
Qed.

End SitemapFacts.

(** A site whose [/sitemap.xml] is an index of two sitemaps, one of them
    missing. *)
Definition sample_web : web :=
  Web (λ path base, Some (base +:+ path)) "Invalid URL"
    (λ _ url,
       if String.eqb url "https://example.com/sitemap.xml" then Some "index"
       else if String.eqb url "https://example.com/pages.xml" then Some "pages"
       else None)
    (λ xml, if String.eqb xml "index"
            then ["https://example.com/pages.xml";
                  "https://example.com/missing.xml"]
            else [])
    (λ xml, if String.eqb xml "pages"
            then ["https://example.com/"; "https://example.com/a/"]
            else [])
    (λ s, s) (λ _, false).

(** A site whose [/sitemap.xml] is an index that lists itself. *)
Definition sample_cyclic_web : web :=
  Web (λ path base, Some (base +:+ path)) "Invalid URL"
    (λ _ url,
       if String.eqb url "https://example.com/sitemap.xml" then Some "loop"
       else None)
    (λ xml, if String.eqb xml "loop"
            then ["https://example.com/sitemap.xml"] else [])
    (λ _, []) (λ s, s) (λ _, false).

Lemma parseSitemap_index_witness :
  parseSitemap sample_web 2 "index" (FetchState [] 0) =
    Some (["https://example.com/"; "https://example.com/a/"],
          FetchState ["https://example.com/pages.xml";
                      "https://example.com/missing.xml"] 2).
Proof.
  rewrite (parseSitemap_index sample_web "index" (FetchState [] 0) 2).
  - reflexivity.
  - discriminate.
  - reflexivity.
  - intros i m nested Hm. cbn in Hm.
    apply elem_of_cons in Hm as [->|Hm];
      [|apply elem_of_cons in Hm as [->|Hm]; [|by apply elem_of_nil in Hm]];
      cbn; intros [= <-]; reflexivity.
  - lia.
Defined.

Lemma parseSitemap_cycle_witness :
  parseSitemap sample_cyclic_web 100 "loop" (FetchState [] 0) = None ∧
  fetchSitemap sample_cyclic_web 100 "https://example.com" (FetchState [] 0) =
    None.
Proof.
  destruct (parseSitemap_cycle sample_cyclic_web "loop"
              "https://example.com/sitemap.xml" [] eq_refl
              (λ _, eq_refl) (λ _, eq_refl)) as [Hparse Hfetch].
  split; [apply Hparse|].
  apply (Hfetch 100%nat "https://example.com" (FetchState [] 0)
           "https://example.com/sitemap.xml"); reflexivity.
Defined.

Lemma fetchSitemap_first_witness :
  is_Some (resolveUrl sample_web "/sitemap.xml" "https://example.com") ∧
  ∃ out st',
    fetchSitemap sample_web 2 "https://example.com" (FetchState [] 0) =
      Some (out, st') ∧
    (out = inl "Could not find sitemap.xml at common locations" ∨
     ∃ k u, locations sample_web "https://example.com" sitemapPaths !! k =
              Some u ∧
            is_Some (fetchText sample_web k u)).
Proof.
  split; [by eexists|].
  eassert (Hrun : fetchSitemap sample_web 2 "https://example.com"
                    (FetchState [] 0) = Some (_, _))
    by (vm_compute; reflexivity).
  match type of Hrun with
  | _ = Some (?out, ?st') =>
      exists out, st'; split; [exact Hrun|];
      destruct (fetchSitemap_first sample_web 2 "https://example.com"
                  (FetchState [] 0) st' out (ex_intro _ _ eq_refl) Hrun)
        as [(He & _)|(k & u & xml & urls & Hk & _ & Hfk & _)]
  end.
  - left. exact He.
  - right. exists k, u. split; [exact Hk|]. exists xml. exact Hfk.
Defined.

(** ** The message listener of the service worker *)

(** The stored tree and the stored screenshot map agree: a node with a url
    carries the image stored under the url, if any, and no other image;
    a node without a url carries none. *)
Definition agrees (d : dataset) : Prop :=
  ∀ n, n ∈ subnodes (tree d) →
    match url n with
    | Some u =>
        u ≠ "" →
        (∀ v, screenshotMap d !! u = Some v → screenshot n = v) ∧
        (truthy (screenshot n) = true →
         screenshotMap d !! u = Some (screenshot n))
    | None => screenshot n = None
    end.

Definition consistent (d : dataset) : Prop :=
  storage_inv d ∧
  capturedUrls d = Z.of_nat (length (capturedUrlSet d)) ∧
  wellPathed (tree d) ∧
  agrees d.

(** The messages of the popup. *)
Inductive popupRequest :=
  | ReqStart (options : analysisOptions)
  | ReqCancel
  | ReqGetStatus.

Section Listener.

Variable pathname : string → option string.
Variable hostname : string → option string.
Variable ceilQuota : Z → Z → Z → Z.
Variable normalize : string → option string.

(** The [chrome.runtime.onMessage] listener, with the work that a message
    starts run to its end; [env] and [b] are what that work meets.  The
    second component is the response, if any. *)
Definition onMessage (crawlFuel readFuel : nat) (env : analysisEnv)
    (b : browser) (a : analysis) (m : popupRequest + message)
    (senderTab : option nat) : option (analysis * option runningState) :=
  let w := an_worker a in
  match m with
  | inl (ReqStart options) =>
      a ← startAnalysis pathname hostname ceilQuota normalize crawlFuel
             readFuel env a options;
      Some (a, None)
  | inl ReqCancel =>
      let rs := an_runningState a in
      Some (Analysis
              (Worker (isRunning w) true (reportData w) (workerSent w)
                 (workerLog w))
              (RunningState false (rs_current rs) (rs_total rs) (rs_url rs)
                 (rs_targetUrl rs))
              (an_sent a) (an_reportTabs a) (an_crawlLog a) (an_windowLog a),
            None)
  | inl ReqGetStatus => Some (a, Some (an_runningState a))
  | inr m =>
      Some (Analysis (workerReceive b w senderTab m) (an_runningState a)
              (an_sent a) (an_reportTabs a) (an_crawlLog a) (an_windowLog a),
            None)
  end.

(** The service worker before and after a sequence of messages; the site
    and the browser may behave differently at every message. *)
Inductive workerRun : analysis → analysis → Prop :=
  | workerRun_refl (a : analysis) : workerRun a a
  | workerRun_step (a a1 a2 : analysis) (crawlFuel readFuel : nat)
      (env : analysisEnv) (b : browser) (m : popupRequest + message)
      (senderTab : option nat) (response : option runningState) :
      workerRun a a1 →
      onMessage crawlFuel readFuel env b a1 m senderTab = Some (a2, response) →
      workerRun a a2.

Lemma startAnalysis_stored (crawlFuel readFuel : nat) (env : analysisEnv)
    (a a' : analysis) (opts : analysisOptions) :
  isRunning (an_worker a) = false →
  startAnalysis pathname hostname ceilQuota normalize crawlFuel readFuel env
    a opts = Some a' →
  isRunning (an_worker a') = false ∧
  (reportData (an_worker a') = reportData (an_worker a) ∨
   ∃ data, reportData (an_worker a') = Some data ∧ consistent data).
Proof.
  intros Hidle. unfold startAnalysis. rewrite Hidle.
  destruct (analysisBody _ _ _ _ _ _ _ _ _) as [[a1 outcome]|] eqn:Hb; [|done].
  cbn [mbind option_bind].
  destruct (analysisBody_progressed _ _ _ _ _ _ _ _ _ _ _ Hb)
    as (R & _ & _ & _ & _ & Hd).
  cbn [an_worker reportData] in Hd.
  destruct outcome as [message|d].
  - intros [= <-]. cbn [sendError an_worker isRunning reportData]. by split; [|left].
  - unfold sendComplete. destruct (storageRejects env).
    + intros [= <-]. cbn [an_worker isRunning reportData]. by split; [|left].
    + intros [= <-]. cbn [an_worker isRunning reportData]. split; [done|].
      right. exists d. split; [done|].
      revert Hb. unfold analysisBody.
      destruct (analysisStep1 _ _ _ _ _ _) as [[[a2 fetched'] used]|]; [|done].
      cbn [mbind option_bind]. destruct fetched' as [message|urls]; [done|].
      case_bool_decide; [done|].
      intros (Hinv & Hcount & _ & _ & _ & Hwp & Hagree)%analysisSteps2to4_data.
      by split_and!.
Qed.

Lemma updateStorage_consistent (d : dataset) (screenshots : list captureResult) :
  consistent d → consistent (updateStorage d screenshots).
Proof.
  intros (Hinv & _ & Hwp & Hagree). unfold updateStorage.
  set (d1 := foldl storeScreenshot d screenshots).
  assert (Htree : tree d1 = tree d).
  { subst d1. clear. revert d.
    induction screenshots as [|s l IH]; intros d; [done|].
    cbn [foldl]. rewrite IH. unfold storeScreenshot. by destruct (truthy _). }
  destruct (storeScreenshots_inv screenshots d Hinv) as (Hinv1 & Hpre & _).
  fold d1 in Hinv1, Hpre. unfold consistent.
  cbn [tree capturedUrls capturedUrlSet screenshotMap]. split_and!.
  - destruct Hinv1 as (Hnd & Hsync & Ht). by split_and!.
  - done.
  - rewrite Htree. by apply wellPathed_attachScreenshotsToTree.
  - unfold agrees. cbn [tree screenshotMap]. rewrite Htree.
    rewrite subnodes_attachScreenshotsToTree.
    intros n (n0 & -> & Hn0)%list_elem_of_fmap.
    specialize (Hagree n0 Hn0).
    destruct n0 as [nm u p cs sc e hc pp bs].
    cbn [attachScreenshotsToTree url screenshot] in *.
    destruct u as [u|]; [|done]. intros Hu.
    destruct (Hagree Hu) as [_ Hold].
    assert (Htu : truthy (Some u) = true).
    { cbn. by apply negb_true_iff, String.eqb_neq. }
    rewrite Htu.
    destruct (screenshotMap d1 !! u) as [v|] eqn:Hv.
    + split; [by intros ? [= ->]|done].
    + split; [done|]. intros Hsc. specialize (Hold Hsc).
      destruct Hinv as (_ & Hsync & _). destruct Hinv1 as (_ & Hsync1 & _).
      assert (Hin : u ∈ capturedUrlSet d1).
      { destruct Hpre as [k ->]. apply elem_of_app. left.
        apply Hsync. by eexists. }
      apply Hsync1 in Hin as [? ?]. congruence.
Qed.

(** X29. The stored report stays consistent.  Starting with the service
    worker idle and the stored report, if any, consistent, after any
    sequence of messages ([start], [cancel], [getStatus], [captureMore]),
    each with the work it starts run to its end: the worker is idle, and
    the stored report, if any, lists its captured urls once each, which
    are the keys of its screenshot map, counts them in [capturedUrls], has
    a tree with pairwise distinct paths and no ellipsis node, and the
    screenshots on the tree are those of the map. *)
Theorem worker_storage_consistent (a a' : analysis) :
  isRunning (an_worker a) = false →
  (∀ d, reportData (an_worker a) = Some d → consistent d) →
  workerRun a a' →
  isRunning (an_worker a') = false ∧
  ∀ d, reportData (an_worker a') = Some d → consistent d.
Proof.
  intros Hidle Hok Hrun.
  induction Hrun as [a|a a1 a2 crawlFuel readFuel env b m tab response _ IH Hm];
    [done|].
  destruct (IH Hidle Hok) as [Hidle1 Hok1]. clear IH.
  unfold onMessage in Hm. destruct m as [[opts| |]|m].
  - destruct (startAnalysis _ _ _ _ _ _ _ _ _) as [a3|] eqn:Hs; [|done].
    cbn [mbind option_bind] in Hm. injection Hm as <- _.
    destruct (startAnalysis_stored _ _ _ _ _ _ Hidle1 Hs)
      as [Hidle3 [Hsame|(data & Hdata & Hcons)]].
    + split; [done|]. intros d Hd. apply Hok1. by rewrite <- Hsame.
    + split; [done|]. intros d Hd. congruence.
  - injection Hm as <- _. done.
  - injection Hm as <- _. done.
  - injection Hm as <- _. cbn [an_worker]. destruct m as [urls pp copts| | |];
      try done.
    cbn [workerReceive].
    destruct (captureMoreScreenshots_idle b (an_worker a1) urls pp copts tab
                Hidle1) as (progress0 & final & _ & _ & Hidle3 & _).
    split; [done|].
    pose proof (captureMoreScreenshots_idle_data b (an_worker a1) urls pp
                  copts tab Hidle1) as Hdata.
    cbv zeta in Hdata. destruct Hdata as (progress & _ & Hdata).
    destruct (captureFailure b (reportData (an_worker a1))).
    + destruct Hdata as [_ Hsame]. intros d Hd. apply Hok1. by rewrite <- Hsame.
    + destruct Hdata as (results & _ & Hupd). rewrite Hupd. intros d Hd.
      destruct (reportData (an_worker a1)) as [d0|]; [|done].
      injection Hd as <-. by apply updateStorage_consistent, Hok1.
Qed.

End Listener.

(** The service worker when it starts, with nothing stored. *)
Definition initial_analysis : analysis :=
  Analysis (Worker false false None [] []) (RunningState false 0 0 "" "")
    [] 0 [] [].

Lemma worker_storage_consistent_witness :
  ∃ a' d,
    workerRun sample_pathname sample_hostname exact_ceil sample_normalize
      initial_analysis a' ∧
    reportData (an_worker a') = Some d ∧
    consistent d.
Proof.
  eassert (H1 : onMessage sample_pathname sample_hostname exact_ceil
                  sample_normalize 0 10 sample_env sample_browser
                  initial_analysis (inl (ReqStart sample_options)) None =
                Some (_, _))
    by (vm_compute; reflexivity).
  match type of H1 with
  | _ = Some (?a1, _) =>
      eassert (H2 : onMessage sample_pathname sample_hostname exact_ceil
                      sample_normalize 0 10 sample_env sample_browser a1
                      (inr (MsgCaptureMore ["https://example.com/a/y/"]
                              (Some "/a/") defaultOptions)) (Some 7%nat) =
                    Some (_, _))
        by (vm_compute; reflexivity)
  end.
  match type of H2 with
  | _ = Some (?a2, _) =>
      eassert (Hd : reportData (an_worker a2) = Some _)
        by (vm_compute; reflexivity);
      match type of Hd with
      | _ = Some ?d =>
          exists a2, d;
          assert (Hrun : workerRun sample_pathname sample_hostname exact_ceil
                           sample_normalize initial_analysis a2)
            by (eapply workerRun_step; [|exact H2];
                eapply workerRun_step; [|exact H1]; apply workerRun_refl);
          split; [exact Hrun|]; split; [exact Hd|];
          apply (proj2 (worker_storage_consistent sample_pathname
                          sample_hostname exact_ceil sample_normalize
                          initial_analysis a2 eq_refl
                          (λ d0 (H : None = Some d0),
                             match H with end) Hrun) d Hd)
      end
  end.
Defined.

(** ** A click on an ellipsis element on its way out *)

(** [handleExpandClick] for a d3 node given by its datum.  For a node of
    the current tree this is [handleExpandClick] at the node's position.
    The datum may also be that of an ellipsis node which is no longer in
    the tree: when [updateTree] finds no datum with the key of an element,
    the element leaves the page only at the end of a transition of 500 ms,
    and until then it keeps its datum and its click handler. *)
Definition handleExpandClickOn (p : page) (ellipsisData : node) : page :=
  if isExpanding p then p
  else
    let hidden := hiddenChildren ellipsisData in
    match hidden with
    | [] => p
    | _ =>
        let batchSize := batchSizeOf ellipsisData in
        let nodesToExpand := js_slice hidden 0 batchSize in
        let remainingNodes := js_slice_from hidden batchSize in
        let urlsToCapture := collectUrlsForCapture nodesToExpand 10 in
        let capturedSet := capturedUrlSet (currentReportData p) in
        let newUrls := filter (λ u, u ∉ capturedSet) urlsToCapture in
        match newUrls with
        | [] =>
            Page (currentReportData p)
              (performExpand (currentTreeData p) ellipsisData
                 nodesToExpand remainingNodes ∅)
              false (pendingExpand p) (pageSent p) (expandLoading p)
              (modal p) (alerts p)
        | _ =>
            Page (currentReportData p) (currentTreeData p) true
              (Some (PendingExpand ellipsisData nodesToExpand
                       remainingNodes (parentPath ellipsisData)))
              (pageSent p ++
                 [MsgCaptureMore newUrls (parentPath ellipsisData)
                    (optionsOf (currentReportData p))])
              true (modal p) (alerts p)
        end
    end.

(** The datum of an ellipsis node after [performExpand] ran for it with
    the screenshots [m]: they are attached to the nodes of the batch
    themselves, which the ellipsis node still holds. *)
Definition staleData (e : node) (m : smap) : node :=
  Node (name e) (url e) (path e) (children e) (screenshot e) (isEllipsis e)
    (attachScreenshotsToNodes
       (js_slice (hiddenChildren e) 0 (batchSizeOf e)) m ++
     js_slice_from (hiddenChildren e) (batchSizeOf e))
    (parentPath e) (expandBatchSize e).

Lemma handleExpandClick_on (p : page) (ellipsisD3Node : list nat) :
  handleExpandClick p ellipsisD3Node =
    match nodeAt (currentTreeData p) ellipsisD3Node with
    | Some ellipsisData => handleExpandClickOn p ellipsisData
    | None => p
    end.
Proof.
  unfold handleExpandClick, handleExpandClickOn.
  destruct (isExpanding p); by destruct (nodeAt _ _).
Qed.

Lemma findNodeByPath_updateNodeByPath (f : node → node) (tp : string) :
  (∀ x, path (f x) = path x) →
  ∀ d, findNodeByPath (updateNodeByPath f tp d) tp = f <$> findNodeByPath d tp.
Proof.
  intros Hf. induction d as [nm u p cs sc e hc pp bs IH _] using node_ind.
  rewrite updateNodeByPath_eq, (findNodeByPath_eq (Node nm u p cs sc e hc pp bs)).
  cbn [path children]. case_decide as Hp.
  - rewrite findNodeByPath_eq, Hf. cbn [path]. by rewrite decide_True.
  - rewrite findNodeByPath_eq. cbn [path children set_children].
    rewrite decide_False by done.
    induction IH as [|c l Hc _ IHl]; [done|].
    rewrite updateInChildren_cons, (findInChildren_cons c l).
    destruct (findNodeByPath c tp) as [found|] eqn:Hfound.
    + rewrite findInChildren_cons, Hc. done.
    + by rewrite findInChildren_cons, Hfound.
Qed.

Lemma findNodeByPath_subnodes (d : node) (tp : string) (x : node) :
  findNodeByPath d tp = Some x → x ∈ subnodes d.
Proof.
  rewrite findNodeByPath_find. intros [Hx _]%find_some.
  by apply list_elem_of_In.
Qed.

Lemma children_paths_sublist (cs : list node) :
  (path <$> cs) `sublist_of` (cs ≫= λ c, path <$> subnodes c).
Proof.
  induction cs as [|c cs IH]; [done|]. cbn [fmap list_fmap mbind list_bind].
  rewrite subnodes_paths. cbn [app]. apply sublist_skip.
  by apply sublist_inserts_l.
Qed.

Lemma NoDup_children_paths (t : node) :
  ∀ n, NoDup (path <$> subnodes t) → n ∈ subnodes t →
       NoDup (path <$> children n).
Proof.
  induction t as [nm u p cs sc e hc pp bs IH _] using node_ind.
  intros n Hnd Hn. rewrite subnodes_paths in Hnd. cbn [children path] in Hnd.
  apply NoDup_cons in Hnd as [_ Hnd].
  cbn [subnodes children] in Hn. apply elem_of_cons in Hn as [->|Hn].
  - cbn [children]. eapply sublist_NoDup; [exact Hnd|].
    apply children_paths_sublist.
  - apply list_elem_of_bind in Hn as (c & Hn & Hc).
    rewrite Forall_forall in IH. apply (IH c Hc n); [|done].
    by apply (NoDup_bind_elem (λ c, path <$> subnodes c) cs c).
Qed.

(** X30. [handleExpandClick] for an ellipsis node that is no longer in the
    tree (its owner is there, without an ellipsis child) runs
    [performExpand] all the same, at once or when the screenshots come:
    nothing is removed, and the batch is appended to the children of the
    owner, with a new ellipsis node if the datum hides more.  So after the
    expansion that took the ellipsis node out of the tree, a second click
    on its element, which the page shows for another 500 ms, appends its
    batch again: two children of the owner have the same path. *)
Theorem handleExpandClick_stale (p : page) (e parent : node) (pp : string) :
  isExpanding p = false →
  isEllipsis e = true → hiddenChildren e ≠ [] → parentPath e = Some pp →
  findNodeByPath (currentTreeData p) pp = Some parent →
  findIndex isEllipsis (children parent) = None →
  let nodesToExpand := js_slice (hiddenChildren e) 0 (batchSizeOf e) in
  let remainingNodes := js_slice_from (hiddenChildren e) (batchSizeOf e) in
  let expanded := λ m,
    performExpand (currentTreeData p) e nodesToExpand remainingNodes m in
  let p1 := handleExpandClickOn p e in
  ((pageSent p1 = pageSent p ∧ isExpanding p1 = false ∧
    currentTreeData p1 = expanded ∅) ∨
   (∃ urls opts,
      pageSent p1 = pageSent p ++ [MsgCaptureMore urls (Some pp) opts] ∧
      ∀ screenshots,
        currentTreeData
          (pageReceive p1 (MsgCaptureMoreComplete screenshots (Some pp))) =
          expanded (screenshotMapOf screenshots))) ∧
  ∀ m,
    (∃ parent',
       findNodeByPath (expanded m) pp = Some parent' ∧
       children parent' =
         children parent ++
         (collapseTree 5 <$> attachScreenshotsToNodes nodesToExpand m) ++
         match remainingNodes with
         | [] => []
         | _ => [mkEllipsis pp remainingNodes]
         end) ∧
    ((∃ h c, h ∈ nodesToExpand ∧ c ∈ children parent ∧ path c = path h) →
     ¬ NoDup (path <$> subnodes (expanded m))).
Proof.
  intros Hidle Hell Hhidden Hpp Hfind Hidx. cbv zeta.
  assert (Hexp : ∀ m,
            performExpand (currentTreeData p) e
              (js_slice (hiddenChildren e) 0 (batchSizeOf e))
              (js_slice_from (hiddenChildren e) (batchSizeOf e)) m =
            updateNodeByPath
              (expandParent pp (js_slice (hiddenChildren e) 0 (batchSizeOf e))
                 (js_slice_from (hiddenChildren e) (batchSizeOf e)) m)
              pp (currentTreeData p)).
  { intros m. unfold performExpand. by rewrite Hpp, Hfind. }
  assert (Hparent : ∀ m, ∃ parent',
            findNodeByPath
              (performExpand (currentTreeData p) e
                 (js_slice (hiddenChildren e) 0 (batchSizeOf e))
                 (js_slice_from (hiddenChildren e) (batchSizeOf e)) m) pp =
              Some parent' ∧
            children parent' =
              children parent ++
              (collapseTree 5 <$>
                 attachScreenshotsToNodes
                   (js_slice (hiddenChildren e) 0 (batchSizeOf e)) m) ++
              match js_slice_from (hiddenChildren e) (batchSizeOf e) with
              | [] => []
              | _ => [mkEllipsis pp
                        (js_slice_from (hiddenChildren e) (batchSizeOf e))]
              end).
  { intros m. rewrite Hexp.
    rewrite findNodeByPath_updateNodeByPath by (by intros []).
    rewrite Hfind. cbn [fmap option_fmap option_map]. eexists. split; [done|].
    unfold expandParent. rewrite Hidx. unfold json_copy.
    destruct (js_slice_from _ _); cbn [children set_children];
      by rewrite ?app_nil_r, <- ?app_assoc. }
  split.
  - unfold handleExpandClickOn. rewrite Hidle.
    destruct (hiddenChildren e) as [|h hs] eqn:Hh; [done|].
    destruct (filter _ (collectUrlsForCapture _ 10)) as [|u us].
    + left. by split_and!.
    + right. eexists _, _. rewrite Hpp. split; [done|].
      intros screenshots. cbn [pageReceive]. unfold handleExpandComplete.
      cbn [pendingExpand currentTreeData]. by rewrite decide_True.
  - intros m. split; [apply Hparent|].
    intros (h & c & Hh & Hc & Hpath) Hnd.
    destruct (Hparent m) as (parent' & Hfind' & Hchildren).
    apply findNodeByPath_subnodes in Hfind'.
    pose proof (NoDup_children_paths _ _ Hnd Hfind') as Hnd'.
    rewrite Hchildren, !fmap_app in Hnd'.
    apply NoDup_app in Hnd' as (_ & Hdisj & _).
    apply (Hdisj (path c)); [by apply list_elem_of_fmap_2|].
    apply elem_of_app. left. rewrite Hpath.
    apply list_elem_of_fmap. exists (collapseTree 5 (attachScreenshotsToNode m h)).
    split; [|apply list_elem_of_fmap_2; by apply list_elem_of_fmap_2].
    destruct (collapseTree_fields 5 (attachScreenshotsToNode m h))
      as (_ & _ & -> & _). by destruct h.
Qed.

(** The page after a click on the ellipsis node of the collapsed
    [sample_six], which takes the ellipsis node out of the tree, and the
    datum that the element of this ellipsis node then holds. *)
Definition sample_page_expanded : page :=
  (clickSession sample_browser (Some 7%nat) sample_page_idle
     sample_worker_idle [4%nat]).1.

Definition sample_stale_ellipsis : node :=
  staleData sample_ellipsis
    (<["https://example.com/e" := Some "data:image/png;base64,iVBORw0KGgo="]>
       (<["https://example.com/f" := Some "data:image/png;base64,iVBORw0KGgo="]>
          ∅)).

Lemma handleExpandClick_stale_witness :
  nodeAt (currentTreeData sample_page_idle) [4%nat] = Some sample_ellipsis ∧
  isExpanding sample_page_expanded = false ∧
  plainb (currentTreeData sample_page_expanded) = true ∧
  path <$> children (currentTreeData sample_page_expanded) =
    ["/a/"; "/b/"; "/c/"; "/d/"; "/e/"; "/f/"] ∧
  path <$> children
    (currentTreeData
       (handleExpandClickOn sample_page_expanded sample_stale_ellipsis)) =
    ["/a/"; "/b/"; "/c/"; "/d/"; "/e/"; "/f/"; "/e/"; "/f/"] ∧
  ¬ NoDup (path <$> subnodes
             (currentTreeData
                (handleExpandClickOn sample_page_expanded
                   sample_stale_ellipsis))).
Proof.
  assert (Hidle : isExpanding sample_page_expanded = false)
    by (vm_compute; reflexivity).
  assert (Hfind : findNodeByPath (currentTreeData sample_page_expanded) "/" =
                  Some (currentTreeData sample_page_expanded))
    by (vm_compute; reflexivity).
  assert (Hidx : findIndex isEllipsis
                   (children (currentTreeData sample_page_expanded)) = None)
    by (vm_compute; reflexivity).
  split; [vm_compute; reflexivity|].
  split; [exact Hidle|]. split; [vm_compute; reflexivity|].
  split; [vm_compute; reflexivity|]. split; [vm_compute; reflexivity|].
  destruct (handleExpandClick_stale sample_page_expanded
              sample_stale_ellipsis (currentTreeData sample_page_expanded)
              "/" Hidle eq_refl ltac:(discriminate) eq_refl Hfind Hidx)
    as [_ Hafter].
  assert (Htree : currentTreeData
                    (handleExpandClickOn sample_page_expanded
                       sample_stale_ellipsis) =
                  performExpand (currentTreeData sample_page_expanded)
                    sample_stale_ellipsis
                    (js_slice (hiddenChildren sample_stale_ellipsis) 0
                       (batchSizeOf sample_stale_ellipsis))
                    (js_slice_from (hiddenChildren sample_stale_ellipsis)
                       (batchSizeOf sample_stale_ellipsis)) ∅)
    by (vm_compute; reflexivity).
  rewrite Htree. apply (proj2 (Hafter ∅)).
  eexists _, _. split; [|split].
  - vm_compute. left.
  - vm_compute. do 4 right. left.
  - reflexivity.
Defined.
